(** * nv_isa_solver: the encoding inference engine of instruction_solver.py

    A shallow embedding of [src/nv_isa_solver/instruction_solver.py] and the
    properties its specification states about it.  Python integers are [Z]
    (or [nat] where the code only ever counts), [bytearray]s are lists of
    byte values, [set]s and [dict]s that are only looked up are stdpp's
    [gset] and [gmap], dicts and [Counter]s that the code iterates are
    association lists in insertion order, and a raised exception is the
    [Raise] branch of the [exc] monad. *)

From Stdlib Require Import ZArith String Ascii List Lia Bool.
From stdpp Require Import gmap strings list sorting.

Local Open Scope Z_scope.

(** ** Exceptions *)

Inductive exn : Type :=
  | IndexError        (* list / bytearray index out of range *)
  | KeyError          (* dict lookup of a missing key *)
  | TypeError         (* an operation applied to None or to a wrong value *)
  | ParseError        (* InstructionParser.parseInstruction raised *)
  | BoundsViolation   (* a bit primitive touched a bit outside the buffer *)
  | Diverged.         (* a while loop exhausted the fuel of the model *)

Inductive exc (A : Type) : Type :=
  | Ret (a : A)
  | Raise (e : exn).
Arguments Ret {A} a.
Arguments Raise {A} e.

Definition bind {A B} (m : exc A) (f : A -> exc B) : exc B :=
  match m with
  | Ret a => f a
  | Raise e => Raise e
  end.

Notation "x <- m ;; k" := (bind m (fun x => k))
  (at level 100, m at next level, right associativity).

Definition is_Ret {A} (m : exc A) : Prop := exists a, m = Ret a.

(** [d[k]] on a dict, [l[i]] on a list with a natural index. *)
Definition dict_get {A} (o : option A) : exc A :=
  match o with
  | Some a => Ret a
  | None => Raise KeyError
  end.

Definition list_get {A} (l : list A) (i : nat) : exc A :=
  match l !! i with
  | Some a => Ret a
  | None => Raise IndexError
  end.

(** [for x in xs: st = body(st, x)] where the body may raise. *)
Fixpoint foldM {S A} (body : S -> A -> exc S) (xs : list A) (st : S) : exc S :=
  match xs with
  | [] => Ret st
  | x :: xs' => st' <- body st x;; foldM body xs' st'
  end.

(** Python truthiness of an optional integer: [None] and [0] are falsy. *)
Definition truthyZ (o : option Z) : bool :=
  match o with
  | Some z => negb (z =? 0)
  | None => false
  end.

Definition truthy_nat (o : option nat) : bool :=
  match o with
  | Some (S _) => true
  | _ => false
  end.

(** ** EncodingRangeType *)

Inductive EncodingRangeType : Type :=
  | CONSTANT
  | OPERAND
  | OPERAND_FLAG
  | OPERAND_MODIFIER
  | FLAG
  | MODIFIER
  | PREDICATE
  | STALL_CYCLES
  | YIELD_FLAG
  | READ_BARRIER
  | WRITE_BARRIER
  | BARRIER_MASK
  | REUSE_MASK.

#[global] Instance EncodingRangeType_eq_dec : EqDecision EncodingRangeType.
Proof. solve_decision. Defined.

(** The enum derives from [str]: each member is its string value. *)
Definition EncodingRangeType_value (t : EncodingRangeType) : string :=
  match t with
  | CONSTANT => "constant"
  | OPERAND => "operand"
  | OPERAND_FLAG => "operand_flag"
  | OPERAND_MODIFIER => "operand_modifier"
  | FLAG => "flag"
  | MODIFIER => "modifier"
  | PREDICATE => "predicate"
  | STALL_CYCLES => "stall"
  | YIELD_FLAG => "y"
  | READ_BARRIER => "r-bar"
  | WRITE_BARRIER => "w-bar"
  | BARRIER_MASK => "b-mask"
  | REUSE_MASK => "reuse"
  end.

Definition all_range_types : list EncodingRangeType :=
  [CONSTANT; OPERAND; OPERAND_FLAG; OPERAND_MODIFIER; FLAG; MODIFIER; PREDICATE;
   STALL_CYCLES; YIELD_FLAG; READ_BARRIER; WRITE_BARRIER; BARRIER_MASK; REUSE_MASK].

(** A plain string compares equal to the member that has it as value. *)
Definition EncodingRangeType_of_value (s : string) : option EncodingRangeType :=
  List.find (fun t => String.eqb (EncodingRangeType_value t) s) all_range_types.

(** ** EncodingRange *)

Module ER.
Record t : Type := mk {
  type : EncodingRangeType;
  start : nat;
  length : nat;
  operand_index : option nat;
  group_id : option nat;
  name : option string;
  constant : option Z;
  inverse : bool;
  shift : option nat;
  offset : option Z
}.

(** [EncodingRange(type, start, length)] with the defaults of [__init__]. *)
Definition init (ty : EncodingRangeType) (s l : nat) : t :=
  mk ty s l None None None None false None None.

Definition set_length (l : nat) (r : t) : t :=
  mk (type r) (start r) l (operand_index r) (group_id r) (name r) (constant r)
     (inverse r) (shift r) (offset r).
Definition set_operand_index (o : option nat) (r : t) : t :=
  mk (type r) (start r) (length r) o (group_id r) (name r) (constant r)
     (inverse r) (shift r) (offset r).
Definition set_group_id (g : option nat) (r : t) : t :=
  mk (type r) (start r) (length r) (operand_index r) g (name r) (constant r)
     (inverse r) (shift r) (offset r).
Definition set_name (n : option string) (r : t) : t :=
  mk (type r) (start r) (length r) (operand_index r) (group_id r) n (constant r)
     (inverse r) (shift r) (offset r).
Definition set_constant (c : option Z) (r : t) : t :=
  mk (type r) (start r) (length r) (operand_index r) (group_id r) (name r) c
     (inverse r) (shift r) (offset r).
Definition set_inverse (b : bool) (r : t) : t :=
  mk (type r) (start r) (length r) (operand_index r) (group_id r) (name r)
     (constant r) b (shift r) (offset r).
Definition set_shift (s : option nat) (r : t) : t :=
  mk (type r) (start r) (length r) (operand_index r) (group_id r) (name r)
     (constant r) (inverse r) s (offset r).
Definition set_offset (o : option Z) (r : t) : t :=
  mk (type r) (start r) (length r) (operand_index r) (group_id r) (name r)
     (constant r) (inverse r) (shift r) o.
End ER.

Abbreviation EncodingRange := ER.t.

(** *** JSON form of a range

    [to_json_obj] is [self.__dict__]; [json.dumps] writes the members of a
    [str] enum as their string value, [None] as [null].  [from_json_obj] is
    the constructor applied to the keyword arguments of [obj]: every key has to be a parameter of [__init__], and [type],
    [start] and [length] have no default. *)

Inductive json : Type :=
  | JNull
  | JBool (b : bool)
  | JInt (z : Z)
  | JStr (s : string).

Definition json_of_opt {A} (f : A -> json) (o : option A) : json :=
  match o with
  | Some a => f a
  | None => JNull
  end.

Definition JNat (n : nat) : json := JInt (Z.of_nat n).

Definition to_json_obj (r : EncodingRange) : list (string * json) :=
  [ ("type"%string, JStr (EncodingRangeType_value (ER.type r)));
    ("start"%string, JNat (ER.start r));
    ("length"%string, JNat (ER.length r));
    ("operand_index"%string, json_of_opt JNat (ER.operand_index r));
    ("group_id"%string, json_of_opt JNat (ER.group_id r));
    ("name"%string, json_of_opt JStr (ER.name r));
    ("constant"%string, json_of_opt JInt (ER.constant r));
    ("inverse"%string, JBool (ER.inverse r));
    ("shift"%string, json_of_opt JNat (ER.shift r));
    ("offset"%string, json_of_opt JInt (ER.offset r)) ].

Definition init_params : list string :=
  ["type"; "start"; "length"; "operand_index"; "name"; "constant"; "group_id";
   "inverse"; "shift"; "offset"]%string.

Fixpoint kw_lookup (k : string) (obj : list (string * json)) : option json :=
  match obj with
  | [] => None
  | (k', v) :: obj' => if String.eqb k' k then Some v else kw_lookup k obj'
  end.

Definition kw_required (k : string) (obj : list (string * json)) : exc json :=
  match kw_lookup k obj with
  | Some v => Ret v
  | None => Raise TypeError
  end.

Definition kw_default (k : string) (d : json) (obj : list (string * json)) : json :=
  match kw_lookup k obj with
  | Some v => v
  | None => d
  end.

Definition as_type (j : json) : exc EncodingRangeType :=
  match j with
  | JStr s => match EncodingRangeType_of_value s with
              | Some t => Ret t
              | None => Raise TypeError
              end
  | _ => Raise TypeError
  end.

Definition as_nat (j : json) : exc nat :=
  match j with
  | JInt z => if 0 <=? z then Ret (Z.to_nat z) else Raise TypeError
  | _ => Raise TypeError
  end.

Definition as_opt_nat (j : json) : exc (option nat) :=
  match j with
  | JNull => Ret None
  | _ => n <- as_nat j;; Ret (Some n)
  end.

Definition as_opt_Z (j : json) : exc (option Z) :=
  match j with
  | JNull => Ret None
  | JInt z => Ret (Some z)
  | _ => Raise TypeError
  end.

Definition as_opt_str (j : json) : exc (option string) :=
  match j with
  | JNull => Ret None
  | JStr s => Ret (Some s)
  | _ => Raise TypeError
  end.

Definition as_bool (j : json) : exc bool :=
  match j with
  | JBool b => Ret b
  | _ => Raise TypeError
  end.

Definition from_json_obj (obj : list (string * json)) : exc EncodingRange :=
  if forallb (fun kv => existsb (String.eqb (fst kv)) init_params) obj then
    ty <- bind (kw_required "type" obj) as_type;;
    st <- bind (kw_required "start" obj) as_nat;;
    len <- bind (kw_required "length" obj) as_nat;;
    oi <- as_opt_nat (kw_default "operand_index" JNull obj);;
    nm <- as_opt_str (kw_default "name" JNull obj);;
    c <- as_opt_Z (kw_default "constant" JNull obj);;
    g <- as_opt_nat (kw_default "group_id" JNull obj);;
    inv <- as_bool (kw_default "inverse" (JBool false) obj);;
    sh <- as_opt_nat (kw_default "shift" JNull obj);;
    off <- as_opt_Z (kw_default "offset" JNull obj);;
    Ret (ER.mk ty st len oi g nm c inv sh off)
  else Raise TypeError.

(** ** Bit-field primitives *)

(** A [bytearray] / [bytes] value: its bytes, each in 0..255. *)
Abbreviation word := (list Z).

Definition zero_word : word := replicate 16 0.

(** [range(lo, hi)] over integers. *)
Definition Zrange (lo hi : Z) : list Z :=
  map (fun k => lo + Z.of_nat k) (seq 0 (Z.to_nat (hi - lo))).

(** [array[i]] with Python's rule for negative indices. *)
Definition py_index (len : nat) (i : Z) : option nat :=
  if (0 <=? i) && (i <? Z.of_nat len) then Some (Z.to_nat i)
  else if (- Z.of_nat len <=? i) && (i <? 0) then Some (Z.to_nat (Z.of_nat len + i))
  else None.

Definition getitem (w : word) (i : Z) : exc Z :=
  match py_index (List.length w) i with
  | Some k => list_get w k
  | None => Raise IndexError
  end.

Definition setitem (w : word) (i : Z) (v : Z) : exc word :=
  match py_index (List.length w) i with
  | Some k => Ret (<[k := v]> w)
  | None => Raise IndexError
  end.

(** [set_bit(array, i)]: [array[i // 8] ^= 1 << (i % 8)]. *)
Definition set_bit (array : word) (i : Z) : exc word :=
  let bit_offset := i mod 8 in
  b <- getitem array (i / 8);;
  setitem array (i / 8) (Z.lxor b (Z.shiftl 1 bit_offset)).

(** Modelled from the spec: [disasm_utils.get_bit_range] and
    [disasm_utils.set_bit_range] are imported by the solver and are not part
    of it.  The spec has: bit [i] lies in byte [i/8] at position [i mod 8];
    [get_range(word, lo, hi)] is the unsigned integer formed by bits
    [lo, hi); [set_range(word, lo, hi, value)] writes the low [hi - lo] bits
    of [value] into that span and leaves the others; a bounds violation in a
    bit primitive is fatal. *)
Definition read_bit (w : word) (i : Z) : exc bool :=
  if (0 <=? i) && (i / 8 <? Z.of_nat (List.length w)) then
    Ret (Z.testbit (nth (Z.to_nat (i / 8)) w 0) (i mod 8))
  else Raise BoundsViolation.

Definition write_bit (w : word) (i : Z) (b : bool) : exc word :=
  if (0 <=? i) && (i / 8 <? Z.of_nat (List.length w)) then
    let k := Z.to_nat (i / 8) in
    let byte := nth k w 0 in
    Ret (<[k := if b then Z.setbit byte (i mod 8) else Z.clearbit byte (i mod 8)]> w)
  else Raise BoundsViolation.

Definition get_bit_range (w : word) (lo hi : Z) : exc Z :=
  foldM (fun (acc : Z) (i : Z) => b <- read_bit w i;;
                      Ret (if b then Z.setbit acc (i - lo) else acc))
        (Zrange lo hi) 0.

Definition set_bit_range (w : word) (lo hi : Z) (value : Z) : exc word :=
  foldM (fun (w' : word) (i : Z) => write_bit w' i (Z.testbit value (i - lo))) (Zrange lo hi) w.

(** ** EncodingRanges *)

Record EncodingRanges : Type := mkEncodingRanges {
  ranges : list EncodingRange;
  ranges_inst : word
}.

Definition _find (ty : EncodingRangeType) (rs : list EncodingRange) : list EncodingRange :=
  List.filter (fun x => bool_decide (ER.type x = ty)) rs.

(** [operand_count]: [range.operand_index + 1] raises on [None]. *)
Definition operand_count (rs : list EncodingRange) : exc nat :=
  foldM (fun (result : nat) (range : EncodingRange) =>
           if bool_decide (ER.type range = OPERAND) then
             match ER.operand_index range with
             | Some i => Ret (Nat.max result (i + 1))
             | None => Raise TypeError
             end
           else Ret result)
        rs 0%nat.

Definition get_flags (rs : list EncodingRange) : list (option string) :=
  map ER.name (_find FLAG rs).

(** The arguments of [encode]. *)
Record encode_args : Type := mkEncodeArgs {
  sub_operands : list Z;
  modifiers : list Z;
  flags : gset string;
  operand_modifiers : gmap nat Z;
  operand_flags : gmap nat (gset string);
  predicate : Z;
  stall_cycles : Z;
  yield_flag : bool;
  read_barrier : Z;
  write_barrier : Z;
  barrier_mask : Z
}.

(** [encode(sub_operands, modifiers)] with every default. *)
Definition default_args (ops mods : list Z) : encode_args :=
  mkEncodeArgs ops mods ∅ ∅ ∅ 7 15 false 0 0 0.

Definition range_vals (a : encode_args) (ty : EncodingRangeType) : option Z :=
  match ty with
  | PREDICATE => Some (predicate a)
  | STALL_CYCLES => Some (stall_cycles a)
  | YIELD_FLAG => Some (if yield_flag a then 1 else 0)
  | READ_BARRIER => Some (read_barrier a)
  | WRITE_BARRIER => Some (write_barrier a)
  | BARRIER_MASK => Some (barrier_mask a)
  | _ => None
  end.

Definition name_in (n : option string) (s : gset string) : bool :=
  match n with
  | Some x => bool_decide (x ∈ s)
  | None => false
  end.

Definition opt_lookup {A} (k : option nat) (d : gmap nat A) : option A :=
  match k with
  | Some i => d !! i
  | None => None
  end.

(** The if/elif chain of the loop body: the value to write ([None] when no
    branch assigns one) and the next [modifier_i]. *)
Definition encode_value (a : encode_args) (modifier_i : nat) (rng : EncodingRange)
  : exc (option Z * nat) :=
  match ER.type rng with
  | CONSTANT => Ret (ER.constant rng, modifier_i)
  | OPERAND =>
      value <- match ER.operand_index rng with
              | Some i => list_get (sub_operands a) i
              | None => Raise TypeError
              end;;
      let value := if truthyZ (ER.offset rng)
                   then value - default 0 (ER.offset rng) else value in
      let value := if ER.inverse rng
                   then Z.lxor value (2 ^ Z.of_nat (ER.length rng) - 1) else value in
      let value := if truthy_nat (ER.shift rng)
                   then Z.shiftr value (Z.of_nat (default 0%nat (ER.shift rng)))
                   else value in
      Ret (Some value, modifier_i)
  | MODIFIER =>
      if (modifier_i <? List.length (modifiers a))%nat then
        value <- list_get (modifiers a) modifier_i;;
        Ret (Some value, S modifier_i)
      else Ret (None, modifier_i)
  | FLAG =>
      Ret (if name_in (ER.name rng) (flags a) then Some 1 else None, modifier_i)
  | OPERAND_MODIFIER =>
      Ret (opt_lookup (ER.operand_index rng) (operand_modifiers a), modifier_i)
  | OPERAND_FLAG =>
      Ret (match opt_lookup (ER.operand_index rng) (operand_flags a) with
           | Some fs => Some (if name_in (ER.name rng) fs then 1 else 0)
           | None => None
           end, modifier_i)
  | ty => Ret (range_vals a ty, modifier_i)
  end.

(** The loop state of [encode]: [result], [modifier_i] and [written]. *)
Record encode_state : Type := mkEncodeState {
  enc_result : word;
  enc_modifier_i : nat;
  enc_written : gmap nat nat
}.

(** [written[rng.operand_index]] on the [defaultdict(int)]. *)
Definition written_get (written : gmap nat nat) (k : option nat) : nat :=
  default 0%nat (opt_lookup k written).

Definition encode_body (a : encode_args) (st : encode_state) (rng : EncodingRange)
  : exc encode_state :=
  vm <- encode_value a (enc_modifier_i st) rng;;
  let '(value, modifier_i) := vm in
  if truthyZ value then
    let value := Z.shiftr (default 0 value)
                          (Z.of_nat (written_get (enc_written st) (ER.operand_index rng))) in
    result <- set_bit_range (enc_result st) (Z.of_nat (ER.start rng))
                           (Z.of_nat (ER.start rng + ER.length rng)) value;;
    let written :=
      match ER.operand_index rng with
      | Some (S i) => <[S i := ER.length rng]> (enc_written st)
      | _ => enc_written st
      end in
    Ret (mkEncodeState result modifier_i written)
  else Ret (mkEncodeState (enc_result st) modifier_i (enc_written st)).

Definition encode (rs : list EncodingRange) (a : encode_args) : exc word :=
  st <- foldM (encode_body a) rs (mkEncodeState zero_word 0%nat ∅);;
  Ret (enc_result st).

(** The two fields of one operand, at operand index 0 and at operand index 1. *)
Definition split_operand (idx : nat) : list EncodingRange :=
  [ ER.set_operand_index (Some idx) (ER.init OPERAND 0 8);
    ER.set_operand_index (Some idx) (ER.init OPERAND 8 8) ].


(** ** collections.Counter

    A [Counter] is a dict from tokens to integer counts; the solver iterates
    its items, so it is kept as an association list in insertion order. *)

Abbreviation Counter := (list (string * Z)).

(** [c[k]]: a missing key counts 0. *)
Fixpoint counter_get (c : Counter) (k : string) : Z :=
  match c with
  | [] => 0
  | (k', v) :: c' => if String.eqb k' k then v else counter_get c' k
  end.

(** [k in c]. *)
Definition counter_mem (k : string) (c : Counter) : bool :=
  existsb (fun kv => String.eqb (fst kv) k) c.

(** [c[k] += d]: a missing key is inserted at the end. *)
Fixpoint counter_add (k : string) (d : Z) (c : Counter) : Counter :=
  match c with
  | [] => [(k, d)]
  | (k', v) :: c' =>
      if String.eqb k' k then (k', v + d) :: c' else (k', v) :: counter_add k d c'
  end.

(** [Counter(tokens)]. *)
Definition Counter_of (tokens : list string) : Counter :=
  fold_left (fun c k => counter_add k 1 c) tokens [].

(** [c.subtract(other)]. *)
Definition counter_subtract (c other : Counter) : Counter :=
  fold_left (fun c kv => counter_add (fst kv) (- snd kv) c) other c.

(** [counter_remove_zeros(counts)]. *)
Definition counter_remove_zeros (counts : Counter) : Counter :=
  List.filter (fun kv => negb (snd kv =? 0)) counts.

(** [sum(counts.values())]. *)
Definition counter_sum (counts : Counter) : Z :=
  fold_right Z.add 0 (map snd counts).

(** ** analyse_modifiers *)

(** The loop state: [flag_candidate], [not_flag], [effected]. *)
Record analyse_state : Type := mkAnalyse {
  flag_candidate : option string;
  not_flag : bool;
  effected : bool
}.

Definition analyse_step (st : analyse_state) (item : string * Z) : analyse_state :=
  let '(name, count) := item in
  if count =? 0 then st
  else if count <=? 0 then mkAnalyse None true true
  else if (count =? 1) && negb (not_flag st) then
    match flag_candidate st with
    | None => mkAnalyse (Some name) (not_flag st) true
    | Some _ => mkAnalyse None true true
    end
  else mkAnalyse (flag_candidate st) (not_flag st) true.

Definition analyse_modifiers (original mutated : list string) : bool * option string :=
  let difference := counter_subtract (Counter_of mutated) (Counter_of original) in
  let st := fold_left analyse_step difference (mkAnalyse None false false) in
  (effected st, flag_candidate st).

(** The number of times a token occurs in a token list. *)
Definition token_count (tokens : list string) (t : string) : Z :=
  Z.of_nat (count_occ string_dec tokens t).

(** What the loop of [analyse_modifiers] looks for in the difference: a
    negative count, a non-zero count, the entries of count 1. *)
Definition has_neg (c : Counter) : bool := existsb (fun kv => snd kv <? 0) c.
Definition has_nonzero (c : Counter) : bool := existsb (fun kv => negb (snd kv =? 0)) c.
Definition ones (c : Counter) : Counter := List.filter (fun kv => snd kv =? 1) c.

(** ** InstructionSpec and the modifier-value solver *)

(** [s[:-1]]. *)
Fixpoint drop_last (s : string) : string :=
  match s with
  | EmptyString => EmptyString
  | String _ EmptyString => EmptyString
  | String a s' => String a (drop_last s')
  end.

(** [s.split(".")]: the pieces between dots, empty pieces included. *)
Fixpoint split_dot_aux (s : string) (cur : string) : list string :=
  match s with
  | EmptyString => [cur]
  | String a s' =>
      if Ascii.eqb a "."%char then cur :: split_dot_aux s' EmptyString
      else split_dot_aux s' (cur ++ String a EmptyString)%string
  end.

Definition split_dot (s : string) : list string := split_dot_aux s EmptyString.

Definition nonempty (s : string) : bool := negb (String.eqb s EmptyString).

(** The fields of an [InstructionSpec] the solver reads: the modifier tokens
    of the parsed seed, the ranges, and one table of [(value, name)] rows
    per modifier group. *)
Record InstructionSpec : Type := mkInstructionSpec {
  spec_parsed_modifiers : list string;
  spec_ranges : list EncodingRange;
  spec_modifiers : list (list (Z * string))
}.

(** [all_modifiers]: rows [(name[:-1], i, value)] for group [i]. *)
Definition all_modifiers (spec : InstructionSpec) : list (string * nat * Z) :=
  concat (imap (fun i modifier_range =>
                  map (fun vn => (drop_last (snd vn), i, fst vn)) modifier_range)
               (spec_modifiers spec)).

(** [_get_opcode_modis]: the set of seed modifiers that name no table row.
    The order in which Python lists a set is not fixed; the model keeps the
    tokens in the order of the seed. *)
Definition opcode_modis (spec : InstructionSpec) : list string :=
  List.filter
    (fun m => negb (existsb (fun row => String.eqb (fst (fst row)) m) (all_modifiers spec)))
    (nodup string_dec (spec_parsed_modifiers spec)).

(** The first loop of [get_modifier_values]; [None] is the early [return None]. *)
Fixpoint subtract_opcode_modis (modis : list string) (counts : Counter) : option Counter :=
  match modis with
  | [] => Some counts
  | modi :: modis' =>
      let counts := counter_add modi (-1) counts in
      if counter_get counts modi <? 0 then None
      else subtract_opcode_modis modis' counts
  end.

(** The second loop of [score_match]; [None] is [return 0]. *)
Fixpoint score_consume (modifier_group : list string) (_counts : Counter) : option Counter :=
  match modifier_group with
  | [] => Some _counts
  | modifier :: rest =>
      let _counts := counter_add modifier (-1) _counts in
      if counter_get _counts modifier <? 0 then None
      else score_consume rest (counter_remove_zeros _counts)
  end.

Definition score_match (counts : Counter) (modifier_group : list string) : Z :=
  if forallb (fun modifier => negb (nonempty modifier) || counter_mem modifier counts)
             modifier_group
  then match score_consume modifier_group counts with
       | Some _counts => counter_sum counts - counter_sum _counts
       | None => 0
       end
  else 0.

(** The candidate kept by the scan over [all_modifiers]. *)
Record best_state : Type := mkBest {
  best_i : nat;
  best_value : Z;
  best_modi_group : list string;
  best_match : Z
}.

Definition scan_candidates (spec : InstructionSpec) (counts : Counter)
    (used_modis : gset nat) : option best_state :=
  fold_left
    (fun (best : option best_state) (row : string * nat * Z) =>
       let '(modifier_group, i, value) := row in
       if bool_decide (i ∈ used_modis) then best
       else
         let modifier_group := List.filter nonempty (split_dot modifier_group) in
         let score := score_match counts modifier_group in
         if (match best with Some b => best_match b | None => 0 end) <? score
         then Some (mkBest i value modifier_group score)
         else best)
    (all_modifiers spec) None.

(** [modi_values[i] = v]. *)
Definition list_set {A} (l : list A) (i : nat) (v : A) : exc (list A) :=
  if (i <? List.length l)%nat then Ret (<[i := v]> l) else Raise IndexError.

(** The loop state of the greedy selection. *)
Record solve_state : Type := mkSolve {
  st_counts : Counter;
  st_used_modis : gset nat;
  st_modi_values : list Z
}.

(** [while len(counts) != 0 and change]: one level of fuel per iteration. *)
Fixpoint greedy_loop (fuel : nat) (spec : InstructionSpec) (st : solve_state)
  : exc solve_state :=
  match st_counts st with
  | [] => Ret st
  | _ =>
      match scan_candidates spec (st_counts st) (st_used_modis st) with
      | None => Ret st
      | Some best =>
          match fuel with
          | O => Raise Diverged
          | S fuel' =>
              values <- list_set (st_modi_values st) (best_i best) (best_value best);;
              let counts :=
                fold_left (fun c modifier => counter_remove_zeros (counter_add modifier (-1) c))
                          (best_modi_group best) (st_counts st) in
              greedy_loop fuel' spec
                          (mkSolve counts ({[best_i best]} ∪ st_used_modis st) values)
          end
      end
  end.

(** [for name in counts: if name in flags: ...]: the keys do not change
    while the loop runs, only the counts. *)
Definition match_flags (flags : list (option string)) (counts : Counter)
  : Counter * gset string :=
  fold_left
    (fun (acc : Counter * gset string) (name : string) =>
       if existsb (fun f => match f with
                            | Some f => String.eqb f name
                            | None => false
                            end) flags
       then (counter_add name (-1) (fst acc), {[name]} ∪ snd acc)
       else acc)
    (map fst counts) (counts, ∅).

(** The last loop: groups left at their default take the value of their
    row with the empty name; [i in modi_values] looks [i] up among the
    values. *)
Definition fill_defaults (spec : InstructionSpec) (values : list Z) : exc (list Z) :=
  foldM (fun (values : list Z) (row : string * nat * Z) =>
           let '(operand_group, i, value) := row in
           if existsb (Z.eqb (Z.of_nat i)) values then Ret values
           else if nonempty operand_group then Ret values
           else list_set values i value)
        (all_modifiers spec) values.

Definition get_modifier_values (spec : InstructionSpec) (modifiers : list string)
  : exc (option (list Z * gset string)) :=
  match subtract_opcode_modis (opcode_modis spec) (Counter_of modifiers) with
  | None => Ret None
  | Some counts =>
      let n := List.length (spec_modifiers spec) in
      st <- greedy_loop (S n) spec (mkSolve counts ∅ (replicate n 0));;
      let '(counts, used_flags) := match_flags (get_flags (spec_ranges spec)) (st_counts st) in
      match counter_remove_zeros counts with
      | [] =>
          values <- fill_defaults spec (st_modi_values st);;
          Ret (Some (values, used_flags))
      | _ => Ret None
      end
  end.

(** The seed [OP.E] whose [E] is also the name of a FLAG bit. *)
Definition flag_in_seed_spec : InstructionSpec :=
  mkInstructionSpec ["E"%string]
    [ER.set_constant (Some 0) (ER.init CONSTANT 0 13);
     ER.set_name (Some "E"%string) (ER.init FLAG 13 1);
     ER.set_constant (Some 0) (ER.init CONSTANT 14 114)]
    [].

(** ** The parsed instruction and the disassembler *)

(** Modelled from the spec: the assembly parser ([parser.py]) is imported by
    the solver and is not part of it.  Of a parsed instruction the solver
    reads [get_key()], [modifiers], [predicate] and [get_flat_operands()];
    of a flat operand its class ([IntIMMOperand], [RegOperand] with its
    [reg_type], or another), [get_operand_value()], [modifiers], and
    [compare], which by the spec tells whether the operand value differs. *)
Inductive operand_class : Type :=
  | IntIMMOperand
  | RegOperand (reg_type : string)
  | OtherOperand.

Record Operand : Type := mkOperand {
  op_class : operand_class;
  get_operand_value : Z;
  op_modifiers : list string
}.

Definition compare (a b : Operand) : bool :=
  get_operand_value a =? get_operand_value b.

Record Instruction : Type := mkInstruction {
  get_key : string;
  inst_modifiers : list string;
  inst_predicate : Z;
  get_flat_operands : list Operand
}.

(** The disassembly oracle: [disassemble], [distill_instruction] and
    [mutate_inst]; [disassemble_parallel] answers in input order. *)
Record Disassembler : Type := mkDisassembler {
  disassemble : word -> string;
  distill_instruction : word -> word;
  mutate_inst : word -> Z -> list (Z * word * string)
}.

Definition disassemble_parallel (d : Disassembler) (insts : list word) : list string :=
  map (disassemble d) insts.

(** ** Dicts that the passes iterate: association lists in insertion order *)

Fixpoint odict_get {A} (d : list (Z * A)) (k : Z) : option A :=
  match d with
  | [] => None
  | (k', v) :: d' => if k' =? k then Some v else odict_get d' k
  end.

Definition odict_mem {A} (k : Z) (d : list (Z * A)) : bool :=
  match odict_get d k with
  | Some _ => true
  | None => false
  end.

Fixpoint odict_set {A} (k : Z) (v : A) (d : list (Z * A)) : list (Z * A) :=
  match d with
  | [] => [(k, v)]
  | (k', v') :: d' => if k' =? k then (k', v) :: d' else (k', v') :: odict_set k v d'
  end.

Definition odict_del {A} (k : Z) (d : list (Z * A)) : list (Z * A) :=
  List.filter (fun kv => negb (fst kv =? k)) d.

(** ** InstructionMutationSet *)

Module MS.
Record t : Type := mk {
  inst : word;
  disasm : string;
  parsed : Instruction;
  mutations : list (Z * word * string);
  disassembler : Disassembler;
  key : string;
  opcode_bits : gset Z;
  operand_value_bits : gset Z;
  operand_modifier_bits : gset Z;
  operand_modifier_bit_flag : list (Z * string);
  instruction_modifier_bit_flag : list (Z * string);
  bit_to_operand : gmap Z nat;
  bit_to_shift : gmap Z nat;
  bit_to_offset : gmap Z Z;
  predicate_bits : gset Z;
  modifier_bits : gset Z;
  modifier_groups : gmap Z nat
}.

Definition set_opcode_bits (x : gset Z) (m : t) : t :=
  mk (inst m) (disasm m) (parsed m) (mutations m) (disassembler m) (key m)
     x (operand_value_bits m) (operand_modifier_bits m)
     (operand_modifier_bit_flag m) (instruction_modifier_bit_flag m)
     (bit_to_operand m) (bit_to_shift m) (bit_to_offset m) (predicate_bits m)
     (modifier_bits m) (modifier_groups m).
Definition set_operand_value_bits (x : gset Z) (m : t) : t :=
  mk (inst m) (disasm m) (parsed m) (mutations m) (disassembler m) (key m)
     (opcode_bits m) x (operand_modifier_bits m)
     (operand_modifier_bit_flag m) (instruction_modifier_bit_flag m)
     (bit_to_operand m) (bit_to_shift m) (bit_to_offset m) (predicate_bits m)
     (modifier_bits m) (modifier_groups m).
Definition set_operand_modifier_bits (x : gset Z) (m : t) : t :=
  mk (inst m) (disasm m) (parsed m) (mutations m) (disassembler m) (key m)
     (opcode_bits m) (operand_value_bits m) x
     (operand_modifier_bit_flag m) (instruction_modifier_bit_flag m)
     (bit_to_operand m) (bit_to_shift m) (bit_to_offset m) (predicate_bits m)
     (modifier_bits m) (modifier_groups m).
Definition set_operand_modifier_bit_flag (x : list (Z * string)) (m : t) : t :=
  mk (inst m) (disasm m) (parsed m) (mutations m) (disassembler m) (key m)
     (opcode_bits m) (operand_value_bits m) (operand_modifier_bits m)
     x (instruction_modifier_bit_flag m)
     (bit_to_operand m) (bit_to_shift m) (bit_to_offset m) (predicate_bits m)
     (modifier_bits m) (modifier_groups m).
Definition set_instruction_modifier_bit_flag (x : list (Z * string)) (m : t) : t :=
  mk (inst m) (disasm m) (parsed m) (mutations m) (disassembler m) (key m)
     (opcode_bits m) (operand_value_bits m) (operand_modifier_bits m)
     (operand_modifier_bit_flag m) x
     (bit_to_operand m) (bit_to_shift m) (bit_to_offset m) (predicate_bits m)
     (modifier_bits m) (modifier_groups m).
Definition set_bit_to_operand (x : gmap Z nat) (m : t) : t :=
  mk (inst m) (disasm m) (parsed m) (mutations m) (disassembler m) (key m)
     (opcode_bits m) (operand_value_bits m) (operand_modifier_bits m)
     (operand_modifier_bit_flag m) (instruction_modifier_bit_flag m)
     x (bit_to_shift m) (bit_to_offset m) (predicate_bits m)
     (modifier_bits m) (modifier_groups m).
Definition set_bit_to_shift (x : gmap Z nat) (m : t) : t :=
  mk (inst m) (disasm m) (parsed m) (mutations m) (disassembler m) (key m)
     (opcode_bits m) (operand_value_bits m) (operand_modifier_bits m)
     (operand_modifier_bit_flag m) (instruction_modifier_bit_flag m)
     (bit_to_operand m) x (bit_to_offset m) (predicate_bits m)
     (modifier_bits m) (modifier_groups m).
Definition set_bit_to_offset (x : gmap Z Z) (m : t) : t :=
  mk (inst m) (disasm m) (parsed m) (mutations m) (disassembler m) (key m)
     (opcode_bits m) (operand_value_bits m) (operand_modifier_bits m)
     (operand_modifier_bit_flag m) (instruction_modifier_bit_flag m)
     (bit_to_operand m) (bit_to_shift m) x (predicate_bits m)
     (modifier_bits m) (modifier_groups m).
Definition set_predicate_bits (x : gset Z) (m : t) : t :=
  mk (inst m) (disasm m) (parsed m) (mutations m) (disassembler m) (key m)
     (opcode_bits m) (operand_value_bits m) (operand_modifier_bits m)
     (operand_modifier_bit_flag m) (instruction_modifier_bit_flag m)
     (bit_to_operand m) (bit_to_shift m) (bit_to_offset m) x
     (modifier_bits m) (modifier_groups m).
Definition set_modifier_bits (x : gset Z) (m : t) : t :=
  mk (inst m) (disasm m) (parsed m) (mutations m) (disassembler m) (key m)
     (opcode_bits m) (operand_value_bits m) (operand_modifier_bits m)
     (operand_modifier_bit_flag m) (instruction_modifier_bit_flag m)
     (bit_to_operand m) (bit_to_shift m) (bit_to_offset m) (predicate_bits m)
     x (modifier_groups m).
Definition set_modifier_groups (x : gmap Z nat) (m : t) : t :=
  mk (inst m) (disasm m) (parsed m) (mutations m) (disassembler m) (key m)
     (opcode_bits m) (operand_value_bits m) (operand_modifier_bits m)
     (operand_modifier_bit_flag m) (instruction_modifier_bit_flag m)
     (bit_to_operand m) (bit_to_shift m) (bit_to_offset m) (predicate_bits m)
     (modifier_bits m) x.
End MS.

Abbreviation InstructionMutationSet := MS.t.

Definition reset_modifier_groups (m : InstructionMutationSet) : InstructionMutationSet :=
  MS.set_modifier_groups ∅ m.

(** [sorted(list(self.modifier_bits))]. *)
Definition sorted_bits (s : gset Z) : list Z := merge_sort Z.le (elements s).

(** [max([0] + list(self.modifier_groups.values()))]. *)
Definition max_group_id (groups : gmap Z nat) : nat :=
  map_fold (fun _ v acc => Nat.max v acc) 0%nat groups.

(** Step 1 of [canonicalize_modifier_groups]: the state is the group map,
    [fill_mode], [fill_id] and [bits[i - 1]] ([None] at [i = 0]). *)
Record fill_state : Type := mkFill {
  fill_groups : gmap Z nat;
  fill_mode : bool;
  fill_id : nat;
  fill_prev : option Z
}.

Definition fill_step (st : fill_state) (bit : Z) : fill_state :=
  if bool_decide (is_Some (fill_groups st !! bit)) then
    mkFill (fill_groups st) (fill_mode st) (fill_id st) (Some bit)
  else
    let fill_mode :=
      if fill_mode st then
        match fill_prev st with
        | Some prev => if prev =? bit - 1 then true else false
        | None => true
        end
      else false in
    let fill_id :=
      if fill_mode then fill_id st else S (max_group_id (fill_groups st)) in
    mkFill (<[bit := fill_id]> (fill_groups st)) true fill_id (Some bit).

(** Step 2: renumber the group ids in the order of the bits. *)
Record renum_state : Type := mkRenum {
  renum_groups : gmap Z nat;
  num_map : gmap nat nat;
  max_num : nat
}.

Definition renum_step (st : renum_state) (bit : Z) : exc renum_state :=
  gid <- dict_get (renum_groups st !! bit);;
  match num_map st !! gid with
  | Some n => Ret (mkRenum (<[bit := n]> (renum_groups st)) (num_map st) (max_num st))
  | None =>
      let n := S (max_num st) in
      Ret (mkRenum (<[bit := n]> (renum_groups st)) (<[gid := n]> (num_map st)) n)
  end.

Definition canonical_groups (bits : gset Z) (groups : gmap Z nat) : exc (gmap Z nat) :=
  let bits := sorted_bits bits in
  let st := fold_left fill_step bits (mkFill groups false 0%nat None) in
  st' <- foldM renum_step bits (mkRenum (fill_groups st) ∅ 0%nat);;
  Ret (renum_groups st').

Definition canonicalize_modifier_groups (m : InstructionMutationSet)
  : exc InstructionMutationSet :=
  groups <- canonical_groups (MS.modifier_bits m) (MS.modifier_groups m);;
  Ret (MS.set_modifier_groups groups m).

(** ** compute_encoding_ranges *)

Definition control_code_ranges : list (EncodingRangeType * nat) :=
  [ (STALL_CYCLES, 4%nat); (YIELD_FLAG, 1%nat); (READ_BARRIER, 3%nat);
    (WRITE_BARRIER, 3%nat); (BARRIER_MASK, 6%nat); (REUSE_MASK, 4%nat) ].

(** The scan of [control_code_ranges] for bit [i], from [offset]. *)
Fixpoint control_code_range (inst : word) (i : nat) (offset : nat)
    (codes : list (EncodingRangeType * nat)) : exc (option EncodingRange) :=
  match codes with
  | [] => Ret None
  | (rtype, length) :: codes' =>
      if (offset <=? i)%nat && (i <? offset + length)%nat then
        v <- get_bit_range inst (Z.of_nat offset) (Z.of_nat (offset + length));;
        if v =? 0 then Ret (Some (ER.init rtype i 1))
        else control_code_range inst i (offset + length) codes'
      else control_code_range inst i (offset + length) codes'
  end.

(** What the first if/elif chain of the loop body decides for bit [i]: a
    flag range that is pushed on its own, a [new_range], or nothing. *)
Inductive classified : Type :=
  | Single (r : EncodingRange)
  | NewRange (r : EncodingRange)
  | Unclassified.

Definition classify (m : InstructionMutationSet) (i : nat) : exc classified :=
  let b := Z.of_nat i in
  if bool_decide (b ∈ MS.modifier_bits m) then
    match odict_get (MS.instruction_modifier_bit_flag m) b with
    | Some nm => Ret (Single (ER.set_name (Some nm) (ER.init FLAG i 1)))
    | None =>
        g <- dict_get (MS.modifier_groups m !! b);;
        Ret (NewRange (ER.set_group_id (Some g) (ER.init MODIFIER i 1)))
    end
  else if bool_decide (b ∈ MS.predicate_bits m) then
    Ret (NewRange (ER.init PREDICATE i 1))
  else if bool_decide (b ∈ MS.operand_value_bits m) then
    oi <- dict_get (MS.bit_to_operand m !! b);;
    Ret (NewRange (ER.set_operand_index (Some oi) (ER.init OPERAND i 1)))
  else if bool_decide (b ∈ MS.operand_modifier_bits m) then
    oi <- dict_get (MS.bit_to_operand m !! b);;
    match odict_get (MS.operand_modifier_bit_flag m) b with
    | Some nm =>
        Ret (Single (ER.set_name (Some nm)
                       (ER.set_operand_index (Some oi) (ER.init OPERAND_FLAG i 1))))
    | None =>
        Ret (NewRange (ER.set_operand_index (Some oi) (ER.init OPERAND_MODIFIER i 1)))
    end
  else Ret Unclassified.

(** The loop state: [result] and [current_range]. *)
Definition _push (result : list EncodingRange) (current_range : option EncodingRange)
  : list EncodingRange :=
  match current_range with
  | Some r => result ++ [r]
  | None => result
  end.

(** "Decide if we should extend the current range or not." *)
Definition extends (current_range new_range : EncodingRange) (i : nat) : bool :=
  bool_decide (ER.type new_range = ER.type current_range)
  && bool_decide (ER.operand_index new_range = ER.operand_index current_range)
  && (negb (bool_decide (ER.type new_range = CONSTANT)) || negb (i =? 64)%nat)
  && (match ER.group_id new_range with
      | None => true
      | Some g => bool_decide (ER.group_id current_range = Some g)
      end).

(** The last three statements of the loop body, on [current_range]. *)
Definition annotate (m : InstructionMutationSet) (i : nat) (cur : EncodingRange)
  : exc EncodingRange :=
  let b := Z.of_nat i in
  let cur := match ER.shift cur, MS.bit_to_shift m !! b with
             | None, Some s => ER.set_shift (Some s) cur
             | _, _ => cur
             end in
  let cur := match ER.offset cur, MS.bit_to_offset m !! b with
             | None, Some o => ER.set_offset (Some o) cur
             | _, _ => cur
             end in
  if bool_decide (ER.type cur = CONSTANT) then
    match ER.constant cur with
    | Some c =>
        byte <- list_get (MS.inst m) (i / 8)%nat;;
        let bit := Z.land (Z.shiftr byte (Z.of_nat (i mod 8))) 1 in
        Ret (ER.set_constant
               (Some (Z.lor c (Z.shiftl bit (Z.of_nat (ER.length cur - 1))))) cur)
    | None => Raise TypeError
    end
  else Ret cur.

(** The range of a bit that no bit set claims: a control-code range when
    the seed has zeros there, else a CONSTANT. *)
Definition default_range (m : InstructionMutationSet) (i : nat) : exc EncodingRange :=
  cc <- control_code_range (MS.inst m) i (13 * 8 + 1) control_code_ranges;;
  Ret (match cc with
       | Some r => r
       | None => ER.set_constant (Some 0) (ER.init CONSTANT i 1)
       end).

Definition extend_or_push (result : list EncodingRange)
    (current_range : option EncodingRange) (new_range : EncodingRange) (i : nat)
  : list EncodingRange * EncodingRange :=
  match current_range with
  | Some cur =>
      if extends cur new_range i
      then (result, ER.set_length (ER.length cur + 1) cur)
      else (result ++ [cur], new_range)
  | None => (result, new_range)
  end.

Definition place (m : InstructionMutationSet) (result : list EncodingRange)
    (current_range : option EncodingRange) (new_range : EncodingRange) (i : nat)
  : exc (list EncodingRange * option EncodingRange) :=
  let rc := extend_or_push result current_range new_range i in
  cur <- annotate m i (snd rc);;
  Ret (fst rc, Some cur).

Definition ranges_step (m : InstructionMutationSet)
    (st : list EncodingRange * option EncodingRange) (i : nat)
  : exc (list EncodingRange * option EncodingRange) :=
  c <- classify m i;;
  match c with
  | Single r => Ret (_push (fst st) (snd st) ++ [r], None)
  | NewRange new_range => place m (fst st) (snd st) new_range i
  | Unclassified =>
      new_range <- default_range m i;;
      place m (fst st) (snd st) new_range i
  end.

Definition compute_encoding_ranges (m : InstructionMutationSet)
  : exc (EncodingRanges * InstructionMutationSet) :=
  m <- canonicalize_modifier_groups m;;
  st <- foldM (ranges_step m) (seq 0 (8 * 16)) ([], None);;
  Ret (mkEncodingRanges (_push (fst st) (snd st)) (MS.inst m), m).

(** [chain lo rs hi]: the ranges [rs] tile the bits from [lo] up to [hi],
    each one non-empty and starting where the one before it ends. *)
Fixpoint chain (lo : nat) (rs : list EncodingRange) (hi : nat) : Prop :=
  match rs with
  | [] => lo = hi
  | r :: rs' =>
      ER.start r = lo /\ (1 <= ER.length r)%nat /\ chain (lo + ER.length r) rs' hi
  end.

(** Two ranges that differ at most in [name], [constant], [inverse], [shift]
    and [offset]. *)
Definition same_shape (a b : EncodingRange) : Prop :=
  ER.type a = ER.type b /\ ER.start a = ER.start b /\ ER.length a = ER.length b
  /\ ER.operand_index a = ER.operand_index b /\ ER.group_id a = ER.group_id b.

(** What one iteration does to [result] and [current_range]: it pushes a
    single-bit flag range, or starts a new range at bit [i], or extends the
    current range by bit [i]. *)
Inductive step_outcome (m : InstructionMutationSet)
    (result : list EncodingRange) (cur : option EncodingRange) (i : nat)
  : list EncodingRange * option EncodingRange -> Prop :=
  | step_single r :
      classify m i = Ret (Single r) ->
      step_outcome m result cur i (_push result cur ++ [r], None)
  | step_start new cur' :
      (classify m i = Ret (NewRange new)
       \/ classify m i = Ret Unclassified /\ default_range m i = Ret new) ->
      ER.start new = i -> ER.length new = 1%nat -> same_shape new cur' ->
      (forall c, cur = Some c -> extends c new i = false) ->
      step_outcome m result cur i (_push result cur, Some cur')
  | step_extend c new cur' :
      (classify m i = Ret (NewRange new)
       \/ classify m i = Ret Unclassified /\ default_range m i = Ret new) ->
      cur = Some c -> extends c new i = true ->
      same_shape (ER.set_length (ER.length c + 1) c) cur' ->
      step_outcome m result cur i (result, Some cur').

(** A CONSTANT range does not hold bit 63 together with bit 64. *)
Definition const_ok (r : EncodingRange) : Prop :=
  ER.type r = CONSTANT ->
  (ER.start r + ER.length r <= 64)%nat \/ (64 <= ER.start r)%nat.

(** [kept r rs]: [rs] holds the range [r], possibly grown by further bits. *)
Definition kept (r : EncodingRange) (rs : list EncodingRange) : Prop :=
  exists r', In r' rs /\ ER.type r' = ER.type r /\ ER.start r' = ER.start r
             /\ (ER.length r <= ER.length r')%nat.

(** A seed of zeros with a predicate field, a modifier bit, a flag, a
    three-bit operand with an operand flag, and a modifier field over bits
    63 to 65. *)
Definition no_disassembler : Disassembler :=
  mkDisassembler (fun _ => EmptyString) (fun w => w) (fun _ _ => []).

Definition example_mset : InstructionMutationSet :=
  MS.mk zero_word "OP R0" (mkInstruction "OP_R" [] 7 [mkOperand (RegOperand "R") 0 []])
        [] no_disassembler "OP_R"
        ∅ {[ 32; 33; 34 ]} {[ 40 ]} [(40, "NEG"%string)] [(22, "E"%string)]
        {[ 32 := 0%nat; 33 := 0%nat; 34 := 0%nat; 40 := 0%nat ]} ∅ ∅
        {[ 12; 13; 14 ]} {[ 20; 22; 63; 64; 65; 70 ]} ∅.

Definition example_ranges : EncodingRanges :=
  Eval vm_compute in
    match compute_encoding_ranges example_mset with
    | Ret (rs, _) => rs
    | Raise _ => mkEncodingRanges [] []
    end.

Definition example_mset' : InstructionMutationSet :=
  Eval vm_compute in
    match compute_encoding_ranges example_mset with
    | Ret (_, m') => m'
    | Raise _ => example_mset
    end.

(** ** The initial classifier and the refinement passes *)

(** [str.strip()] on ASCII text. *)
Definition is_space (c : ascii) : bool :=
  let n := nat_of_ascii c in
  ((9 <=? n)%nat && (n <=? 13)%nat) || ((28 <=? n)%nat && (n <=? 32)%nat).

Fixpoint lstrip (s : string) : string :=
  match s with
  | String c s' => if is_space c then lstrip s' else s
  | EmptyString => EmptyString
  end.

Definition string_rev (s : string) : string :=
  string_of_list_ascii (rev (list_ascii_of_string s)).

Definition strip (s : string) : string :=
  string_rev (lstrip (string_rev (lstrip s))).

(** [x in xs] on a list of tokens. *)
Definition token_in (x : string) (xs : list string) : bool :=
  existsb (String.eqb x) xs.

(** [a == b] on two token lists. *)
Definition tokens_eqb (a b : list string) : bool :=
  bool_decide (a = b).

(** [if flag: d[bit] = flag]: [None] and the empty string are falsy. *)
Definition set_flag (bit : Z) (flag : option string) (d : list (Z * string))
  : list (Z * string) :=
  match flag with
  | Some f => if nonempty f then odict_set bit f d else d
  | None => d
  end.

(** A copy of the seed with the bits [bits] toggled by [set_bit]. *)
Definition flipped (inst : word) (bits : list Z) : exc word :=
  foldM set_bit bits inst.

Section Passes.

(** [InstructionParser.parseInstruction], which raises on text it cannot
    parse. *)
Variable parseInstruction : string -> exc Instruction.

(** [math.log2(diff)] when the float it returns is a whole number. *)
Variable log2_whole : Z -> option Z.

(** The operand loop of [_analyse] for one mutation: the state is the set
    and [operand_effected]. *)
Definition analyse_operand (i_bit : Z)
    (st : InstructionMutationSet * bool) (iab : nat * (Operand * Operand))
  : InstructionMutationSet * bool :=
  let '(m, operand_effected) := st in
  let '(i, (a, b)) := iab in
  if negb (compare a b) then
    (MS.set_bit_to_operand (<[i_bit := i]> (MS.bit_to_operand m))
       (MS.set_operand_value_bits ({[i_bit]} ∪ MS.operand_value_bits m) m), true)
  else
    let '(effected, flag) := analyse_modifiers (op_modifiers b) (op_modifiers a) in
    let '(m, operand_effected) :=
      if effected then
        (MS.set_operand_modifier_bits ({[i_bit]} ∪ MS.operand_modifier_bits m)
           (MS.set_bit_to_operand (<[i_bit := i]> (MS.bit_to_operand m)) m), true)
      else (m, operand_effected) in
    (MS.set_operand_modifier_bit_flag
       (set_flag i_bit flag (MS.operand_modifier_bit_flag m)) m, operand_effected).

(** The body of the loop of [_analyse] over the mutations. *)
Definition analyse_mutation (m : InstructionMutationSet) (mutation : Z * word * string)
  : InstructionMutationSet :=
  let '(i_bit, _, asm) := mutation in
  let asm := strip asm in
  if String.eqb asm EmptyString then
    MS.set_opcode_bits ({[i_bit]} ∪ MS.opcode_bits m) m
  else
    match parseInstruction asm with
    | Raise _ => m
    | Ret mutated_parsed =>
        if negb (String.eqb (get_key (MS.parsed m)) (get_key mutated_parsed)) then
          MS.set_opcode_bits ({[i_bit]} ∪ MS.opcode_bits m) m
        else
          let mutated_operands := get_flat_operands mutated_parsed in
          let m :=
            if negb (inst_predicate (MS.parsed m) =? inst_predicate mutated_parsed)
            then MS.set_predicate_bits ({[i_bit]} ∪ MS.predicate_bits m) m
            else m in
          let '(m, operand_effected) :=
            fold_left (analyse_operand i_bit)
                      (imap pair (zip mutated_operands (get_flat_operands (MS.parsed m))))
                      (m, false) in
          if operand_effected then m
          else if 12 <? i_bit then
            let '(effected, flag) :=
              analyse_modifiers (inst_modifiers (MS.parsed m))
                                (inst_modifiers mutated_parsed) in
            let m := if effected
                     then MS.set_modifier_bits ({[i_bit]} ∪ MS.modifier_bits m) m
                     else m in
            MS.set_instruction_modifier_bit_flag
              (set_flag i_bit flag (MS.instruction_modifier_bit_flag m)) m
          else m
    end.

(** [InstructionMutationSet(inst, disasm, mutations, disassembler)]. *)
Definition InstructionMutationSet_init (inst : word) (disasm : string)
    (mutations : list (Z * word * string)) (disassembler : Disassembler)
  : exc InstructionMutationSet :=
  parsed <- parseInstruction disasm;;
  let m := MS.mk inst disasm parsed mutations disassembler (get_key parsed)
                 ∅ ∅ ∅ [] [] ∅ ∅ ∅ ∅ ∅ ∅ in
  Ret (fold_left analyse_mutation mutations m).

(** The probes of a flag disambiguation pass: for every flag bit the seed
    with the bit and its upper neighbour flipped and, when the lower
    neighbour is no flag, with the bit and the lower neighbour flipped. *)
Definition flag_probe (inst : word) (flag_map : list (Z * string))
    (modifier_mutations : list (word * Z * Z)) (bit : Z) : exc (list (word * Z * Z)) :=
  up <- flipped inst [bit; bit + 1];;
  let modifier_mutations := modifier_mutations ++ [(up, bit, bit + 1)] in
  if negb (odict_mem (bit - 1) flag_map) then
    down <- flipped inst [bit; bit - 1];;
    Ret (modifier_mutations ++ [(down, bit, bit - 1)])
  else Ret modifier_mutations.

Definition flag_probes (inst : word) (flag_map : list (Z * string))
  : exc (list (word * Z * Z)) :=
  foldM (flag_probe inst flag_map) (map fst flag_map) [].

(** The second loop of [analysis_disambiguate_flags], for one probe. *)
Definition disambiguate_flag (st : InstructionMutationSet * bool) (probe : word * Z * Z)
  : InstructionMutationSet * bool :=
  let '(m, changed) := st in
  let '(inst_, bit, adj) := probe in
  match odict_get (MS.instruction_modifier_bit_flag m) bit with
  | None => st
  | Some flag_name =>
      let disasm := disassemble (MS.disassembler m) inst_ in
      if String.eqb disasm EmptyString then st
      else
        match parseInstruction disasm with
        | Raise _ => st
        | Ret parsed =>
            if negb (String.eqb (get_key parsed) (MS.key m)) then st
            else if negb (token_in flag_name (inst_modifiers parsed)) then
              let m := MS.set_modifier_bits ({[adj]} ∪ MS.modifier_bits m) m in
              let m := MS.set_instruction_modifier_bit_flag
                         (odict_del adj (odict_del bit (MS.instruction_modifier_bit_flag m))) m in
              (reset_modifier_groups m, true)
            else st
        end
  end.

Definition analysis_disambiguate_flags (disassembler : Disassembler)
    (mset : InstructionMutationSet) : exc (bool * InstructionMutationSet) :=
  modifier_mutations <- flag_probes (MS.inst mset) (MS.instruction_modifier_bit_flag mset);;
  match modifier_mutations with
  | [] => Ret (false, mset)
  | _ =>
      let '(mset, changed) := fold_left disambiguate_flag modifier_mutations (mset, false) in
      Ret (changed, mset)
  end.

(** The second loop of [analysis_disambiguate_operand_flags], for one probe. *)
Definition disambiguate_operand_flag (st : InstructionMutationSet * bool)
    (probe : word * Z * Z) : exc (InstructionMutationSet * bool) :=
  let '(m, changed) := st in
  let '(inst_, bit, adj) := probe in
  match odict_get (MS.operand_modifier_bit_flag m) bit with
  | None => Ret st
  | Some flag_name =>
      let disasm := disassemble (MS.disassembler m) inst_ in
      if String.eqb disasm EmptyString then Ret st
      else
        match parseInstruction disasm with
        | Raise _ => Ret st
        | Ret parsed =>
            if negb (String.eqb (get_key parsed) (MS.key m)) then Ret st
            else
              oi <- dict_get (MS.bit_to_operand m !! bit);;
              oper <- list_get (get_flat_operands parsed) oi;;
              if negb (token_in flag_name (op_modifiers oper)) then
                Ret (MS.set_operand_modifier_bit_flag
                       (odict_del adj (odict_del bit (MS.operand_modifier_bit_flag m))) m,
                     true)
              else Ret st
        end
  end.

(** The pass returns no value when there is nothing to probe; the model
    reports it as no change. *)
Definition analysis_disambiguate_operand_flags (disassembler : Disassembler)
    (mset : InstructionMutationSet) : exc (bool * InstructionMutationSet) :=
  modifier_mutations <- flag_probes (MS.inst mset) (MS.operand_modifier_bit_flag mset);;
  match modifier_mutations with
  | [] => Ret (false, mset)
  | _ =>
      st <- foldM disambiguate_operand_flag modifier_mutations (mset, false);;
      Ret (snd st, fst st)
  end.

(** [disasm_value(value, mset, rng, disassembler, offset)]: the operand
    value that the disassembler shows for [value] written into the field
    extended by [offset] bits to the left; [None] when the text has too few
    operands.  (The text returned with it is only logged.) *)
Definition disasm_value (value : Z) (mset : InstructionMutationSet)
    (rng : EncodingRange) (disassembler : Disassembler) (offset : Z) : exc (option Z) :=
  code <- set_bit_range (MS.inst mset) (Z.of_nat (ER.start rng) - offset)
                        (Z.of_nat (ER.start rng + ER.length rng)) value;;
  parsed <- parseInstruction (disassemble disassembler code);;
  match ER.operand_index rng with
  | None => Raise TypeError
  | Some oi =>
      match get_flat_operands parsed !! oi with
      | None => Ret None
      | Some oper => Ret (Some (get_operand_value oper))
      end
  end.

Definition is_pred (oper : Operand) : bool :=
  match op_class oper with
  | RegOperand reg_type => String.eqb reg_type "P"
  | _ => false
  end.

Definition is_int_imm (oper : Operand) : bool :=
  match op_class oper with
  | IntIMMOperand => true
  | _ => false
  end.

(** The probing loop of [analysis_operand_fix]: single-bit encodings
    [1 << i] written into the extended field.  The state is [offsets], the
    recorded shift ([None] while the loop has not broken) and [failure]. *)
Fixpoint probe_shift (mset : InstructionMutationSet) (rng : EncodingRange)
    (disassembler : Disassembler) (missing : Z) (ixs : list Z) (offsets : list Z)
  : exc (list Z * option Z * bool) :=
  match ixs with
  | [] => Ret (offsets, None, false)
  | i :: ixs' =>
      let enc_val := Z.shiftl 1 i in
      disasm_val <- disasm_value enc_val mset rng disassembler missing;;
      match disasm_val with
      | None => Ret (offsets, None, true)
      | Some disasm_val =>
          let offsets := offsets ++ [disasm_val - enc_val] in
          if disasm_val =? enc_val then Ret (offsets, Some i, false)
          else probe_shift mset rng disassembler missing ixs' offsets
      end
  end.

(** [xs.index(0)] for [xs = [v - off for v in offsets]], which holds a 0. *)
Fixpoint index_of (off : Z) (offsets : list Z) : Z :=
  match offsets with
  | [] => 0
  | v :: offsets' => if v - off =? 0 then 0 else 1 + index_of off offsets'
  end.

(** [offsets.count(x)]. *)
Definition count_of (x : Z) (offsets : list Z) : Z :=
  Z.of_nat (List.length (List.filter (Z.eqb x) offsets)).

(** The probes of 0 and 1 in the loop body of [analysis_operand_fix]:
    [Some missing] when the decoded values differ by [2 ** missing] with
    [missing >= 1]. *)
Definition operand_fix_missing (mset : InstructionMutationSet) (rng : EncodingRange)
    (disassembler : Disassembler) (oper : Operand) : exc (option Z) :=
  val_zero <- disasm_value 0 mset rng disassembler 0;;
  val_one <- disasm_value 1 mset rng disassembler 0;;
  match val_zero, val_one with
  | Some val_zero, Some val_one =>
      let diff := if is_pred oper then Z.abs (val_one - val_zero)
                  else val_one - val_zero in
      if diff <? 1 then Ret None
      else match log2_whole diff with
           | None => Ret None
           | Some missing => if missing <? 1 then Ret None else Ret (Some missing)
           end
  | _, _ => Ret None
  end.

(** [for i in range(1, missing - shift + 1)]: the bits left of the range
    become operand bits of the range's operand. *)
Definition extend_operand (mset : InstructionMutationSet) (rng : EncodingRange)
    (oi : nat) (missing shift : Z) : InstructionMutationSet :=
  fold_left (fun (m : InstructionMutationSet) (i : Z) =>
               let bit := Z.of_nat (ER.start rng) - i in
               MS.set_bit_to_operand (<[bit := oi]> (MS.bit_to_operand m))
                 (MS.set_operand_value_bits ({[bit]} ∪ MS.operand_value_bits m) m))
            (Zrange 1 (missing - shift + 1)) mset.

(** The probing loop is skipped for a predicate operand. *)
Definition operand_probe (mset : InstructionMutationSet) (rng : EncodingRange)
    (disassembler : Disassembler) (oper : Operand) (missing : Z)
  : exc (list Z * option Z * bool) :=
  if negb (is_pred oper)
  then probe_shift mset rng disassembler missing (Zrange 0 (Z.of_nat (ER.length rng))) []
  else Ret ([], None, false).

(** The rest of the loop body, once [missing] is known. *)
Definition operand_fix_probe (mset : InstructionMutationSet) (rng : EncodingRange)
    (disassembler : Disassembler) (oi : nat) (oper : Operand) (missing : Z)
  : exc InstructionMutationSet :=
  probe <- operand_probe mset rng disassembler oper missing;;
  let '(offsets, broke, failure) := probe in
  let start := Z.of_nat (ER.start rng) in
  let '(mset, shift) :=
    match broke with
    | Some i => (MS.set_bit_to_shift (<[start := Z.to_nat i]> (MS.bit_to_shift mset)) mset, i)
    | None => (mset, 0)
    end in
  if failure then Ret mset
  else
    let last := List.last offsets 0 in
    if (8 <=? Z.of_nat (List.length offsets))
       && (Z.of_nat (List.length offsets) / 2 <=? count_of last offsets)
       && negb (last =? 0)
    then
      let off := last in
      let mset := MS.set_bit_to_offset (<[start := off]> (MS.bit_to_offset mset)) mset in
      let shift := index_of off offsets in
      let mset := if negb (shift =? 0)
                  then MS.set_bit_to_shift (<[start := Z.to_nat shift]> (MS.bit_to_shift mset)) mset
                  else mset in
      Ret (extend_operand mset rng oi missing shift)
    else if negb (Nat.eqb (List.length offsets) 0) && negb (last =? 0) then Ret mset
    else Ret (extend_operand mset rng oi missing shift).

(** The loop body of [analysis_operand_fix]: the state is the set and [seen]. *)
Definition operand_fix_range (disassembler : Disassembler)
    (st : InstructionMutationSet * gset nat) (rng : EncodingRange)
  : exc (InstructionMutationSet * gset nat) :=
  let '(mset, seen) := st in
  match ER.operand_index rng with
  | None => Raise TypeError
  | Some oi =>
      oper <- list_get (get_flat_operands (MS.parsed mset)) oi;;
      if negb (is_int_imm oper) && negb (is_pred oper) then Ret st
      else if ((ER.length rng <=? 2)%nat && negb (is_pred oper))
              || bool_decide (oi ∈ seen) then Ret st
      else
        let seen := {[oi]} ∪ seen in
        missing <- operand_fix_missing mset rng disassembler oper;;
        match missing with
        | None => Ret (mset, seen)
        | Some missing =>
            mset <- operand_fix_probe mset rng disassembler oi oper missing;;
            Ret (mset, seen)
        end
  end.

Definition analysis_operand_fix (disassembler : Disassembler)
    (mset : InstructionMutationSet) : exc InstructionMutationSet :=
  rm <- compute_encoding_ranges mset;;
  st <- foldM (operand_fix_range disassembler) (_find OPERAND (ranges (fst rm)))
              (snd rm, ∅);;
  Ret (fst st).

(** [analysis_predicate_fix]: a predicate operand whose field, set to 1,
    reads back as 6 is stored inverted. *)
Definition predicate_fix_range (disassembler : Disassembler)
    (mset : InstructionMutationSet) (rng : EncodingRange) : exc EncodingRange :=
  if bool_decide (ER.type rng = OPERAND) then
    match ER.operand_index rng with
    | None => Raise TypeError
    | Some oi =>
        oper <- list_get (get_flat_operands (MS.parsed mset)) oi;;
        if negb (is_pred oper) then Ret rng
        else
          code <- set_bit_range (MS.inst mset) (Z.of_nat (ER.start rng))
                                (Z.of_nat (ER.start rng + ER.length rng)) 1;;
          parsed <- parseInstruction (disassemble disassembler code);;
          oper' <- list_get (get_flat_operands parsed) oi;;
          if get_operand_value oper' =? 6 then Ret (ER.set_inverse true rng)
          else Ret rng
    end
  else Ret rng.

Fixpoint mapM {A B} (f : A -> exc B) (xs : list A) : exc (list B) :=
  match xs with
  | [] => Ret []
  | x :: xs' => y <- f x;; ys <- mapM f xs';; Ret (y :: ys)
  end.

Definition analysis_predicate_fix (disassembler : Disassembler)
    (mset : InstructionMutationSet) (rs : EncodingRanges) : exc EncodingRanges :=
  rs' <- mapM (predicate_fix_range disassembler mset) (ranges rs);;
  Ret (mkEncodingRanges rs' (ranges_inst rs)).

(** [analyse_adj] of [analysis_extend_modifiers]: the state is the set and
    [changed]. *)
Definition extend_adj (disassembler : Disassembler)
    (st : InstructionMutationSet * bool) (modi_bit adj : Z)
  : exc (InstructionMutationSet * bool) :=
  let '(mset, changed) := st in
  if odict_mem adj (MS.instruction_modifier_bit_flag mset) then Ret st
  else
    array <- set_bit (MS.inst mset) modi_bit;;
    let original_asm := disassemble disassembler array in
    if String.eqb original_asm EmptyString then Ret st
    else
      original_parsed <- parseInstruction original_asm;;
      array <- set_bit array adj;;
      let modi_asm := disassemble disassembler array in
      if String.eqb modi_asm EmptyString then Ret st
      else
        match parseInstruction modi_asm with
        | Raise _ => Ret st
        | Ret modi_parsed =>
            if negb (String.eqb (get_key modi_parsed) (get_key original_parsed)) then Ret st
            else if negb (tokens_eqb (inst_modifiers modi_parsed)
                                     (inst_modifiers original_parsed)) then
              let changed := negb (bool_decide (adj ∈ MS.modifier_bits mset)) in
              let mset := MS.set_modifier_bits ({[adj]} ∪ MS.modifier_bits mset) mset in
              let mset := MS.set_instruction_modifier_bit_flag
                            (odict_del adj (MS.instruction_modifier_bit_flag mset)) mset in
              Ret (mset, changed)
            else Ret st
        end.

Definition analysis_extend_modifiers (disassembler : Disassembler)
    (mset : InstructionMutationSet) : exc (bool * InstructionMutationSet) :=
  rm <- compute_encoding_ranges mset;;
  st <- foldM (fun (st : InstructionMutationSet * bool) (rng : EncodingRange) =>
                 st <- extend_adj disassembler st (Z.of_nat (ER.start rng))
                                  (Z.of_nat (ER.start rng) - 1);;
                 extend_adj disassembler st (Z.of_nat (ER.start rng))
                            (Z.of_nat (ER.start rng + ER.length rng)))
              (_find MODIFIER (ranges (fst rm))) (snd rm, false);;
  let '(mset, changed) := st in
  Ret (changed, if changed then reset_modifier_groups mset else mset).



(** [".".join([name] * count) + "."] for [count >= 1]. *)
Fixpoint repeat_dot (name : string) (count : nat) : string :=
  match count with
  | O => "."
  | S O => (name ++ ".")%string
  | S n => (name ++ "." ++ repeat_dot name n)%string
  end.

Definition find_modifier_difference (original mutated : list string) : string :=
  let difference := counter_subtract (Counter_of mutated) (Counter_of original) in
  fold_left (fun (result : string) (item : string * Z) =>
               if negb (nonempty (fst item)) || (snd item <=? 0) then result
               else (result ++ repeat_dot (fst item) (Z.to_nat (snd item)))%string)
            difference EmptyString.

Definition contains_dot (s : string) : bool :=
  existsb (Ascii.eqb ".") (list_ascii_of_string s).

(** [analyse_adj] of [analysis_modifier_splitting]. *)
Definition split_adj (disassembler : Disassembler) (mset : InstructionMutationSet)
    (modi_bit adj : Z) : exc bool :=
  a1 <- set_bit (MS.inst mset) modi_bit;;
  a2 <- set_bit a1 adj;;
  let inst := disassemble_parallel disassembler [MS.inst mset; a1; a2] in
  if existsb (String.eqb EmptyString) inst then Ret false
  else
    match mapM parseInstruction inst with
    | Ret [orig; modi; adj] =>
        if negb (String.eqb (get_key orig) (get_key modi)
                 && String.eqb (get_key modi) (get_key adj)) then Ret false
        else
          let orig_difference :=
            find_modifier_difference (inst_modifiers orig) (inst_modifiers modi) in
          if negb (nonempty orig_difference)
             || contains_dot (drop_last orig_difference)
             || String.prefix "INVALID" orig_difference then Ret false
          else
            let orig_difference := drop_last orig_difference in
            if token_in orig_difference (inst_modifiers adj)
               && negb (tokens_eqb (inst_modifiers adj) (inst_modifiers modi))
               && negb (tokens_eqb (inst_modifiers adj) (inst_modifiers orig))
            then Ret (counter_get (Counter_of (inst_modifiers modi)) orig_difference
                      =? counter_get (Counter_of (inst_modifiers adj)) orig_difference)
            else Ret false
    | _ => Ret false
    end.

(** [split_range(rng, i)]. *)
Definition split_range (mset : InstructionMutationSet) (rng : EncodingRange) (i : nat)
  : InstructionMutationSet :=
  let next_group_id := S (max_group_id (MS.modifier_groups mset)) in
  fold_left (fun (m : InstructionMutationSet) (k : nat) =>
               MS.set_modifier_groups
                 (<[Z.of_nat (ER.start rng + k) := next_group_id]> (MS.modifier_groups m)) m)
            (seq i (ER.length rng - i)) mset.

(** The first split point [(rng, i)] at which a probe shows independence. *)
Fixpoint find_split (disassembler : Disassembler) (mset : InstructionMutationSet)
    (points : list (EncodingRange * nat)) : exc (option (EncodingRange * nat)) :=
  match points with
  | [] => Ret None
  | (rng, i) :: points' =>
      let start := Z.of_nat (ER.start rng) in
      let idx := Z.of_nat i in
      t1 <- split_adj disassembler mset start (start + idx);;
      t2 <- (if t1 then Ret true
             else split_adj disassembler mset (start + idx - 1) (start + idx));;
      t3 <- (if t2 then Ret true
             else split_adj disassembler mset start (start + idx));;
      if t3 then Ret (Some (rng, i)) else find_split disassembler mset points'
  end.

Definition analysis_modifier_splitting (disassembler : Disassembler)
    (mset : InstructionMutationSet) : exc (bool * InstructionMutationSet) :=
  rm <- compute_encoding_ranges mset;;
  let points :=
    concat (map (fun rng => map (pair rng) (seq 1 (ER.length rng - 1)))
                (_find MODIFIER (ranges (fst rm)))) in
  found <- find_split disassembler (snd rm) points;;
  match found with
  | Some (rng, i) => Ret (true, split_range (snd rm) rng i)
  | None => Ret (false, snd rm)
  end.

(** [analysis_run_fixedpoint]: [while change: change = fn(disassembler, mset)],
    one level of fuel per call of [fn]. *)
Fixpoint analysis_run_fixedpoint (fuel : nat) (disassembler : Disassembler)
    (mset : InstructionMutationSet)
    (fn : Disassembler -> InstructionMutationSet -> exc (bool * InstructionMutationSet))
  : exc InstructionMutationSet :=
  match fuel with
  | O => Raise Diverged
  | S fuel' =>
      r <- fn disassembler mset;;
      if fst r then analysis_run_fixedpoint fuel' disassembler (snd r) fn
      else Ret (snd r)
  end.

(** [instruction_analysis_pipeline] up to the ranges it infers: the
    modifier enumeration, the interaction analysis and the assembly of the
    [InstructionSpec] that follow read the ranges and leave the mutation
    set as it is. *)
Definition instruction_analysis_pipeline (fuel : nat) (inst : word)
    (disassembler : Disassembler) : exc (EncodingRanges * InstructionMutationSet) :=
  let inst := distill_instruction disassembler inst in
  let asm := disassemble disassembler inst in
  let mutations := mutate_inst disassembler inst (14 * 8 - 2) in
  mutation_set <- InstructionMutationSet_init inst asm mutations disassembler;;
  mutation_set <- analysis_run_fixedpoint fuel disassembler mutation_set
                    analysis_disambiguate_flags;;
  r <- analysis_disambiguate_operand_flags disassembler mutation_set;;
  mutation_set <- analysis_operand_fix disassembler (snd r);;
  mutation_set <- analysis_run_fixedpoint fuel disassembler mutation_set
                    analysis_extend_modifiers;;
  mutation_set <- analysis_run_fixedpoint fuel disassembler mutation_set
                    analysis_modifier_splitting;;
  rm <- compute_encoding_ranges mutation_set;;
  rs <- analysis_predicate_fix disassembler (snd rm) (fst rm);;
  Ret (rs, snd rm).

(** [rng] passes the guards of the loop body and its probes of 0 and 1
    give [missing]. *)
Definition probed (mset : InstructionMutationSet) (seen : gset nat)
    (rng : EncodingRange) (disassembler : Disassembler)
    (oi : nat) (oper : Operand) (missing : Z) : Prop :=
  ER.operand_index rng = Some oi
  /\ get_flat_operands (MS.parsed mset) !! oi = Some oper
  /\ (is_int_imm oper = true \/ is_pred oper = true)
  /\ ((2 < ER.length rng)%nat \/ is_pred oper = true)
  /\ (oi ∉ seen)
  /\ operand_fix_missing mset rng disassembler oper = Ret (Some missing).

End Passes.

(** ** Mock oracles

    Disassemblers that answer from a few bits of the word, with parsers that
    know exactly the texts they print. *)

Definition word_bit (w : word) (i : nat) : bool :=
  Z.testbit (nth (i / 8) w 0) (Z.of_nat (i mod 8)).

Definition toggled (inst : word) (i : Z) : word :=
  match set_bit inst i with
  | Ret w => w
  | Raise _ => inst
  end.

(** Modelled from the spec: [mutate_inst(word, end_bit)] produces the
    single-bit flips of [word] for the bits below [end_bit], each with its
    disassembly. *)
Definition single_flips (disasm : word -> string) (inst : word) (end_bit : Z)
  : list (Z * word * string) :=
  map (fun i => (i, toggled inst i, disasm (toggled inst i))) (Zrange 0 end_bit).

Definition mock_disassembler (disasm : word -> string) : Disassembler :=
  mkDisassembler disasm (fun w => w) (single_flips disasm).

Definition parse_table (table : list (string * Instruction)) (s : string)
  : exc Instruction :=
  match List.find (fun row => String.eqb (fst row) s) table with
  | Some row => Ret (snd row)
  | None => Raise ParseError
  end.

(** [math.log2] on the exact powers of two. *)
Definition log2_exact (diff : Z) : option Z :=
  if diff =? 2 ^ Z.log2 diff then Some (Z.log2 diff) else None.

(** A three-bit selector over bits 19 to 21: bit 20 alone prints [.A], bit
    21 alone [.B], bits 20 and 21 together [.A], bits 19 and 20 together
    [.C]. *)
Definition selector_disasm (w : word) : string :=
  match word_bit w 19, word_bit w 20, word_bit w 21 with
  | false, true, false => "OP.A"
  | false, false, true => "OP.B"
  | false, true, true => "OP.A"
  | true, true, false => "OP.C"
  | _, _, _ => "OP"
  end.

Definition selector_parse : string -> exc Instruction :=
  parse_table
    [ ("OP", mkInstruction "OP" [] 7 []);
      ("OP.A", mkInstruction "OP" ["A"] 7 []);
      ("OP.B", mkInstruction "OP" ["B"] 7 []);
      ("OP.C", mkInstruction "OP" ["C"] 7 []) ]%string.

Definition selector_mset : exc InstructionMutationSet :=
  InstructionMutationSet_init selector_parse zero_word "OP"
    (single_flips selector_disasm zero_word 110) (mock_disassembler selector_disasm).

(** Two one-bit selectors at bits 20 and 22, one constant bit between them:
    bit 20 turns [.X] into [.Y], bit 22 turns [.Z] into [.W]. *)
Definition gap_disasm (w : word) : string :=
  match word_bit w 20, word_bit w 22 with
  | false, false => "OP.X.Z"
  | true, false => "OP.Y.Z"
  | false, true => "OP.X.W"
  | true, true => "OP.Y.W"
  end.

Definition gap_parse : string -> exc Instruction :=
  parse_table
    [ ("OP.X.Z", mkInstruction "OP" ["X"; "Z"] 7 []);
      ("OP.Y.Z", mkInstruction "OP" ["Y"; "Z"] 7 []);
      ("OP.X.W", mkInstruction "OP" ["X"; "W"] 7 []);
      ("OP.Y.W", mkInstruction "OP" ["Y"; "W"] 7 []) ]%string.

(** An immediate in bits 8 to 10 that is printed as twice the field plus
    5; the text is the field as one digit. *)
Definition imm_field (w : word) : nat :=
  (if word_bit w 8 then 1 else 0) + (if word_bit w 9 then 2 else 0)
  + (if word_bit w 10 then 4 else 0).

Definition imm_disasm (w : word) : string :=
  String (ascii_of_nat (48 + imm_field w)) EmptyString.

Definition imm_parse (s : string) : exc Instruction :=
  match s with
  | String c EmptyString =>
      Ret (mkInstruction "OP_I" [] 7
             [mkOperand IntIMMOperand (2 * Z.of_nat (nat_of_ascii c - 48) + 5) []])
  | _ => Raise ParseError
  end.

Definition imm_mset : InstructionMutationSet :=
  Eval vm_compute in
    match InstructionMutationSet_init imm_parse zero_word (imm_disasm zero_word)
            (single_flips imm_disasm zero_word 110) (mock_disassembler imm_disasm) with
    | Ret m => m
    | Raise _ => example_mset
    end.

(** A lone flag at bit 20 that prints [.A]; with bit 19 set as well the
    text is [.C]. *)
Definition lone_disasm (w : word) : string :=
  match word_bit w 19, word_bit w 20 with
  | false, true => "OP.A"
  | true, true => "OP.C"
  | _, _ => "OP"
  end.

Definition lone_mset : InstructionMutationSet :=
  Eval vm_compute in
    match InstructionMutationSet_init selector_parse zero_word "OP"
            (single_flips lone_disasm zero_word 110) (mock_disassembler lone_disasm) with
    | Ret m => m
    | Raise _ => example_mset
    end.

Definition lone_settled : InstructionMutationSet :=
  Eval vm_compute in
    match analysis_disambiguate_flags selector_parse (mock_disassembler lone_disasm)
            lone_mset with
    | Ret r => snd r
    | Raise _ => example_mset
    end.


(** The selector set after one and after two runs of
    [analysis_disambiguate_flags]. *)
Definition selector_run (m : exc InstructionMutationSet)
  : exc (bool * InstructionMutationSet) :=
  m <- m;;
  analysis_disambiguate_flags selector_parse (mock_disassembler selector_disasm) m.

Definition selector_settled : InstructionMutationSet :=
  Eval vm_compute in
    match r1 <- selector_run selector_mset;; selector_run (Ret (snd r1)) with
    | Ret r2 => snd r2
    | Raise _ => example_mset
    end.

(** The pipeline on the two selectors with a one-bit gap. *)
Definition gap_pipeline : exc (EncodingRanges * InstructionMutationSet) :=
  instruction_analysis_pipeline gap_parse log2_exact 8 zero_word
    (mock_disassembler gap_disasm).

Definition gap_mset : InstructionMutationSet :=
  Eval vm_compute in
    match gap_pipeline with
    | Ret r => snd r
    | Raise _ => example_mset
    end.

Definition gap_ranges : EncodingRanges :=
  Eval vm_compute in
    match gap_pipeline with
    | Ret r => fst r
    | Raise _ => mkEncodingRanges [] []
    end.


(** Going from [m] to [m'], the operand of [rng] has been extended to the
    left by exactly [n] bits: the [n] bits below the start of [rng] (none
    when [n <= 0]) are operand value bits of operand [oi] now, no other bit
    has become an operand value bit or changed its operand, and the other
    bit sets are as they were. *)
Definition extended_left (m m' : InstructionMutationSet) (rng : EncodingRange)
    (oi : nat) (n : Z) : Prop :=
  let start := Z.of_nat (ER.start rng) in
  (forall b, b ∈ MS.operand_value_bits m'
             <-> b ∈ MS.operand_value_bits m \/ start - n <= b < start)
  /\ (forall b, start - n <= b < start -> MS.bit_to_operand m' !! b = Some oi)
  /\ (forall b, ~ (start - n <= b < start) ->
        MS.bit_to_operand m' !! b = MS.bit_to_operand m !! b)
  /\ MS.opcode_bits m' = MS.opcode_bits m
  /\ MS.operand_modifier_bits m' = MS.operand_modifier_bits m
  /\ MS.predicate_bits m' = MS.predicate_bits m
  /\ MS.modifier_bits m' = MS.modifier_bits m.

(** A nine-bit immediate over bits 7 to 15, printed as the field plus 5;
    the text is the field in two base-64 digits.  With bit 7 alone the
    instruction prints under another key. *)
Definition wide_field (w : word) : nat :=
  fold_right (fun k acc => ((if word_bit w (7 + k) then 2 ^ k else 0) + acc)%nat)
             0%nat (seq 0 9).

Definition wide_disasm (w : word) : string :=
  String (ascii_of_nat (48 + wide_field w / 64))
         (String (ascii_of_nat (48 + wide_field w mod 64)) EmptyString).

Definition wide_parse (s : string) : exc Instruction :=
  match s with
  | String a (String b EmptyString) =>
      let f := ((nat_of_ascii a - 48) * 64 + (nat_of_ascii b - 48))%nat in
      Ret (mkInstruction (if (f =? 1)%nat then "OP_J" else "OP_I") [] 7
             [mkOperand IntIMMOperand (Z.of_nat f + 5) []])
  | _ => Raise ParseError
  end.

Definition wide_mset : InstructionMutationSet :=
  Eval vm_compute in
    match InstructionMutationSet_init wide_parse zero_word (wide_disasm zero_word)
            (single_flips wide_disasm zero_word 110) (mock_disassembler wide_disasm) with
    | Ret m => m
    | Raise _ => example_mset
    end.

Definition wide_range : EncodingRange :=
  ER.set_operand_index (Some 0%nat) (ER.init OPERAND 8 8).

Definition imm_range : EncodingRange :=
  ER.set_operand_index (Some 0%nat) (ER.init OPERAND 8 3).

(** No flag bit has a flag bit directly below it. *)
Definition flags_apart (flag_map : list (Z * string)) : Prop :=
  forall bit, odict_mem bit flag_map = true -> odict_mem (bit - 1) flag_map = false.

(** [demoted_from m m']: [m'] is [m] after some of its flags were taken
    away; the seed, the key and the oracle are the same. *)
Definition demoted_from (m m' : InstructionMutationSet) : Prop :=
  MS.disassembler m' = MS.disassembler m
  /\ MS.key m' = MS.key m
  /\ MS.inst m' = MS.inst m
  /\ forall bit name,
       odict_get (MS.instruction_modifier_bit_flag m') bit = Some name ->
       odict_get (MS.instruction_modifier_bit_flag m) bit = Some name.

(** A mutation set on a 16-byte seed in which every operand bit of the word
    names its operand, as [_analyse] and [analysis_operand_fix] leave it. *)
Definition well_formed (m : InstructionMutationSet) : Prop :=
  List.length (MS.inst m) = 16%nat
  /\ forall i : nat, (i < 128)%nat ->
       Z.of_nat i ∈ MS.operand_value_bits m \/ Z.of_nat i ∈ MS.operand_modifier_bits m ->
       is_Some (MS.bit_to_operand m !! Z.of_nat i).

(** The current range, if CONSTANT, carries a constant. *)
Definition current_ok (st : list EncodingRange * option EncodingRange) : Prop :=
  forall cur, snd st = Some cur -> ER.type cur = CONSTANT -> is_Some (ER.constant cur).

(** ** Bits of a word and fields of an encoding *)

(** Bit [j] of a word: bit [j mod 8] of byte [j / 8]. *)
Definition bit_at (w : word) (j : Z) : bool :=
  Z.testbit (nth (Z.to_nat (j / 8)) w 0) (j mod 8).

(** [_count(type)]. *)
Definition _count (ty : EncodingRangeType) (rs : list EncodingRange) : nat :=
  fold_left (fun (result : nat) (range : EncodingRange) =>
               (result + (if bool_decide (ER.type range = ty) then 1 else 0))%nat)
            rs 0%nat.

Definition modifier_count (rs : list EncodingRange) : nat := _count MODIFIER rs.

(** The arguments [a] with the modifier values [ms]. *)
Definition with_modifiers (ms : list Z) (a : encode_args) : encode_args :=
  mkEncodeArgs (sub_operands a) ms (flags a) (operand_modifiers a) (operand_flags a)
               (predicate a) (stall_cycles a) (yield_flag a) (read_barrier a)
               (write_barrier a) (barrier_mask a).

(** What the loop body of [encode] writes for a range: the value of the
    if/elif chain shifted by [written], or nothing for a falsy value. *)
Definition written_value (value : option Z) (shift : nat) : Z :=
  if truthyZ value then Z.shiftr (default 0 value) (Z.of_nat shift) else 0.

(** A tiling with two MODIFIER ranges around an OPERAND range. *)
Definition modifier_field_ranges : list EncodingRange :=
  [ ER.set_constant (Some 5) (ER.init CONSTANT 0 12);
    ER.set_group_id (Some 1%nat) (ER.init MODIFIER 12 2);
    ER.set_operand_index (Some 0%nat) (ER.init OPERAND 14 8);
    ER.set_group_id (Some 2%nat) (ER.init MODIFIER 22 3);
    ER.set_constant (Some 0) (ER.init CONSTANT 25 103) ].

Definition modifier_field_word : word :=
  Eval vm_compute in
    match encode modifier_field_ranges (default_args [7] [2; 13]) with
    | Ret w => w
    | Raise _ => []
    end.

(** A CONSTANT range over a seed: it names no operand, lies in the seed and
    its constant has the bits of the seed over the range, lowest first. *)
Definition const_seed (inst : word) (r : EncodingRange) : Prop :=
  ER.type r = CONSTANT ->
  ER.operand_index r = None
  /\ (ER.start r + ER.length r <= 8 * List.length inst)%nat
  /\ exists c, ER.constant r = Some c
       /\ forall k, 0 <= k ->
            Z.testbit c k
            = (k <? Z.of_nat (ER.length r)) && bit_at inst (Z.of_nat (ER.start r) + k).

(** The example set on a seed that is not all zeros. *)
Definition seeded_mset : InstructionMutationSet :=
  MS.mk ([165; 15] ++ replicate 14 0) "OP R0"
        (mkInstruction "OP_R" [] 7 [mkOperand (RegOperand "R") 0 []])
        [] no_disassembler "OP_R"
        ∅ {[ 32; 33; 34 ]} {[ 40 ]} [(40, "NEG"%string)] [(22, "E"%string)]
        {[ 32 := 0%nat; 33 := 0%nat; 34 := 0%nat; 40 := 0%nat ]} ∅ ∅
        {[ 12; 13; 14 ]} {[ 20; 22; 63; 64; 65; 70 ]} ∅.

Definition seeded_ranges : EncodingRanges :=
  Eval vm_compute in
    match compute_encoding_ranges seeded_mset with
    | Ret (rs, _) => rs
    | Raise _ => mkEncodingRanges [] []
    end.

Definition seeded_mset' : InstructionMutationSet :=
  Eval vm_compute in
    match compute_encoding_ranges seeded_mset with
    | Ret (_, m') => m'
    | Raise _ => seeded_mset
    end.

Definition seeded_word : word :=
  Eval vm_compute in
    match encode (ranges seeded_ranges) (default_args [3] [1; 2; 3]) with
    | Ret w => w
    | Raise _ => []
    end.

(** ** What the initial classifier establishes *)

(** Every operand bit names its operand, every flag bit is a bit of the
    set its flag belongs to and has a name, and the modifier bits lie above
    the opcode section. *)
Definition classified_ok (m : InstructionMutationSet) : Prop :=
  (forall b, b ∈ MS.operand_value_bits m \/ b ∈ MS.operand_modifier_bits m ->
     is_Some (MS.bit_to_operand m !! b))
  /\ (forall b name, odict_get (MS.instruction_modifier_bit_flag m) b = Some name ->
        b ∈ MS.modifier_bits m /\ name <> EmptyString)
  /\ (forall b name, odict_get (MS.operand_modifier_bit_flag m) b = Some name ->
        b ∈ MS.operand_modifier_bits m /\ name <> EmptyString)
  /\ (forall b, b ∈ MS.modifier_bits m -> 12 < b).

(** The bits that the mutations flip. *)
Definition mutation_bits (mutations : list (Z * word * string)) : list Z :=
  map (fun mutation => fst (fst mutation)) mutations.

(** [bits] holds every classified bit, an opcode bit is nothing else, and a
    modifier bit is no operand bit. *)
Definition classified_apart (bits : list Z) (m : InstructionMutationSet) : Prop :=
  (forall b, b ∈ MS.opcode_bits m \/ b ∈ MS.predicate_bits m
             \/ b ∈ MS.operand_value_bits m \/ b ∈ MS.operand_modifier_bits m
             \/ b ∈ MS.modifier_bits m -> In b bits)
  /\ (forall b, b ∈ MS.opcode_bits m ->
        (b ∉ MS.predicate_bits m) /\ (b ∉ MS.operand_value_bits m)
        /\ (b ∉ MS.operand_modifier_bits m) /\ (b ∉ MS.modifier_bits m))
  /\ (forall b, b ∈ MS.modifier_bits m ->
        (b ∉ MS.operand_value_bits m) /\ (b ∉ MS.operand_modifier_bits m)).

(** ** JSON form of the ranges of an instruction

    [EncodingRanges.to_json_obj] is the dict of the list of range dicts
    under ["ranges"] and of [inst.hex()] under ["inst"];
    [EncodingRanges.from_json_obj] reads the two keys back, the seed with
    [bytes.fromhex]. *)

(** [bytes.hex()]: two lower-case digits for each byte. *)
Definition hex_digit (n : Z) : ascii :=
  nth (Z.to_nat n) (list_ascii_of_string "0123456789abcdef") "?"%char.

Definition hex_byte (b : Z) : string :=
  String (hex_digit (b / 16)) (String (hex_digit (b mod 16)) EmptyString).

Fixpoint hex (w : word) : string :=
  match w with
  | [] => EmptyString
  | b :: w' => (hex_byte b ++ hex w')%string
  end.

(** The value of a hexadecimal digit of either case. *)
Definition hex_value (c : ascii) : option Z :=
  let n := nat_of_ascii c in
  if ((48 <=? n) && (n <=? 57))%nat then Some (Z.of_nat (n - 48))
  else if ((97 <=? n) && (n <=? 102))%nat then Some (Z.of_nat (n - 87))
  else if ((65 <=? n) && (n <=? 70))%nat then Some (Z.of_nat (n - 55))
  else None.

(** ASCII whitespace, which [bytes.fromhex] skips between two bytes. *)
Definition is_ascii_space (c : ascii) : bool :=
  let n := nat_of_ascii c in
  (n =? 32)%nat || ((9 <=? n) && (n <=? 13))%nat.

(** [bytes.fromhex(s)]; [None] is its [ValueError] on text that is not
    pairs of hexadecimal digits. *)
Fixpoint fromhex (s : string) : option word :=
  match s with
  | EmptyString => Some []
  | String c s' =>
      if is_ascii_space c then fromhex s'
      else
        match s' with
        | EmptyString => None
        | String c' s'' =>
            match hex_value c, hex_value c', fromhex s'' with
            | Some h, Some l, Some w => Some (16 * h + l :: w)
            | _, _, _ => None
            end
        end
  end.

(** A value of the dict: the list of range dicts, or a plain value. *)
Inductive jvalue : Type :=
  | JRanges (rs : list (list (string * json)))
  | JPlain (j : json).

Definition ranges_to_json_obj (rs : EncodingRanges) : list (string * jvalue) :=
  [ ("ranges"%string, JRanges (map to_json_obj (ranges rs)));
    ("inst"%string, JPlain (JStr (hex (ranges_inst rs)))) ].

Fixpoint jlookup (k : string) (obj : list (string * jvalue)) : exc jvalue :=
  match obj with
  | [] => Raise KeyError
  | (k', v) :: obj' => if String.eqb k' k then Ret v else jlookup k obj'
  end.

(** [inl tt] is the [ValueError] of [bytes.fromhex]. *)
Definition ranges_from_json_obj (obj : list (string * jvalue))
  : exc (unit + EncodingRanges) :=
  rs <- jlookup "ranges" obj;;
  rs <- match rs with
        | JRanges rs => mapM from_json_obj rs
        | JPlain _ => Raise TypeError
        end;;
  inst <- jlookup "inst" obj;;
  match inst with
  | JPlain (JStr s) =>
      Ret (match fromhex s with
           | Some w => inr (mkEncodingRanges rs w)
           | None => inl tt
           end)
  | _ => Raise TypeError
  end.

(** The two digits of a byte read back as the byte. *)
Definition hex_byte_ok (n : nat) : bool :=
  match hex_byte (Z.of_nat n) with
  | String c (String c' EmptyString) =>
      negb (is_ascii_space c)
      && bool_decide (hex_value c = Some (Z.of_nat n / 16))
      && bool_decide (hex_value c' = Some (Z.of_nat n mod 16))
  | _ => false
  end.


(** ** More of the modifier differences *)

(** The tokens that a difference names: each key of positive count, as
    often as its count. *)
Definition excess_tokens (difference : Counter) : list string :=
  flat_map (fun item : string * Z =>
              if negb (nonempty (fst item)) || (snd item <=? 0) then []
              else replicate (Z.to_nat (snd item)) (fst item))
           difference.

(** ** ISASpec.find_instruction *)

(** An instruction of an [ISASpec], as [find_instruction] reads it: the
    key of its parsed seed, and the spec. *)
Record ISAInstruction : Type := mkISAInstruction {
  isa_key : string;
  isa_spec : InstructionSpec
}.

(** The loop body: the state is [score] and [best]. *)
Definition find_step (target_key : string) (modifiers : Counter)
    (st : Z * option ISAInstruction) (entry : string * ISAInstruction)
  : Z * option ISAInstruction :=
  let inst := snd entry in
  if negb (String.eqb (isa_key inst) target_key) then st
  else
    match subtract_opcode_modis (opcode_modis (isa_spec inst)) modifiers with
    | None => st
    | Some _modifiers =>
        let new_score := counter_sum modifiers - counter_sum _modifiers in
        if fst st <? new_score then (new_score, Some inst) else st
    end.

Definition find_instruction (instructions : list (string * ISAInstruction))
    (target_key : string) (modifiers : list string) : option ISAInstruction :=
  snd (fold_left (find_step target_key (Counter_of modifiers)) instructions (-1, None)).

(** An instruction of the wanted key whose opcode modifiers are all
    requested. *)
Definition isa_matches (target_key : string) (modifiers : list string)
    (inst : ISAInstruction) : Prop :=
  isa_key inst = target_key
  /\ forall t, In t (opcode_modis (isa_spec inst)) -> In t modifiers.

(** The state of the loop after the instructions [seen]. *)
Definition find_state (target_key : string) (modifiers : list string)
    (seen : list (string * ISAInstruction)) (st : Z * option ISAInstruction) : Prop :=
  match snd st with
  | None =>
      fst st = -1
      /\ forall j e, seen !! j = Some e -> ~ isa_matches target_key modifiers (snd e)
  | Some inst =>
      exists i k,
        seen !! i = Some (k, inst) /\ isa_matches target_key modifiers inst
        /\ fst st = Z.of_nat (List.length (opcode_modis (isa_spec inst)))
        /\ forall j e, seen !! j = Some e -> isa_matches target_key modifiers (snd e) ->
             (List.length (opcode_modis (isa_spec (snd e)))
              <= List.length (opcode_modis (isa_spec inst)))%nat
             /\ ((j < i)%nat ->
                 (List.length (opcode_modis (isa_spec (snd e)))
                  < List.length (opcode_modis (isa_spec inst)))%nat)
  end.

(** A spec with the opcode modifier [U32], one modifier group and the flag
    [SAT]. *)
Definition solved_spec : InstructionSpec :=
  mkInstructionSpec ["U32"%string]
    [ER.set_constant (Some 0) (ER.init CONSTANT 0 13);
     ER.set_name (Some "SAT"%string) (ER.init FLAG 13 1);
     ER.set_group_id (Some 1%nat) (ER.init MODIFIER 14 2);
     ER.set_constant (Some 0) (ER.init CONSTANT 16 112)]
    [[(0, ""%string); (1, "HI."%string); (2, "LO."%string)]].

Definition solved_request : list string := ["U32"; "HI"; "SAT"]%string.

Definition solved_values : list Z * gset string :=
  Eval vm_compute in
    match get_modifier_values solved_spec solved_request with
    | Ret (Some r) => r
    | _ => ([], ∅)
    end.


(** ** The canonical numbering of the modifier groups *)

(** Group ids numbered in the order of the bits: a bit has id 1, or the id
    of a bit before it, or one more than the id of a bit before it. *)
Definition numbered_in_order (groups : gmap Z nat) (bits : list Z) : Prop :=
  forall j b, bits !! j = Some b ->
    exists n, groups !! b = Some n /\ (1 <= n)%nat
      /\ (n = 1%nat
          \/ exists i b' m, (i < j)%nat /\ bits !! i = Some b' /\ groups !! b' = Some m
                            /\ (m = n \/ S m = n)).

(** The renumbering loop after the bits [seen], on the groups [filled] of
    step 1. *)
Definition renumbered (filled : gmap Z nat) (seen : list Z) (st : renum_state) : Prop :=
  (forall b, In b seen ->
     exists gid n, filled !! b = Some gid /\ num_map st !! gid = Some n
                   /\ renum_groups st !! b = Some n)
  /\ (forall b, ~ In b seen -> renum_groups st !! b = filled !! b)
  /\ (forall gid n, num_map st !! gid = Some n ->
        (1 <= n <= max_num st)%nat /\ exists b, In b seen /\ filled !! b = Some gid)
  /\ (forall g1 g2 n, num_map st !! g1 = Some n -> num_map st !! g2 = Some n -> g1 = g2)
  /\ (forall n, (1 <= n <= max_num st)%nat -> exists gid, num_map st !! gid = Some n)
  /\ numbered_in_order (renum_groups st) seen.

(** The renumbering loop after the bits [seen], on groups [groups] that are
    numbered in order already: the number map is the identity on
    [1..max_num]. *)
Definition renumbered_fixed (groups : gmap Z nat) (seen : list Z) (st : renum_state)
  : Prop :=
  renum_groups st = groups
  /\ (forall gid n, num_map st !! gid = Some n -> gid = n /\ (1 <= n <= max_num st)%nat)
  /\ (forall n, (1 <= n <= max_num st)%nat -> num_map st !! n = Some n)
  /\ (forall b, In b seen -> exists n, groups !! b = Some n /\ (n <= max_num st)%nat).

(** The fill loop on the groups [orig]: their entries stay, and a fill id
    is above every group id of [orig]. *)
Definition fill_above (orig : gmap Z nat) (st : fill_state) : Prop :=
  (forall k v, orig !! k = Some v -> fill_groups st !! k = Some v)
  /\ (forall k v, orig !! k = None -> fill_groups st !! k = Some v ->
        forall k' v', orig !! k' = Some v' -> (v' < v)%nat)
  /\ (fill_mode st = true -> forall k' v', orig !! k' = Some v' -> (v' < fill_id st)%nat).

(** Bits 20 and 22 share group 5 and bit 63 has group 2; bits 64, 65 and 70
    have no group yet. *)
Definition grouped_mset : InstructionMutationSet :=
  MS.set_modifier_groups {[ 20 := 5%nat; 22 := 5%nat; 63 := 2%nat ]} example_mset.

Definition grouped_mset' : InstructionMutationSet :=
  Eval vm_compute in
    match canonicalize_modifier_groups grouped_mset with
    | Ret m' => m'
    | Raise _ => grouped_mset
    end.

Definition grouped_ranges : EncodingRanges :=
  Eval vm_compute in
    match compute_encoding_ranges grouped_mset with
    | Ret (rs, _) => rs
    | Raise _ => mkEncodingRanges [] []
    end.

(** ** The fixed points of the passes *)

(** The while loop of [analysis_run_fixedpoint] ends after [n] calls of
    [fn] with [r]: the set left by the first call that reports no change,
    or the exception of the first call that raises. *)
Inductive fixedpoint_ends
    (fn : Disassembler -> InstructionMutationSet -> exc (bool * InstructionMutationSet))
    (d : Disassembler)
  : nat -> InstructionMutationSet -> exc InstructionMutationSet -> Prop :=
  | ends_unchanged (m m' : InstructionMutationSet) :
      fn d m = Ret (false, m') -> fixedpoint_ends fn d 1 m (Ret m')
  | ends_raised (m : InstructionMutationSet) (e : exn) :
      fn d m = Raise e -> fixedpoint_ends fn d 1 m (Raise e)
  | ends_changed (n : nat) (m m' : InstructionMutationSet)
                 (r : exc InstructionMutationSet) :
      fn d m = Ret (true, m') -> fixedpoint_ends fn d n m' r ->
      fixedpoint_ends fn d (S n) m r.

(** The bits from -1 up to the end of the seed that are no modifier bits. *)
Definition unclaimed_bits (m : InstructionMutationSet) : list Z :=
  List.filter (fun b => negb (bool_decide (b ∈ MS.modifier_bits m)))
              (Zrange (-1) (8 * Z.of_nat (List.length (MS.inst m)))).

(** The loop state of [analysis_extend_modifiers] against the set [m] it
    started from: the modifier bits only grow, and [changed] tells that a
    bit of the word was added. *)
Definition extended_from (m : InstructionMutationSet)
    (st : InstructionMutationSet * bool) : Prop :=
  MS.modifier_bits m ⊆ MS.modifier_bits (fst st)
  /\ MS.inst (fst st) = MS.inst m
  /\ MS.instruction_modifier_bit_flag (fst st) = MS.instruction_modifier_bit_flag m
  /\ (snd st = true ->
      exists b, -1 <= b < 8 * Z.of_nat (List.length (MS.inst m))
                /\ b ∈ MS.modifier_bits (fst st) /\ b ∉ MS.modifier_bits m).

(** A three-bit selector over bits 18 to 20 that single flips see only at
    bit 20: bit 20 alone prints [.A], bits 19 and 20 together [.C], bits 18
    and 19 together [.B]. *)
Definition ext_disasm (w : word) : string :=
  match word_bit w 18, word_bit w 19, word_bit w 20 with
  | false, false, true => "OP.A"
  | _, true, true => "OP.C"
  | true, true, false => "OP.B"
  | _, _, _ => "OP"
  end.

(** The selector after the flag pass: bits 19 and 20 are modifier bits. *)
Definition ext_settled : InstructionMutationSet :=
  Eval vm_compute in
    match m <- InstructionMutationSet_init selector_parse zero_word "OP"
                 (single_flips ext_disasm zero_word 110) (mock_disassembler ext_disasm);;
          analysis_disambiguate_flags selector_parse (mock_disassembler ext_disasm) m
    with
    | Ret r => snd r
    | Raise _ => example_mset
    end.

(** One run of [analysis_extend_modifiers] on it adds bit 18. *)
Definition ext_extended : InstructionMutationSet :=
  Eval vm_compute in
    match analysis_extend_modifiers selector_parse (mock_disassembler ext_disasm)
            ext_settled with
    | Ret r => snd r
    | Raise _ => example_mset
    end.

(** ** The ranges against the bit sets *)

(** What a range says about a bit it holds: the bit lies in the bit set
    that the loop of [compute_encoding_ranges] tries for the type of the
    range and in none of the sets tried before it, and the range carries
    the group, operand index and flag name recorded for the bit. *)
Definition bit_sound (m : InstructionMutationSet) (r : EncodingRange) (i : nat) : Prop :=
  let b := Z.of_nat i in
  match ER.type r with
  | FLAG =>
      b ∈ MS.modifier_bits m /\ is_Some (ER.name r)
      /\ odict_get (MS.instruction_modifier_bit_flag m) b = ER.name r
  | MODIFIER =>
      b ∈ MS.modifier_bits m
      /\ odict_get (MS.instruction_modifier_bit_flag m) b = None
      /\ is_Some (ER.group_id r) /\ MS.modifier_groups m !! b = ER.group_id r
  | PREDICATE => (b ∉ MS.modifier_bits m) /\ b ∈ MS.predicate_bits m
  | OPERAND =>
      (b ∉ MS.modifier_bits m) /\ (b ∉ MS.predicate_bits m)
      /\ b ∈ MS.operand_value_bits m
      /\ is_Some (ER.operand_index r) /\ MS.bit_to_operand m !! b = ER.operand_index r
  | OPERAND_FLAG =>
      (b ∉ MS.modifier_bits m) /\ (b ∉ MS.predicate_bits m)
      /\ (b ∉ MS.operand_value_bits m) /\ b ∈ MS.operand_modifier_bits m
      /\ is_Some (ER.operand_index r) /\ MS.bit_to_operand m !! b = ER.operand_index r
      /\ is_Some (ER.name r)
      /\ odict_get (MS.operand_modifier_bit_flag m) b = ER.name r
  | OPERAND_MODIFIER =>
      (b ∉ MS.modifier_bits m) /\ (b ∉ MS.predicate_bits m)
      /\ (b ∉ MS.operand_value_bits m) /\ b ∈ MS.operand_modifier_bits m
      /\ is_Some (ER.operand_index r) /\ MS.bit_to_operand m !! b = ER.operand_index r
      /\ odict_get (MS.operand_modifier_bit_flag m) b = None
  | _ =>
      (b ∉ MS.modifier_bits m) /\ (b ∉ MS.predicate_bits m)
      /\ (b ∉ MS.operand_value_bits m) /\ (b ∉ MS.operand_modifier_bits m)
  end.

(** Every range of [rs] is sound at each of its bits. *)
Definition ranges_sound (m : InstructionMutationSet) (rs : list EncodingRange) : Prop :=
  forall r, In r rs ->
    forall i, (ER.start r <= i < ER.start r + ER.length r)%nat -> bit_sound m r i.

(** ** The splitting pass *)

(** Bits [j] and [j + 1] are modifier bits of one group. *)
Definition joined (bits : gset Z) (groups : gmap Z nat) (j : nat) : bool :=
  bool_decide (Z.of_nat j ∈ bits) && bool_decide (Z.of_nat (S j) ∈ bits)
  && bool_decide (groups !! Z.of_nat j = groups !! Z.of_nat (S j)).

(** The neighbouring modifier bits that the canonical numbering of [m]
    keeps in one group. *)
Definition joined_pairs (m : InstructionMutationSet) : list nat :=
  match canonical_groups (MS.modifier_bits m) (MS.modifier_groups m) with
  | Ret groups => List.filter (joined (MS.modifier_bits m) groups) (seq 0 127)
  | Raise _ => []
  end.

(** Two independent one-bit modifiers at bits 20 and 21: bit 20 prints
    [.A] and bit 21 prints [.B]. *)
Definition two_disasm (w : word) : string :=
  match word_bit w 20, word_bit w 21 with
  | false, false => "OP"
  | true, false => "OP.A"
  | false, true => "OP.B"
  | true, true => "OP.A.B"
  end.

Definition two_parse : string -> exc Instruction :=
  parse_table
    [ ("OP", mkInstruction "OP" [] 7 []);
      ("OP.A", mkInstruction "OP" ["A"] 7 []);
      ("OP.B", mkInstruction "OP" ["B"] 7 []);
      ("OP.A.B", mkInstruction "OP" ["A"; "B"] 7 []) ]%string.

(** A set that has the two bits as modifier bits without flag names, as
    the flag pass leaves them when it demotes a flag. *)
Definition two_mset : InstructionMutationSet :=
  MS.mk zero_word "OP" (mkInstruction "OP" [] 7 []) [] (mock_disassembler two_disasm) "OP"
        ∅ ∅ ∅ [] [] ∅ ∅ ∅ ∅ {[ 20; 21 ]} ∅.

Definition two_split : InstructionMutationSet :=
  Eval vm_compute in
    match analysis_modifier_splitting two_parse (mock_disassembler two_disasm) two_mset with
    | Ret r => snd r
    | Raise _ => two_mset
    end.

Definition two_split_ranges : EncodingRanges :=
  Eval vm_compute in
    match compute_encoding_ranges two_split with
    | Ret (rs, _) => rs
    | Raise _ => mkEncodingRanges [] []
    end.


(** ** Enumerating the modifier tables *)

(** [is_invalid(mod)]: ["INVALID" in mod or "??" in mod]. *)
Definition is_invalid (name : string) : bool :=
  match String.index 0 "INVALID" name, String.index 0 "??" name with
  | None, None => false
  | _, _ => true
  end.

(** [basis_find_modifier_difference(basis, mutated)]. *)
Definition basis_find_modifier_difference (basis : Counter) (mutated : list string)
  : string :=
  let difference := counter_subtract (Counter_of mutated) basis in
  fold_left (fun (result : string) (item : string * Z) =>
               if negb (nonempty (fst item)) || (snd item <=? 0)%Z then result
               else (result ++ repeat_dot (fst item) (Z.to_nat (snd item)))%string)
            difference EmptyString.

(** [enumerate_mod]: the field of [modifier] is probed with every value,
    the other modifier values being [initial_values]; [None] when the text
    of probe 0 or of probe 1 does not parse (or there is no probe 1). *)
Definition enumerate_mod (parse : string -> exc Instruction) (rs : EncodingRanges)
    (d : Disassembler) (initial_values : list Z) (modifier : EncodingRange) (idx : nat)
  : exc (option (list (Z * string))) :=
  n <- operand_count (ranges rs);;
  let operand_values := replicate n 0 in
  insts <- mapM (fun probe_val =>
                   values <- list_set initial_values idx probe_val;;
                   encode (ranges rs) (default_args operand_values values))
                (Zrange 0 (2 ^ Z.of_nat (ER.length modifier)));;
  let disasms := disassemble_parallel d insts in
  match disasms with
  | first :: second :: _ =>
      match parse first, parse second with
      | Ret first_parsed, Ret second_parsed =>
          let first_modis := inst_modifiers first_parsed in
          let second_modis := inst_modifiers second_parsed in
          let first_difference := find_modifier_difference second_modis first_modis in
          let basis :=
            counter_remove_zeros
              (fold_left (fun basis modi => counter_add modi (-1) basis)
                         (split_dot first_difference) (Counter_of first_modis)) in
          Ret (Some (concat (imap (fun i asm =>
                                     match parse asm with
                                     | Ret parsed =>
                                         [(Z.of_nat i,
                                           basis_find_modifier_difference
                                             basis (inst_modifiers parsed))]
                                     | Raise _ => []
                                     end)
                                  disasms)))
      | _, _ => Ret None
      end
  | _ => Ret None
  end.

(** [itertools.product] over [val_ranges]: the last position runs fastest. *)
Fixpoint product (val_ranges : list (list Z)) : list (list Z) :=
  match val_ranges with
  | [] => [[]]
  | choices :: rest => flat_map (fun v => map (cons v) (product rest)) choices
  end.

(** The names of a table for [probe_val] that are not invalid. *)
Definition valid_names (probe_val : Z) (res : list (Z * string)) : list string :=
  map snd (List.filter (fun vn => (fst vn =? probe_val) && negb (is_invalid (snd vn))) res).

(** The first valid name for [probe_val] over the tables [results]. *)
Fixpoint first_valid (probe_val : Z) (results : list (list (Z * string)))
  : option string :=
  match results with
  | [] => None
  | res :: results' =>
      match valid_names probe_val res with
      | name :: _ => Some name
      | [] => first_valid probe_val results'
      end
  end.

(** [enumerate_dependent_mod]: the field is enumerated on every basis of
    values of the other fields.  ([modifiers[idx]] is read in the first
    round of the loop, and the loop has at least one round.) *)
Definition enumerate_dependent_mod (parse : string -> exc Instruction)
    (rs : EncodingRanges) (d : Disassembler) (modifiers : list EncodingRange) (idx : nat)
  : exc (list (Z * string)) :=
  _ <- parse (disassemble d (ranges_inst rs));;
  let val_ranges :=
    imap (fun i m => if (i =? idx)%nat then [0]
                     else Zrange 0 (2 ^ Z.of_nat (ER.length m)))
         modifiers in
  modifier <- list_get modifiers idx;;
  results <- foldM (fun (results : list (list (Z * string))) (basis : list Z) =>
                      mods <- enumerate_mod parse rs d basis modifier idx;;
                      Ret (match mods with
                           | Some mods => results ++ [mods]
                           | None => results
                           end))
                   (product val_ranges) [];;
  Ret (concat (map (fun probe_val =>
                      match first_valid probe_val results with
                      | Some name => [(probe_val, name)]
                      | None => []
                      end)
                   (Zrange 0 (2 ^ Z.of_nat (ER.length modifier))))).

(** [enumerate_modifiers(disassembler, initial_values)]: one table of
    [(value, name)] rows for every MODIFIER range. *)
Definition enumerate_modifiers (parse : string -> exc Instruction) (rs : EncodingRanges)
    (d : Disassembler) (initial_values : option (list Z))
  : exc (list (list (Z * string))) :=
  let modifiers := _find MODIFIER (ranges rs) in
  _ <- operand_count (ranges rs);;
  _modi_values <-
    match initial_values with
    | Some (v :: vs) => Ret (v :: vs)
    | _ => mapM (fun rng => get_bit_range (ranges_inst rs) (Z.of_nat (ER.start rng))
                                          (Z.of_nat (ER.start rng + ER.length rng)))
                modifiers
    end;;
  foldM (fun (analysis_result : list (list (Z * string))) (im : nat * EncodingRange) =>
           mod_result <- enumerate_mod parse rs d _modi_values (snd im) (fst im);;
           match mod_result with
           | None => Ret (analysis_result ++ [[]])
           | Some mod_result =>
               if existsb (fun vn => is_invalid (snd vn)) mod_result then
                 dep <- enumerate_dependent_mod parse rs d modifiers (fst im);;
                 Ret (analysis_result ++ [dep])
               else Ret (analysis_result ++ [mod_result])
           end)
        (imap pair modifiers) [].

(** The tables of the two selectors with a one-bit gap. *)
Definition gap_tables : list (list (Z * string)) :=
  Eval vm_compute in
    match enumerate_modifiers gap_parse gap_ranges (mock_disassembler gap_disasm) None with
    | Ret tables => tables
    | Raise _ => []
    end.

(** ** The operand flag pass *)

(** [m'] is [m] with some operand flag names deleted. *)
Definition operand_flags_deleted (m m' : InstructionMutationSet) : Prop :=
  m' = MS.set_operand_modifier_bit_flag (MS.operand_modifier_bit_flag m') m
  /\ (forall bit name, odict_get (MS.operand_modifier_bit_flag m') bit = Some name ->
        odict_get (MS.operand_modifier_bit_flag m) bit = Some name)
  /\ (List.length (MS.operand_modifier_bit_flag m')
      <= List.length (MS.operand_modifier_bit_flag m))%nat.

(** A register operand whose bit 40 prints a minus sign; with bit 41 set
    as well the operand is printed between bars. *)
Definition neg_disasm (w : word) : string :=
  match word_bit w 40, word_bit w 41 with
  | true, false => "OP -R0"
  | true, true => "OP |R0|"
  | _, _ => "OP R0"
  end.

Definition neg_parse : string -> exc Instruction :=
  parse_table
    [ ("OP R0", mkInstruction "OP_R" [] 7 [mkOperand (RegOperand "R") 0 []]);
      ("OP -R0", mkInstruction "OP_R" [] 7 [mkOperand (RegOperand "R") 0 ["NEG"]]);
      ("OP |R0|", mkInstruction "OP_R" [] 7 [mkOperand (RegOperand "R") 0 ["ABS"]]) ]%string.

Definition neg_mset : InstructionMutationSet :=
  MS.mk zero_word "OP R0" (mkInstruction "OP_R" [] 7 [mkOperand (RegOperand "R") 0 []])
        [] (mock_disassembler neg_disasm) "OP_R"
        ∅ {[ 32; 33; 34 ]} {[ 40 ]} [(40, "NEG"%string)] []
        {[ 32 := 0%nat; 33 := 0%nat; 34 := 0%nat; 40 := 0%nat ]} ∅ ∅ ∅ ∅ ∅.

Definition neg_settled : InstructionMutationSet :=
  Eval vm_compute in
    match analysis_disambiguate_operand_flags neg_parse (mock_disassembler neg_disasm)
            neg_mset with
    | Ret r => snd r
    | Raise _ => neg_mset
    end.

(** ** The gaps that the coalescing pass absorbs *)






(** ** The error monad *)

Lemma foldM_app {S A} (body : S -> A -> exc S) xs ys st :
  foldM body (xs ++ ys) st = (st' <- foldM body xs st;; foldM body ys st').
Proof.
  revert st. induction xs as [|x xs IH]; intros st; simpl; [reflexivity|].
  destruct (body st x); simpl; [apply IH | reflexivity].
Qed.

Lemma bind_Ret_inv {A B} (f : A -> exc B) (m : exc A) (b : B) :
  bind m f = Ret b -> exists a, m = Ret a /\ f a = Ret b.
Proof. destruct m; simpl; [eauto | discriminate]. Qed.

(** ** Properties of the range model and of the encoder *)

Lemma EncodingRangeType_of_value_value (t : EncodingRangeType) :
  EncodingRangeType_of_value (EncodingRangeType_value t) = Some t.
Proof. destruct t; reflexivity. Qed.

Lemma as_nat_JNat (n : nat) : as_nat (JNat n) = Ret n.
Proof.
  unfold as_nat, JNat.
  destruct (Z.leb_spec 0 (Z.of_nat n)) as [_|H]; [|lia].
  now rewrite Nat2Z.id.
Qed.

Lemma as_opt_nat_JNat (o : option nat) : as_opt_nat (json_of_opt JNat o) = Ret o.
Proof.
  destruct o as [n|]; [|reflexivity].
  change (bind (as_nat (JNat n)) (fun n => Ret (Some n)) = Ret (Some n)).
  now rewrite as_nat_JNat.
Qed.

Lemma as_opt_Z_JInt (o : option Z) : as_opt_Z (json_of_opt JInt o) = Ret o.
Proof. now destruct o. Qed.

Lemma as_opt_str_JStr (o : option string) : as_opt_str (json_of_opt JStr o) = Ret o.
Proof. now destruct o. Qed.

(** C9: rebuilding a range from its JSON object gives the range back, field
    by field: type, start, length, operand_index, group_id, name, constant,
    inverse, shift and offset are all preserved. *)
Theorem from_json_obj_to_json_obj (r : EncodingRange) :
  from_json_obj (to_json_obj r) = Ret r.
Proof.
  destruct r as [ty st len oi g nm c inv sh off].
  unfold from_json_obj, to_json_obj, kw_required, kw_default.
  cbn -[as_nat as_opt_nat as_opt_Z as_opt_str EncodingRangeType_of_value
       json_of_opt JNat].
  rewrite EncodingRangeType_of_value_value; cbn [bind].
  repeat (first [ rewrite as_nat_JNat | rewrite as_opt_nat_JNat
                | rewrite as_opt_str_JStr | rewrite as_opt_Z_JInt ]; cbn [bind]).
  reflexivity.
Qed.

(** C1: at operand index 0 the second field of a split operand is not
    shifted: both fields receive the low byte of 0x1234, where the same
    ranges at operand index 1 receive 0x34 and then 0x12. *)
Theorem encode_split_operand_index_zero :
  encode (split_operand 0) (default_args [0x1234] [])
    = Ret [0x34; 0x34; 0; 0; 0; 0; 0; 0; 0; 0; 0; 0; 0; 0; 0; 0]
  /\ encode (split_operand 1) (default_args [0; 0x1234] [])
    = Ret [0x34; 0x12; 0; 0; 0; 0; 0; 0; 0; 0; 0; 0; 0; 0; 0; 0].
Proof. split; vm_compute; reflexivity. Qed.

Lemma In_Zrange (lo hi i : Z) : In i (Zrange lo hi) -> lo <= i < hi.
Proof.
  unfold Zrange. rewrite in_map_iff. intros (k & <- & Hk).
  apply in_seq in Hk. lia.
Qed.

Lemma write_bit_ok (w : word) (i : Z) (b : bool) :
  0 <= i < 8 * Z.of_nat (List.length w) ->
  exists w', write_bit w i b = Ret w' /\ List.length w' = List.length w.
Proof.
  intros Hi. unfold write_bit.
  assert (Hdiv : i / 8 < Z.of_nat (List.length w))
    by (apply Z.div_lt_upper_bound; lia).
  destruct (Z.leb_spec 0 i); [|lia].
  destruct (Z.ltb_spec (i / 8) (Z.of_nat (List.length w))); [|lia].
  cbn [andb]. eexists; split; [reflexivity|]. apply length_insert.
Qed.

Lemma write_bits_ok (f : Z -> bool) (ixs : list Z) (w : word) :
  (forall i, In i ixs -> 0 <= i < 8 * Z.of_nat (List.length w)) ->
  exists w', foldM (fun (w' : word) (i : Z) => write_bit w' i (f i)) ixs w = Ret w'
             /\ List.length w' = List.length w.
Proof.
  revert w. induction ixs as [|i ixs IH]; intros w Hin; cbn [foldM].
  - eauto.
  - destruct (write_bit_ok w i (f i)) as (w1 & -> & Hlen); [apply Hin; now left|].
    cbn [bind]. destruct (IH w1) as (w2 & -> & Hlen2).
    + intros j Hj. rewrite Hlen. apply Hin. now right.
    + exists w2. split; [reflexivity | congruence].
Qed.

Lemma set_bit_range_ok (w : word) (lo hi value : Z) :
  0 <= lo -> hi <= 8 * Z.of_nat (List.length w) ->
  exists w', set_bit_range w lo hi value = Ret w' /\ List.length w' = List.length w.
Proof.
  intros Hlo Hhi. unfold set_bit_range.
  apply (write_bits_ok (fun i => Z.testbit value (i - lo))).
  intros i Hi. apply In_Zrange in Hi. lia.
Qed.

Lemma operand_count_acc (rs : list EncodingRange) (acc n : nat) :
  foldM (fun (result : nat) (range : EncodingRange) =>
           if bool_decide (ER.type range = OPERAND) then
             match ER.operand_index range with
             | Some i => Ret (Nat.max result (i + 1))
             | None => Raise TypeError
             end
           else Ret result) rs acc = Ret n ->
  (acc <= n)%nat /\
  forall r, In r rs -> ER.type r = OPERAND ->
            exists i, ER.operand_index r = Some i /\ (i < n)%nat.
Proof.
  revert acc. induction rs as [|r rs IH]; intros acc; cbn [foldM].
  - intros [= <-]. split; [lia | intros ? []].
  - intros H. apply bind_Ret_inv in H as (acc' & Hstep & Hrest).
    apply IH in Hrest as [Hle Hall]. case_bool_decide as Hty.
    + destruct (ER.operand_index r) as [i|] eqn:Hi; [|discriminate].
      injection Hstep as <-. split; [lia|].
      intros r' [<-|Hin] Hty'; [exists i; split; [assumption | lia] | now apply Hall].
    + injection Hstep as <-. split; [assumption|].
      intros r' [<-|Hin] Hty'; [contradiction | now apply Hall].
Qed.

(** Every OPERAND range indexes below [operand_count()]. *)
Lemma operand_count_bound (rs : list EncodingRange) (n : nat) :
  operand_count rs = Ret n ->
  forall r, In r rs -> ER.type r = OPERAND ->
            exists i, ER.operand_index r = Some i /\ (i < n)%nat.
Proof. intros H. now apply operand_count_acc in H as [_ H]. Qed.

Lemma list_get_lt {A} (l : list A) (i : nat) :
  (i < List.length l)%nat -> exists x, list_get l i = Ret x.
Proof.
  intros Hi. unfold list_get.
  destruct (lookup_lt_is_Some_2 l i Hi) as [x ->]. eauto.
Qed.

Lemma encode_value_ok (a : encode_args) (modifier_i : nat) (rng : EncodingRange) :
  (ER.type rng = OPERAND ->
   exists i, ER.operand_index rng = Some i /\ (i < List.length (sub_operands a))%nat) ->
  exists vm, encode_value a modifier_i rng = Ret vm.
Proof.
  intros Hop. unfold encode_value.
  destruct (ER.type rng) eqn:Hty; try (eexists; reflexivity).
  - destruct Hop as (i & -> & Hi); [reflexivity|].
    destruct (list_get_lt (sub_operands a) i Hi) as [x ->]. cbn [bind]. eauto.
  - destruct (Nat.ltb_spec modifier_i (List.length (modifiers a))) as [Hlt|Hge].
    + destruct (list_get_lt (modifiers a) modifier_i Hlt) as [x ->]. cbn [bind]. eauto.
    + eauto.
Qed.

Lemma encode_body_ok (a : encode_args) (st : encode_state) (rng : EncodingRange) :
  List.length (enc_result st) = 16%nat ->
  (ER.start rng + ER.length rng <= 128)%nat ->
  (ER.type rng = OPERAND ->
   exists i, ER.operand_index rng = Some i /\ (i < List.length (sub_operands a))%nat) ->
  exists st', encode_body a st rng = Ret st' /\ List.length (enc_result st') = 16%nat.
Proof.
  intros Hlen Hin Hop. unfold encode_body.
  destruct (encode_value_ok a (enc_modifier_i st) rng Hop) as ([value mi] & ->).
  cbn [bind]. destruct (truthyZ value).
  - match goal with |- context [set_bit_range ?w ?lo ?hi ?v] =>
      destruct (set_bit_range_ok w lo hi v) as (w' & -> & Hw') end;
      [lia | rewrite Hlen; lia |].
    cbn [bind]. eexists; split; [reflexivity|]. cbn [enc_result]. congruence.
  - eexists; split; [reflexivity|]. assumption.
Qed.

Lemma encode_loop_ok (a : encode_args) (rs : list EncodingRange) (st : encode_state) :
  List.length (enc_result st) = 16%nat ->
  Forall (fun r => (ER.start r + ER.length r <= 128)%nat) rs ->
  (forall r, In r rs -> ER.type r = OPERAND ->
     exists i, ER.operand_index r = Some i /\ (i < List.length (sub_operands a))%nat) ->
  exists st', foldM (encode_body a) rs st = Ret st'
              /\ List.length (enc_result st') = 16%nat.
Proof.
  revert st. induction rs as [|r rs IH]; intros st Hlen Hin Hop; cbn [foldM].
  - eauto.
  - inversion Hin as [|? ? Hr Hrs]; subst.
    destruct (encode_body_ok a st r Hlen Hr) as (st1 & -> & Hlen1).
    { apply Hop. now left. }
    cbn [bind]. apply IH; [assumption | assumption |].
    intros r' Hr'. apply Hop. now right.
Qed.




(** ** Counters and analyse_modifiers *)

Lemma counter_get_add (k t : string) (d : Z) (c : Counter) :
  counter_get (counter_add k d c) t
  = counter_get c t + (if String.eqb k t then d else 0).
Proof.
  induction c as [|[k' v] c IH]; cbn [counter_add counter_get].
  - destruct (String.eqb k t); lia.
  - destruct (String.eqb_spec k' k) as [->|Hne]; cbn [counter_get].
    + destruct (String.eqb k t); lia.
    + rewrite IH. destruct (String.eqb_spec k' t) as [->|]; [|reflexivity].
      destruct (String.eqb_spec k t); [congruence | lia].
Qed.

Lemma counter_add_keys (k x : string) (d : Z) (c : Counter) :
  In x (map fst (counter_add k d c)) <-> x = k \/ In x (map fst c).
Proof.
  induction c as [|[k' v] c IH]; cbn [counter_add map fst In].
  - intuition.
  - destruct (String.eqb_spec k' k) as [->|Hne]; cbn [map fst In].
    + intuition.
    + rewrite IH. intuition.
Qed.

Lemma counter_add_NoDup (k : string) (d : Z) (c : Counter) :
  List.NoDup (map fst c) -> List.NoDup (map fst (counter_add k d c)).
Proof.
  induction c as [|[k' v] c IH]; cbn [counter_add map fst]; intros Hnd.
  - constructor; [simpl; tauto | constructor].
  - inversion Hnd as [|? ? Hnotin Hnd']; subst.
    destruct (String.eqb_spec k' k) as [->|Hne]; cbn [map fst].
    + now constructor.
    + constructor; [|now apply IH].
      rewrite counter_add_keys. intros [->|]; [congruence | contradiction].
Qed.

Lemma counter_get_notin (c : Counter) (t : string) :
  ~ In t (map fst c) -> counter_get c t = 0.
Proof.
  induction c as [|[k v] c IH]; cbn [counter_get map fst In]; intros Hn.
  - reflexivity.
  - destruct (String.eqb_spec k t); [tauto | apply IH; tauto].
Qed.

Lemma counter_get_In (c : Counter) (k : string) (v : Z) :
  List.NoDup (map fst c) -> In (k, v) c -> counter_get c k = v.
Proof.
  induction c as [|[k' v'] c IH]; cbn [counter_get map fst]; intros Hnd Hin.
  - destruct Hin.
  - inversion Hnd as [|? ? Hnotin Hnd']; subst.
    destruct Hin as [[= -> ->]|Hin].
    + now rewrite String.eqb_refl.
    + destruct (String.eqb_spec k' k) as [->|]; [|now apply IH].
      exfalso. apply Hnotin. apply in_map_iff. now exists (k, v).
Qed.

Lemma counter_get_nonzero_In (c : Counter) (k : string) :
  counter_get c k <> 0 -> In (k, counter_get c k) c.
Proof.
  induction c as [|[k' v'] c IH]; cbn [counter_get]; intros Hnz.
  - congruence.
  - destruct (String.eqb_spec k' k) as [->|]; [now left | right; now apply IH].
Qed.

Lemma Counter_of_acc (tokens : list string) (c : Counter) :
  List.NoDup (map fst c) ->
  List.NoDup (map fst (fold_left (fun c k => counter_add k 1 c) tokens c))
  /\ forall t, counter_get (fold_left (fun c k => counter_add k 1 c) tokens c) t
               = counter_get c t + token_count tokens t.
Proof.
  revert c. induction tokens as [|k tokens IH]; intros c Hnd; cbn [fold_left].
  - split; [assumption|]. intros t. unfold token_count. simpl. lia.
  - destruct (IH (counter_add k 1 c)) as [Hnd' Hget]; [now apply counter_add_NoDup|].
    split; [assumption|]. intros t. rewrite Hget, counter_get_add.
    unfold token_count. cbn [count_occ].
    destruct (String.eqb_spec k t) as [->|Hne].
    + destruct (string_dec t t); [lia | congruence].
    + destruct (string_dec k t); [congruence | lia].
Qed.

Lemma Counter_of_spec (tokens : list string) :
  List.NoDup (map fst (Counter_of tokens))
  /\ forall t, counter_get (Counter_of tokens) t = token_count tokens t.
Proof.
  destruct (Counter_of_acc tokens []) as [Hnd Hget]; [constructor|].
  split; [assumption|]. intros t. now rewrite Hget.
Qed.

Lemma counter_subtract_spec (other c : Counter) :
  List.NoDup (map fst other) -> List.NoDup (map fst c) ->
  List.NoDup (map fst (counter_subtract c other))
  /\ forall t, counter_get (counter_subtract c other) t
               = counter_get c t - counter_get other t.
Proof.
  unfold counter_subtract. revert c.
  induction other as [|[k v] other IH]; intros c Hndo Hnd; cbn [fold_left fst snd].
  - split; [assumption|]. intros t. simpl. lia.
  - inversion Hndo as [|? ? Hnotin Hndo']; subst.
    destruct (IH (counter_add k (- v) c)) as [Hnd' Hget];
      [assumption | now apply counter_add_NoDup|].
    split; [assumption|]. intros t. rewrite Hget, counter_get_add.
    cbn [counter_get]. destruct (String.eqb_spec k t) as [->|Hne]; [|lia].
    rewrite (counter_get_notin other t) by assumption. lia.
Qed.

(** The difference counter holds [mutated - original] for every token. *)
Lemma difference_spec (original mutated : list string) :
  let difference := counter_subtract (Counter_of mutated) (Counter_of original) in
  List.NoDup (map fst difference)
  /\ forall t, counter_get difference t
               = token_count mutated t - token_count original t.
Proof.
  destruct (Counter_of_spec original) as [Hndo Hgo].
  destruct (Counter_of_spec mutated) as [Hndm Hgm].
  destruct (counter_subtract_spec (Counter_of original) (Counter_of mutated) Hndo Hndm)
    as [Hnd Hget].
  split; [assumption|]. intros t. now rewrite Hget, Hgo, Hgm.
Qed.

(** What the loop of [analyse_modifiers] has computed after a run of items. *)
Lemma analyse_loop (c : Counter) :
  let st := fold_left analyse_step c (mkAnalyse None false false) in
  effected st = has_nonzero c
  /\ not_flag st = has_neg c || (2 <=? List.length (ones c))%nat
  /\ flag_candidate st = if not_flag st then None else hd_error (map fst (ones c)).
Proof.
  induction c as [|[k v] c IH] using rev_ind; [repeat split|].
  cbv zeta in IH |- *. rewrite fold_left_app. cbn [fold_left].
  destruct (fold_left analyse_step c _) as [fc nf eff].
  cbn [effected not_flag flag_candidate] in IH. destruct IH as (Heff & Hnf & Hfc).
  unfold has_nonzero, has_neg, ones in *.
  rewrite !existsb_app, List.filter_app, List.length_app, List.map_app.
  cbn [existsb List.filter snd orb]. rewrite !orb_false_r.
  unfold analyse_step.
  destruct (Z.eqb_spec v 0) as [->|Hv0].
  { cbn [Z.ltb Z.eqb negb Z.compare effected not_flag flag_candidate List.length map].
    rewrite !orb_false_r, Nat.add_0_r, app_nil_r. auto. }
  destruct (Z.leb_spec v 0) as [Hneg|Hpos].
  { cbn [effected not_flag flag_candidate negb].
    destruct (Z.ltb_spec v 0); [|lia].
    rewrite !orb_true_r. cbn [orb]. auto. }
  destruct (Z.ltb_spec v 0); [lia|]. rewrite orb_false_r.
  destruct (Z.eqb_spec v 1) as [->|Hv1]; cbn [andb negb].
  - cbn [List.length map fst]. destruct nf; cbn [negb effected not_flag flag_candidate].
    + subst fc. rewrite orb_true_r. split; [reflexivity|]. split; [|reflexivity].
      symmetry in Hnf. apply orb_true_iff in Hnf as [->|Hlen]; [reflexivity|].
      apply Nat.leb_le in Hlen. symmetry. rewrite orb_true_iff. right.
      apply Nat.leb_le. lia.
    + rewrite orb_true_r. symmetry in Hnf. apply orb_false_iff in Hnf as [Hnn Hlen].
      apply Nat.leb_gt in Hlen. rewrite Hnn. cbn [orb].
      destruct (List.filter _ c) as [|x [|y l]] eqn:Hones; cbn [List.length] in Hlen; [| |lia].
      * subst fc. cbn [map hd_error app List.length Nat.add Nat.leb
                       effected not_flag flag_candidate]. auto.
      * subst fc. cbn [map hd_error app List.length Nat.add Nat.leb
                       effected not_flag flag_candidate]. auto.
  - cbn [effected not_flag flag_candidate List.length map].
    rewrite orb_true_r, Nat.add_0_r, app_nil_r. auto.
Qed.

Lemma NoDup_map_filter {A B} (f : A -> B) (p : A -> bool) (l : list A) :
  List.NoDup (map f l) -> List.NoDup (map f (List.filter p l)).
Proof.
  induction l as [|x l IH]; cbn [map List.filter]; intros Hnd; [constructor|].
  inversion Hnd as [|? ? Hnotin Hnd']; subst.
  destruct (p x); cbn [map]; [|now apply IH].
  constructor; [|now apply IH].
  intros Hin. apply Hnotin. apply in_map_iff in Hin as (y & Hy & Hin).
  apply filter_In in Hin as [Hin _]. apply in_map_iff. eauto.
Qed.

(** C5: [analyse_modifiers] reports a change iff some token count differs
    between the two lists, and proposes a flag name iff exactly one token
    has difference +1 and no token has a negative difference; the name it
    proposes is that token, and otherwise the candidate is [None]. *)
Theorem analyse_modifiers_spec (original mutated : list string) :
  let diff t := token_count mutated t - token_count original t in
  (fst (analyse_modifiers original mutated) = true <-> exists t, diff t <> 0)
  /\ forall n, snd (analyse_modifiers original mutated) = Some n <->
       diff n = 1 /\ (forall t, diff t = 1 -> t = n) /\ (forall t, 0 <= diff t).
Proof.
  intros diff. subst diff. unfold analyse_modifiers. cbv zeta. cbn [fst snd].
  destruct (difference_spec original mutated) as [Hnd Hget]. cbv zeta in Hnd, Hget.
  set (c := counter_subtract (Counter_of mutated) (Counter_of original)) in *.
  destruct (analyse_loop c) as (Heff & Hnf & Hfc). cbv zeta in Heff, Hnf, Hfc.
  destruct (fold_left analyse_step c _) as [fc nf eff].
  cbn [effected not_flag flag_candidate] in *.
  split.
  - rewrite Heff. unfold has_nonzero. rewrite existsb_exists. split.
    + intros ([k v] & Hin & Hv). cbn [snd] in Hv. exists k.
      rewrite <- Hget, (counter_get_In c k v Hnd Hin).
      now destruct (Z.eqb_spec v 0).
    + intros (t & Ht). rewrite <- Hget in Ht.
      exists (t, counter_get c t). split; [now apply counter_get_nonzero_In|].
      cbn [snd]. now destruct (Z.eqb_spec (counter_get c t) 0).
  - intros n. subst fc nf. split.
    + destruct (has_neg c) eqn:Hneg; [discriminate|]. cbn [orb].
      destruct (Nat.leb_spec 2 (List.length (ones c))) as [|Hlen]; [discriminate|].
      destruct (ones c) as [|[k v] [|y l]] eqn:Hones; cbn [List.length] in Hlen;
        [discriminate| |lia].
      cbn [map hd_error fst]. intros [= ->].
      assert (Hk : In (n, v) (ones c)) by (rewrite Hones; now left).
      apply filter_In in Hk as [Hk Hv1]. cbn [snd] in Hv1. apply Z.eqb_eq in Hv1. subst v.
      split; [|split].
      * now rewrite <- Hget, (counter_get_In c n 1 Hnd Hk).
      * intros t Ht. rewrite <- Hget in Ht.
        assert (Hin : In (t, 1) (ones c)).
        { apply filter_In. split; [|reflexivity].
          rewrite <- Ht. apply counter_get_nonzero_In. lia. }
        rewrite Hones in Hin. destruct Hin as [[= ->]|[]]. reflexivity.
      * intros t. rewrite <- Hget.
        destruct (Z.le_gt_cases 0 (counter_get c t)) as [|Hlt]; [assumption|].
        assert (Hex : has_neg c = true); [|congruence].
        apply existsb_exists. exists (t, counter_get c t).
        split; [apply counter_get_nonzero_In; lia | now apply Z.ltb_lt].
    + intros (Hn & Huniq & Hpos).
      assert (Hneg : has_neg c = false).
      { destruct (has_neg c) eqn:Hneg; [|reflexivity].
        apply existsb_exists in Hneg as ([k v] & Hin & Hv). cbn [snd] in Hv.
        apply Z.ltb_lt in Hv. specialize (Hpos k).
        rewrite <- Hget, (counter_get_In c k v Hnd Hin) in Hpos. lia. }
      rewrite Hneg. cbn [orb].
      assert (Hall : forall x, In x (ones c) -> x = (n, 1)).
      { intros [k v] Hx. apply filter_In in Hx as [Hx Hv]. cbn [snd] in Hv.
        apply Z.eqb_eq in Hv. subst v. f_equal. apply Huniq.
        now rewrite <- Hget, (counter_get_In c k 1 Hnd Hx). }
      assert (Hin : In (n, 1) (ones c)).
      { apply filter_In. split; [|reflexivity].
        rewrite <- Hget in Hn. rewrite <- Hn. apply counter_get_nonzero_In. lia. }
      pose proof (NoDup_map_filter fst (fun kv => snd kv =? 1) c Hnd) as Hndo.
      fold (ones c) in Hndo.
      destruct (ones c) as [|x [|y l]] eqn:Hones; [destruct Hin| |].
      * rewrite (Hall x) by now left. reflexivity.
      * exfalso. rewrite (Hall x), (Hall y) in Hndo by (simpl; tauto).
        cbn [map fst] in Hndo. inversion Hndo as [|? ? Hnotin _]. apply Hnotin. now left.
Qed.

(** ** The modifier-value solver *)

Lemma subtract_opcode_modis_missing (modis : list string) (counts : Counter) (m : string) :
  In m modis -> counter_get counts m <= 0 -> subtract_opcode_modis modis counts = None.
Proof.
  revert counts. induction modis as [|x modis IH]; intros counts Hin Hget; [destruct Hin|].
  cbn [subtract_opcode_modis].
  destruct (Z.ltb_spec (counter_get (counter_add x (-1) counts) x) 0) as [|Hge];
    [reflexivity|].
  rewrite counter_get_add, String.eqb_refl in Hge.
  destruct (String.eqb_spec x m) as [->|Hne]; [lia|].
  destruct Hin as [->|Hin]; [congruence|].
  apply IH; [assumption|].
  rewrite counter_get_add. destruct (String.eqb_spec x m); [congruence | lia].
Qed.

(** A request that lacks one of the spec's [opcode_modis] is refused. *)
Lemma get_modifier_values_missing_opcode_modi
    (spec : InstructionSpec) (request : list string) (m : string) :
  In m (opcode_modis spec) -> ~ In m request ->
  get_modifier_values spec request = Ret None.
Proof.
  intros Hin Hnot. unfold get_modifier_values.
  rewrite (subtract_opcode_modis_missing _ _ m Hin); [reflexivity|].
  destruct (Counter_of_spec request) as [_ ->]. unfold token_count.
  rewrite (proj1 (count_occ_not_In string_dec request m) Hnot). simpl. lia.
Qed.

Lemma get_modifier_values_missing_opcode_modi_witness :
  get_modifier_values flag_in_seed_spec [] = Ret None.
Proof.
  apply (get_modifier_values_missing_opcode_modi flag_in_seed_spec [] "E"%string).
  - vm_compute. now left.
  - intros [].
Defined.

(** C6: the seed modifier [E] is an opcode modifier and also the name of a
    FLAG range; the request [E] contains every opcode modifier and leaves no
    token unexplained, and the solver still answers [None]: the count of
    [E], 0 after the opcode modifiers are taken, is not removed and the flag
    loop takes it to -1. *)
Theorem get_modifier_values_flag_in_seed :
  opcode_modis flag_in_seed_spec = ["E"%string]
  /\ get_flags (spec_ranges flag_in_seed_spec) = [Some "E"%string]
  /\ subtract_opcode_modis (opcode_modis flag_in_seed_spec) (Counter_of ["E"%string])
     = Some [("E"%string, 0)]
  /\ fst (match_flags (get_flags (spec_ranges flag_in_seed_spec)) [("E"%string, 0)])
     = [("E"%string, -1)]
  /\ get_modifier_values flag_in_seed_spec ["E"%string] = Ret None.
Proof. repeat split; vm_compute; reflexivity. Qed.

(** ** Range construction *)

Lemma chain_app (lo hi : nat) (xs ys : list EncodingRange) :
  chain lo (xs ++ ys) hi <-> exists mid, chain lo xs mid /\ chain mid ys hi.
Proof.
  revert lo. induction xs as [|x xs IH]; intros lo; cbn [app chain].
  - split; [eauto | intros (mid & -> & H); exact H].
  - rewrite IH. split.
    + intros (Hs & Hl & mid & H1 & H2). exists mid. tauto.
    + intros (mid & (Hs & Hl & H1) & H2). repeat split; try assumption. now exists mid.
Qed.

Lemma chain_snoc (lo hi : nat) (rs : list EncodingRange) (r : EncodingRange) :
  chain lo (rs ++ [r]) hi
  <-> chain lo rs (ER.start r) /\ (1 <= ER.length r)%nat
      /\ (ER.start r + ER.length r = hi)%nat.
Proof.
  rewrite chain_app. cbn [chain]. split.
  - intros (mid & H1 & Hs & Hl & He). subst mid. auto.
  - intros (H1 & Hl & He). exists (ER.start r). auto.
Qed.

Lemma chain_bounds (lo hi : nat) (rs : list EncodingRange) :
  chain lo rs hi ->
  (lo <= hi)%nat
  /\ forall r, In r rs -> (lo <= ER.start r)%nat /\ (ER.start r + ER.length r <= hi)%nat.
Proof.
  revert lo. induction rs as [|x rs IH]; intros lo; cbn [chain].
  - intros ->. split; [lia | intros ? []].
  - intros (Hs & Hl & Hc). apply IH in Hc as [Hle Hall]. split; [lia|].
    intros r [<-|Hin]; [lia|]. apply Hall in Hin. lia.
Qed.

Lemma chain_sum (lo hi : nat) (rs : list EncodingRange) :
  chain lo rs hi -> (lo + list_sum (map ER.length rs) = hi)%nat.
Proof.
  revert lo. induction rs as [|x rs IH]; intros lo; simpl.
  - lia.
  - intros (Hs & Hl & Hc). apply IH in Hc. lia.
Qed.

Lemma chain_adjacent (lo hi : nat) (rs : list EncodingRange) (k : nat)
    (r r' : EncodingRange) :
  chain lo rs hi -> rs !! k = Some r -> rs !! S k = Some r' ->
  ER.start r' = (ER.start r + ER.length r)%nat /\ (ER.start r < ER.start r')%nat.
Proof.
  revert lo k. induction rs as [|x rs IH]; intros lo k; [discriminate|].
  cbn [chain]. intros (Hs & Hl & Hc) Hk Hk'. destruct k as [|k].
  - injection Hk as <-. destruct rs as [|y rs]; [discriminate|].
    injection Hk' as <-. cbn [chain] in Hc. lia.
  - exact (IH _ _ Hc Hk Hk').
Qed.

Lemma chain_head (hi : nat) (rs : list EncodingRange) :
  chain 0 rs hi -> (0 < hi)%nat -> exists r, hd_error rs = Some r /\ ER.start r = 0%nat.
Proof.
  destruct rs as [|r rs]; cbn [chain].
  - lia.
  - intros (Hs & _) _. exists r. auto.
Qed.

Lemma classify_shape (m : InstructionMutationSet) (i : nat) (c : classified) :
  classify m i = Ret c ->
  match c with
  | Single r | NewRange r => ER.start r = i /\ ER.length r = 1%nat
  | Unclassified => True
  end.
Proof.
  unfold classify. intros H.
  repeat match type of H with
         | (if ?b then _ else _) = _ => destruct b
         | match ?o with Some _ => _ | None => _ end = _ => destruct o
         | bind _ _ = Ret _ => apply bind_Ret_inv in H as (? & _ & H)
         | Ret _ = Ret _ => injection H as <-
         end; cbn; auto.
Qed.

Lemma control_code_range_shape (inst : word) (i offset : nat)
    (codes : list (EncodingRangeType * nat)) (r : EncodingRange) :
  control_code_range inst i offset codes = Ret (Some r) ->
  ER.start r = i /\ ER.length r = 1%nat /\ In (ER.type r) (map fst codes)
  /\ ER.operand_index r = None /\ ER.group_id r = None.
Proof.
  revert offset. induction codes as [|[rtype len] codes IH]; intros offset;
    cbn [control_code_range]; [discriminate|].
  intros H. cbn [map fst In].
  destruct ((offset <=? i)%nat && (i <? offset + len)%nat).
  - apply bind_Ret_inv in H as (v & _ & H). destruct (v =? 0).
    + injection H as <-. cbn. auto.
    + apply IH in H. tauto.
  - apply IH in H. tauto.
Qed.

Lemma default_range_shape (m : InstructionMutationSet) (i : nat) (r : EncodingRange) :
  default_range m i = Ret r ->
  ER.start r = i /\ ER.length r = 1%nat
  /\ ER.operand_index r = None /\ ER.group_id r = None /\ ER.type r <> MODIFIER.
Proof.
  unfold default_range. intros H. apply bind_Ret_inv in H as ([cc|] & Hcc & H);
    injection H as <-.
  - apply control_code_range_shape in Hcc as (Hs & Hl & Hty & Hoi & Hg).
    repeat split; try assumption. intros Heq. rewrite Heq in Hty.
    cbn in Hty. intuition discriminate.
  - cbn. repeat split. discriminate.
Qed.

Lemma annotate_shape (m : InstructionMutationSet) (i : nat) (cur cur' : EncodingRange) :
  annotate m i cur = Ret cur' -> same_shape cur cur'.
Proof.
  unfold annotate, same_shape. intros H.
  set (c1 := match ER.shift cur, MS.bit_to_shift m !! Z.of_nat i with
             | None, Some s => ER.set_shift (Some s) cur
             | _, _ => cur
             end) in *.
  assert (H1 : same_shape cur c1).
  { unfold c1, same_shape. destruct (ER.shift cur), (MS.bit_to_shift m !! Z.of_nat i); cbn; auto. }
  set (c2 := match ER.offset c1, MS.bit_to_offset m !! Z.of_nat i with
             | None, Some o => ER.set_offset (Some o) c1
             | _, _ => c1
             end) in *.
  assert (H2 : same_shape c1 c2).
  { unfold c2, same_shape. destruct (ER.offset c1), (MS.bit_to_offset m !! Z.of_nat i); cbn; auto. }
  assert (H3 : same_shape c2 cur').
  { unfold same_shape. destruct (bool_decide (ER.type c2 = CONSTANT)).
    - destruct (ER.constant c2); [|discriminate].
      apply bind_Ret_inv in H as (byte & _ & H). injection H as <-. cbn. auto.
    - injection H as <-. auto. }
  unfold same_shape in *. intuition congruence.
Qed.

Lemma place_outcome (m : InstructionMutationSet) (result : list EncodingRange)
    (cur : option EncodingRange) (new : EncodingRange) (i : nat)
    (st' : list EncodingRange * option EncodingRange) :
  ER.start new = i -> ER.length new = 1%nat ->
  (classify m i = Ret (NewRange new)
   \/ classify m i = Ret Unclassified /\ default_range m i = Ret new) ->
  place m result cur new i = Ret st' ->
  step_outcome m result cur i st'.
Proof.
  intros Hs Hl Hc H. unfold place in H.
  apply bind_Ret_inv in H as (cur' & Hann & H). injection H as <-.
  apply annotate_shape in Hann. unfold extend_or_push in *.
  destruct cur as [c|]; cbn [fst snd] in *.
  - destruct (extends c new i) eqn:Hext; cbn [fst snd] in *.
    + eapply step_extend; eauto.
    + change (result ++ [c]) with (_push result (Some c)).
      eapply step_start; eauto. intros ? [= <-]. assumption.
  - change result with (_push result None) at 2.
    eapply step_start; eauto. discriminate.
Qed.

Lemma ranges_step_outcome (m : InstructionMutationSet)
    (st st' : list EncodingRange * option EncodingRange) (i : nat) :
  ranges_step m st i = Ret st' -> step_outcome m (fst st) (snd st) i st'.
Proof.
  unfold ranges_step. intros H. apply bind_Ret_inv in H as (c & Hc & H).
  pose proof (classify_shape m i c Hc) as Hshape. destruct c as [r|r|].
  - injection H as <-. now apply step_single.
  - destruct Hshape. eapply place_outcome; eauto.
  - apply bind_Ret_inv in H as (new & Hnew & H).
    pose proof (default_range_shape m i new Hnew) as (Hs & Hl & _).
    eapply place_outcome; eauto.
Qed.

Lemma step_outcome_chain (m : InstructionMutationSet) (result : list EncodingRange)
    (cur : option EncodingRange) (i : nat)
    (st' : list EncodingRange * option EncodingRange) :
  step_outcome m result cur i st' ->
  chain 0 (_push result cur) i -> chain 0 (_push (fst st') (snd st')) (S i).
Proof.
  intros Hout Hchain.
  destruct Hout as [r Hc|new cur' _ Hs Hl Hsh _|c new cur' _ -> _ Hsh];
    cbn [fst snd _push].
  - apply classify_shape in Hc as [Hs Hl]. apply chain_snoc. rewrite Hs, Hl.
    split; [assumption | lia].
  - destruct Hsh as (_ & Hs' & Hl' & _). apply chain_snoc.
    rewrite <- Hs', <- Hl', Hs, Hl. split; [assumption | lia].
  - destruct Hsh as (_ & Hs' & Hl' & _). cbn in Hs', Hl'.
    cbn [_push] in Hchain. apply chain_snoc in Hchain as (H1 & Hlen & Hend).
    apply chain_snoc. rewrite <- Hs', <- Hl'. split; [assumption | lia].
Qed.

Lemma ranges_loop_chain (m : InstructionMutationSet) (n lo : nat)
    (st st' : list EncodingRange * option EncodingRange) :
  foldM (ranges_step m) (seq lo n) st = Ret st' ->
  chain 0 (_push (fst st) (snd st)) lo ->
  chain 0 (_push (fst st') (snd st')) (lo + n).
Proof.
  revert lo st. induction n as [|n IH]; intros lo st; cbn [seq foldM].
  - intros [= <-]. now rewrite Nat.add_0_r.
  - intros H Hchain. apply bind_Ret_inv in H as (st1 & Hstep & Hrest).
    apply ranges_step_outcome in Hstep.
    apply (step_outcome_chain _ _ _ _ _ Hstep) in Hchain.
    apply (IH _ _ Hrest) in Hchain. now rewrite Nat.add_succ_r.
Qed.

Lemma compute_encoding_ranges_chain (m m' : InstructionMutationSet) (rs : EncodingRanges) :
  compute_encoding_ranges m = Ret (rs, m') -> chain 0 (ranges rs) 128.
Proof.
  unfold compute_encoding_ranges. intros H.
  apply bind_Ret_inv in H as (m1 & _ & H). apply bind_Ret_inv in H as (st & Hloop & H).
  injection H as <- _. cbn [ranges].
  apply (ranges_loop_chain m1 128 0 ([], None) st Hloop). reflexivity.
Qed.

(** C2: the ranges returned by [compute_encoding_ranges] partition the bit
    positions [0, 128): the first range starts at bit 0, every next range
    starts exactly where the one before it ends (so the starts increase
    strictly, without overlap or gap), every range ends within the 128 bits
    and the lengths add up to 128. *)
Theorem compute_encoding_ranges_partition
    (m m' : InstructionMutationSet) (rs : EncodingRanges) :
  compute_encoding_ranges m = Ret (rs, m') ->
  (exists r, hd_error (ranges rs) = Some r /\ ER.start r = 0%nat)
  /\ (forall k r r', ranges rs !! k = Some r -> ranges rs !! S k = Some r' ->
        ER.start r' = (ER.start r + ER.length r)%nat /\ (ER.start r < ER.start r')%nat)
  /\ (forall r, In r (ranges rs) -> (ER.start r + ER.length r <= 128)%nat)
  /\ list_sum (map ER.length (ranges rs)) = 128%nat.
Proof.
  intros H. apply compute_encoding_ranges_chain in H.
  split; [apply (chain_head 128 _ H); lia|].
  split; [intros k r r'; apply (chain_adjacent 0 128 _ k r r' H)|].
  split; [intros r Hr; now apply (chain_bounds 0 128 _ H)|].
  apply chain_sum in H. lia.
Qed.

Lemma example_mset_ranges :
  compute_encoding_ranges example_mset = Ret (example_ranges, example_mset').
Proof. vm_compute. reflexivity. Qed.

Lemma compute_encoding_ranges_partition_witness :
  (exists r, hd_error (ranges example_ranges) = Some r /\ ER.start r = 0%nat)
  /\ (forall k r r', ranges example_ranges !! k = Some r ->
        ranges example_ranges !! S k = Some r' ->
        ER.start r' = (ER.start r + ER.length r)%nat /\ (ER.start r < ER.start r')%nat)
  /\ (forall r, In r (ranges example_ranges) -> (ER.start r + ER.length r <= 128)%nat)
  /\ list_sum (map ER.length (ranges example_ranges)) = 128%nat.
Proof.
  exact (compute_encoding_ranges_partition example_mset example_mset' example_ranges
           example_mset_ranges).
Defined.

Lemma step_outcome_const (m : InstructionMutationSet) (result : list EncodingRange)
    (cur : option EncodingRange) (i : nat)
    (st' : list EncodingRange * option EncodingRange) :
  step_outcome m result cur i st' ->
  chain 0 (_push result cur) i ->
  (forall r, In r (_push result cur) -> const_ok r) ->
  forall r, In r (_push (fst st') (snd st')) -> const_ok r.
Proof.
  assert (Hone : forall r : EncodingRange, ER.length r = 1%nat -> const_ok r)
    by (intros r Hl _; lia).
  intros Hout Hchain Hok.
  destruct Hout as [r0 Hc|new cur' _ Hs Hl Hsh _|c new cur' _ -> Hext Hsh];
    cbn [fst snd _push]; intros r Hr; apply in_app_iff in Hr as [Hr|[<-|[]]].
  - now apply Hok.
  - apply classify_shape in Hc as [_ Hl]. now apply Hone.
  - now apply Hok.
  - apply Hone. destruct Hsh as (_ & _ & <- & _). assumption.
  - apply Hok. cbn [_push]. apply in_app_iff. now left.
  - cbn [_push] in Hchain, Hok. apply chain_snoc in Hchain as (_ & Hlen & Hend).
    destruct Hsh as (Hty & Hs' & Hl' & _). cbn in Hty, Hs', Hl'.
    intros Hconst. rewrite <- Hty in Hconst.
    assert (Hcok : const_ok c) by (apply Hok, in_app_iff; right; now left).
    specialize (Hcok Hconst).
    unfold extends in Hext. apply andb_true_iff in Hext as [Hext _].
    apply andb_true_iff in Hext as [Hext H64].
    apply andb_true_iff in Hext as [Hext _].
    apply bool_decide_eq_true in Hext.
    assert (Hi : i <> 64%nat).
    { apply orb_true_iff in H64 as [H64|H64].
      - apply negb_true_iff, bool_decide_eq_false in H64. congruence.
      - apply negb_true_iff, Nat.eqb_neq in H64. assumption. }
    rewrite <- Hs', <- Hl'. lia.
Qed.

Lemma step_outcome_kept (m : InstructionMutationSet) (result : list EncodingRange)
    (cur : option EncodingRange) (i : nat)
    (st' : list EncodingRange * option EncodingRange) (r : EncodingRange) :
  step_outcome m result cur i st' ->
  kept r (_push result cur) -> kept r (_push (fst st') (snd st')).
Proof.
  intros Hout (r' & Hin & Hty & Hs & Hl).
  destruct Hout as [r0 Hc|new cur' _ _ _ _ _|c new cur' _ -> _ Hsh]; cbn [fst snd _push].
  - exists r'. split; [apply in_app_iff; now left | auto].
  - exists r'. split; [apply in_app_iff; now left | auto].
  - cbn [_push] in Hin. apply in_app_iff in Hin as [Hin|[<-|[]]].
    + exists r'. split; [apply in_app_iff; now left | auto].
    + exists cur'. destruct Hsh as (Hty' & Hs' & Hl' & _). cbn in Hty', Hs', Hl'.
      split; [apply in_app_iff; right; now left|].
      rewrite <- Hty', <- Hs', <- Hl'. repeat split; try assumption. lia.
Qed.

Lemma ranges_loop_invariants (m : InstructionMutationSet) (n lo : nat)
    (st st' : list EncodingRange * option EncodingRange) :
  foldM (ranges_step m) (seq lo n) st = Ret st' ->
  chain 0 (_push (fst st) (snd st)) lo ->
  (forall r, In r (_push (fst st) (snd st)) -> const_ok r) ->
  (forall r, In r (_push (fst st') (snd st')) -> const_ok r)
  /\ forall r, kept r (_push (fst st) (snd st)) -> kept r (_push (fst st') (snd st')).
Proof.
  revert lo st. induction n as [|n IH]; intros lo st; cbn [seq foldM].
  - intros [= <-]. auto.
  - intros H Hchain Hok. apply bind_Ret_inv in H as (st1 & Hstep & Hrest).
    apply ranges_step_outcome in Hstep.
    pose proof (step_outcome_chain _ _ _ _ _ Hstep Hchain) as Hchain1.
    pose proof (step_outcome_const _ _ _ _ _ Hstep Hchain Hok) as Hok1.
    destruct (IH _ _ Hrest Hchain1 Hok1) as [Hok' Hkept]. split; [assumption|].
    intros r Hr. apply Hkept. eapply step_outcome_kept; eassumption.
Qed.

Lemma classify_modifier (m : InstructionMutationSet) (i : nat) (c : classified) :
  Z.of_nat i ∈ MS.modifier_bits m ->
  odict_get (MS.instruction_modifier_bit_flag m) (Z.of_nat i) = None ->
  classify m i = Ret c ->
  exists g, MS.modifier_groups m !! Z.of_nat i = Some g
            /\ c = NewRange (ER.set_group_id (Some g) (ER.init MODIFIER i 1)).
Proof.
  intros Hin Hflag. unfold classify. rewrite bool_decide_eq_true_2 by assumption.
  rewrite Hflag. intros H. apply bind_Ret_inv in H as (g & Hg & H).
  destruct (MS.modifier_groups m !! Z.of_nat i) as [g'|]; [|discriminate].
  injection Hg as ->. injection H as <-. eauto.
Qed.

(** After a bit classified as [new], the current range has its type and
    operand index, and its group id when [new] has one. *)
Lemma step_outcome_current (m : InstructionMutationSet) (result : list EncodingRange)
    (cur : option EncodingRange) (i : nat)
    (st' : list EncodingRange * option EncodingRange) (new : EncodingRange) :
  classify m i = Ret (NewRange new) ->
  step_outcome m result cur i st' ->
  exists cur', snd st' = Some cur' /\ ER.type cur' = ER.type new
               /\ ER.operand_index cur' = ER.operand_index new
               /\ forall g, ER.group_id new = Some g -> ER.group_id cur' = Some g.
Proof.
  intros Hc Hout.
  destruct Hout as [r0 Hc0|new0 cur' Hn _ _ Hsh _|c new0 cur' Hn -> Hext Hsh].
  - congruence.
  - destruct Hn as [Hn|[Hn _]]; [|congruence].
    assert (new0 = new) by congruence. subst new0.
    exists cur'. destruct Hsh as (Hty & _ & _ & Hoi & Hg).
    cbn [snd]. split; [reflexivity|]. split; [congruence|]. split; [congruence|].
    intros g Hgn. congruence.
  - destruct Hn as [Hn|[Hn _]]; [|congruence].
    assert (new0 = new) by congruence. subst new0.
    exists cur'. destruct Hsh as (Hty & _ & _ & Hoi & Hg). cbn in Hty, Hoi, Hg.
    unfold extends in Hext. apply andb_true_iff in Hext as [Hext Hgrp].
    apply andb_true_iff in Hext as [Hext _].
    apply andb_true_iff in Hext as [Hext Hoi'].
    apply bool_decide_eq_true in Hext. apply bool_decide_eq_true in Hoi'.
    cbn [snd]. split; [reflexivity|]. split; [congruence|]. split; [congruence|].
    intros g Hgn. rewrite Hgn in Hgrp. apply bool_decide_eq_true in Hgrp. congruence.
Qed.

Lemma ranges_loop_kept (m : InstructionMutationSet) (n lo : nat)
    (st st' : list EncodingRange * option EncodingRange) (r : EncodingRange) :
  foldM (ranges_step m) (seq lo n) st = Ret st' ->
  kept r (_push (fst st) (snd st)) -> kept r (_push (fst st') (snd st')).
Proof.
  revert lo st. induction n as [|n IH]; intros lo st; cbn [seq foldM].
  - intros [= <-]. auto.
  - intros H Hk. apply bind_Ret_inv in H as (st1 & Hstep & Hrest).
    apply ranges_step_outcome in Hstep.
    apply (IH _ _ Hrest). eapply step_outcome_kept; eassumption.
Qed.

Lemma ranges_step_classify (m : InstructionMutationSet)
    (st st' : list EncodingRange * option EncodingRange) (i : nat) :
  ranges_step m st i = Ret st' -> exists c, classify m i = Ret c.
Proof. unfold ranges_step. intros H. apply bind_Ret_inv in H as (c & Hc & _). eauto. Qed.

(** Two neighbouring modifier bits of one group end up in one range. *)
Lemma ranges_step_joins_modifier (m : InstructionMutationSet)
    (s0 s1 s2 : list EncodingRange * option EncodingRange) (i : nat) :
  Z.of_nat i ∈ MS.modifier_bits m -> Z.of_nat (S i) ∈ MS.modifier_bits m ->
  odict_get (MS.instruction_modifier_bit_flag m) (Z.of_nat i) = None ->
  odict_get (MS.instruction_modifier_bit_flag m) (Z.of_nat (S i)) = None ->
  MS.modifier_groups m !! Z.of_nat i = MS.modifier_groups m !! Z.of_nat (S i) ->
  chain 0 (_push (fst s0) (snd s0)) i ->
  ranges_step m s0 i = Ret s1 -> ranges_step m s1 (S i) = Ret s2 ->
  exists cur, snd s2 = Some cur /\ ER.type cur = MODIFIER
              /\ (ER.start cur <= i)%nat /\ (ER.start cur + ER.length cur = S (S i))%nat.
Proof.
  intros Hin Hin' Hfl Hfl' Hgrp Hchain Hstep1 Hstep2.
  destruct (ranges_step_classify _ _ _ _ Hstep1) as (c1 & Hc1).
  destruct (ranges_step_classify _ _ _ _ Hstep2) as (c2 & Hc2).
  destruct (classify_modifier m i c1 Hin Hfl Hc1) as (g1 & Hg1 & ->).
  destruct (classify_modifier m (S i) c2 Hin' Hfl' Hc2) as (g2 & Hg2 & ->).
  assert (g2 = g1) by congruence. subst g2.
  apply ranges_step_outcome in Hstep1, Hstep2.
  pose proof (step_outcome_chain _ _ _ _ _ Hstep1 Hchain) as Hchain1.
  destruct (step_outcome_current _ _ _ _ _ _ Hc1 Hstep1) as (cur1 & Hs1 & Hty1 & Hoi1 & Hgid1).
  cbn in Hty1, Hoi1. specialize (Hgid1 g1 eq_refl).
  rewrite Hs1 in Hchain1, Hstep2. cbn [_push] in Hchain1.
  apply chain_snoc in Hchain1 as (_ & Hlen1 & Hend1).
  assert (Hext : extends cur1 (ER.set_group_id (Some g1) (ER.init MODIFIER (S i) 1)) (S i) = true).
  { unfold extends. cbn. rewrite Hty1, Hoi1, Hgid1.
    rewrite (bool_decide_eq_true_2 (Some g1 = Some g1)) by reflexivity.
    reflexivity. }
  inversion Hstep2 as [r0 Hc0|new cur' Hn _ _ _ Hno|c new cur' Hn Hcur Hext' Hsh]; subst.
  - congruence.
  - destruct Hn as [Hn|[Hn _]]; [|congruence].
    assert (new = ER.set_group_id (Some g1) (ER.init MODIFIER (S i) 1)) by congruence.
    subst new. rewrite (Hno cur1 eq_refl) in Hext. discriminate.
  - injection Hcur as <-. destruct Hsh as (Hty & Hs' & Hl' & _). cbn in Hty, Hs', Hl'.
    exists cur'. cbn [snd]. split; [reflexivity|]. split; [congruence|]. lia.
Qed.

Lemma canonicalize_modifier_groups_fields (m m1 : InstructionMutationSet) :
  canonicalize_modifier_groups m = Ret m1 ->
  MS.modifier_bits m1 = MS.modifier_bits m
  /\ MS.instruction_modifier_bit_flag m1 = MS.instruction_modifier_bit_flag m
  /\ MS.inst m1 = MS.inst m.
Proof.
  unfold canonicalize_modifier_groups. intros H.
  apply bind_Ret_inv in H as (g & _ & H). injection H as <-. auto.
Qed.

(** ** Flag disambiguation *)

Lemma disambiguate_flag_changed (parse : string -> exc Instruction)
    (st : InstructionMutationSet * bool) (probe : word * Z * Z) :
  disambiguate_flag parse st probe = st \/ snd (disambiguate_flag parse st probe) = true.
Proof.
  unfold disambiguate_flag. destruct st as [m changed]. destruct probe as [[inst_ bit] adj].
  destruct (odict_get _ bit); [|now left].
  destruct (String.eqb _ EmptyString); [now left|].
  destruct (parse _); [|now left].
  destruct (negb (String.eqb _ _)); [now left|].
  destruct (negb (token_in _ _)); [now right | now left].
Qed.

Lemma disambiguate_flags_unchanged (parse : string -> exc Instruction)
    (probes : list (word * Z * Z)) (st : InstructionMutationSet * bool)
    (m' : InstructionMutationSet) :
  fold_left (disambiguate_flag parse) probes st = (m', false) -> st = (m', false).
Proof.
  revert st. induction probes as [|p probes IH]; intros st; cbn [fold_left]; [auto|].
  intros H. apply IH in H.
  destruct (disambiguate_flag_changed parse st p) as [Heq|Htrue].
  - congruence.
  - rewrite H in Htrue. discriminate.
Qed.

(** A run that reports no change has made none. *)
Lemma analysis_disambiguate_flags_false (parse : string -> exc Instruction)
    (d : Disassembler) (m m' : InstructionMutationSet) :
  analysis_disambiguate_flags parse d m = Ret (false, m') -> m' = m.
Proof.
  unfold analysis_disambiguate_flags. intros H.
  apply bind_Ret_inv in H as (probes & _ & H).
  destruct probes as [|p probes]; [congruence|].
  destruct (fold_left _ _ _) as [m1 changed] eqn:Hfold.
  injection H as -> ->.
  apply disambiguate_flags_unchanged in Hfold. congruence.
Qed.

(** *** A second run after a run on flags that lie apart *)

Lemma odict_get_del {A} (d : list (Z * A)) (k b : Z) :
  odict_get (odict_del k d) b = if k =? b then None else odict_get d b.
Proof.
  unfold odict_del. induction d as [|[k' v] d IH]; cbn [List.filter odict_get fst].
  - now destruct (k =? b).
  - destruct (Z.eqb_spec k' k) as [->|Hk]; cbn [negb].
    + rewrite IH. destruct (k =? b); reflexivity.
    + cbn [odict_get]. rewrite IH. destruct (Z.eqb_spec k' b) as [->|]; [|reflexivity].
      destruct (Z.eqb_spec k b); [congruence | reflexivity].
Qed.

Lemma odict_get_keys {A} (d : list (Z * A)) (k : Z) :
  In k (map fst d) <-> odict_mem k d = true.
Proof.
  unfold odict_mem. induction d as [|[k' v] d IH]; cbn [map fst In odict_get].
  - split; [tauto | discriminate].
  - destruct (Z.eqb_spec k' k) as [->|Hk]; [tauto|].
    rewrite <- IH. tauto.
Qed.

Lemma demoted_from_refl (m : InstructionMutationSet) : demoted_from m m.
Proof. repeat split; auto. Qed.

Lemma demoted_from_trans (m1 m2 m3 : InstructionMutationSet) :
  demoted_from m1 m2 -> demoted_from m2 m3 -> demoted_from m1 m3.
Proof.
  intros (Hd & Hk & Hi & Hf) (Hd' & Hk' & Hi' & Hf').
  split; [congruence|]. split; [congruence|]. split; [congruence|]. auto.
Qed.

Lemma disambiguate_flag_demoted (parse : string -> exc Instruction)
    (m : InstructionMutationSet) (changed : bool) (probe : word * Z * Z) :
  demoted_from m (fst (disambiguate_flag parse (m, changed) probe)).
Proof.
  unfold disambiguate_flag. destruct probe as [[inst_ bit] adj].
  destruct (odict_get _ bit); [|apply demoted_from_refl].
  destruct (String.eqb _ EmptyString); [apply demoted_from_refl|].
  destruct (parse _); [|apply demoted_from_refl].
  destruct (negb (String.eqb _ _)); [apply demoted_from_refl|].
  destruct (negb (token_in _ _)); [|apply demoted_from_refl].
  unfold demoted_from, reset_modifier_groups.
    cbn [fst MS.disassembler MS.key MS.inst MS.instruction_modifier_bit_flag
         MS.set_modifier_groups MS.set_instruction_modifier_bit_flag MS.set_modifier_bits].
  split; [reflexivity|]. split; [reflexivity|]. split; [reflexivity|].
  intros b n. rewrite !odict_get_del.
  destruct (adj =? b); [discriminate|]. destruct (bit =? b); [discriminate | auto].
Qed.

(** A probe whose flag is still a flag later on did not demote it, and
    does not demote it when it is looked at again. *)
Lemma disambiguate_flag_stays (parse : string -> exc Instruction)
    (m m' : InstructionMutationSet) (changed : bool) (inst_ : word) (bit adj : Z) :
  demoted_from (fst (disambiguate_flag parse (m, changed) (inst_, bit, adj))) m' ->
  odict_mem bit (MS.instruction_modifier_bit_flag m') = true ->
  forall changed', disambiguate_flag parse (m', changed') (inst_, bit, adj) = (m', changed').
Proof.
  unfold disambiguate_flag, odict_mem.
  destruct (odict_get (MS.instruction_modifier_bit_flag m') bit) as [name|] eqn:Hname;
    [|discriminate].
  destruct (odict_get (MS.instruction_modifier_bit_flag m) bit) as [name0|] eqn:Hname0.
  2:{ cbn [fst]. intros (_ & _ & _ & Hf). apply Hf in Hname. congruence. }
  destruct (String.eqb (disassemble (MS.disassembler m) inst_) EmptyString) eqn:Hempty.
  { cbn [fst]. intros (Hd & _) _ ?. rewrite Hd, Hempty. reflexivity. }
  destruct (parse (disassemble (MS.disassembler m) inst_)) as [parsed|e] eqn:Hparse.
  2:{ cbn [fst]. intros (Hd & _) _ ?. rewrite Hd, Hempty, Hparse. reflexivity. }
  destruct (negb (String.eqb (get_key parsed) (MS.key m))) eqn:Hkey.
  { cbn [fst]. intros (Hd & Hk & _) _ ?. rewrite Hd, Hempty, Hparse, Hk, Hkey. reflexivity. }
  destruct (negb (token_in name0 (inst_modifiers parsed))) eqn:Htoken.
  - unfold demoted_from, reset_modifier_groups.
    cbn [fst MS.disassembler MS.key MS.inst MS.instruction_modifier_bit_flag
         MS.set_modifier_groups MS.set_instruction_modifier_bit_flag MS.set_modifier_bits].
    intros (_ & _ & _ & Hf). apply Hf in Hname. rewrite !odict_get_del in Hname.
    rewrite Z.eqb_refl in Hname. destruct (adj =? bit); discriminate.
  - cbn [fst]. intros (Hd & Hk & _ & Hf) _ ?. apply Hf in Hname.
    assert (name = name0) as -> by congruence.
    rewrite Hd, Hempty, Hparse, Hk, Hkey, Htoken. reflexivity.
Qed.

Lemma disambiguate_flags_settled (parse : string -> exc Instruction)
    (probes : list (word * Z * Z)) (m m1 : InstructionMutationSet) (c c1 : bool) :
  fold_left (disambiguate_flag parse) probes (m, c) = (m1, c1) ->
  demoted_from m m1
  /\ forall inst_ bit adj, In (inst_, bit, adj) probes ->
       odict_mem bit (MS.instruction_modifier_bit_flag m1) = true ->
       forall c', disambiguate_flag parse (m1, c') (inst_, bit, adj) = (m1, c').
Proof.
  revert m c. induction probes as [|p probes IH]; intros m c; cbn [fold_left].
  - intros [= -> ->]. split; [apply demoted_from_refl | intros ? ? ? []].
  - pose proof (disambiguate_flag_demoted parse m c p) as Hstep.
    destruct (disambiguate_flag parse (m, c) p) as [m2 c2] eqn:Hp. cbn [fst] in Hstep.
    intros H. destruct (IH m2 c2 H) as [Hd Hstay].
    split; [eapply demoted_from_trans; eassumption|].
    intros inst_ bit adj [->|Hin] Hmem.
    + apply (disambiguate_flag_stays parse m m1 c inst_ bit adj); [|assumption].
      rewrite Hp. exact Hd.
    + now apply Hstay.
Qed.

Lemma disambiguate_flags_quiet (parse : string -> exc Instruction)
    (probes : list (word * Z * Z)) (m : InstructionMutationSet) :
  (forall inst_ bit adj, In (inst_, bit, adj) probes ->
     forall c, disambiguate_flag parse (m, c) (inst_, bit, adj) = (m, c)) ->
  fold_left (disambiguate_flag parse) probes (m, false) = (m, false).
Proof.
  induction probes as [|[[inst_ bit] adj] probes IH]; intros H; cbn [fold_left];
    [reflexivity|].
  rewrite (H inst_ bit adj); [|now left].
  apply IH. intros ? ? ? Hin. apply H. now right.
Qed.

(** The probes of the flags of [flag_map]. *)
Lemma flag_probes_in (inst : word) (flag_map : list (Z * string)) (bits : list Z)
    (acc probes : list (word * Z * Z)) :
  foldM (flag_probe inst flag_map) bits acc = Ret probes ->
  (forall p, In p acc -> In p probes)
  /\ forall bit, In bit bits ->
       exists up, flipped inst [bit; bit + 1] = Ret up /\ In (up, bit, bit + 1) probes
         /\ (odict_mem (bit - 1) flag_map = false ->
             exists down, flipped inst [bit; bit - 1] = Ret down
                          /\ In (down, bit, bit - 1) probes).
Proof.
  revert acc. induction bits as [|b bits IH]; intros acc; cbn [foldM].
  - intros [= ->]. split; [auto | intros ? []].
  - intros H. apply bind_Ret_inv in H as (acc1 & Hstep & H).
    destruct (IH acc1 H) as [Hacc Hbits]. clear IH H.
    unfold flag_probe in Hstep.
    apply bind_Ret_inv in Hstep as (up & Hup & Hstep).
    destruct (odict_mem (b - 1) flag_map) eqn:Hmem; cbn [negb] in Hstep.
    + injection Hstep as <-. split.
      * intros p Hp. apply Hacc, in_app_iff. now left.
      * intros bit [<-|Hin]; [|now apply Hbits].
        exists up. split; [assumption|].
        split; [apply Hacc, in_app_iff; right; now left | congruence].
    + apply bind_Ret_inv in Hstep as (down & Hdown & Hstep). injection Hstep as <-. split.
      * intros p Hp. apply Hacc, in_app_iff. left. apply in_app_iff. now left.
      * intros bit [<-|Hin]; [|now apply Hbits].
        exists up. split; [assumption|]. split.
        -- apply Hacc, in_app_iff. left. apply in_app_iff. right. now left.
        -- intros _. exists down. split; [assumption|].
           apply Hacc, in_app_iff. right. now left.
Qed.

(** Probes that exist for every bit can be collected again. *)
Lemma flag_probes_again (inst : word) (flag_map : list (Z * string))
    (Q : word * Z * Z -> Prop) (bits : list Z) (acc : list (word * Z * Z)) :
  (forall p, In p acc -> Q p) ->
  (forall bit, In bit bits ->
     exists up, flipped inst [bit; bit + 1] = Ret up /\ Q (up, bit, bit + 1)
       /\ exists down, flipped inst [bit; bit - 1] = Ret down /\ Q (down, bit, bit - 1)) ->
  exists probes, foldM (flag_probe inst flag_map) bits acc = Ret probes
                 /\ forall p, In p probes -> Q p.
Proof.
  revert acc. induction bits as [|b bits IH]; intros acc Hacc Hbits; cbn [foldM].
  - eauto.
  - destruct (Hbits b) as (up & Hup & Qup & down & Hdown & Qdown); [now left|].
    unfold flag_probe at 1. rewrite Hup. cbn [bind].
    destruct (odict_mem (b - 1) flag_map); cbn [negb].
    + cbn [bind]. apply IH.
      * intros p Hp. apply in_app_iff in Hp as [Hp|[<-|[]]]; auto.
      * intros bit Hin. apply Hbits. now right.
    + rewrite Hdown. cbn [bind]. apply IH.
      * intros p Hp. apply in_app_iff in Hp as [Hp|[<-|[]]]; [|assumption].
        apply in_app_iff in Hp as [Hp|[<-|[]]]; auto.
      * intros bit Hin. apply Hbits. now right.
Qed.

(** C8 (as amended): a second run of [analysis_disambiguate_flags] right
    after a first one returns False and leaves the mutation set as the
    first run left it, whenever the first run returned False or no flag bit
    had a flag bit directly below it when the first run began. *)
Theorem analysis_disambiguate_flags_no_change
    (parse : string -> exc Instruction) (d : Disassembler)
    (m m' : InstructionMutationSet) (changed : bool) :
  analysis_disambiguate_flags parse d m = Ret (changed, m') ->
  changed = false \/ flags_apart (MS.instruction_modifier_bit_flag m) ->
  analysis_disambiguate_flags parse d m' = Ret (false, m').
Proof.
  intros Hrun Hcase. destruct changed.
  2:{ pose proof (analysis_disambiguate_flags_false parse d m m' Hrun) as ->. exact Hrun. }
  destruct Hcase as [|Hapart]; [discriminate|].
  unfold analysis_disambiguate_flags in Hrun.
  apply bind_Ret_inv in Hrun as (probes & Hprobes & Hrun).
  destruct probes as [|p0 probes0]; [discriminate|].
  set (probes := p0 :: probes0) in *.
  destruct (fold_left _ probes _) as [m1 c1] eqn:Hfold. injection Hrun as -> ->.
  destruct (disambiguate_flags_settled parse probes m m' false true Hfold)
    as [(Hd & Hk & Hinst & Hsub) Hstay].
  destruct (flag_probes_in _ _ _ _ _ Hprobes) as [_ Hin].
  destruct (flag_probes_again (MS.inst m) (MS.instruction_modifier_bit_flag m')
              (fun p => In p probes
                        /\ odict_mem (snd (fst p)) (MS.instruction_modifier_bit_flag m') = true)
              (map fst (MS.instruction_modifier_bit_flag m')) [])
    as (probes' & Hprobes' & Hall).
  { intros ? []. }
  { intros bit Hbit. apply odict_get_keys in Hbit.
    assert (Hbit0 : odict_mem bit (MS.instruction_modifier_bit_flag m) = true).
    { unfold odict_mem in *.
      destruct (odict_get (MS.instruction_modifier_bit_flag m') bit) eqn:Hget;
        [|discriminate].
      now rewrite (Hsub _ _ Hget). }
    destruct (Hin bit) as (up & Hup & Hupin & Hdown); [now apply odict_get_keys|].
    destruct (Hdown (Hapart bit Hbit0)) as (down & Hdown' & Hdownin).
    exists up. split; [assumption|]. split; [now split|].
    exists down. split; [assumption|]. now split. }
  unfold analysis_disambiguate_flags, flag_probes. rewrite Hinst, Hprobes'. cbn [bind].
  destruct probes' as [|p1 probes1]; [reflexivity|].
  rewrite disambiguate_flags_quiet; [reflexivity|].
  intros inst_ bit adj Hp. destruct (Hall _ Hp) as [Hp' Hmem]. cbn [fst snd] in Hmem.
  now apply Hstay.
Qed.

Lemma analysis_disambiguate_flags_no_change_witness :
  analysis_disambiguate_flags selector_parse (mock_disassembler lone_disasm) lone_settled
    = Ret (false, lone_settled).
Proof.
  apply (analysis_disambiguate_flags_no_change selector_parse
           (mock_disassembler lone_disasm) lone_mset lone_settled true).
  - vm_compute. reflexivity.
  - right. intros bit. unfold odict_mem. cbn [lone_mset MS.instruction_modifier_bit_flag odict_get].
    destruct (Z.eqb_spec 20 bit) as [<-|]; [reflexivity | discriminate].
Defined.

(** What [analysis_run_fixedpoint] returns is a fixed point of the flag
    pass: one more run reports no change. *)
Lemma analysis_run_fixedpoint_disambiguate_flags
    (parse : string -> exc Instruction) (fuel : nat) (d : Disassembler)
    (m m' : InstructionMutationSet) :
  analysis_run_fixedpoint fuel d m (analysis_disambiguate_flags parse) = Ret m' ->
  analysis_disambiguate_flags parse d m' = Ret (false, m').
Proof.
  revert m. induction fuel as [|fuel IH]; intros m; cbn [analysis_run_fixedpoint];
    [discriminate|].
  intros H. apply bind_Ret_inv in H as ([changed m1] & Hrun & H). cbn [fst snd] in H.
  destruct changed; [now apply IH in H|].
  injection H as <-.
  pose proof (analysis_disambiguate_flags_false parse d m m1 Hrun) as ->. exact Hrun.
Qed.

(** *** The flag pass reaches its fixed point *)

Lemma py_index_ok (len : nat) (i : Z) :
  - Z.of_nat len <= i < Z.of_nat len ->
  exists k, py_index len i = Some k /\ (k < len)%nat.
Proof.
  intros H. unfold py_index.
  destruct (Z.leb_spec 0 i) as [Hpos|Hneg]; cbn [andb].
  - destruct (Z.ltb_spec i (Z.of_nat len)); [|lia].
    eexists. split; [reflexivity | lia].
  - destruct (Z.leb_spec (- Z.of_nat len) i); [|lia].
    destruct (Z.ltb_spec i 0); [|lia]. cbn [andb].
    eexists. split; [reflexivity | lia].
Qed.

Lemma set_bit_ok (w : word) (i : Z) :
  - 8 * Z.of_nat (List.length w) <= i < 8 * Z.of_nat (List.length w) ->
  exists w', set_bit w i = Ret w' /\ List.length w' = List.length w.
Proof.
  intros H. unfold set_bit, getitem, setitem.
  assert (Hdiv : - Z.of_nat (List.length w) <= i / 8 < Z.of_nat (List.length w)).
  { split; [apply Z.div_le_lower_bound | apply Z.div_lt_upper_bound]; lia. }
  destruct (py_index_ok _ _ Hdiv) as (k & -> & Hk).
  unfold list_get. destruct (lookup_lt_is_Some_2 w k Hk) as [b ->]. cbn [bind].
  eexists. split; [reflexivity|]. apply length_insert.
Qed.

Lemma flipped_ok (inst : word) (a b : Z) :
  List.length inst = 16%nat -> -128 <= a < 128 -> -128 <= b < 128 ->
  exists w, flipped inst [a; b] = Ret w.
Proof.
  intros Hlen Ha Hb. unfold flipped. cbn [foldM].
  destruct (set_bit_ok inst a) as (w1 & -> & Hlen1); [rewrite Hlen; lia|]. cbn [bind].
  destruct (set_bit_ok w1 b) as (w2 & -> & _); [rewrite Hlen1, Hlen; lia|]. cbn [bind].
  eauto.
Qed.

Lemma odict_del_length {A} (d : list (Z * A)) (k : Z) :
  (List.length (odict_del k d) <= List.length d)%nat
  /\ (odict_mem k d = true -> (List.length (odict_del k d) < List.length d)%nat).
Proof.
  unfold odict_del, odict_mem.
  induction d as [|[k' v] d [IHle IHlt]]; cbn [List.filter odict_get fst List.length].
  - split; [lia | discriminate].
  - destruct (Z.eqb_spec k' k) as [->|Hk]; cbn [negb List.length].
    + split; [lia | intros _; lia].
    + split; [lia|]. intros H. apply IHlt in H. lia.
Qed.

(** A probe leaves the flags as they are, or takes at least one away and
    reports a change. *)
Lemma disambiguate_flag_fewer (parse : string -> exc Instruction)
    (m : InstructionMutationSet) (c : bool) (probe : word * Z * Z) :
  let st := disambiguate_flag parse (m, c) probe in
  st = (m, c)
  \/ (snd st = true
      /\ (List.length (MS.instruction_modifier_bit_flag (fst st))
          < List.length (MS.instruction_modifier_bit_flag m))%nat).
Proof.
  unfold disambiguate_flag. destruct probe as [[inst_ bit] adj].
  destruct (odict_get _ bit) as [name|] eqn:Hname; [|now left].
  destruct (String.eqb _ EmptyString); [now left|].
  destruct (parse _); [|now left].
  destruct (negb (String.eqb _ _)); [now left|].
  destruct (negb (token_in _ _)); [|now left].
  right. unfold reset_modifier_groups.
  cbn [fst snd MS.instruction_modifier_bit_flag MS.set_modifier_groups
       MS.set_instruction_modifier_bit_flag MS.set_modifier_bits].
  split; [reflexivity|].
  pose proof (proj1 (odict_del_length
                       (odict_del bit (MS.instruction_modifier_bit_flag m)) adj)).
  pose proof (proj2 (odict_del_length (MS.instruction_modifier_bit_flag m) bit)) as Hlt.
  unfold odict_mem in Hlt. rewrite Hname in Hlt. specialize (Hlt eq_refl). lia.
Qed.

Lemma disambiguate_flags_fewer (parse : string -> exc Instruction)
    (probes : list (word * Z * Z)) (m m' : InstructionMutationSet) (c c' : bool) :
  fold_left (disambiguate_flag parse) probes (m, c) = (m', c') ->
  (List.length (MS.instruction_modifier_bit_flag m')
   <= List.length (MS.instruction_modifier_bit_flag m))%nat
  /\ (c' = c
      \/ (c' = true
          /\ (List.length (MS.instruction_modifier_bit_flag m')
              < List.length (MS.instruction_modifier_bit_flag m))%nat)).
Proof.
  revert m c. induction probes as [|p probes IH]; intros m c; cbn [fold_left].
  - intros [= -> ->]. split; [lia | now left].
  - destruct (disambiguate_flag_fewer parse m c p) as [->|[Htrue Hlt]]; [apply IH|].
    destruct (disambiguate_flag parse (m, c) p) as [m2 c2].
    cbn [fst snd] in Htrue, Hlt. subst c2. intros H.
    apply IH in H as [Hle Hc]. split; [lia|]. right.
    split; [destruct Hc as [|[? _]]; assumption | lia].
Qed.

Lemma analysis_disambiguate_flags_fewer (parse : string -> exc Instruction)
    (d : Disassembler) (m m' : InstructionMutationSet) :
  analysis_disambiguate_flags parse d m = Ret (true, m') ->
  (List.length (MS.instruction_modifier_bit_flag m')
   < List.length (MS.instruction_modifier_bit_flag m))%nat.
Proof.
  unfold analysis_disambiguate_flags. intros H.
  apply bind_Ret_inv in H as (probes & _ & H).
  destruct probes as [|p probes]; [discriminate|].
  destruct (fold_left _ _ _) as [m1 c1] eqn:Hfold. injection H as -> ->.
  apply disambiguate_flags_fewer in Hfold as [_ [|[_ Hlt]]]; [discriminate | exact Hlt].
Qed.

(** The seed has 16 bytes and the flag bits lie in the word, below its last
    bit. *)
Lemma analysis_disambiguate_flags_ok (parse : string -> exc Instruction)
    (d : Disassembler) (m : InstructionMutationSet) :
  List.length (MS.inst m) = 16%nat ->
  (forall bit, odict_mem bit (MS.instruction_modifier_bit_flag m) = true ->
     0 <= bit < 127) ->
  exists changed m', analysis_disambiguate_flags parse d m = Ret (changed, m')
                     /\ demoted_from m m'.
Proof.
  intros Hlen Hbits. unfold analysis_disambiguate_flags, flag_probes.
  destruct (flag_probes_again (MS.inst m) (MS.instruction_modifier_bit_flag m)
              (fun _ => True) (map fst (MS.instruction_modifier_bit_flag m)) [])
    as (probes & -> & _); [auto | |].
  { intros bit Hbit. apply odict_get_keys, Hbits in Hbit.
    destruct (flipped_ok (MS.inst m) bit (bit + 1) Hlen) as [up ->]; [lia | lia |].
    destruct (flipped_ok (MS.inst m) bit (bit - 1) Hlen) as [down ->]; [lia | lia |].
    eauto 6. }
  cbn [bind]. destruct probes as [|p probes].
  - exists false, m. split; [reflexivity | apply demoted_from_refl].
  - destruct (fold_left _ _ _) as [m1 c1] eqn:Hfold.
    exists c1, m1. split; [reflexivity|].
    now apply disambiguate_flags_settled in Hfold as [Hd _].
Qed.

(** Re-running the flag pass reaches a fixed point: with one run more than
    there are flags [analysis_run_fixedpoint] returns, and one more run on
    what it returns reports no change. *)
Theorem analysis_run_fixedpoint_disambiguate_flags_returns
    (parse : string -> exc Instruction) (fuel : nat) (d : Disassembler)
    (m : InstructionMutationSet) :
  List.length (MS.inst m) = 16%nat ->
  (forall bit, odict_mem bit (MS.instruction_modifier_bit_flag m) = true ->
     0 <= bit < 127) ->
  (List.length (MS.instruction_modifier_bit_flag m) < fuel)%nat ->
  exists m', analysis_run_fixedpoint fuel d m (analysis_disambiguate_flags parse) = Ret m'
             /\ analysis_disambiguate_flags parse d m' = Ret (false, m').
Proof.
  revert m. induction fuel as [|fuel IH]; intros m Hlen Hbits Hfuel; [lia|].
  cbn [analysis_run_fixedpoint].
  destruct (analysis_disambiguate_flags_ok parse d m Hlen Hbits)
    as (changed & m1 & Hrun & (_ & _ & Hinst & Hsub)).
  rewrite Hrun. cbn [bind fst snd]. destruct changed.
  - apply IH.
    + congruence.
    + intros bit Hbit. apply Hbits. unfold odict_mem in *.
      destruct (odict_get (MS.instruction_modifier_bit_flag m1) bit) eqn:Hget;
        [|discriminate].
      now rewrite (Hsub _ _ Hget).
    + apply analysis_disambiguate_flags_fewer in Hrun. lia.
  - exists m1. split; [reflexivity|].
    pose proof (analysis_disambiguate_flags_false parse d m m1 Hrun) as ->. exact Hrun.
Qed.

Lemma analysis_run_fixedpoint_disambiguate_flags_returns_witness :
  exists m',
    analysis_run_fixedpoint 2 (mock_disassembler lone_disasm) lone_mset
      (analysis_disambiguate_flags selector_parse) = Ret m'
    /\ analysis_disambiguate_flags selector_parse (mock_disassembler lone_disasm) m'
       = Ret (false, m').
Proof.
  apply (analysis_run_fixedpoint_disambiguate_flags_returns selector_parse 2
           (mock_disassembler lone_disasm) lone_mset).
  - reflexivity.
  - intros bit. unfold odict_mem.
    cbn [lone_mset MS.instruction_modifier_bit_flag odict_get].
    destruct (Z.eqb_spec 20 bit) as [<-|]; [lia | discriminate].
  - cbn. lia.
Defined.

(** C8 (as stated) fails: on the three-bit selector the first run demotes
    the flag of bit 20 and returns True, and the second run, right after
    it, demotes the flag of bit 21 and returns True again. *)
Lemma analysis_disambiguate_flags_second_run_changes :
  (m <- selector_mset;; Ret (MS.instruction_modifier_bit_flag m))
    = Ret [(20, "A"%string); (21, "B"%string)]
  /\ (r1 <- selector_run selector_mset;;
      Ret (fst r1, MS.instruction_modifier_bit_flag (snd r1)))
    = Ret (true, [(21, "B"%string)])
  /\ (r1 <- selector_run selector_mset;;
      r2 <- selector_run (Ret (snd r1));;
      Ret (fst r2, MS.instruction_modifier_bit_flag (snd r2)))
    = Ret (true, []).
Proof. repeat split; vm_compute; reflexivity. Qed.

(** ** Operand width, shift and offset correction *)

Lemma extend_bits_spec (rng : EncodingRange) (oi : nat) (ixs : list Z)
    (m : InstructionMutationSet) :
  let step := fun (m : InstructionMutationSet) (i : Z) =>
    let bit := Z.of_nat (ER.start rng) - i in
    MS.set_bit_to_operand (<[bit := oi]> (MS.bit_to_operand m))
      (MS.set_operand_value_bits ({[bit]} ∪ MS.operand_value_bits m) m) in
  let m' := fold_left step ixs m in
  (MS.bit_to_offset m' = MS.bit_to_offset m
   /\ MS.opcode_bits m' = MS.opcode_bits m
   /\ MS.operand_modifier_bits m' = MS.operand_modifier_bits m
   /\ MS.predicate_bits m' = MS.predicate_bits m
   /\ MS.modifier_bits m' = MS.modifier_bits m)
  /\ (forall b, b ∈ MS.operand_value_bits m'
                <-> b ∈ MS.operand_value_bits m
                    \/ exists i, In i ixs /\ b = Z.of_nat (ER.start rng) - i)
  /\ (forall i, In i ixs ->
        MS.bit_to_operand m' !! (Z.of_nat (ER.start rng) - i) = Some oi)
  /\ (forall b, (forall i, In i ixs -> b <> Z.of_nat (ER.start rng) - i) ->
        MS.bit_to_operand m' !! b = MS.bit_to_operand m !! b).
Proof.
  cbv zeta. revert m. induction ixs as [|i ixs IH]; intros m; cbn [fold_left].
  - split; [auto 6|]. split; [|split]; [| intros ? [] | reflexivity].
    intros b. split; [auto|]. intros [Hb|(i & [] & _)]. exact Hb.
  - match goal with |- context [fold_left ?f ixs ?s] =>
      destruct (IH s) as (Hframe & Hbits & Hin & Hother) end.
    cbn [MS.bit_to_offset MS.operand_value_bits MS.bit_to_operand
         MS.opcode_bits MS.operand_modifier_bits MS.predicate_bits MS.modifier_bits
         MS.set_bit_to_operand MS.set_operand_value_bits]
      in Hframe, Hbits, Hother.
    split; [exact Hframe|]. split; [|split].
    + intros b. rewrite Hbits, elem_of_union, elem_of_singleton. split.
      * intros [[->|Hb]|(j & Hj & ->)]; [right | now left | right].
        -- exists i. split; [now left | reflexivity].
        -- exists j. split; [now right | reflexivity].
      * intros [Hb|(j & [<-|Hj] & ->)]; [left; now right | left; now left | right].
        exists j. split; [assumption | reflexivity].
    + intros j Hj. destruct (in_dec Z.eq_dec j ixs) as [Hjin|Hjnot]; [now apply Hin|].
      destruct Hj as [<-|Hj]; [|contradiction].
      rewrite Hother; [apply lookup_insert_eq|].
      intros j' Hj' Heq. apply Hjnot. assert (i = j') by lia. now subst.
    + intros b Hb. rewrite Hother by (intros j Hj; apply Hb; now right).
      apply lookup_insert_ne. intros Heq. apply (Hb i); [now left | now symmetry].
Qed.

Lemma extend_operand_spec (m : InstructionMutationSet) (rng : EncodingRange)
    (oi : nat) (missing shift : Z) :
  MS.bit_to_offset (extend_operand m rng oi missing shift) = MS.bit_to_offset m
  /\ extended_left m (extend_operand m rng oi missing shift) rng oi (missing - shift).
Proof.
  unfold extend_operand, extended_left.
  destruct (extend_bits_spec rng oi (Zrange 1 (missing - shift + 1)) m)
    as ((Hoff & Hopc & Hopm & Hpred & Hmod) & Hbits & Hin & Hother).
  cbv zeta in Hoff, Hopc, Hopm, Hpred, Hmod, Hbits, Hin, Hother. cbv zeta.
  assert (Hix : forall b,
             (exists i, In i (Zrange 1 (missing - shift + 1))
                        /\ b = Z.of_nat (ER.start rng) - i)
             <-> Z.of_nat (ER.start rng) - (missing - shift) <= b
                 < Z.of_nat (ER.start rng)).
  { intros b. split.
    - intros (i & Hi & ->). apply In_Zrange in Hi. lia.
    - intros Hb. exists (Z.of_nat (ER.start rng) - b). split; [|lia].
      unfold Zrange. apply in_map_iff.
      exists (Z.to_nat (Z.of_nat (ER.start rng) - b - 1)). split; [lia|].
      apply in_seq. lia. }
  split; [exact Hoff|]. split; [|split; [|split]].
  - intros b. rewrite Hbits, Hix. reflexivity.
  - intros b Hb. apply Hix in Hb as (i & Hi & ->). now apply Hin.
  - intros b Hb. apply Hother. intros i Hi Heq. apply Hb, Hix. eauto.
  - auto.
Qed.

Lemma last_snoc {A} (l : list A) (x d : A) : List.last (l ++ [x]) d = x.
Proof.
  induction l as [|y l IH]; [reflexivity|]. cbn [app].
  destruct (l ++ [x]) eqn:Heq; [destruct l; discriminate|]. exact IH.
Qed.

(** A probing loop that broke at a matching probe ends in residual 0. *)
Lemma probe_shift_broke (parse : string -> exc Instruction)
    (mset : InstructionMutationSet) (rng : EncodingRange) (d : Disassembler)
    (missing : Z) (ixs offsets0 offsets : list Z) (i : Z) (failure : bool) :
  probe_shift parse mset rng d missing ixs offsets0 = Ret (offsets, Some i, failure) ->
  List.last offsets 0 = 0.
Proof.
  revert offsets0. induction ixs as [|k ixs IH]; intros offsets0; cbn [probe_shift];
    [discriminate|].
  intros H. apply bind_Ret_inv in H as ([v|] & _ & H); [|discriminate].
  destruct (v =? Z.shiftl 1 k) eqn:Heq.
  - apply Z.eqb_eq in Heq. injection H as <- _ _. rewrite last_snoc. lia.
  - now apply IH in H.
Qed.

Lemma operand_probe_broke (parse : string -> exc Instruction)
    (mset : InstructionMutationSet) (rng : EncodingRange) (d : Disassembler)
    (oper : Operand) (missing : Z) (offsets : list Z) (i : Z) (failure : bool) :
  operand_probe parse mset rng d oper missing = Ret (offsets, Some i, failure) ->
  List.last offsets 0 = 0.
Proof.
  unfold operand_probe. destruct (negb (is_pred oper)); [|discriminate].
  apply probe_shift_broke.
Qed.

(** The loop body on a probed range is the probing part alone. *)
Lemma operand_fix_range_probed (parse : string -> exc Instruction)
    (log2 : Z -> option Z) (d : Disassembler) (mset : InstructionMutationSet)
    (seen : gset nat) (rng : EncodingRange) (oi : nat) (oper : Operand) (missing : Z) :
  probed parse log2 mset seen rng d oi oper missing ->
  operand_fix_range parse log2 d (mset, seen) rng
  = (m' <- operand_fix_probe parse mset rng d oi oper missing;; Ret (m', {[oi]} ∪ seen)).
Proof.
  intros (Hoi & Hoper & Hclass & Hlen & Hseen & Hmissing).
  unfold operand_fix_range. rewrite Hoi. unfold list_get. rewrite Hoper. cbn [bind].
  assert (H1 : negb (is_int_imm oper) && negb (is_pred oper) = false)
    by (destruct Hclass as [->| ->]; [reflexivity | apply andb_false_r]).
  rewrite H1.
  assert (H2 : ((ER.length rng <=? 2)%nat && negb (is_pred oper))
               || bool_decide (oi ∈ seen) = false).
  { rewrite (bool_decide_eq_false_2 _ Hseen), orb_false_r.
    destruct Hlen as [Hlen| ->]; [|apply andb_false_r].
    destruct (Nat.leb_spec (ER.length rng) 2); [lia | reflexivity]. }
  rewrite H2, Hmissing. reflexivity.
Qed.

(** C4 (as amended): for a probed OPERAND range whose probing did not fail,
    (1) residuals that end in a non-zero value found in at least half of the
    probes are recorded as the range's offset when there are at least 8
    probes (no other offset changes), and the range is then extended to the
    left by exactly [missing - shift] bits of the same operand, [shift]
    being the index of the first probe with that residual; (2) after
    residuals that end in 0, or without probes, no offset is recorded and
    the range is extended by exactly [missing - shift] bits, [shift] being
    the probe that matched (0 if none did); (3) residuals that end in a
    non-zero value without 8 probes, or without half of them agreeing, leave
    the mutation set as it was.  An extension by exactly [n] bits makes the
    [n] bits below the start of the range operand value bits of the operand
    of the range and changes no other bit. *)
Theorem operand_fix_range_spec (parse : string -> exc Instruction)
    (log2 : Z -> option Z) (d : Disassembler) (mset : InstructionMutationSet)
    (seen : gset nat) (rng : EncodingRange) (oi : nat) (oper : Operand)
    (missing : Z) (offsets : list Z) (broke : option Z) :
  probed parse log2 mset seen rng d oi oper missing ->
  operand_probe parse mset rng d oper missing = Ret (offsets, broke, false) ->
  let last := List.last offsets 0 in
  let n := Z.of_nat (List.length offsets) in
  exists m', operand_fix_range parse log2 d (mset, seen) rng = Ret (m', {[oi]} ∪ seen)
    /\ (8 <= n -> n / 2 <= count_of last offsets -> last <> 0 ->
        MS.bit_to_offset m' = <[Z.of_nat (ER.start rng) := last]> (MS.bit_to_offset mset)
        /\ extended_left mset m' rng oi (missing - index_of last offsets))
    /\ (last = 0 ->
        MS.bit_to_offset m' = MS.bit_to_offset mset
        /\ extended_left mset m' rng oi (missing - default 0 broke))
    /\ (last <> 0 -> n < 8 \/ count_of last offsets < n / 2 -> m' = mset).
Proof.
  intros Hprobed Hprobe last n.
  rewrite (operand_fix_range_probed parse log2 d mset seen rng oi oper missing Hprobed).
  unfold operand_fix_probe. rewrite Hprobe. cbn [bind]. fold last. fold n.
  destruct ((8 <=? n) && (n / 2 <=? count_of last offsets) && negb (last =? 0)) eqn:Hcond.
  - (* the offset is recorded *)
    apply andb_true_iff in Hcond as [Hcond Hnz]. apply andb_true_iff in Hcond as [H8 Hhalf].
    apply Z.leb_le in H8, Hhalf. apply negb_true_iff, Z.eqb_neq in Hnz.
    destruct broke as [i|]; destruct (negb (index_of last offsets =? 0));
      match goal with |- context [extend_operand ?m0 rng oi missing ?sh] =>
        destruct (extend_operand_spec m0 rng oi missing sh) as [Hoff Hext];
        exists (extend_operand m0 rng oi missing sh) end;
      (split; [reflexivity|]); (split; [|split]);
      try (intros; lia);
      intros _ _ _; (split; [rewrite Hoff; reflexivity | exact Hext]).
  - destruct (negb (Nat.eqb (List.length offsets) 0) && negb (last =? 0)) eqn:Hfail.
    + (* failed to correct *)
      apply andb_true_iff in Hfail as [_ Hnz]. apply negb_true_iff, Z.eqb_neq in Hnz.
      assert (Hbroke : broke = None).
      { destruct broke as [i|]; [|reflexivity].
        apply operand_probe_broke in Hprobe. fold last in Hprobe. contradiction. }
      subst broke. exists mset. split; [reflexivity|]. split; [|split].
      * intros H8 Hhalf _. exfalso.
        apply Z.leb_le in H8, Hhalf. rewrite H8, Hhalf in Hcond.
        apply Z.eqb_neq in Hnz. rewrite Hnz in Hcond. discriminate.
      * intros H0. contradiction.
      * reflexivity.
    + (* no residual left *)
      assert (H0 : last = 0).
      { destruct (Z.eqb_spec last 0) as [|Hnz]; [assumption|].
        cbn [negb] in Hfail. rewrite andb_true_r in Hfail.
        apply negb_false_iff, Nat.eqb_eq in Hfail.
        unfold last. destruct offsets; [reflexivity | discriminate]. }
      destruct broke as [i|]; cbn [default];
        match goal with |- context [extend_operand ?m0 rng oi missing ?sh] =>
          destruct (extend_operand_spec m0 rng oi missing sh) as [Hoff Hext];
          exists (extend_operand m0 rng oi missing sh) end;
        (split; [reflexivity|]); (split; [|split]);
        solve [ intros; contradiction
              | intros _; (split; [rewrite Hoff; reflexivity | exact Hext]) ].
Qed.

Lemma wide_range_probed :
  probed wide_parse log2_exact wide_mset ∅ wide_range (mock_disassembler wide_disasm)
         0 (mkOperand IntIMMOperand 5 []) 1.
Proof.
  unfold probed. split; [reflexivity|]. split; [reflexivity|].
  split; [now left|]. split; [left; simpl; lia|].
  split; [apply not_elem_of_empty | vm_compute; reflexivity].
Qed.

Lemma wide_range_probe :
  operand_probe wide_parse wide_mset wide_range (mock_disassembler wide_disasm)
                (mkOperand IntIMMOperand 5 []) 1
  = Ret ([5; 5; 5; 5; 5; 5; 5; 5], None, false).
Proof. vm_compute. reflexivity. Qed.

Lemma operand_fix_range_spec_witness :
  exists m',
    operand_fix_range wide_parse log2_exact (mock_disassembler wide_disasm)
                      (wide_mset, ∅) wide_range = Ret (m', {[0%nat]} ∪ ∅)
    /\ MS.bit_to_offset m' = <[8 := 5]> (MS.bit_to_offset wide_mset)
    /\ extended_left wide_mset m' wide_range 0 1.
Proof.
  destruct (operand_fix_range_spec wide_parse log2_exact (mock_disassembler wide_disasm)
              wide_mset ∅ wide_range 0 (mkOperand IntIMMOperand 5 []) 1
              [5; 5; 5; 5; 5; 5; 5; 5] None wide_range_probed wide_range_probe)
    as (m' & Hrun & Hoffset & _).
  exists m'. split; [exact Hrun|].
  apply Hoffset; [simpl; lia | apply Z.leb_le; reflexivity | simpl; lia].
Defined.

(** C4 (as stated) fails: the three-bit immediate is probed, the residuals
    4, 5, 5 of its probes end in 5, which two of the three probes show, and
    neither an offset is recorded nor the range extended; the pass leaves
    the mutation set as it was. *)
Lemma operand_fix_short_field_keeps_residual :
  probed imm_parse log2_exact imm_mset ∅ imm_range (mock_disassembler imm_disasm)
         0 (mkOperand IntIMMOperand 5 []) 1
  /\ operand_probe imm_parse imm_mset imm_range (mock_disassembler imm_disasm)
                   (mkOperand IntIMMOperand 5 []) 1 = Ret ([4; 5; 5], None, false)
  /\ operand_fix_range imm_parse log2_exact (mock_disassembler imm_disasm)
                       (imm_mset, ∅) imm_range = Ret (imm_mset, {[0%nat]} ∪ ∅)
  /\ analysis_operand_fix imm_parse log2_exact (mock_disassembler imm_disasm) imm_mset
     = Ret imm_mset
  /\ MS.bit_to_offset imm_mset !! 8 = None
  /\ bool_decide (7 ∈ MS.operand_value_bits imm_mset) = false.
Proof.
  split.
  { unfold probed. split; [reflexivity|]. split; [reflexivity|].
    split; [now left|]. split; [left; simpl; lia|].
    split; [apply not_elem_of_empty | vm_compute; reflexivity]. }
  repeat split; vm_compute; reflexivity.
Qed.

(** ** Range construction returns on a well-formed mutation set *)

Lemma fill_step_groups (st : fill_state) (bit : Z) :
  is_Some (fill_groups (fill_step st bit) !! bit)
  /\ forall b, is_Some (fill_groups st !! b) -> is_Some (fill_groups (fill_step st bit) !! b).
Proof.
  unfold fill_step. case_bool_decide as Hin; cbn [fill_groups].
  - auto.
  - split.
    + rewrite lookup_insert_eq. eauto.
    + intros b Hb. destruct (decide (bit = b)) as [->|Hne].
      * rewrite lookup_insert_eq. eauto.
      * now rewrite lookup_insert_ne.
Qed.

Lemma fill_loop_groups (bits : list Z) (st : fill_state) :
  (forall b, is_Some (fill_groups st !! b) ->
             is_Some (fill_groups (fold_left fill_step bits st) !! b))
  /\ forall b, In b bits -> is_Some (fill_groups (fold_left fill_step bits st) !! b).
Proof.
  revert st. induction bits as [|bit bits IH]; intros st; cbn [fold_left].
  - split; [auto | intros ? []].
  - destruct (IH (fill_step st bit)) as [Hkeep Hin].
    destruct (fill_step_groups st bit) as [Hbit Hmono].
    split; [auto|]. intros b [<-|Hb]; auto.
Qed.

Lemma renum_step_ok (st : renum_state) (bit : Z) :
  is_Some (renum_groups st !! bit) ->
  exists st', renum_step st bit = Ret st'
    /\ forall b, is_Some (renum_groups st !! b) -> is_Some (renum_groups st' !! b).
Proof.
  intros [gid Hgid]. unfold renum_step. rewrite Hgid. cbn [dict_get bind].
  destruct (num_map st !! gid); eexists; (split; [reflexivity|]);
    cbn [renum_groups]; intros b Hb;
    (destruct (decide (bit = b)) as [->|Hne];
     [rewrite lookup_insert_eq; eauto | now rewrite lookup_insert_ne]).
Qed.

Lemma renum_loop_ok (bits : list Z) (st : renum_state) :
  (forall b, In b bits -> is_Some (renum_groups st !! b)) ->
  exists st', foldM renum_step bits st = Ret st'
    /\ forall b, is_Some (renum_groups st !! b) -> is_Some (renum_groups st' !! b).
Proof.
  revert st. induction bits as [|bit bits IH]; intros st Hall; cbn [foldM].
  - eauto.
  - destruct (renum_step_ok st bit) as (st1 & -> & Hmono); [apply Hall; now left|].
    cbn [bind]. destruct (IH st1) as (st' & -> & Hmono').
    + intros b Hb. apply Hmono, Hall. now right.
    + eauto.
Qed.

Lemma In_sorted_bits (s : gset Z) (b : Z) : In b (sorted_bits s) <-> b ∈ s.
Proof.
  unfold sorted_bits. rewrite <- list_elem_of_In.
  rewrite (merge_sort_Permutation Z.le (elements s)). apply elem_of_elements.
Qed.

(** The canonical numbering never misses a key, and gives every modifier
    bit a group. *)
Lemma canonical_groups_ok (bits : gset Z) (groups : gmap Z nat) :
  exists groups', canonical_groups bits groups = Ret groups'
    /\ forall b, b ∈ bits -> is_Some (groups' !! b).
Proof.
  unfold canonical_groups.
  destruct (fill_loop_groups (sorted_bits bits) (mkFill groups false 0%nat None))
    as [_ Hfilled].
  destruct (renum_loop_ok (sorted_bits bits)
              (mkRenum (fill_groups (fold_left fill_step (sorted_bits bits)
                                       (mkFill groups false 0%nat None))) ∅ 0%nat))
    as (st' & -> & Hmono); [exact Hfilled|].
  cbn [bind]. eexists. split; [reflexivity|].
  intros b Hb. apply Hmono. cbn [renum_groups]. apply Hfilled. now apply In_sorted_bits.
Qed.

Lemma read_bit_ok (w : word) (i : Z) :
  0 <= i < 8 * Z.of_nat (List.length w) -> exists b, read_bit w i = Ret b.
Proof.
  intros Hi. unfold read_bit.
  assert (Hdiv : i / 8 < Z.of_nat (List.length w))
    by (apply Z.div_lt_upper_bound; lia).
  destruct (Z.leb_spec 0 i); [|lia].
  destruct (Z.ltb_spec (i / 8) (Z.of_nat (List.length w))); [|lia].
  cbn [andb]. eauto.
Qed.

Lemma read_bits_ok (w : word) (lo : Z) (ixs : list Z) (acc : Z) :
  (forall i, In i ixs -> 0 <= i < 8 * Z.of_nat (List.length w)) ->
  exists v, foldM (fun (acc : Z) (i : Z) =>
                     b <- read_bit w i;;
                     Ret (if b then Z.setbit acc (i - lo) else acc)) ixs acc = Ret v.
Proof.
  revert acc. induction ixs as [|i ixs IH]; intros acc Hin; cbn [foldM].
  - eauto.
  - destruct (read_bit_ok w i) as [b ->]; [apply Hin; now left|]. cbn [bind].
    apply IH. intros j Hj. apply Hin. now right.
Qed.

Lemma get_bit_range_ok (w : word) (lo hi : Z) :
  0 <= lo -> hi <= 8 * Z.of_nat (List.length w) -> exists v, get_bit_range w lo hi = Ret v.
Proof.
  intros Hlo Hhi. unfold get_bit_range. apply read_bits_ok.
  intros i Hi. apply In_Zrange in Hi. lia.
Qed.

Lemma control_code_range_ok (inst : word) (i offset : nat)
    (codes : list (EncodingRangeType * nat)) :
  (offset + list_sum (map snd codes) <= 8 * List.length inst)%nat ->
  exists cc, control_code_range inst i offset codes = Ret cc.
Proof.
  revert offset. induction codes as [|[rtype len] codes IH]; intros offset Hsum;
    cbn [control_code_range].
  - eauto.
  - simpl in Hsum.
    destruct (IH (offset + len)%nat) as (cc & Hcc); [lia|].
    destruct ((offset <=? i)%nat && (i <? offset + len)%nat); [|eauto].
    destruct (get_bit_range_ok inst (Z.of_nat offset) (Z.of_nat (offset + len)))
      as [v ->]; [lia | lia |].
    cbn [bind]. destruct (v =? 0); eauto.
Qed.

Lemma default_range_ok (m : InstructionMutationSet) (i : nat) :
  List.length (MS.inst m) = 16%nat ->
  exists r, default_range m i = Ret r
            /\ (ER.type r = CONSTANT -> is_Some (ER.constant r)).
Proof.
  intros Hlen. unfold default_range.
  destruct (control_code_range_ok (MS.inst m) i (13 * 8 + 1) control_code_ranges)
    as ([r|] & Hcc); [rewrite Hlen; vm_compute; lia | |]; rewrite Hcc; cbn [bind].
  - exists r. split; [reflexivity|].
    apply control_code_range_shape in Hcc as (_ & _ & Hty & _).
    intros Heq. rewrite Heq in Hty. cbn in Hty. intuition discriminate.
  - eexists. split; [reflexivity|]. cbn. eauto.
Qed.

Lemma classify_ok (m : InstructionMutationSet) (i : nat) :
  well_formed m -> (i < 128)%nat ->
  (forall b, b ∈ MS.modifier_bits m -> is_Some (MS.modifier_groups m !! b)) ->
  exists c, classify m i = Ret c
    /\ forall r, c = Single r \/ c = NewRange r -> ER.type r <> CONSTANT.
Proof.
  intros [_ Hops] Hi Hgroups. unfold classify.
  case_bool_decide as Hmod.
  { destruct (odict_get _ _).
    - eexists. split; [reflexivity|]. intros r [[= <-]|[=]]. discriminate.
    - destruct (Hgroups _ Hmod) as [g ->]. cbn [dict_get bind].
      eexists. split; [reflexivity|]. intros r [[=]|[= <-]]. discriminate. }
  case_bool_decide as Hpred.
  { eexists. split; [reflexivity|]. intros r [[=]|[= <-]]. discriminate. }
  case_bool_decide as Hval.
  { destruct (Hops i Hi (or_introl Hval)) as [oi ->]. cbn [dict_get bind].
    eexists. split; [reflexivity|]. intros r [[=]|[= <-]]. discriminate. }
  case_bool_decide as Hopm.
  { destruct (Hops i Hi (or_intror Hopm)) as [oi ->]. cbn [dict_get bind].
    destruct (odict_get _ _); eexists; (split; [reflexivity|]).
    - intros r [[= <-]|[=]]. discriminate.
    - intros r [[=]|[= <-]]. discriminate. }
  eexists. split; [reflexivity|]. intros r [[=]|[=]].
Qed.

Lemma annotate_ok (m : InstructionMutationSet) (i : nat) (cur : EncodingRange) :
  List.length (MS.inst m) = 16%nat -> (i < 128)%nat ->
  (ER.type cur = CONSTANT -> is_Some (ER.constant cur)) ->
  exists cur', annotate m i cur = Ret cur'
    /\ (ER.type cur' = CONSTANT -> is_Some (ER.constant cur')).
Proof.
  intros Hlen Hi Hconst. unfold annotate.
  set (c1 := match ER.shift cur, MS.bit_to_shift m !! Z.of_nat i with
             | None, Some s => ER.set_shift (Some s) cur
             | _, _ => cur
             end).
  assert (H1 : ER.type c1 = ER.type cur /\ ER.constant c1 = ER.constant cur).
  { unfold c1. destruct (ER.shift cur), (MS.bit_to_shift m !! Z.of_nat i); auto. }
  set (c2 := match ER.offset c1, MS.bit_to_offset m !! Z.of_nat i with
             | None, Some o => ER.set_offset (Some o) c1
             | _, _ => c1
             end).
  assert (H2 : ER.type c2 = ER.type cur /\ ER.constant c2 = ER.constant cur).
  { unfold c2. destruct (ER.offset c1), (MS.bit_to_offset m !! Z.of_nat i); cbn; tauto. }
  destruct H2 as [Hty Hc]. case_bool_decide as Hct.
  - rewrite Hc. destruct Hconst as [c ->]; [congruence|].
    destruct (list_get_lt (MS.inst m) (i / 8)) as [byte ->].
    { rewrite Hlen. apply Nat.Div0.div_lt_upper_bound. lia. }
    cbn [bind]. eexists. split; [reflexivity|]. cbn. eauto.
  - eexists. split; [reflexivity|]. intros Heq. contradiction.
Qed.

Lemma place_ok (m : InstructionMutationSet) (result : list EncodingRange)
    (cur : option EncodingRange) (new : EncodingRange) (i : nat) :
  List.length (MS.inst m) = 16%nat -> (i < 128)%nat ->
  current_ok (result, cur) ->
  (ER.type new = CONSTANT -> is_Some (ER.constant new)) ->
  exists st', place m result cur new i = Ret st' /\ current_ok st'.
Proof.
  intros Hlen Hi Hcur Hnew. unfold place, extend_or_push.
  assert (Hok : ER.type (snd match cur with
                             | Some c => if extends c new i
                                         then (result, ER.set_length (ER.length c + 1) c)
                                         else (result ++ [c], new)
                             | None => (result, new)
                             end) = CONSTANT ->
                is_Some (ER.constant (snd match cur with
                             | Some c => if extends c new i
                                         then (result, ER.set_length (ER.length c + 1) c)
                                         else (result ++ [c], new)
                             | None => (result, new)
                             end))).
  { destruct cur as [c|]; [|exact Hnew].
    destruct (extends c new i); [|exact Hnew]. cbn. apply (Hcur c eq_refl). }
  destruct (annotate_ok m i _ Hlen Hi Hok) as (cur' & -> & Hcur').
  cbn [bind]. eexists. split; [reflexivity|]. intros c [= <-]. exact Hcur'.
Qed.

Lemma ranges_step_ok (m : InstructionMutationSet)
    (st : list EncodingRange * option EncodingRange) (i : nat) :
  well_formed m -> (i < 128)%nat ->
  (forall b, b ∈ MS.modifier_bits m -> is_Some (MS.modifier_groups m !! b)) ->
  current_ok st ->
  exists st', ranges_step m st i = Ret st' /\ current_ok st'.
Proof.
  intros Hwf Hi Hgroups Hcur. unfold ranges_step.
  destruct (classify_ok m i Hwf Hi Hgroups) as (c & -> & Hty). cbn [bind].
  destruct Hwf as [Hlen _]. destruct st as [result cur]. cbn [fst snd].
  destruct c as [r|r|].
  - eexists. split; [reflexivity|]. intros c [=].
  - apply place_ok; try assumption. intros Heq. exfalso. eapply Hty; eauto.
  - destruct (default_range_ok m i Hlen) as (new & -> & Hnew). cbn [bind].
    now apply place_ok.
Qed.

Lemma ranges_loop_ok (m : InstructionMutationSet) (n lo : nat)
    (st : list EncodingRange * option EncodingRange) :
  well_formed m -> (lo + n <= 128)%nat ->
  (forall b, b ∈ MS.modifier_bits m -> is_Some (MS.modifier_groups m !! b)) ->
  current_ok st ->
  exists st', foldM (ranges_step m) (seq lo n) st = Ret st'.
Proof.
  intros Hwf Hn Hgroups. revert lo st Hn.
  induction n as [|n IH]; intros lo st Hn Hcur; cbn [seq foldM].
  - eauto.
  - destruct (ranges_step_ok m st lo Hwf) as (st1 & -> & Hcur1); [lia | assumption..|].
    cbn [bind]. apply IH; [lia | assumption].
Qed.

(** On a well-formed mutation set [compute_encoding_ranges] raises nothing:
    it returns its ranges. *)
Theorem compute_encoding_ranges_returns (m : InstructionMutationSet) :
  well_formed m -> exists rs m', compute_encoding_ranges m = Ret (rs, m').
Proof.
  intros Hwf. unfold compute_encoding_ranges, canonicalize_modifier_groups.
  destruct (canonical_groups_ok (MS.modifier_bits m) (MS.modifier_groups m))
    as (groups & -> & Hgroups).
  cbn [bind].
  destruct (ranges_loop_ok (MS.set_modifier_groups groups m) 128 0 ([], None))
    as (st & Hloop); [exact Hwf | lia | exact Hgroups | intros c [=] |].
  change (8 * 16)%nat with 128%nat. rewrite Hloop. cbn [bind]. eauto.
Qed.

Lemma example_mset_well_formed : well_formed example_mset.
Proof.
  split; [reflexivity|].
  intros i _ [H|H]; unfold example_mset in H;
    cbn [MS.operand_value_bits MS.operand_modifier_bits] in H; set_unfold in H.
  - destruct H as [[H|H]|H]; rewrite H; vm_compute; eauto.
  - rewrite H. vm_compute. eauto.
Qed.

Lemma compute_encoding_ranges_returns_witness :
  exists rs m', compute_encoding_ranges example_mset = Ret (rs, m').
Proof.
  exact (compute_encoding_ranges_returns example_mset example_mset_well_formed).
Defined.

(** ** The canonical numbering keeps neighbouring bits together *)

Lemma sorted_bits_sorted (s : gset Z) :
  StronglySorted Z.le (sorted_bits s) /\ List.NoDup (sorted_bits s).
Proof.
  unfold sorted_bits. split.
  - apply StronglySorted_merge_sort; apply _.
  - apply NoDup_ListNoDup. rewrite (merge_sort_Permutation Z.le (elements s)).
    apply NoDup_elements.
Qed.

(** In a sorted list without repetition, [a] and [a + 1] are neighbours. *)
Lemma sorted_adjacent (l : list Z) (a : Z) :
  StronglySorted Z.le l -> List.NoDup l -> In a l -> In (a + 1) l ->
  exists pre post, l = pre ++ a :: (a + 1) :: post.
Proof.
  induction l as [|x l IH]; intros Hs Hnd Ha Ha1; [destruct Ha|].
  apply StronglySorted_inv in Hs as [Hs Hall].
  rewrite List.Forall_forall in Hall.
  inversion Hnd as [|? ? Hnotin Hnd']; subst.
  destruct (decide (x = a)) as [->|Hne].
  - destruct Ha1 as [Heq|Ha1]; [lia|].
    destruct l as [|y l]; [destruct Ha1|].
    assert (a <= y) by (apply Hall; now left).
    assert (y <> a) by (intros ->; apply Hnotin; now left).
    apply StronglySorted_inv in Hs as [_ Hall'].
    rewrite List.Forall_forall in Hall'.
    assert (y = a + 1).
    { destruct Ha1 as [->|Ha1]; [reflexivity|]. specialize (Hall' _ Ha1). lia. }
    subst y. exists [], l. reflexivity.
  - destruct Ha as [->|Ha]; [congruence|].
    destruct Ha1 as [->|Ha1]; [specialize (Hall _ Ha); lia|].
    destruct (IH Hs Hnd' Ha Ha1) as (pre & post & ->).
    exists (x :: pre), post. reflexivity.
Qed.

Lemma fill_step_keeps (st : fill_state) (bit b : Z) (v : nat) :
  fill_groups st !! b = Some v -> fill_groups (fill_step st bit) !! b = Some v.
Proof.
  intros Hb. unfold fill_step. case_bool_decide as Hin; cbn [fill_groups]; [assumption|].
  rewrite lookup_insert_ne; [assumption|]. intros ->. apply Hin. eauto.
Qed.

Lemma fill_loop_keeps (bits : list Z) (st : fill_state) (b : Z) (v : nat) :
  fill_groups st !! b = Some v -> fill_groups (fold_left fill_step bits st) !! b = Some v.
Proof.
  revert st. induction bits as [|bit bits IH]; intros st Hb; cbn [fold_left]; [assumption|].
  apply IH. now apply fill_step_keeps.
Qed.

Lemma fill_step_fresh (st : fill_state) (bit b : Z) :
  fill_groups st !! b = None -> b <> bit -> fill_groups (fill_step st bit) !! b = None.
Proof.
  intros Hb Hne. unfold fill_step. case_bool_decide; cbn [fill_groups]; [assumption|].
  now rewrite lookup_insert_ne.
Qed.

Lemma fill_loop_fresh (bits : list Z) (st : fill_state) (b : Z) :
  fill_groups st !! b = None -> ~ In b bits ->
  fill_groups (fold_left fill_step bits st) !! b = None.
Proof.
  revert st. induction bits as [|bit bits IH]; intros st Hb Hnotin; cbn [fold_left];
    [assumption|].
  apply IH; [|intros Hin; apply Hnotin; now right].
  apply fill_step_fresh; [assumption|]. intros ->. apply Hnotin. now left.
Qed.

(** Two neighbouring bits without a group get the same fill id. *)
Lemma fill_step_pair (st : fill_state) (a : Z) :
  fill_groups st !! a = None -> fill_groups st !! (a + 1) = None ->
  exists fid, fill_groups (fill_step (fill_step st a) (a + 1)) !! a = Some fid
              /\ fill_groups (fill_step (fill_step st a) (a + 1)) !! (a + 1) = Some fid.
Proof.
  intros Ha Ha1.
  assert (E1 : exists fid, fill_step st a
                           = mkFill (<[a := fid]> (fill_groups st)) true fid (Some a)).
  { unfold fill_step.
    rewrite bool_decide_eq_false_2 by (rewrite Ha; apply is_Some_None). eauto. }
  destruct E1 as (fid & ->). exists fid.
  unfold fill_step. cbn [fill_groups fill_mode fill_id fill_prev].
  rewrite bool_decide_eq_false_2
    by (rewrite lookup_insert_ne by lia; rewrite Ha1; apply is_Some_None).
  replace (a =? a + 1 - 1) with true by (symmetry; apply Z.eqb_eq; lia).
  cbn [fill_groups]. split.
  - rewrite lookup_insert_ne by lia. apply lookup_insert_eq.
  - apply lookup_insert_eq.
Qed.

Lemma renum_step_other (st st' : renum_state) (bit b : Z) :
  renum_step st bit = Ret st' -> b <> bit ->
  renum_groups st' !! b = renum_groups st !! b.
Proof.
  unfold renum_step. intros H Hne. apply bind_Ret_inv in H as (gid & _ & H).
  destruct (num_map st !! gid); injection H as <-; cbn [renum_groups];
    now rewrite lookup_insert_ne.
Qed.

Lemma renum_loop_other (bits : list Z) (st st' : renum_state) (b : Z) :
  foldM renum_step bits st = Ret st' -> ~ In b bits ->
  renum_groups st' !! b = renum_groups st !! b.
Proof.
  revert st. induction bits as [|bit bits IH]; intros st; cbn [foldM].
  - now intros [= <-].
  - intros H Hnotin. apply bind_Ret_inv in H as (st1 & Hstep & Hrest).
    rewrite (IH _ Hrest) by (intros Hin; apply Hnotin; now right).
    apply (renum_step_other _ _ _ _ Hstep). intros ->. apply Hnotin. now left.
Qed.

(** Two neighbouring bits of one group are renumbered alike. *)
Lemma renum_step_pair (st s1 s2 : renum_state) (a : Z) (fid : nat) :
  renum_groups st !! a = Some fid -> renum_groups st !! (a + 1) = Some fid ->
  renum_step st a = Ret s1 -> renum_step s1 (a + 1) = Ret s2 ->
  renum_groups s2 !! a = renum_groups s2 !! (a + 1).
Proof.
  intros Ha Ha1 H1 H2. unfold renum_step in H1. rewrite Ha in H1. cbn [dict_get bind] in H1.
  assert (Hs1 : exists n, renum_groups s1 = <[a := n]> (renum_groups st)
                          /\ num_map s1 !! fid = Some n).
  { destruct (num_map st !! fid) as [n|] eqn:Hn; injection H1 as <-; cbn.
    - eauto.
    - eexists. split; [reflexivity | apply lookup_insert_eq]. }
  destruct Hs1 as (n & Hg1 & Hn1).
  unfold renum_step in H2. rewrite Hg1, lookup_insert_ne, Ha1 in H2 by lia.
  cbn [dict_get bind] in H2. rewrite Hn1 in H2. injection H2 as <-. cbn [renum_groups].
  rewrite lookup_insert_eq. rewrite lookup_insert_ne by lia. apply lookup_insert_eq.
Qed.

(** After [reset_modifier_groups] the canonical numbering puts two
    neighbouring modifier bits in one group. *)
Lemma canonical_groups_adjacent (bits : gset Z) (groups' : gmap Z nat) (a : Z) :
  canonical_groups bits ∅ = Ret groups' -> a ∈ bits -> a + 1 ∈ bits ->
  groups' !! a = groups' !! (a + 1).
Proof.
  unfold canonical_groups. intros H Ha Ha1.
  destruct (sorted_bits_sorted bits) as [Hsorted Hnd].
  apply In_sorted_bits in Ha, Ha1.
  destruct (sorted_adjacent _ a Hsorted Hnd Ha Ha1) as (pre & post & Heq).
  rewrite Heq in H, Hnd. clear Heq Ha Ha1 Hsorted.
  apply NoDup_remove in Hnd as [Hnd Ha].
  assert (Ha1 : ~ In (a + 1) pre /\ ~ In (a + 1) post).
  { apply NoDup_remove in Hnd as [_ Hn]. rewrite in_app_iff in Hn. tauto. }
  assert (Ha' : ~ In a pre /\ ~ In a post).
  { rewrite in_app_iff in Ha. cbn [In] in Ha. tauto. }
  clear Ha Hnd. destruct Ha1 as [Ha1 Ha1p]. destruct Ha' as [Ha Hap].
  (* the fill pass *)
  rewrite fold_left_app in H. cbn [fold_left] in H.
  set (st0 := fold_left fill_step pre (mkFill ∅ false 0%nat None)) in H.
  destruct (fill_step_pair st0 a) as (fid & Hfa & Hfa1).
  { apply fill_loop_fresh; [apply lookup_empty | assumption]. }
  { apply fill_loop_fresh; [apply lookup_empty | assumption]. }
  apply (fill_loop_keeps post) in Hfa, Hfa1.
  set (filled := fill_groups (fold_left fill_step post
                                (fill_step (fill_step st0 a) (a + 1)))) in *.
  (* the renumbering pass *)
  apply bind_Ret_inv in H as (st' & Hloop & H). injection H as <-.
  rewrite foldM_app in Hloop. apply bind_Ret_inv in Hloop as (s0 & Hpre & Hloop).
  cbn [foldM] in Hloop.
  apply bind_Ret_inv in Hloop as (s1 & Hs1 & Hloop).
  apply bind_Ret_inv in Hloop as (s2 & Hs2 & Hpost).
  rewrite (renum_loop_other post s2 st' a Hpost Hap).
  rewrite (renum_loop_other post s2 st' (a + 1) Hpost Ha1p).
  apply (renum_step_pair s0 s1 s2 a fid); try assumption.
  - rewrite (renum_loop_other pre _ s0 a Hpre Ha). exact Hfa.
  - rewrite (renum_loop_other pre _ s0 (a + 1) Hpre Ha1). exact Hfa1.
Qed.

(** C7: in the ranges of [compute_encoding_ranges] no CONSTANT range holds
    both bit 63 and bit 64, while two modifier bits 63 and 64 (neither a
    flag) lie in one MODIFIER range, which is not broken at bit 64, whenever
    the group assignments were reset before or, more generally, whenever the
    canonical numbering puts the two bits in one group. *)
Theorem compute_encoding_ranges_bit_64
    (m m' : InstructionMutationSet) (rs : EncodingRanges) :
  compute_encoding_ranges m = Ret (rs, m') ->
  (forall r, In r (ranges rs) -> ER.type r = CONSTANT ->
     ~ ((ER.start r <= 63)%nat /\ (64 < ER.start r + ER.length r)%nat))
  /\ (63 ∈ MS.modifier_bits m -> 64 ∈ MS.modifier_bits m ->
      odict_get (MS.instruction_modifier_bit_flag m) 63 = None ->
      odict_get (MS.instruction_modifier_bit_flag m) 64 = None ->
      MS.modifier_groups m = ∅
      \/ MS.modifier_groups m' !! 63 = MS.modifier_groups m' !! 64 ->
      exists r, In r (ranges rs) /\ ER.type r = MODIFIER
                /\ (ER.start r <= 63)%nat /\ (64 < ER.start r + ER.length r)%nat).
Proof.
  unfold compute_encoding_ranges. intros H.
  apply bind_Ret_inv in H as (m1 & Hcanon & H).
  apply bind_Ret_inv in H as (st & Hloop & H).
  injection H as <- <-. cbn [ranges].
  pose proof (canonicalize_modifier_groups_fields _ _ Hcanon) as (Hbits & Hflags & _).
  split.
  - destruct (ranges_loop_invariants m1 128 0 ([], None) st Hloop) as [Hok _];
      [reflexivity | intros ? [] |].
    intros r Hr Hty. specialize (Hok r Hr Hty). lia.
  - intros H63 H64 Hf63 Hf64 Hgrp.
    assert (Hsame : MS.modifier_groups m1 !! 63 = MS.modifier_groups m1 !! 64).
    { destruct Hgrp as [Hreset|Hsame]; [|exact Hsame].
      unfold canonicalize_modifier_groups in Hcanon. rewrite Hreset in Hcanon.
      apply bind_Ret_inv in Hcanon as (g & Hg & Hm1). injection Hm1 as <-.
      cbn [MS.modifier_groups MS.set_modifier_groups].
      exact (canonical_groups_adjacent _ _ 63 Hg H63 H64). }
    change (seq 0 (8 * 16)) with (seq 0 63 ++ 63%nat :: 64%nat :: seq 65 63) in Hloop.
    rewrite foldM_app in Hloop. apply bind_Ret_inv in Hloop as (s0 & Hpre & Hloop).
    cbn [foldM] in Hloop.
    apply bind_Ret_inv in Hloop as (s1 & Hstep1 & Hloop).
    apply bind_Ret_inv in Hloop as (s2 & Hstep2 & Hloop).
    pose proof (ranges_loop_chain m1 63 0 ([], None) s0 Hpre eq_refl) as Hchain.
    rewrite <- Hbits in H63, H64. rewrite <- Hflags in Hf63, Hf64.
    destruct (ranges_step_joins_modifier m1 s0 s1 s2 63 H63 H64 Hf63 Hf64 Hsame
                Hchain Hstep1 Hstep2) as (cur & Hcur & Hty & Hs & He).
    assert (Hk : kept cur (_push (fst s2) (snd s2))).
    { rewrite Hcur. exists cur. cbn [_push].
      split; [apply in_app_iff; right; now left | auto]. }
    apply (ranges_loop_kept m1 63 65 s2 st cur Hloop) in Hk as (r & Hin & Hty' & Hs' & Hl').
    exists r. split; [assumption|]. split; [congruence|]. lia.
Qed.

Lemma compute_encoding_ranges_bit_64_witness :
  exists r, In r (ranges example_ranges) /\ ER.type r = MODIFIER
            /\ (ER.start r <= 63)%nat /\ (64 < ER.start r + ER.length r)%nat.
Proof.
  apply (proj2 (compute_encoding_ranges_bit_64 example_mset example_mset' example_ranges
                  example_mset_ranges)).
  - vm_compute. reflexivity.
  - vm_compute. reflexivity.
  - reflexivity.
  - reflexivity.
  - left. reflexivity.
Defined.

(** ** The modifier-value solver always answers *)

Lemma all_modifiers_index (spec : InstructionSpec) (g : string) (i : nat) (v : Z) :
  In (g, i, v) (all_modifiers spec) -> (i < List.length (spec_modifiers spec))%nat.
Proof.
  unfold all_modifiers. intros Hin.
  apply in_concat in Hin as (rows & Hrows & Hin).
  apply list_elem_of_In, elem_of_lookup_imap in Hrows as (k & table & -> & Hk).
  apply in_map_iff in Hin as (vn & [= _ <- _] & _).
  now apply lookup_lt_Some in Hk.
Qed.

Lemma scan_candidates_best (spec : InstructionSpec) (cnts : Counter)
    (used : gset nat) (best : best_state) :
  scan_candidates spec cnts used = Some best ->
  (best_i best ∉ used) /\ (best_i best < List.length (spec_modifiers spec))%nat.
Proof.
  unfold scan_candidates.
  assert (Hgen : forall rows acc,
             (forall g i v, In (g, i, v) rows ->
                            (i < List.length (spec_modifiers spec))%nat) ->
             (forall b, acc = Some b ->
                        (best_i b ∉ used)
                        /\ (best_i b < List.length (spec_modifiers spec))%nat) ->
             forall b,
               fold_left
                 (fun (best : option best_state) (row : string * nat * Z) =>
                    let '(modifier_group, i, value) := row in
                    if bool_decide (i ∈ used) then best
                    else
                      let modifier_group := List.filter nonempty (split_dot modifier_group) in
                      let score := score_match cnts modifier_group in
                      if (match best with Some b => best_match b | None => 0 end) <? score
                      then Some (mkBest i value modifier_group score)
                      else best) rows acc = Some b ->
               (best_i b ∉ used) /\ (best_i b < List.length (spec_modifiers spec))%nat).
  { induction rows as [|[[g i] v] rows IH]; intros acc Hrows Hacc b; cbn [fold_left].
    - apply Hacc.
    - apply IH; [intros g' i' v' Hin; apply (Hrows g' i' v'); now right|].
      intros b'. case_bool_decide as Hused; [apply Hacc|].
      destruct (_ <? _); [|apply Hacc].
      intros [= <-]. cbn [best_i]. split; [assumption|].
      apply (Hrows g i v). now left. }
  apply Hgen; [apply all_modifiers_index | discriminate].
Qed.

Lemma list_set_ok {A} (l : list A) (i : nat) (v : A) :
  (i < List.length l)%nat ->
  exists l', list_set l i v = Ret l' /\ List.length l' = List.length l.
Proof.
  intros Hi. unfold list_set. destruct (Nat.ltb_spec i (List.length l)); [|lia].
  eexists. split; [reflexivity | apply length_insert].
Qed.

(** The greedy loop uses each group at most once, so the fuel of one level
    per group (and one to spare) is never exhausted. *)
Lemma greedy_loop_ok (spec : InstructionSpec) (fuel : nat) (st : solve_state) :
  let n := List.length (spec_modifiers spec) in
  List.length (st_modi_values st) = n ->
  st_used_modis st ⊆ set_seq 0 n ->
  (n - size (st_used_modis st) < fuel)%nat ->
  exists st', greedy_loop fuel spec st = Ret st' /\ List.length (st_modi_values st') = n.
Proof.
  intros n. revert st. induction fuel as [|fuel IH]; intros st Hlen Hsub Hfuel; [lia|].
  cbn [greedy_loop]. destruct (st_counts st) eqn:Hcounts; [eauto|].
  destruct (scan_candidates spec _ _) as [best|] eqn:Hscan; [|eauto].
  apply scan_candidates_best in Hscan as [Hfresh Hlt]. fold n in Hlt.
  destruct (list_set_ok (st_modi_values st) (best_i best) (best_value best))
    as (values & -> & Hvalues); [lia|].
  cbn [bind].
  assert (Hsub' : {[best_i best]} ∪ st_used_modis st ⊆ set_seq 0 n).
  { intros x Hx. apply elem_of_union in Hx as [Hx|Hx]; [|now apply Hsub].
    apply elem_of_singleton in Hx as ->. apply elem_of_set_seq. lia. }
  assert (Hsize : size ({[best_i best]} ∪ st_used_modis st) = S (size (st_used_modis st))).
  { rewrite size_union by (apply disjoint_singleton_l; assumption).
    now rewrite size_singleton. }
  pose proof (subseteq_size _ _ Hsub') as Hbound. rewrite size_set_seq, Hsize in Hbound.
  apply IH; cbn [st_modi_values st_used_modis]; [congruence | assumption | lia].
Qed.

Lemma fill_defaults_ok (spec : InstructionSpec) (values : list Z) :
  List.length values = List.length (spec_modifiers spec) ->
  exists values', fill_defaults spec values = Ret values'
                  /\ List.length values' = List.length (spec_modifiers spec).
Proof.
  unfold fill_defaults. intros Hlen.
  pose proof (all_modifiers_index spec) as Hrows. revert values Hlen.
  induction (all_modifiers spec) as [|[[g i] v] rows IH]; intros values Hlen; cbn [foldM].
  - eauto.
  - assert (Hstep : exists values1,
               (if existsb (Z.eqb (Z.of_nat i)) values then Ret values
                else if nonempty g then Ret values else list_set values i v) = Ret values1
               /\ List.length values1 = List.length (spec_modifiers spec)).
    { destruct (existsb _ _); [eauto|]. destruct (nonempty g); [eauto|].
      destruct (list_set_ok values i v) as (values1 & -> & Hlen1).
      - rewrite Hlen. apply (Hrows g i v). now left.
      - exists values1. split; [reflexivity | congruence]. }
    destruct Hstep as (values1 & -> & Hlen1). cbn [bind].
    apply IH; [|assumption]. intros g' i' v' Hin. apply (Hrows g' i' v'). now right.
Qed.

(** [get_modifier_values] raises nothing: it answers [None] or an
    assignment with one value for every modifier group. *)
Theorem get_modifier_values_returns (spec : InstructionSpec) (request : list string) :
  get_modifier_values spec request = Ret None
  \/ exists values used_flags,
       get_modifier_values spec request = Ret (Some (values, used_flags))
       /\ List.length values = List.length (spec_modifiers spec).
Proof.
  unfold get_modifier_values.
  destruct (subtract_opcode_modis _ _) as [cnts|]; [|now left].
  destruct (greedy_loop_ok spec (S (List.length (spec_modifiers spec)))
              (mkSolve cnts ∅ (replicate (List.length (spec_modifiers spec)) 0)))
    as (st & -> & Hlen); cbn [st_modi_values st_used_modis].
  - apply length_replicate.
  - apply empty_subseteq.
  - rewrite size_empty. lia.
  - cbn [bind]. destruct (match_flags _ _) as [cnts' used_flags].
    destruct (counter_remove_zeros cnts'); [|now left].
    destruct (fill_defaults_ok spec (st_modi_values st) Hlen) as (values & -> & Hlen').
    cbn [bind]. right. eauto.
Qed.

(** ** Bits of a word *)

Lemma bit_at_insert (w : word) (k : nat) (v : Z) (j : Z) :
  (k < List.length w)%nat ->
  bit_at (<[k := v]> w) j
  = if (Z.to_nat (j / 8) =? k)%nat then Z.testbit v (j mod 8) else bit_at w j.
Proof.
  intros Hk. unfold bit_at. rewrite !nth_lookup.
  destruct (Nat.eqb_spec (Z.to_nat (j / 8)) k) as [->|Hne].
  - now rewrite list_lookup_insert_eq.
  - now rewrite list_lookup_insert_ne by congruence.
Qed.

Lemma bit_at_zero_word (j : Z) : bit_at zero_word j = false.
Proof.
  unfold bit_at, zero_word. rewrite nth_lookup.
  destruct (replicate 16 0 !! Z.to_nat (j / 8)) as [b|] eqn:Hb; cbn [default].
  - apply lookup_replicate in Hb as [-> _]. apply Z.testbit_0_l.
  - apply Z.testbit_0_l.
Qed.

Lemma same_byte (i j : Z) : 0 <= i -> 0 <= j ->
  Z.to_nat (j / 8) = Z.to_nat (i / 8) -> j mod 8 = i mod 8 -> j = i.
Proof.
  intros Hi Hj Hq Hr.
  assert (j / 8 = i / 8).
  { apply Z2Nat.inj; [apply Z.div_pos; lia | apply Z.div_pos; lia | assumption]. }
  rewrite (Z.div_mod i 8), (Z.div_mod j 8) by lia. lia.
Qed.

Lemma read_bit_spec (w : word) (j : Z) (b : bool) :
  read_bit w j = Ret b -> b = bit_at w j /\ 0 <= j < 8 * Z.of_nat (List.length w).
Proof.
  unfold read_bit, bit_at.
  destruct (Z.leb_spec 0 j); [|discriminate].
  destruct (Z.ltb_spec (j / 8) (Z.of_nat (List.length w))); [|discriminate].
  cbn [andb]. intros [= <-]. split; [reflexivity|]. split; [assumption|].
  assert (j < 8 * (j / 8 + 1)); [|lia].
  pose proof (Z.div_mod j 8). pose proof (Z.mod_pos_bound j 8). lia.
Qed.

Lemma write_bit_spec (w w' : word) (i : Z) (b : bool) :
  write_bit w i b = Ret w' ->
  List.length w' = List.length w
  /\ 0 <= i < 8 * Z.of_nat (List.length w)
  /\ forall j, 0 <= j -> bit_at w' j = if j =? i then b else bit_at w j.
Proof.
  unfold write_bit.
  destruct (Z.leb_spec 0 i) as [Hi|]; [|discriminate].
  destruct (Z.ltb_spec (i / 8) (Z.of_nat (List.length w))) as [Hlt|]; [|discriminate].
  cbn [andb]. intros [= <-]. split; [apply length_insert|].
  split.
  { split; [assumption|].
    pose proof (Z.div_mod i 8). pose proof (Z.mod_pos_bound i 8). lia. }
  assert (Hk : (Z.to_nat (i / 8) < List.length w)%nat).
  { apply Nat2Z.inj_lt. rewrite Z2Nat.id; [assumption | apply Z.div_pos; lia]. }
  intros j Hj. rewrite bit_at_insert by exact Hk.
  pose proof (Z.mod_pos_bound i 8 ltac:(lia)) as Hmod.
  destruct (Nat.eqb_spec (Z.to_nat (j / 8)) (Z.to_nat (i / 8))) as [Hq|Hq].
  - fold (bit_at w i). destruct (Z.eqb_spec j i) as [->|Hne].
    + destruct b; [apply Z.setbit_eq; lia | apply Z.clearbit_eq].
    + assert (i mod 8 <> j mod 8).
      { intros Hr. apply Hne. now apply same_byte. }
      unfold bit_at. rewrite Hq.
      destruct b; [apply Z.setbit_neq; lia | now apply Z.clearbit_neq].
  - destruct (Z.eqb_spec j i) as [->|]; [congruence | reflexivity].
Qed.

Lemma write_bits_spec (f : Z -> bool) (ixs : list Z) (w w' : word) :
  foldM (fun (w' : word) (i : Z) => write_bit w' i (f i)) ixs w = Ret w' ->
  List.length w' = List.length w
  /\ (forall i, In i ixs -> 0 <= i < 8 * Z.of_nat (List.length w))
  /\ forall j, 0 <= j -> bit_at w' j = if existsb (Z.eqb j) ixs then f j else bit_at w j.
Proof.
  revert w. induction ixs as [|i ixs IH]; intros w; cbn [foldM existsb].
  - intros [= <-]. split; [reflexivity|]. split; [intros ? []|]. reflexivity.
  - intros H. apply bind_Ret_inv in H as (w1 & Hw & H).
    apply write_bit_spec in Hw as (Hlen1 & Hi & Hbit1).
    apply IH in H as (Hlen & Hin & Hbit).
    split; [congruence|]. split.
    + intros k [<-|Hk]; [assumption|]. rewrite <- Hlen1. now apply Hin.
    + intros j Hj. rewrite (Hbit j Hj), (Hbit1 j Hj).
      destruct (Z.eqb_spec j i) as [->|]; cbn [orb].
      * now destruct (existsb _ ixs).
      * reflexivity.
Qed.

Lemma existsb_Zrange (lo hi j : Z) :
  existsb (Z.eqb j) (Zrange lo hi) = (lo <=? j) && (j <? hi).
Proof.
  apply eq_true_iff_eq. rewrite existsb_exists, andb_true_iff, Z.leb_le, Z.ltb_lt.
  split.
  - intros (x & Hx & Heq). apply Z.eqb_eq in Heq as <-. now apply In_Zrange.
  - intros H. exists j. split; [|apply Z.eqb_refl].
    unfold Zrange. apply in_map_iff. exists (Z.to_nat (j - lo)).
    split; [lia|]. apply in_seq. lia.
Qed.

Lemma set_bit_range_spec (w w' : word) (lo hi value : Z) :
  set_bit_range w lo hi value = Ret w' ->
  List.length w' = List.length w
  /\ forall j, 0 <= j ->
       bit_at w' j = if (lo <=? j) && (j <? hi) then Z.testbit value (j - lo)
                     else bit_at w j.
Proof.
  unfold set_bit_range. intros H.
  apply (write_bits_spec (fun i => Z.testbit value (i - lo))) in H as (Hlen & _ & Hbit).
  split; [assumption|]. intros j Hj. rewrite (Hbit j Hj). now rewrite existsb_Zrange.
Qed.

Lemma read_bits_spec (w : word) (lo : Z) (ixs : list Z) (acc c : Z) :
  foldM (fun (acc : Z) (i : Z) => b <- read_bit w i;;
                      Ret (if b then Z.setbit acc (i - lo) else acc)) ixs acc = Ret c ->
  (forall i, In i ixs -> lo <= i) ->
  forall k, 0 <= k ->
    Z.testbit c k
    = Z.testbit acc k || (existsb (Z.eqb (lo + k)) ixs && bit_at w (lo + k)).
Proof.
  revert acc. induction ixs as [|i ixs IH]; intros acc; cbn [foldM existsb].
  - intros [= <-] _ k _. now rewrite orb_false_r.
  - intros H Hlo k Hk. apply bind_Ret_inv in H as (acc1 & Hstep & H).
    apply bind_Ret_inv in Hstep as (b & Hb & Hstep). injection Hstep as <-.
    apply read_bit_spec in Hb as [-> _].
    rewrite (IH _ H) by (try assumption; intros; apply Hlo; now right).
    assert (lo <= i) by (apply Hlo; now left).
    destruct (Z.eqb_spec (lo + k) i) as [<-|Hne]; cbn [orb andb].
    + destruct (bit_at w (lo + k)) eqn:Hbit.
      * rewrite Z.setbit_eqb by lia. replace (lo + k - lo =? k) with true
          by (symmetry; apply Z.eqb_eq; lia). cbn [orb]. now rewrite orb_true_r.
      * now rewrite andb_false_r, !orb_false_r.
    + destruct (bit_at w i); [|reflexivity].
      rewrite Z.setbit_eqb by lia. replace (i - lo =? k) with false
        by (symmetry; apply Z.eqb_neq; lia). reflexivity.
Qed.

Lemma get_bit_range_spec (w : word) (lo hi c : Z) :
  get_bit_range w lo hi = Ret c ->
  forall k, 0 <= k -> Z.testbit c k = (k <? hi - lo) && bit_at w (lo + k).
Proof.
  unfold get_bit_range. intros H k Hk.
  rewrite (read_bits_spec w lo _ 0 c H) by (try assumption; intros i Hi; apply In_Zrange in Hi; lia).
  rewrite Z.testbit_0_l, existsb_Zrange. cbn [orb].
  replace (lo <=? lo + k) with true by (symmetry; apply Z.leb_le; lia).
  replace (lo + k <? hi) with (k <? hi - lo); [reflexivity|].
  destruct (Z.ltb_spec k (hi - lo)), (Z.ltb_spec (lo + k) hi); auto; lia.
Qed.

(** A field whose bits are the low bits of [v] reads as [v mod 2 ^ length]. *)
Lemma get_bit_range_field (w : word) (lo hi v : Z) :
  0 <= lo -> lo <= hi -> hi <= 8 * Z.of_nat (List.length w) ->
  (forall j, lo <= j < hi -> bit_at w j = Z.testbit v (j - lo)) ->
  get_bit_range w lo hi = Ret (v mod 2 ^ (hi - lo)).
Proof.
  intros Hlo Hle Hhi Hbits.
  destruct (get_bit_range_ok w lo hi Hlo Hhi) as [c Hc].
  rewrite Hc. f_equal. apply Z.bits_inj'. intros k Hk.
  rewrite (get_bit_range_spec w lo hi c Hc k Hk), Z.testbit_mod_pow2 by lia.
  destruct (Z.ltb_spec k (hi - lo)); cbn [andb]; [|reflexivity].
  rewrite Hbits by lia. f_equal. lia.
Qed.

(** *** set_bit toggles *)

Lemma py_index_lt (len : nat) (i : Z) (k : nat) :
  py_index len i = Some k -> (k < len)%nat.
Proof.
  unfold py_index.
  destruct (Z.leb_spec 0 i); destruct (Z.ltb_spec i (Z.of_nat len)); cbn [andb];
    try (intros [= <-]; lia);
    destruct (Z.leb_spec (- Z.of_nat len) i); destruct (Z.ltb_spec i 0); cbn [andb];
    try discriminate; intros [= <-]; lia.
Qed.

(** [set_bit] flips the bit, it does not force it to 1: a second call on
    the same bit gives the array back. *)
Theorem set_bit_twice (w w' : word) (i : Z) :
  set_bit w i = Ret w' -> set_bit w' i = Ret w.
Proof.
  unfold set_bit, getitem, setitem. intros H.
  destruct (py_index (List.length w) (i / 8)) as [k|] eqn:Hk; [|discriminate].
  pose proof (py_index_lt _ _ _ Hk) as Hlt.
  unfold list_get in H. destruct (w !! k) as [b|] eqn:Hb; [|discriminate].
  cbn [bind] in H. injection H as <-.
  rewrite length_insert, Hk. unfold list_get.
  rewrite list_lookup_insert_eq by assumption. cbn [bind].
  rewrite list_insert_insert_eq, Z.lxor_assoc, Z.lxor_nilpotent, Z.lxor_0_r.
  now rewrite list_insert_id.
Qed.

Lemma set_bit_twice_witness : set_bit zero_word (-1) = Ret (replicate 15 0 ++ [128])
  /\ set_bit (replicate 15 0 ++ [128]) (-1) = Ret zero_word.
Proof.
  split; [reflexivity|].
  apply (set_bit_twice zero_word (replicate 15 0 ++ [128]) (-1)). reflexivity.
Defined.

(** ** The fields that encode writes *)

Lemma written_value_0 (value : option Z) : written_value value 0 = default 0 value.
Proof.
  unfold written_value, truthyZ. destruct value as [v|]; [|reflexivity].
  destruct (Z.eqb_spec v 0) as [->|]; cbn [negb default]; [reflexivity|].
  apply Z.shiftr_0_r.
Qed.

Lemma encode_body_spec (a : encode_args) (st st' : encode_state) (r : EncodingRange) :
  encode_body a st r = Ret st' ->
  exists value,
    encode_value a (enc_modifier_i st) r = Ret (value, enc_modifier_i st')
    /\ List.length (enc_result st') = List.length (enc_result st)
    /\ forall j, 0 <= j ->
         bit_at (enc_result st') j
         = if truthyZ value && ((Z.of_nat (ER.start r) <=? j)
                                && (j <? Z.of_nat (ER.start r + ER.length r)))
           then Z.testbit (written_value value
                             (written_get (enc_written st) (ER.operand_index r)))
                          (j - Z.of_nat (ER.start r))
           else bit_at (enc_result st) j.
Proof.
  unfold encode_body. intros H. apply bind_Ret_inv in H as ([value mi] & Hv & H).
  exists value. unfold written_value. destruct (truthyZ value) eqn:Htruthy.
  - apply bind_Ret_inv in H as (result & Hset & H). injection H as <-.
    cbn [enc_result enc_modifier_i]. split; [assumption|].
    apply set_bit_range_spec in Hset as [Hlen Hbits]. split; [assumption|].
    intros j Hj. rewrite (Hbits j Hj). reflexivity.
  - injection H as <-. cbn [enc_result enc_modifier_i andb]. auto.
Qed.

Lemma encode_loop_frame (a : encode_args) (rs : list EncodingRange)
    (st st' : encode_state) (lo hi : nat) :
  foldM (encode_body a) rs st = Ret st' ->
  (forall r, In r rs -> (lo <= ER.start r)%nat /\ (ER.start r + ER.length r <= hi)%nat) ->
  List.length (enc_result st') = List.length (enc_result st)
  /\ forall j, 0 <= j -> j < Z.of_nat lo \/ Z.of_nat hi <= j ->
       bit_at (enc_result st') j = bit_at (enc_result st) j.
Proof.
  revert st. induction rs as [|r rs IH]; intros st; cbn [foldM].
  - intros [= <-] _. auto.
  - intros H Hin. apply bind_Ret_inv in H as (st1 & Hstep & H).
    apply encode_body_spec in Hstep as (value & _ & Hlen1 & Hbits1).
    apply IH in H as [Hlen Hbits]; [|intros; apply Hin; now right].
    split; [congruence|]. intros j Hj Hout.
    rewrite (Hbits j Hj Hout), (Hbits1 j Hj).
    destruct (Hin r) as [Hs He]; [now left|].
    destruct (Z.leb_spec (Z.of_nat (ER.start r)) j);
      destruct (Z.ltb_spec j (Z.of_nat (ER.start r + ER.length r)));
      cbn [andb]; rewrite ?andb_false_r; try reflexivity. lia.
Qed.

(** In a tiling, the bits of a range are those written for it: the ranges
    before it and after it leave them alone. *)
Lemma encode_loop_field (a : encode_args) (pre post : list EncodingRange)
    (r : EncodingRange) (st0 st' : encode_state) (lo hi : nat) :
  chain lo (pre ++ r :: post) hi ->
  foldM (encode_body a) (pre ++ r :: post) st0 = Ret st' ->
  (forall j, Z.of_nat lo <= j -> bit_at (enc_result st0) j = false) ->
  exists st1 value mi,
    foldM (encode_body a) pre st0 = Ret st1
    /\ encode_value a (enc_modifier_i st1) r = Ret (value, mi)
    /\ List.length (enc_result st') = List.length (enc_result st0)
    /\ forall j, Z.of_nat (ER.start r) <= j < Z.of_nat (ER.start r + ER.length r) ->
         bit_at (enc_result st') j
         = Z.testbit (written_value value
                        (written_get (enc_written st1) (ER.operand_index r)))
                     (j - Z.of_nat (ER.start r)).
Proof.
  intros Hchain H Hzero.
  apply chain_app in Hchain as (mid & Hpre & Hpost). cbn [chain] in Hpost.
  destruct Hpost as (Hs & Hl & Hpost).
  rewrite foldM_app in H. apply bind_Ret_inv in H as (st1 & Hrun1 & H).
  cbn [foldM] in H. apply bind_Ret_inv in H as (st2 & Hstep & Hrun2).
  apply encode_body_spec in Hstep as (value & Hv & Hlen2 & Hbits2).
  destruct (encode_loop_frame a pre st0 st1 lo mid Hrun1) as [Hlen1 Hbits1].
  { intros x Hx. now apply (chain_bounds lo mid pre Hpre). }
  destruct (encode_loop_frame a post st2 st' (mid + ER.length r) hi Hrun2)
    as [Hlen3 Hbits3].
  { intros x Hx. now apply (chain_bounds _ hi post Hpost). }
  pose proof (proj1 (chain_bounds lo mid pre Hpre)) as Hlo.
  exists st1, value, (enc_modifier_i st2).
  split; [exact Hrun1|]. split; [assumption|]. split; [congruence|].
  intros j Hj. rewrite Hbits3 by lia. rewrite Hbits2 by lia.
  replace (Z.of_nat (ER.start r) <=? j) with true by (symmetry; apply Z.leb_le; lia).
  replace (j <? Z.of_nat (ER.start r + ER.length r)) with true
    by (symmetry; apply Z.ltb_lt; lia).
  rewrite andb_true_r. unfold written_value.
  destruct (truthyZ value); [reflexivity|].
  rewrite Z.testbit_0_l, Hbits1 by lia. apply Hzero. lia.
Qed.

Lemma encode_value_modifier_i (a : encode_args) (mi mi' : nat) (r : EncodingRange)
    (value : option Z) :
  encode_value a mi r = Ret (value, mi') ->
  if bool_decide (ER.type r = MODIFIER)
  then value = modifiers a !! mi
       /\ mi' = (if (mi <? List.length (modifiers a))%nat then S mi else mi)
  else mi' = mi.
Proof.
  unfold encode_value. destruct (ER.type r) eqn:Hty;
    try (rewrite bool_decide_eq_false_2 by discriminate);
    try (intros [= _ <-]; reflexivity).
  - intros H. apply bind_Ret_inv in H as (v & _ & H). now injection H as _ <-.
  - rewrite bool_decide_eq_true_2 by reflexivity.
    destruct (Nat.ltb_spec mi (List.length (modifiers a))) as [Hlt|Hge].
    + unfold list_get. destruct (modifiers a !! mi) as [v|]; [|discriminate].
      cbn [bind]. intros [= <- <-]. auto.
    + intros [= <- <-]. split; [|reflexivity].
      symmetry. now apply lookup_ge_None.
Qed.

Lemma encode_loop_modifier_i (a : encode_args) (rs : list EncodingRange)
    (st st' : encode_state) :
  foldM (encode_body a) rs st = Ret st' ->
  enc_modifier_i st'
  = Nat.min (Nat.max (enc_modifier_i st) (List.length (modifiers a)))
            (enc_modifier_i st + List.length (_find MODIFIER rs)).
Proof.
  revert st. induction rs as [|r rs IH]; intros st; cbn [foldM].
  - intros [= <-]. cbn. lia.
  - intros H. apply bind_Ret_inv in H as (st1 & Hstep & H).
    apply encode_body_spec in Hstep as (value & Hv & _).
    apply encode_value_modifier_i in Hv. rewrite (IH _ H).
    unfold _find. cbn [List.filter]. fold (_find MODIFIER rs).
    destruct (bool_decide (ER.type r = MODIFIER)); cbn [List.length].
    + destruct Hv as [_ ->].
      destruct (Nat.ltb_spec (enc_modifier_i st) (List.length (modifiers a))); lia.
    + rewrite Hv. lia.
Qed.

Lemma encode_field (rs : list EncodingRange) (a : encode_args) (w : word)
    (n i : nat) (r : EncodingRange) :
  chain 0 rs n -> (n <= 128)%nat -> encode rs a = Ret w -> rs !! i = Some r ->
  exists st1 value mi,
    foldM (encode_body a) (take i rs) (mkEncodeState zero_word 0%nat ∅) = Ret st1
    /\ encode_value a (enc_modifier_i st1) r = Ret (value, mi)
    /\ get_bit_range w (Z.of_nat (ER.start r)) (Z.of_nat (ER.start r + ER.length r))
       = Ret (written_value value (written_get (enc_written st1) (ER.operand_index r))
              mod 2 ^ Z.of_nat (ER.length r)).
Proof.
  intros Hchain Hn Henc Hi.
  pose proof (chain_bounds 0 n rs Hchain) as [_ Hbounds].
  specialize (Hbounds r (proj1 (list_elem_of_In _ _) (list_elem_of_lookup_2 _ _ _ Hi))).
  rewrite <- (take_drop_middle rs i r Hi) in Hchain, Henc.
  unfold encode in Henc. apply bind_Ret_inv in Henc as (st' & Hrun & Hw).
  injection Hw as <-.
  destruct (encode_loop_field a _ _ r _ st' 0 n Hchain Hrun)
    as (st1 & value & mi & Hpre & Hv & Hlen & Hbits).
  { intros j _. apply bit_at_zero_word. }
  exists st1, value, mi. split; [assumption|]. split; [assumption|].
  cbn [enc_result] in Hlen.
  replace (Z.of_nat (ER.length r))
    with (Z.of_nat (ER.start r + ER.length r) - Z.of_nat (ER.start r)) by lia.
  apply get_bit_range_field; [lia | lia | | assumption].
  rewrite Hlen. cbn. lia.
Qed.

(** The [k]-th MODIFIER range of a tiling, when it carries no operand
    index, holds the [k]-th modifier value, cut to the width of the range;
    a value that the list lacks is 0.  (With an operand index the value
    would first be shifted right by [written[rng.operand_index]], as for
    every range type.) *)
Theorem encode_modifier_field (rs : list EncodingRange) (a : encode_args) (w : word)
    (n i : nat) (r : EncodingRange) :
  chain 0 rs n -> (n <= 128)%nat -> encode rs a = Ret w ->
  rs !! i = Some r -> ER.type r = MODIFIER -> ER.operand_index r = None ->
  get_bit_range w (Z.of_nat (ER.start r)) (Z.of_nat (ER.start r + ER.length r))
  = Ret (default 0 (modifiers a !! List.length (_find MODIFIER (take i rs)))
         mod 2 ^ Z.of_nat (ER.length r)).
Proof.
  intros Hchain Hn Henc Hi Hty Hoi.
  destruct (encode_field rs a w n i r Hchain Hn Henc Hi)
    as (st1 & value & mi & Hpre & Hv & ->).
  apply encode_value_modifier_i in Hv. rewrite bool_decide_eq_true_2 in Hv by assumption.
  destruct Hv as [-> _]. apply encode_loop_modifier_i in Hpre.
  cbn [enc_modifier_i] in Hpre. rewrite Hoi. change (written_get _ None) with 0%nat.
  rewrite written_value_0. do 2 f_equal.
  set (k := List.length (_find MODIFIER (take i rs))) in *.
  destruct (Nat.le_gt_cases (List.length (modifiers a)) k) as [Hge|Hlt].
  - rewrite (lookup_ge_None_2 (modifiers a) k) by assumption.
    rewrite lookup_ge_None_2; [reflexivity | lia].
  - f_equal. f_equal. lia.
Qed.

(** A CONSTANT range of a tiling holds its constant, cut to the width of
    the range. *)
Lemma encode_constant_field (rs : list EncodingRange) (a : encode_args) (w : word)
    (n i : nat) (r : EncodingRange) :
  chain 0 rs n -> (n <= 128)%nat -> encode rs a = Ret w ->
  rs !! i = Some r -> ER.type r = CONSTANT -> ER.operand_index r = None ->
  get_bit_range w (Z.of_nat (ER.start r)) (Z.of_nat (ER.start r + ER.length r))
  = Ret (default 0 (ER.constant r) mod 2 ^ Z.of_nat (ER.length r)).
Proof.
  intros Hchain Hn Henc Hi Hty Hoi.
  destruct (encode_field rs a w n i r Hchain Hn Henc Hi)
    as (st1 & value & mi & Hpre & Hv & ->).
  unfold encode_value in Hv. rewrite Hty in Hv. injection Hv as <- _.
  rewrite Hoi. change (written_get _ None) with 0%nat. now rewrite written_value_0.
Qed.


Lemma encode_modifier_field_witness :
  get_bit_range modifier_field_word 22 25 = Ret 5.
Proof.
  apply (encode_modifier_field modifier_field_ranges (default_args [7] [2; 13])
           modifier_field_word 128 3
           (ER.set_group_id (Some 2%nat) (ER.init MODIFIER 22 3))).
  - unfold modifier_field_ranges. cbn. lia.
  - lia.
  - reflexivity.
  - reflexivity.
  - reflexivity.
  - reflexivity.
Defined.

(** *** encode reads the modifier values by position *)

Lemma _count_acc (ty : EncodingRangeType) (rs : list EncodingRange) (acc : nat) :
  fold_left (fun (result : nat) (range : EncodingRange) =>
               (result + (if bool_decide (ER.type range = ty) then 1 else 0))%nat)
            rs acc
  = (acc + List.length (_find ty rs))%nat.
Proof.
  revert acc. induction rs as [|r rs IH]; intros acc; cbn [fold_left].
  - cbn. lia.
  - rewrite IH. unfold _find. cbn [List.filter].
    destruct (bool_decide (ER.type r = ty)); cbn [List.length]; lia.
Qed.

Lemma _count_find (ty : EncodingRangeType) (rs : list EncodingRange) :
  _count ty rs = List.length (_find ty rs).
Proof. unfold _count. now rewrite _count_acc. Qed.

Lemma truthyZ_default (o : option Z) : truthyZ o = negb (default 0 o =? 0).
Proof. now destruct o. Qed.

Lemma encode_value_with_modifiers (a : encode_args) (ms : list Z) (mi : nat)
    (r : EncodingRange) :
  ER.type r <> MODIFIER ->
  encode_value (with_modifiers ms a) mi r
  = (x <- encode_value a 0%nat r;; Ret (fst x, mi)).
Proof.
  unfold encode_value. intros Hty.
  destruct (ER.type r); try reflexivity; [|contradiction].
  cbn [with_modifiers sub_operands].
  destruct (ER.operand_index r) as [oi|]; [|reflexivity].
  now destruct (list_get (sub_operands a) oi).
Qed.

Lemma encode_value_modifier (a : encode_args) (ms : list Z) (k : nat)
    (r : EncodingRange) :
  ER.type r = MODIFIER ->
  encode_value (with_modifiers ms a) (Nat.min k (List.length ms)) r
  = Ret (ms !! k, Nat.min (S k) (List.length ms)).
Proof.
  unfold encode_value. intros ->. cbn [with_modifiers modifiers].
  destruct (Nat.le_gt_cases (List.length ms) k) as [Hge|Hlt].
  - rewrite Nat.min_r by assumption.
    rewrite (proj2 (Nat.ltb_ge _ _)) by lia.
    rewrite (lookup_ge_None_2 ms k) by assumption. f_equal. f_equal. lia.
  - rewrite Nat.min_l by lia. rewrite (proj2 (Nat.ltb_lt _ _)) by assumption.
    unfold list_get. destruct (lookup_lt_is_Some_2 ms k Hlt) as [v ->]. cbn [bind].
    f_equal. f_equal. lia.
Qed.

(** The rest of the loop body once the value is known. *)
Lemma encode_body_value (a : encode_args) (st : encode_state) (r : EncodingRange)
    (value : option Z) (mi : nat) :
  encode_value a (enc_modifier_i st) r = Ret (value, mi) ->
  encode_body a st r
  = if negb (default 0 value =? 0) then
      result <- set_bit_range (enc_result st) (Z.of_nat (ER.start r))
                  (Z.of_nat (ER.start r + ER.length r))
                  (Z.shiftr (default 0 value)
                     (Z.of_nat (written_get (enc_written st) (ER.operand_index r))));;
      Ret (mkEncodeState result mi
             match ER.operand_index r with
             | Some (S i) => <[S i := ER.length r]> (enc_written st)
             | _ => enc_written st
             end)
    else Ret (mkEncodeState (enc_result st) mi (enc_written st)).
Proof.
  intros Hv. unfold encode_body. rewrite Hv. cbn [bind].
  now rewrite truthyZ_default.
Qed.

Lemma encode_loop_modifiers_ext (a : encode_args) (ms1 ms2 : list Z)
    (rs : list EncodingRange) (k : nat) (result : word) (written : gmap nat nat) :
  (forall j, (k <= j < k + List.length (_find MODIFIER rs))%nat ->
     default 0 (ms1 !! j) = default 0 (ms2 !! j)) ->
  (st <- foldM (encode_body (with_modifiers ms1 a)) rs
           (mkEncodeState result (Nat.min k (List.length ms1)) written);;
   Ret (enc_result st))
  = (st <- foldM (encode_body (with_modifiers ms2 a)) rs
             (mkEncodeState result (Nat.min k (List.length ms2)) written);;
     Ret (enc_result st)).
Proof.
  revert k result written. induction rs as [|r rs IH]; intros k result written Hms;
    cbn [foldM]; [reflexivity|].
  unfold _find in Hms. cbn [List.filter] in Hms. fold (_find MODIFIER rs) in Hms.
  destruct (decide (ER.type r = MODIFIER)) as [Hty|Hty].
  - rewrite bool_decide_eq_true_2 in Hms by assumption. cbn [List.length] in Hms.
    rewrite (encode_body_value _ (mkEncodeState result _ written) r _ _
               (encode_value_modifier a ms1 k r Hty)).
    rewrite (encode_body_value _ (mkEncodeState result _ written) r _ _
               (encode_value_modifier a ms2 k r Hty)).
    rewrite (Hms k) by lia. cbn [enc_result enc_written].
    destruct (negb (default 0 (ms2 !! k) =? 0)).
    + destruct (set_bit_range _ _ _ _) as [result'|e]; [|reflexivity].
      cbn [bind]. apply IH. intros j Hj. apply Hms. lia.
    + cbn [bind]. apply IH. intros j Hj. apply Hms. lia.
  - rewrite bool_decide_eq_false_2 in Hms by assumption.
    pose proof (encode_value_with_modifiers a ms1 (Nat.min k (List.length ms1)) r Hty) as H1.
    pose proof (encode_value_with_modifiers a ms2 (Nat.min k (List.length ms2)) r Hty) as H2.
    destruct (encode_value a 0%nat r) as [[value mi0]|e]; cbn [bind fst] in H1, H2.
    + rewrite (encode_body_value _ (mkEncodeState result _ written) r _ _ H1),
        (encode_body_value _ (mkEncodeState result _ written) r _ _ H2).
      cbn [enc_result enc_written].
      destruct (negb (default 0 value =? 0)).
      * destruct (set_bit_range _ _ _ _) as [result'|e]; [|reflexivity].
        cbn [bind]. apply IH. intros j Hj. apply Hms. lia.
      * cbn [bind]. apply IH. intros j Hj. apply Hms. lia.
    + unfold encode_body. cbn [enc_modifier_i]. now rewrite H1, H2.
Qed.

(** [encode] reads the modifier values by position, one for each MODIFIER
    range, and a value that the list lacks counts as 0: two lists that
    agree in this sense on the first [modifier_count()] positions give the
    same word, or the same exception. *)
Theorem encode_modifiers_ext (rs : list EncodingRange) (a : encode_args)
    (ms1 ms2 : list Z) :
  (forall j, (j < modifier_count rs)%nat -> default 0 (ms1 !! j) = default 0 (ms2 !! j)) ->
  encode rs (with_modifiers ms1 a) = encode rs (with_modifiers ms2 a).
Proof.
  intros Hms. unfold encode.
  apply (encode_loop_modifiers_ext a ms1 ms2 rs 0 zero_word ∅).
  intros j Hj. apply Hms. unfold modifier_count. rewrite _count_find. lia.
Qed.

Lemma encode_modifiers_ext_witness :
  encode modifier_field_ranges (with_modifiers [2; 13; 0; 9] (default_args [7] []))
  = encode modifier_field_ranges (with_modifiers [2; 13] (default_args [7] [])).
Proof.
  apply (encode_modifiers_ext modifier_field_ranges (default_args [7] [])
           [2; 13; 0; 9] [2; 13]).
  intros j Hj. change (modifier_count modifier_field_ranges) with 2%nat in Hj.
  destruct j as [|[|j]]; [reflexivity | reflexivity | lia].
Defined.

(** ** The constants of the inferred ranges *)

Lemma classify_not_constant (m : InstructionMutationSet) (i : nat) (c : classified) :
  classify m i = Ret c ->
  match c with
  | Single r | NewRange r => ER.type r <> CONSTANT
  | Unclassified => True
  end.
Proof.
  unfold classify. intros H.
  repeat match type of H with
         | (if ?b then _ else _) = _ => destruct b
         | match ?o with Some _ => _ | None => _ end = _ => destruct o
         | bind _ _ = Ret _ => apply bind_Ret_inv in H as (? & _ & H)
         | Ret _ = Ret _ => injection H as <-
         end; cbn; auto; discriminate.
Qed.

Lemma default_range_constant (m : InstructionMutationSet) (i : nat) (r : EncodingRange) :
  default_range m i = Ret r -> ER.type r = CONSTANT -> ER.constant r = Some 0.
Proof.
  unfold default_range. intros H. apply bind_Ret_inv in H as ([cc|] & Hcc & H);
    injection H as <-; [|reflexivity].
  apply control_code_range_shape in Hcc as (_ & _ & Hty & _). intros Heq.
  rewrite Heq in Hty. cbn in Hty. intuition discriminate.
Qed.

Lemma seed_bit (inst : word) (i : nat) (byte : Z) (k : Z) :
  inst !! (i / 8)%nat = Some byte -> 0 <= k ->
  Z.testbit (Z.land (Z.shiftr byte (Z.of_nat (i mod 8))) 1) k
  = (k =? 0) && bit_at inst (Z.of_nat i).
Proof.
  intros Hbyte Hk. unfold bit_at.
  replace (Z.of_nat i / 8) with (Z.of_nat (i / 8))
    by (rewrite Nat2Z.inj_div; reflexivity).
  rewrite Nat2Z.id, nth_lookup, Hbyte. cbn [default].
  change 1 with (Z.ones 1). rewrite Z.land_ones by lia.
  rewrite Z.testbit_mod_pow2 by lia.
  destruct (Z.eqb_spec k 0) as [->|Hne].
  - cbn [andb]. rewrite Z.shiftr_spec by lia.
    change (0 <? 1) with true. cbn [andb]. f_equal.
    rewrite (Nat2Z.inj_mod i 8). reflexivity.
  - replace (k <? 1) with false by (symmetry; apply Z.ltb_ge; lia). reflexivity.
Qed.

Lemma annotate_constant (m : InstructionMutationSet) (i : nat) (cur cur' : EncodingRange) :
  annotate m i cur = Ret cur' -> ER.type cur = CONSTANT ->
  exists c byte,
    ER.constant cur = Some c /\ MS.inst m !! (i / 8)%nat = Some byte
    /\ ER.constant cur'
       = Some (Z.lor c (Z.shiftl (Z.land (Z.shiftr byte (Z.of_nat (i mod 8))) 1)
                                 (Z.of_nat (ER.length cur - 1)))).
Proof.
  unfold annotate. intros H Hty.
  set (c1 := match ER.shift cur, MS.bit_to_shift m !! Z.of_nat i with
             | None, Some s => ER.set_shift (Some s) cur
             | _, _ => cur
             end) in *.
  assert (H1 : ER.type c1 = ER.type cur /\ ER.constant c1 = ER.constant cur
               /\ ER.length c1 = ER.length cur).
  { unfold c1. destruct (ER.shift cur), (MS.bit_to_shift m !! Z.of_nat i); cbn; auto. }
  set (c2 := match ER.offset c1, MS.bit_to_offset m !! Z.of_nat i with
             | None, Some o => ER.set_offset (Some o) c1
             | _, _ => c1
             end) in *.
  assert (H2 : ER.type c2 = ER.type cur /\ ER.constant c2 = ER.constant cur
               /\ ER.length c2 = ER.length cur).
  { unfold c2. destruct (ER.offset c1), (MS.bit_to_offset m !! Z.of_nat i); cbn; tauto. }
  destruct H2 as (Hty2 & Hc2 & Hl2). clearbody c2. clear c1 H1.
  rewrite bool_decide_eq_true_2 in H by congruence.
  rewrite Hc2 in H. destruct (ER.constant cur) as [c|]; [|discriminate].
  apply bind_Ret_inv in H as (byte & Hbyte & H). injection H as <-.
  unfold list_get in Hbyte. destruct (MS.inst m !! (i / 8)%nat) as [b|] eqn:Hb; [|discriminate].
  injection Hbyte as ->. exists c, byte. rewrite Hl2. cbn. auto.
Qed.

Lemma place_const (m : InstructionMutationSet) (result : list EncodingRange)
    (cur : option EncodingRange) (new : EncodingRange) (i : nat)
    (st' : list EncodingRange * option EncodingRange) :
  ER.start new = i -> ER.length new = 1%nat -> ER.operand_index new = None \/ ER.type new <> CONSTANT ->
  (ER.type new = CONSTANT -> ER.constant new = Some 0) ->
  place m result cur new i = Ret st' ->
  chain 0 (_push result cur) i ->
  (forall r, In r (_push result cur) -> const_seed (MS.inst m) r) ->
  forall r, In r (_push (fst st') (snd st')) -> const_seed (MS.inst m) r.
Proof.
  intros Hs Hl Hoi Hzero H Hchain Hok. unfold place in H.
  apply bind_Ret_inv in H as (cur' & Hann & H). injection H as <-.
  cbn [fst snd _push].
  pose proof (annotate_shape m i _ _ Hann) as (Hty' & Hs' & Hl' & Hoi' & _).
  assert (Hbyte : forall byte, MS.inst m !! (i / 8)%nat = Some byte ->
                    (i + 1 <= 8 * List.length (MS.inst m))%nat).
  { intros byte Hb. apply lookup_lt_Some in Hb.
    pose proof (Nat.div_mod_eq i 8). pose proof (Nat.mod_upper_bound i 8). lia. }
  unfold extend_or_push in *. destruct cur as [c0|]; cbn [_push] in *.
  - destruct (extends c0 new i) eqn:Hext; cbn [fst snd] in *.
    + (* the current range grows by bit i *)
      intros r Hr. apply in_app_iff in Hr as [Hr|[<-|[]]].
      { apply Hok, in_app_iff. now left. }
      intros Hc'. cbn in Hty', Hs', Hl', Hoi'.
      assert (Hc0 : ER.type c0 = CONSTANT) by congruence.
      apply chain_snoc in Hchain as (_ & Hlen0 & Hend0).
      destruct (Hok c0) as (Hoi0 & _ & c & Hconst & Hbits);
        [apply in_app_iff; right; now left | assumption |].
      destruct (annotate_constant m i _ _ Hann) as (c1 & byte & Hc1 & Hb & ->);
        [exact Hc0|].
      cbn in Hc1. rewrite Hconst in Hc1. injection Hc1 as <-.
      split; [congruence|]. split; [specialize (Hbyte _ Hb); lia|].
      eexists. split; [reflexivity|]. intros k Hk.
      rewrite Z.lor_spec, (Hbits k Hk), Z.shiftl_spec by assumption.
      cbn [ER.length ER.set_length]. rewrite <- Hs', <- Hl'.
      replace (ER.length c0 + 1 - 1)%nat with (ER.length c0) by lia.
      destruct (Z.ltb_spec k (Z.of_nat (ER.length c0))) as [Hlt|Hge]; cbn [andb orb].
      * rewrite Z.testbit_neg_r by lia. rewrite orb_false_r.
        replace (k <? Z.of_nat (ER.length c0 + 1)) with true
          by (symmetry; apply Z.ltb_lt; lia). reflexivity.
      * rewrite (seed_bit (MS.inst m) i byte _ Hb) by lia.
        destruct (Z.eqb_spec (k - Z.of_nat (ER.length c0)) 0) as [Heq|Hne]; cbn [andb].
        -- replace (k <? Z.of_nat (ER.length c0 + 1)) with true
             by (symmetry; apply Z.ltb_lt; lia). cbn [andb]. f_equal. lia.
        -- replace (k <? Z.of_nat (ER.length c0 + 1)) with false
             by (symmetry; apply Z.ltb_ge; lia). reflexivity.
    + (* a new range starts at bit i *)
      intros r Hr. apply in_app_iff in Hr as [Hr|[<-|[]]]; [now apply Hok|].
      intros Hc'.
      assert (Hcn : ER.type new = CONSTANT) by congruence.
      destruct (annotate_constant m i _ _ Hann Hcn) as (c1 & byte & Hc1 & Hb & ->).
      rewrite (Hzero Hcn) in Hc1. injection Hc1 as <-.
      split; [destruct Hoi; congruence|]. split; [specialize (Hbyte _ Hb); lia|].
      eexists. split; [reflexivity|]. intros k Hk.
      rewrite Z.lor_0_l, Hl. change (Z.of_nat (1 - 1)) with 0. rewrite Z.shiftl_0_r.
      rewrite (seed_bit (MS.inst m) i byte _ Hb) by assumption. rewrite <- Hl', Hl, <- Hs', Hs.
      destruct (Z.eqb_spec k 0) as [->|Hne].
      * cbn [andb]. change (0 <? Z.of_nat 1) with true. cbn [andb]. f_equal. lia.
      * replace (k <? Z.of_nat 1) with false by (symmetry; apply Z.ltb_ge; lia).
        reflexivity.
  - cbn [fst snd] in *. intros r Hr. apply in_app_iff in Hr as [Hr|[<-|[]]];
      [now apply Hok|].
    intros Hc'.
    assert (Hcn : ER.type new = CONSTANT) by congruence.
    destruct (annotate_constant m i _ _ Hann Hcn) as (c1 & byte & Hc1 & Hb & ->).
    rewrite (Hzero Hcn) in Hc1. injection Hc1 as <-.
    split; [destruct Hoi; congruence|]. split; [specialize (Hbyte _ Hb); lia|].
    eexists. split; [reflexivity|]. intros k Hk.
    rewrite Z.lor_0_l, Hl. change (Z.of_nat (1 - 1)) with 0. rewrite Z.shiftl_0_r.
    rewrite (seed_bit (MS.inst m) i byte _ Hb) by assumption. rewrite <- Hl', Hl, <- Hs', Hs.
    destruct (Z.eqb_spec k 0) as [->|Hne].
    + cbn [andb]. change (0 <? Z.of_nat 1) with true. cbn [andb]. f_equal. lia.
    + replace (k <? Z.of_nat 1) with false by (symmetry; apply Z.ltb_ge; lia).
      reflexivity.
Qed.

Lemma ranges_step_const (m : InstructionMutationSet)
    (st st' : list EncodingRange * option EncodingRange) (i : nat) :
  ranges_step m st i = Ret st' ->
  chain 0 (_push (fst st) (snd st)) i ->
  (forall r, In r (_push (fst st) (snd st)) -> const_seed (MS.inst m) r) ->
  forall r, In r (_push (fst st') (snd st')) -> const_seed (MS.inst m) r.
Proof.
  unfold ranges_step. intros H Hchain Hok.
  apply bind_Ret_inv in H as (c & Hc & H).
  pose proof (classify_shape m i c Hc) as Hshape.
  pose proof (classify_not_constant m i c Hc) as Hnc.
  destruct c as [r0|new|].
  - injection H as <-. cbn [fst snd _push]. intros r Hr.
    apply in_app_iff in Hr as [Hr|[<-|[]]]; [now apply Hok|].
    intros Hty. contradiction.
  - destruct Hshape as [Hs Hl].
    apply (place_const m (fst st) (snd st) new i st' Hs Hl); try assumption; [now right|].
    intros Hty. contradiction.
  - apply bind_Ret_inv in H as (new & Hnew & H).
    pose proof (default_range_shape m i new Hnew) as (Hs & Hl & Hoi & _).
    apply (place_const m (fst st) (snd st) new i st' Hs Hl); try assumption; [now left|].
    now apply (default_range_constant m i).
Qed.

Lemma ranges_loop_const (m : InstructionMutationSet) (n lo : nat)
    (st st' : list EncodingRange * option EncodingRange) :
  foldM (ranges_step m) (seq lo n) st = Ret st' ->
  chain 0 (_push (fst st) (snd st)) lo ->
  (forall r, In r (_push (fst st) (snd st)) -> const_seed (MS.inst m) r) ->
  forall r, In r (_push (fst st') (snd st')) -> const_seed (MS.inst m) r.
Proof.
  revert lo st. induction n as [|n IH]; intros lo st; cbn [seq foldM].
  - intros [= <-]. auto.
  - intros H Hchain Hok. apply bind_Ret_inv in H as (st1 & Hstep & Hrest).
    apply (IH (S lo) st1 Hrest).
    + apply ranges_step_outcome in Hstep.
      now apply (step_outcome_chain _ _ _ _ _ Hstep).
    + now apply (ranges_step_const m st st1 lo).
Qed.

Lemma compute_encoding_ranges_const_seed (m m' : InstructionMutationSet)
    (rs : EncodingRanges) :
  compute_encoding_ranges m = Ret (rs, m') ->
  forall r, In r (ranges rs) -> const_seed (MS.inst m) r.
Proof.
  unfold compute_encoding_ranges. intros H.
  apply bind_Ret_inv in H as (m1 & Hcanon & H).
  apply bind_Ret_inv in H as (st & Hloop & H). injection H as <- _. cbn [ranges].
  pose proof (canonicalize_modifier_groups_fields _ _ Hcanon) as (_ & _ & <-).
  apply (ranges_loop_const m1 128 0 ([], None) st Hloop); [reflexivity|].
  intros r [].
Qed.

Lemma const_seed_field (inst : word) (r : EncodingRange) :
  const_seed inst r -> ER.type r = CONSTANT ->
  exists c, ER.constant r = Some c
    /\ c mod 2 ^ Z.of_nat (ER.length r) = c
    /\ get_bit_range inst (Z.of_nat (ER.start r)) (Z.of_nat (ER.start r + ER.length r))
       = Ret c.
Proof.
  intros Hseed Hty. destruct (Hseed Hty) as (_ & Hin & c & Hc & Hbits).
  exists c. split; [assumption|].
  assert (Hmod : c mod 2 ^ Z.of_nat (ER.length r) = c).
  { apply Z.bits_inj'. intros k Hk. rewrite Z.testbit_mod_pow2 by lia.
    rewrite (Hbits k Hk). now destruct (k <? Z.of_nat (ER.length r)). }
  split; [assumption|]. rewrite <- Hmod.
  replace (Z.of_nat (ER.length r))
    with (Z.of_nat (ER.start r + ER.length r) - Z.of_nat (ER.start r)) by lia.
  apply get_bit_range_field; [lia | lia | lia |].
  intros j Hj. rewrite (Hbits (j - Z.of_nat (ER.start r))) by lia.
  replace (j - Z.of_nat (ER.start r) <? Z.of_nat (ER.length r)) with true
    by (symmetry; apply Z.ltb_lt; lia).
  cbn [andb]. f_equal. lia.
Qed.

(** The constant of every CONSTANT range that [compute_encoding_ranges]
    returns is the seed read over that range. *)
Theorem compute_encoding_ranges_constant (m m' : InstructionMutationSet)
    (rs : EncodingRanges) (r : EncodingRange) :
  compute_encoding_ranges m = Ret (rs, m') ->
  In r (ranges rs) -> ER.type r = CONSTANT ->
  exists c, ER.constant r = Some c
    /\ get_bit_range (MS.inst m) (Z.of_nat (ER.start r))
         (Z.of_nat (ER.start r + ER.length r)) = Ret c.
Proof.
  intros H Hr Hty.
  destruct (const_seed_field (MS.inst m) r) as (c & Hc & _ & Hget);
    [now apply (compute_encoding_ranges_const_seed m m' rs H) | assumption |].
  eauto.
Qed.

(** Encoding the ranges inferred from a seed gives the seed back on every
    CONSTANT range, whatever the operands, modifiers and flags. *)
Theorem encode_reproduces_constants (m m' : InstructionMutationSet)
    (rs : EncodingRanges) (a : encode_args) (w : word) (r : EncodingRange) :
  compute_encoding_ranges m = Ret (rs, m') -> encode (ranges rs) a = Ret w ->
  In r (ranges rs) -> ER.type r = CONSTANT ->
  exists c,
    get_bit_range w (Z.of_nat (ER.start r)) (Z.of_nat (ER.start r + ER.length r)) = Ret c
    /\ get_bit_range (MS.inst m) (Z.of_nat (ER.start r))
         (Z.of_nat (ER.start r + ER.length r)) = Ret c.
Proof.
  intros H Henc Hr Hty.
  pose proof (compute_encoding_ranges_const_seed m m' rs H r Hr) as Hseed.
  destruct (const_seed_field (MS.inst m) r Hseed Hty) as (c & Hc & Hmod & Hget).
  exists c. split; [|assumption].
  apply list_elem_of_In, list_elem_of_lookup_1 in Hr as [i Hi].
  rewrite (encode_constant_field (ranges rs) a w 128 i r
             (compute_encoding_ranges_chain m m' rs H) (Nat.le_refl _) Henc Hi Hty
             (proj1 (Hseed Hty))).
  rewrite Hc. change (default 0 (Some c)) with c. now rewrite Hmod.
Qed.

Lemma seeded_mset_ranges :
  compute_encoding_ranges seeded_mset = Ret (seeded_ranges, seeded_mset').
Proof. vm_compute. reflexivity. Qed.

Lemma compute_encoding_ranges_constant_witness :
  exists c, Some 4005 = Some c
    /\ get_bit_range (MS.inst seeded_mset) 0 12 = Ret c.
Proof.
  apply (compute_encoding_ranges_constant seeded_mset seeded_mset' seeded_ranges
           (ER.set_constant (Some 4005) (ER.init CONSTANT 0 12)) seeded_mset_ranges).
  - left. reflexivity.
  - reflexivity.
Defined.

Lemma encode_reproduces_constants_witness :
  exists c, get_bit_range seeded_word 0 12 = Ret c
    /\ get_bit_range (MS.inst seeded_mset) 0 12 = Ret c.
Proof.
  apply (encode_reproduces_constants seeded_mset seeded_mset' seeded_ranges
           (default_args [3] [1; 2; 3]) seeded_word
           (ER.set_constant (Some 4005) (ER.init CONSTANT 0 12)) seeded_mset_ranges).
  - reflexivity.
  - left. reflexivity.
  - reflexivity.
Defined.

(** *** Operand fields *)

Lemma encode_body_written (a : encode_args) (st st' : encode_state) (r : EncodingRange) :
  encode_body a st r = Ret st' ->
  enc_written st' = enc_written st
  \/ exists i, ER.operand_index r = Some (S i)
               /\ enc_written st' = <[S i := ER.length r]> (enc_written st).
Proof.
  unfold encode_body. intros H. apply bind_Ret_inv in H as ([value mi] & _ & H).
  destruct (truthyZ value).
  - apply bind_Ret_inv in H as (result & _ & H). injection H as <-. cbn [enc_written].
    destruct (ER.operand_index r) as [[|i]|]; eauto.
  - injection H as <-. now left.
Qed.

Lemma encode_loop_written (a : encode_args) (rs : list EncodingRange)
    (st st' : encode_state) (oi : nat) :
  foldM (encode_body a) rs st = Ret st' ->
  oi = 0%nat \/ (forall r, In r rs -> ER.operand_index r <> Some oi) ->
  enc_written st !! oi = None -> enc_written st' !! oi = None.
Proof.
  revert st. induction rs as [|r rs IH]; intros st; cbn [foldM].
  - now intros [= <-].
  - intros H Hoi Hnone. apply bind_Ret_inv in H as (st1 & Hstep & H).
    apply (IH st1 H).
    + destruct Hoi as [->|Hoi]; [now left|]. right. intros r' Hr'. apply Hoi. now right.
    + apply encode_body_written in Hstep as [->|(i & Hi & ->)]; [assumption|].
      rewrite lookup_insert_ne; [assumption|].
      destruct Hoi as [->|Hoi]; [discriminate|].
      intros <-. apply (Hoi r); [now left | assumption].
Qed.

(** A plain OPERAND range of a tiling, the first of its operand, holds the
    operand value cut to the width of the range; a range of operand 0
    holds it wherever it stands, because [written] is never recorded for
    operand index 0. *)
Theorem encode_operand_field (rs : list EncodingRange) (a : encode_args) (w : word)
    (n i oi : nat) (r : EncodingRange) :
  chain 0 rs n -> (n <= 128)%nat -> encode rs a = Ret w ->
  rs !! i = Some r -> ER.type r = OPERAND -> ER.operand_index r = Some oi ->
  oi = 0%nat \/ (forall r', In r' (take i rs) -> ER.operand_index r' <> Some oi) ->
  truthyZ (ER.offset r) = false -> ER.inverse r = false ->
  truthy_nat (ER.shift r) = false ->
  exists v, sub_operands a !! oi = Some v
    /\ get_bit_range w (Z.of_nat (ER.start r)) (Z.of_nat (ER.start r + ER.length r))
       = Ret (v mod 2 ^ Z.of_nat (ER.length r)).
Proof.
  intros Hchain Hn Henc Hi Hty Hoi Hfirst Hoff Hinv Hsh.
  destruct (encode_field rs a w n i r Hchain Hn Henc Hi)
    as (st1 & value & mi & Hpre & Hv & ->).
  unfold encode_value in Hv. rewrite Hty, Hoi, Hoff, Hinv, Hsh in Hv.
  unfold list_get in Hv. destruct (sub_operands a !! oi) as [v|]; [|discriminate].
  cbn [bind] in Hv. injection Hv as <- _. exists v. split; [reflexivity|].
  pose proof (encode_loop_written a _ _ st1 oi Hpre Hfirst (lookup_empty oi)) as Hw.
  rewrite Hoi. unfold written_get. cbn [opt_lookup]. rewrite Hw.
  change (default 0%nat None) with 0%nat. now rewrite written_value_0.
Qed.

Lemma encode_operand_field_witness :
  exists v, [7] !! 0%nat = Some v
    /\ get_bit_range modifier_field_word 14 22 = Ret (v mod 2 ^ 8).
Proof.
  apply (encode_operand_field modifier_field_ranges (default_args [7] [2; 13])
           modifier_field_word 128 2 0
           (ER.set_operand_index (Some 0%nat) (ER.init OPERAND 14 8))).
  - unfold modifier_field_ranges. cbn. lia.
  - lia.
  - reflexivity.
  - reflexivity.
  - reflexivity.
  - reflexivity.
  - now left.
  - reflexivity.
  - reflexivity.
  - reflexivity.
Defined.

(** ** The initial classifier *)

Lemma analyse_modifiers_flag_effected (original mutated : list string) (flag : string) :
  snd (analyse_modifiers original mutated) = Some flag ->
  fst (analyse_modifiers original mutated) = true.
Proof.
  unfold analyse_modifiers. cbn [fst snd].
  destruct (analyse_loop (counter_subtract (Counter_of mutated) (Counter_of original)))
    as (Heff & _ & Hfc).
  cbv zeta in Heff, Hfc. rewrite Heff, Hfc. clear Heff Hfc.
  destruct (not_flag _); [discriminate|].
  generalize (counter_subtract (Counter_of mutated) (Counter_of original)).
  intros c. unfold ones, has_nonzero.
  induction c as [|[k v] c IH]; cbn [List.filter map hd_error existsb snd];
    [discriminate|].
  destruct (Z.eqb_spec v 1) as [->|Hne]; [reflexivity|].
  intros H. rewrite (IH H). apply orb_true_r.
Qed.

Lemma odict_get_set {A} (d : list (Z * A)) (k b : Z) (v : A) :
  odict_get (odict_set k v d) b = if k =? b then Some v else odict_get d b.
Proof.
  induction d as [|[k' v'] d IH]; cbn [odict_set odict_get].
  - destruct (k =? b); reflexivity.
  - destruct (Z.eqb_spec k' k) as [->|Hk]; cbn [odict_get].
    + destruct (k =? b); reflexivity.
    + rewrite IH. destruct (Z.eqb_spec k' b) as [->|]; [|reflexivity].
      destruct (Z.eqb_spec k b); [congruence | reflexivity].
Qed.

Lemma set_flag_get (bit : Z) (flag : option string) (d : list (Z * string))
    (b : Z) (name : string) :
  odict_get (set_flag bit flag d) b = Some name ->
  odict_get d b = Some name \/ (b = bit /\ flag = Some name /\ name <> EmptyString).
Proof.
  unfold set_flag. destruct flag as [f|]; [|now left].
  unfold nonempty. destruct (String.eqb_spec f EmptyString) as [->|Hne]; cbn [negb];
    [now left|].
  rewrite odict_get_set. destruct (Z.eqb_spec bit b) as [->|]; [|now left].
  intros [= ->]. right. auto.
Qed.

Lemma analyse_operand_ok (i_bit : Z) (st : InstructionMutationSet * bool)
    (iab : nat * (Operand * Operand)) :
  classified_ok (fst st) -> classified_ok (fst (analyse_operand i_bit st iab)).
Proof.
  destruct st as [m eff], iab as [i [a b]]. unfold analyse_operand. cbn [fst].
  intros (Hop & Hfl & Hofl & Hmod).
  destruct (negb (compare a b)).
  - cbn [fst]. repeat split; cbn; try assumption.
    + intros x Hx. destruct (decide (x = i_bit)) as [->|Hne].
      * rewrite lookup_insert_eq. eauto.
      * rewrite lookup_insert_ne by congruence. apply Hop.
        destruct Hx as [Hx|Hx]; [|now right].
        apply elem_of_union in Hx as [Hx|Hx]; [|now left].
        apply elem_of_singleton in Hx. contradiction.
    + now apply (Hfl b0 name).
    + now apply (Hfl b0 name).
    + now apply (Hofl b0 name).
    + now apply (Hofl b0 name).
  - pose proof (analyse_modifiers_flag_effected (op_modifiers b) (op_modifiers a)) as Hflag.
    destruct (analyse_modifiers (op_modifiers b) (op_modifiers a)) as [effected flag].
    cbn [fst snd] in Hflag. destruct effected; cbn [fst].
    + repeat split; cbn; try assumption.
      * intros x Hx. destruct (decide (x = i_bit)) as [->|Hne].
        -- rewrite lookup_insert_eq. eauto.
        -- rewrite lookup_insert_ne by congruence. apply Hop.
           destruct Hx as [Hx|Hx]; [now left|].
           apply elem_of_union in Hx as [Hx|Hx]; [|now right].
           apply elem_of_singleton in Hx. contradiction.
      * now apply (Hfl b0 name).
      * now apply (Hfl b0 name).
      * apply set_flag_get in H as [H|(-> & _ & _)].
        -- apply elem_of_union. right. now apply (Hofl b0 name).
        -- apply elem_of_union. left. now apply elem_of_singleton.
      * apply set_flag_get in H as [H|(_ & _ & Hne)]; [now apply (Hofl b0 name) | assumption].
    + destruct flag as [f|]; [specialize (Hflag f eq_refl); discriminate|].
      cbn [set_flag]. repeat split; cbn; try assumption.
      * now apply (Hfl b0 name).
      * now apply (Hfl b0 name).
      * now apply (Hofl b0 name).
      * now apply (Hofl b0 name).
Qed.

Lemma analyse_operands_ok (i_bit : Z) (ops : list (nat * (Operand * Operand)))
    (st : InstructionMutationSet * bool) :
  classified_ok (fst st) -> classified_ok (fst (fold_left (analyse_operand i_bit) ops st)).
Proof.
  revert st. induction ops as [|x ops IH]; intros st Hok; cbn [fold_left].
  - assumption.
  - apply IH. now apply analyse_operand_ok.
Qed.

Lemma classified_ok_opcode (m : InstructionMutationSet) (s : gset Z) :
  classified_ok m -> classified_ok (MS.set_opcode_bits s m).
Proof. intros H. exact H. Qed.

Lemma classified_ok_predicate (m : InstructionMutationSet) (s : gset Z) :
  classified_ok m -> classified_ok (MS.set_predicate_bits s m).
Proof. intros H. exact H. Qed.

Lemma analyse_mutation_ok (parse : string -> exc Instruction)
    (m : InstructionMutationSet) (mutation : Z * word * string) :
  classified_ok m -> classified_ok (analyse_mutation parse m mutation).
Proof.
  destruct mutation as [[i_bit w] asm]. unfold analyse_mutation. intros Hok.
  destruct (String.eqb (strip asm) EmptyString); [now apply classified_ok_opcode|].
  destruct (parse (strip asm)) as [mutated_parsed|]; [|assumption].
  destruct (negb (String.eqb _ _)); [now apply classified_ok_opcode|].
  set (m1 := if negb (inst_predicate (MS.parsed m) =? inst_predicate mutated_parsed)
             then MS.set_predicate_bits ({[i_bit]} ∪ MS.predicate_bits m) m else m).
  assert (Hok1 : classified_ok m1).
  { unfold m1. destruct (negb _); [now apply classified_ok_predicate | assumption]. }
  pose proof (analyse_operands_ok i_bit
                (imap pair (zip (get_flat_operands mutated_parsed)
                                (get_flat_operands (MS.parsed m1))))
                (m1, false) Hok1) as Hok2.
  destruct (fold_left _ _ (m1, false)) as [m2 operand_effected]. cbn [fst] in Hok2.
  destruct operand_effected; [assumption|].
  destruct (Z.ltb_spec 12 i_bit) as [Hbit|]; [|assumption].
  pose proof (analyse_modifiers_flag_effected (inst_modifiers (MS.parsed m2))
                (inst_modifiers mutated_parsed)) as Hflag.
  destruct (analyse_modifiers _ _) as [effected flag]. cbn [fst snd] in Hflag.
  destruct Hok2 as (Hop & Hfl & Hofl & Hmod).
  destruct effected.
  - repeat split; cbn; try assumption.
    + apply set_flag_get in H as [H|(-> & _ & _)].
      * apply elem_of_union. right. now apply (Hfl b name).
      * apply elem_of_union. left. now apply elem_of_singleton.
    + apply set_flag_get in H as [H|(_ & _ & Hne)]; [now apply (Hfl b name) | assumption].
    + now apply (Hofl b name).
    + now apply (Hofl b name).
    + intros b Hb. apply elem_of_union in Hb as [Hb|Hb]; [|now apply Hmod].
      apply elem_of_singleton in Hb. lia.
  - destruct flag as [f|]; [specialize (Hflag f eq_refl); discriminate|].
    cbn [set_flag]. repeat split; cbn; try assumption.
    + now apply (Hfl b name).
    + now apply (Hfl b name).
    + now apply (Hofl b name).
    + now apply (Hofl b name).
Qed.

Lemma analyse_operands_inst (i_bit : Z) (ops : list (nat * (Operand * Operand)))
    (st : InstructionMutationSet * bool) :
  MS.inst (fst (fold_left (analyse_operand i_bit) ops st)) = MS.inst (fst st).
Proof.
  revert st. induction ops as [|[i [a b]] ops IH]; intros [m eff]; cbn [fold_left];
    [reflexivity|].
  rewrite IH. unfold analyse_operand. destruct (negb (compare a b)); [reflexivity|].
  destruct (analyse_modifiers _ _) as [[] flag]; reflexivity.
Qed.

Lemma analyse_mutation_inst (parse : string -> exc Instruction)
    (m : InstructionMutationSet) (mutation : Z * word * string) :
  MS.inst (analyse_mutation parse m mutation) = MS.inst m.
Proof.
  destruct mutation as [[i_bit w] asm]. unfold analyse_mutation.
  destruct (String.eqb (strip asm) EmptyString); [reflexivity|].
  destruct (parse (strip asm)) as [mutated_parsed|]; [|reflexivity].
  destruct (negb (String.eqb _ _)); [reflexivity|].
  match goal with |- context [fold_left ?f ?l (?m1, false)] =>
    pose proof (analyse_operands_inst i_bit l (m1, false)) as Hinst;
    destruct (fold_left f l (m1, false)) as [m2 operand_effected] end.
  cbn [fst] in Hinst.
  assert (Hm2 : MS.inst m2 = MS.inst m).
  { rewrite Hinst. now destruct (negb (_ =? _)). }
  destruct operand_effected; [assumption|].
  destruct (12 <? i_bit); [|assumption].
  destruct (analyse_modifiers _ _) as [[] flag]; exact Hm2.
Qed.

Lemma analyse_mutations_ok (parse : string -> exc Instruction)
    (mutations : list (Z * word * string)) (m : InstructionMutationSet) :
  classified_ok m ->
  classified_ok (fold_left (analyse_mutation parse) mutations m)
  /\ MS.inst (fold_left (analyse_mutation parse) mutations m) = MS.inst m.
Proof.
  revert m. induction mutations as [|x mutations IH]; intros m Hok; cbn [fold_left].
  - auto.
  - destruct (IH (analyse_mutation parse m x)) as [Hok' Hinst];
      [now apply analyse_mutation_ok|].
    split; [assumption|]. now rewrite Hinst, analyse_mutation_inst.
Qed.

Lemma init_classified_ok (parse : string -> exc Instruction) (inst : word)
    (disasm : string) (mutations : list (Z * word * string)) (d : Disassembler)
    (m : InstructionMutationSet) :
  InstructionMutationSet_init parse inst disasm mutations d = Ret m ->
  classified_ok m /\ MS.inst m = inst.
Proof.
  unfold InstructionMutationSet_init. intros H.
  apply bind_Ret_inv in H as (parsed & _ & H). injection H as <-.
  apply analyse_mutations_ok. unfold classified_ok. cbn.
  split; [intros b [Hb|Hb]; now apply elem_of_empty in Hb|].
  split; [discriminate|]. split; [discriminate|].
  intros b Hb. now apply elem_of_empty in Hb.
Qed.

(** After [_analyse] every flag bit belongs to the bit set of its kind and
    has a name, every operand bit names its operand, and no modifier bit
    lies in the opcode section (bits 0 to 12). *)
Theorem InstructionMutationSet_init_classified (parse : string -> exc Instruction)
    (inst : word) (disasm : string) (mutations : list (Z * word * string))
    (d : Disassembler) (m : InstructionMutationSet) :
  InstructionMutationSet_init parse inst disasm mutations d = Ret m ->
  (forall b, b ∈ MS.operand_value_bits m \/ b ∈ MS.operand_modifier_bits m ->
     is_Some (MS.bit_to_operand m !! b))
  /\ (forall b name, odict_get (MS.instruction_modifier_bit_flag m) b = Some name ->
        b ∈ MS.modifier_bits m /\ name <> EmptyString)
  /\ (forall b name, odict_get (MS.operand_modifier_bit_flag m) b = Some name ->
        b ∈ MS.operand_modifier_bits m /\ name <> EmptyString)
  /\ (forall b, b ∈ MS.modifier_bits m -> 12 < b).
Proof. intros H. now apply init_classified_ok in H as [H _]. Qed.

Lemma InstructionMutationSet_init_classified_witness : classified_ok lone_mset.
Proof.
  apply (InstructionMutationSet_init_classified selector_parse zero_word "OP"
           (single_flips lone_disasm zero_word 110) (mock_disassembler lone_disasm)
           lone_mset).
  vm_compute. reflexivity.
Defined.

(** The ranges of a freshly analysed 16-byte seed can always be computed:
    [compute_encoding_ranges] finds the operand of every operand bit and
    the group of every modifier bit. *)
Theorem compute_encoding_ranges_after_init (parse : string -> exc Instruction)
    (inst : word) (disasm : string) (mutations : list (Z * word * string))
    (d : Disassembler) (m : InstructionMutationSet) :
  InstructionMutationSet_init parse inst disasm mutations d = Ret m ->
  List.length inst = 16%nat ->
  exists rs m', compute_encoding_ranges m = Ret (rs, m').
Proof.
  intros H Hlen. apply init_classified_ok in H as [(Hop & _) Hinst].
  assert (Hwf : well_formed m).
  { split; [congruence|]. intros i _ Hi. now apply Hop. }
  unfold compute_encoding_ranges, canonicalize_modifier_groups.
  destruct (canonical_groups_ok (MS.modifier_bits m) (MS.modifier_groups m))
    as (groups & -> & Hgroups).
  cbn [bind].
  destruct (ranges_loop_ok (MS.set_modifier_groups groups m) 128 0 ([], None))
    as (st & Hloop); [exact Hwf | lia | exact Hgroups | intros c [=] |].
  change (8 * 16)%nat with 128%nat. rewrite Hloop. cbn [bind]. eauto.
Qed.

Lemma compute_encoding_ranges_after_init_witness :
  exists rs m', compute_encoding_ranges lone_mset = Ret (rs, m').
Proof.
  apply (compute_encoding_ranges_after_init selector_parse zero_word "OP"
           (single_flips lone_disasm zero_word 110) (mock_disassembler lone_disasm)
           lone_mset).
  - vm_compute. reflexivity.
  - reflexivity.
Defined.

(** *** The bit sets lie apart *)

(** What the operand loop of one mutation does to the bit sets. *)
Lemma analyse_operands_sets (i_bit : Z) (ops : list (nat * (Operand * Operand)))
    (m : InstructionMutationSet) (eff : bool) :
  let st := fold_left (analyse_operand i_bit) ops (m, eff) in
  MS.opcode_bits (fst st) = MS.opcode_bits m
  /\ MS.predicate_bits (fst st) = MS.predicate_bits m
  /\ MS.modifier_bits (fst st) = MS.modifier_bits m
  /\ (forall b, b ∈ MS.operand_value_bits (fst st) ->
        b ∈ MS.operand_value_bits m \/ b = i_bit)
  /\ (forall b, b ∈ MS.operand_modifier_bits (fst st) ->
        b ∈ MS.operand_modifier_bits m \/ b = i_bit)
  /\ (snd st = false ->
        MS.operand_value_bits (fst st) = MS.operand_value_bits m
        /\ MS.operand_modifier_bits (fst st) = MS.operand_modifier_bits m).
Proof.
  revert m eff. induction ops as [|[i [a b]] ops IH]; intros m eff; cbn [fold_left].
  - cbn. auto 7.
  - cbv zeta in IH |- *.
    assert (Hstep : exists m1 eff1,
               analyse_operand i_bit (m, eff) (i, (a, b)) = (m1, eff1)
               /\ MS.opcode_bits m1 = MS.opcode_bits m
               /\ MS.predicate_bits m1 = MS.predicate_bits m
               /\ MS.modifier_bits m1 = MS.modifier_bits m
               /\ (forall x, x ∈ MS.operand_value_bits m1 ->
                     x ∈ MS.operand_value_bits m \/ x = i_bit)
               /\ (forall x, x ∈ MS.operand_modifier_bits m1 ->
                     x ∈ MS.operand_modifier_bits m \/ x = i_bit)
               /\ (eff1 = false ->
                     MS.operand_value_bits m1 = MS.operand_value_bits m
                     /\ MS.operand_modifier_bits m1 = MS.operand_modifier_bits m)).
    { unfold analyse_operand. destruct (negb (compare a b)).
      - eexists _, _. split; [reflexivity|]. cbn. repeat split; auto; try discriminate.
        intros x Hx. apply elem_of_union in Hx as [Hx|Hx]; [|now left].
        apply elem_of_singleton in Hx. now right.
      - destruct (analyse_modifiers _ _) as [[] flag].
        + eexists _, _. split; [reflexivity|]. cbn. repeat split; auto; try discriminate.
          intros x Hx. apply elem_of_union in Hx as [Hx|Hx]; [|now left].
          apply elem_of_singleton in Hx. now right.
        + eexists _, _. split; [reflexivity|]. cbn. repeat split; auto. }
    destruct Hstep as (m1 & eff1 & -> & Hop1 & Hpr1 & Hmo1 & Hval1 & Hmod1 & Heff1).
    destruct (IH m1 eff1) as (Hop & Hpr & Hmo & Hval & Hmod & Heff).
    split; [congruence|]. split; [congruence|]. split; [congruence|].
    split; [|split].
    + intros x Hx. apply Hval in Hx as [Hx|Hx]; [now apply Hval1 | now right].
    + intros x Hx. apply Hmod in Hx as [Hx|Hx]; [now apply Hmod1 | now right].
    + intros Hfalse. destruct (Heff Hfalse) as [-> ->]. apply Heff1.
      clear - Hfalse. revert Hfalse. generalize m1. generalize eff1.
      induction ops as [|[i' [a' b']] ops IHops]; intros e m0; cbn [fold_left];
        [now cbn|].
      intros H. destruct e; [|reflexivity]. exfalso.
      assert (Htrue : exists m', analyse_operand i_bit (m0, true) (i', (a', b')) = (m', true)).
      { unfold analyse_operand. destruct (negb (compare a' b')); [eauto|].
        destruct (analyse_modifiers _ _) as [[] flag]; eauto. }
      destruct Htrue as (m' & Hm'). rewrite Hm' in H. now apply IHops in H.
Qed.

Lemma classified_apart_more (bits : list Z) (b : Z) (m : InstructionMutationSet) :
  classified_apart bits m -> classified_apart (b :: bits) m.
Proof.
  intros (Hin & Hop & Hmod). split; [|split; assumption].
  intros x Hx. right. now apply Hin.
Qed.

Lemma classified_apart_opcode (bits : list Z) (b : Z) (m : InstructionMutationSet) :
  classified_apart bits m -> ~ In b bits ->
  classified_apart (b :: bits) (MS.set_opcode_bits ({[b]} ∪ MS.opcode_bits m) m).
Proof.
  intros (Hin & Hop & Hmod) Hnew. unfold classified_apart. cbn.
  split; [|split].
  - intros x [Hx|Hx].
    + apply elem_of_union in Hx as [Hx|Hx]; [apply elem_of_singleton in Hx; now left|].
      right. apply Hin. now left.
    + right. apply Hin. now right.
  - intros x Hx. apply elem_of_union in Hx as [Hx|Hx]; [|now apply Hop].
    apply elem_of_singleton in Hx as ->.
    repeat split; intros Hx; apply Hnew, Hin; tauto.
  - assumption.
Qed.

Lemma analyse_mutation_apart (parse : string -> exc Instruction) (bits : list Z)
    (m : InstructionMutationSet) (mutation : Z * word * string) :
  classified_apart bits m -> ~ In (fst (fst mutation)) bits ->
  classified_apart (fst (fst mutation) :: bits) (analyse_mutation parse m mutation).
Proof.
  destruct mutation as [[i_bit w] asm]. cbn [fst]. unfold analyse_mutation.
  intros Hok Hnew.
  destruct (String.eqb (strip asm) EmptyString); [now apply classified_apart_opcode|].
  destruct (parse (strip asm)) as [mutated_parsed|]; [|now apply classified_apart_more].
  destruct (negb (String.eqb _ _)); [now apply classified_apart_opcode|].
  set (m1 := if negb (inst_predicate (MS.parsed m) =? inst_predicate mutated_parsed)
             then MS.set_predicate_bits ({[i_bit]} ∪ MS.predicate_bits m) m else m).
  assert (H1 : MS.opcode_bits m1 = MS.opcode_bits m
               /\ MS.modifier_bits m1 = MS.modifier_bits m
               /\ MS.operand_value_bits m1 = MS.operand_value_bits m
               /\ MS.operand_modifier_bits m1 = MS.operand_modifier_bits m
               /\ forall b, b ∈ MS.predicate_bits m1 -> b ∈ MS.predicate_bits m \/ b = i_bit).
  { unfold m1. destruct (negb _); cbn; repeat split; auto.
    intros b Hb. apply elem_of_union in Hb as [Hb|Hb]; [|now left].
    apply elem_of_singleton in Hb. now right. }
  destruct H1 as (Hop1 & Hmo1 & Hval1 & Hmod1 & Hpr1).
  pose proof (analyse_operands_sets i_bit
                (imap pair (zip (get_flat_operands mutated_parsed)
                                (get_flat_operands (MS.parsed m1))))
                m1 false) as H2.
  cbv zeta in H2.
  destruct (fold_left _ _ (m1, false)) as [m2 operand_effected]. cbn [fst snd] in H2.
  destruct H2 as (Hop2 & Hpr2 & Hmo2 & Hval2 & Hmod2 & Heff2).
  destruct Hok as (Hin & Hopc & Hmodi).
  assert (Hin2 : forall b, b ∈ MS.opcode_bits m2 \/ b ∈ MS.predicate_bits m2
                   \/ b ∈ MS.operand_value_bits m2 \/ b ∈ MS.operand_modifier_bits m2
                   \/ b ∈ MS.modifier_bits m2 -> In b (i_bit :: bits)).
  { intros b Hb. rewrite Hop2, Hpr2, Hmo2, Hop1, Hmo1 in Hb.
    destruct Hb as [Hb|[Hb|[Hb|[Hb|Hb]]]].
    - right. apply Hin. tauto.
    - apply Hpr1 in Hb as [Hb| ->]; [right; apply Hin; tauto | now left].
    - apply Hval2 in Hb as [Hb| ->]; [|now left].
      rewrite Hval1 in Hb. right. apply Hin. tauto.
    - apply Hmod2 in Hb as [Hb| ->]; [|now left].
      rewrite Hmod1 in Hb. right. apply Hin. tauto.
    - right. apply Hin. tauto. }
  assert (Hopc2 : forall b, b ∈ MS.opcode_bits m2 ->
                    (b ∉ MS.predicate_bits m2) /\ (b ∉ MS.operand_value_bits m2)
                    /\ (b ∉ MS.operand_modifier_bits m2) /\ (b ∉ MS.modifier_bits m2)).
  { intros b Hb. rewrite Hop2, Hop1 in Hb. destruct (Hopc b Hb) as (Hp & Hv & Ho & Hm).
    assert (Hne : b <> i_bit) by (intros ->; apply Hnew, Hin; tauto).
    rewrite Hpr2, Hmo2, Hmo1. repeat split; try assumption.
    - intros Hx. apply Hpr1 in Hx as [Hx|Hx]; contradiction.
    - intros Hx. apply Hval2 in Hx as [Hx|Hx]; [|contradiction].
      rewrite Hval1 in Hx. contradiction.
    - intros Hx. apply Hmod2 in Hx as [Hx|Hx]; [|contradiction].
      rewrite Hmod1 in Hx. contradiction. }
  assert (Hmodi2 : forall b, b ∈ MS.modifier_bits m2 ->
                     (b ∉ MS.operand_value_bits m2) /\ (b ∉ MS.operand_modifier_bits m2)).
  { intros b Hb. rewrite Hmo2, Hmo1 in Hb. destruct (Hmodi b Hb) as (Hv & Ho).
    assert (Hne : b <> i_bit) by (intros ->; apply Hnew, Hin; tauto).
    split.
    - intros Hx. apply Hval2 in Hx as [Hx|Hx]; [|contradiction].
      rewrite Hval1 in Hx. contradiction.
    - intros Hx. apply Hmod2 in Hx as [Hx|Hx]; [|contradiction].
      rewrite Hmod1 in Hx. contradiction. }
  pose proof (conj Hin2 (conj Hopc2 Hmodi2)) as Hm2.
  destruct operand_effected; [exact Hm2|].
  destruct (12 <? i_bit); [|exact Hm2].
  destruct (analyse_modifiers _ _) as [[] flag]; [|exact Hm2].
  destruct (Heff2 eq_refl) as [Hv2 Ho2].
  unfold classified_apart. cbn. split; [|split].
  - intros b Hb. destruct Hb as [Hb|[Hb|[Hb|[Hb|Hb]]]]; try (apply Hin2; tauto).
    apply elem_of_union in Hb as [Hb|Hb]; [apply elem_of_singleton in Hb; now left|].
    apply Hin2. tauto.
  - intros b Hb. destruct (Hopc2 b Hb) as (Hp & Hv & Ho & Hm).
    repeat split; try assumption.
    intros Hx. apply elem_of_union in Hx as [Hx|Hx]; [|contradiction].
    apply elem_of_singleton in Hx as ->.
    rewrite Hop2, Hop1 in Hb. apply Hnew, Hin. tauto.
  - intros b Hb. apply elem_of_union in Hb as [Hb|Hb]; [|now apply Hmodi2].
    apply elem_of_singleton in Hb as ->. rewrite Hv2, Ho2, Hval1, Hmod1.
    split; intros Hx; apply Hnew, Hin; tauto.
Qed.

Lemma analyse_mutations_apart (parse : string -> exc Instruction)
    (mutations : list (Z * word * string)) (bits : list Z) (m : InstructionMutationSet) :
  classified_apart bits m ->
  List.NoDup (rev bits ++ mutation_bits mutations) ->
  classified_apart (rev (mutation_bits mutations) ++ bits)
                   (fold_left (analyse_mutation parse) mutations m).
Proof.
  revert bits m. induction mutations as [|x mutations IH]; intros bits m Hok Hnd;
    cbn [fold_left mutation_bits map rev app].
  - assumption.
  - fold (mutation_bits mutations). rewrite <- app_assoc. cbn [app].
    apply (IH (fst (fst x) :: bits)).
    + apply analyse_mutation_apart; [assumption|].
      cbn [mutation_bits map] in Hnd. apply NoDup_remove_2 in Hnd.
      intros Hin. apply Hnd, in_app_iff. left. now apply in_rev in Hin.
    + cbn [rev mutation_bits map] in *. now rewrite <- app_assoc.
Qed.

(** When every bit is mutated once, [_analyse] keeps the bit sets apart:
    every classified bit is the bit of a mutation, an opcode bit is in no
    other set, and a modifier bit is no operand bit. *)
Theorem InstructionMutationSet_init_apart (parse : string -> exc Instruction)
    (inst : word) (disasm : string) (mutations : list (Z * word * string))
    (d : Disassembler) (m : InstructionMutationSet) :
  InstructionMutationSet_init parse inst disasm mutations d = Ret m ->
  List.NoDup (mutation_bits mutations) ->
  (forall b, b ∈ MS.opcode_bits m \/ b ∈ MS.predicate_bits m
             \/ b ∈ MS.operand_value_bits m \/ b ∈ MS.operand_modifier_bits m
             \/ b ∈ MS.modifier_bits m -> In b (mutation_bits mutations))
  /\ (forall b, b ∈ MS.opcode_bits m ->
        (b ∉ MS.predicate_bits m) /\ (b ∉ MS.operand_value_bits m)
        /\ (b ∉ MS.operand_modifier_bits m) /\ (b ∉ MS.modifier_bits m))
  /\ (forall b, b ∈ MS.modifier_bits m ->
        (b ∉ MS.operand_value_bits m) /\ (b ∉ MS.operand_modifier_bits m)).
Proof.
  unfold InstructionMutationSet_init. intros H Hnd.
  apply bind_Ret_inv in H as (parsed & _ & H). injection H as <-.
  match goal with |- context [fold_left _ _ ?m0] =>
    pose proof (analyse_mutations_apart parse mutations [] m0) as Hap end.
  destruct Hap as (Hin & Hop & Hmod).
  - unfold classified_apart. cbn. split; [|split].
    + intros b Hb. repeat (destruct Hb as [Hb|Hb]; [now apply elem_of_empty in Hb|]).
      now apply elem_of_empty in Hb.
    + intros b Hb. now apply elem_of_empty in Hb.
    + intros b Hb. now apply elem_of_empty in Hb.
  - exact Hnd.
  - split; [|split; assumption].
    intros b Hb. apply Hin in Hb. rewrite app_nil_r in Hb. now apply in_rev.
Qed.

Lemma NoDup_Zrange (lo hi : Z) : List.NoDup (Zrange lo hi).
Proof.
  unfold Zrange. apply Finite.Injective_map_NoDup; [|apply seq_NoDup].
  intros x y. lia.
Qed.

Lemma mutation_bits_single_flips (disasm : word -> string) (inst : word) (end_bit : Z) :
  mutation_bits (single_flips disasm inst end_bit) = Zrange 0 end_bit.
Proof.
  unfold mutation_bits, single_flips. rewrite map_map. cbn [fst]. apply map_id.
Qed.

Lemma InstructionMutationSet_init_apart_witness :
  classified_apart (mutation_bits (single_flips lone_disasm zero_word 110)) lone_mset.
Proof.
  apply (InstructionMutationSet_init_apart selector_parse zero_word "OP"
           (single_flips lone_disasm zero_word 110) (mock_disassembler lone_disasm)
           lone_mset).
  - vm_compute. reflexivity.
  - rewrite mutation_bits_single_flips. apply NoDup_Zrange.
Defined.

(** ** JSON round trip of the ranges of an instruction *)

Lemma range_round_trip (r : EncodingRange) : from_json_obj (to_json_obj r) = Ret r.
Proof.
  destruct r as [ty st len oi g nm c inv sh off].
  unfold from_json_obj, to_json_obj, kw_required, kw_default.
  cbn -[as_nat as_opt_nat as_opt_Z as_opt_str EncodingRangeType_of_value
       json_of_opt JNat].
  rewrite EncodingRangeType_of_value_value; cbn [bind].
  repeat (first [ rewrite as_nat_JNat | rewrite as_opt_nat_JNat
                | rewrite as_opt_str_JStr | rewrite as_opt_Z_JInt ]; cbn [bind]).
  reflexivity.
Qed.

Lemma ranges_round_trip (rs : list EncodingRange) :
  mapM from_json_obj (map to_json_obj rs) = Ret rs.
Proof.
  induction rs as [|r rs IH]; cbn [map mapM]; [reflexivity|].
  now rewrite range_round_trip, IH.
Qed.

Lemma hex_bytes_ok : forallb hex_byte_ok (seq 0 256) = true.
Proof. vm_compute. reflexivity. Qed.

Lemma fromhex_hex_byte (b : Z) (s : string) :
  0 <= b < 256 ->
  fromhex (hex_byte b ++ s) = match fromhex s with
                              | Some w => Some (b :: w)
                              | None => None
                              end.
Proof.
  intros Hb.
  pose proof (proj1 (forallb_forall _ _) hex_bytes_ok (Z.to_nat b)) as Hok.
  unfold hex_byte_ok in Hok. rewrite Z2Nat.id in Hok by lia.
  specialize (Hok ltac:(apply in_seq; lia)).
  unfold hex_byte in *.
  change (String (hex_digit (b / 16)) (String (hex_digit (b mod 16)) EmptyString) +:+ s)
    with (String (hex_digit (b / 16)) (String (hex_digit (b mod 16)) s)).
  cbn [fromhex].
  apply andb_true_iff in Hok as [Hok Hl]. apply andb_true_iff in Hok as [Hsp Hh].
  apply bool_decide_eq_true in Hh, Hl. apply negb_true_iff in Hsp.
  rewrite Hsp, Hh, Hl. destruct (fromhex s); [|reflexivity].
  f_equal. f_equal. pose proof (Z.div_mod b 16). lia.
Qed.

Lemma fromhex_hex (w : word) :
  Forall (fun b => 0 <= b < 256) w -> fromhex (hex w) = Some w.
Proof.
  induction 1 as [|b w Hb _ IH]; cbn [hex]; [reflexivity|].
  now rewrite fromhex_hex_byte, IH.
Qed.

(** Reading the dict of [to_json_obj] back with [from_json_obj] gives the
    ranges and the seed back. *)
Theorem ranges_from_json_obj_to_json_obj (rs : EncodingRanges) :
  Forall (fun b => 0 <= b < 256) (ranges_inst rs) ->
  ranges_from_json_obj (ranges_to_json_obj rs) = Ret (inr rs).
Proof.
  intros Hbytes. unfold ranges_from_json_obj, ranges_to_json_obj.
  cbn [jlookup String.eqb Ascii.eqb Bool.eqb bind]. rewrite ranges_round_trip. cbn [bind].
  rewrite fromhex_hex by assumption. now destruct rs.
Qed.

Lemma ranges_from_json_obj_to_json_obj_witness :
  ranges_from_json_obj (ranges_to_json_obj seeded_ranges) = Ret (inr seeded_ranges).
Proof.
  apply (ranges_from_json_obj_to_json_obj seeded_ranges).
  unfold seeded_ranges. cbn [ranges_inst]. repeat constructor; lia.
Defined.

(** ** The name of a modifier difference splits back into its tokens *)

Lemma append_cons (c : ascii) (a s : string) :
  (String c a ++ s)%string = String c (a ++ s)%string.
Proof. reflexivity. Qed.

Lemma append_nil_l (s : string) : (EmptyString ++ s)%string = s.
Proof. reflexivity. Qed.

Lemma append_nil_r (s : string) : (s ++ EmptyString)%string = s.
Proof. induction s as [|c s IH]; [reflexivity|]. now rewrite append_cons, IH. Qed.

Lemma append_assoc (a b c : string) : ((a ++ b) ++ c = a ++ (b ++ c))%string.
Proof.
  induction a as [|x a IH]; [reflexivity|]. now rewrite !append_cons, IH.
Qed.

Lemma split_dot_aux_token (k s cur : string) :
  contains_dot k = false ->
  split_dot_aux (k ++ s) cur = split_dot_aux s (cur ++ k).
Proof.
  revert cur. induction k as [|c k IH]; intros cur Hk.
  - now rewrite append_nil_l, append_nil_r.
  - unfold contains_dot in Hk. cbn [list_ascii_of_string existsb] in Hk.
    apply orb_false_iff in Hk as [Hc Hk].
    rewrite append_cons. cbn [split_dot_aux].
    rewrite Ascii.eqb_sym in Hc. rewrite Hc, IH by exact Hk.
    f_equal. rewrite append_assoc. reflexivity.
Qed.

Lemma split_dot_aux_dot (s cur : string) :
  split_dot_aux ("." ++ s) cur = cur :: split_dot_aux s EmptyString.
Proof. reflexivity. Qed.

Lemma split_repeat_dot (k s : string) (n : nat) :
  contains_dot k = false ->
  split_dot_aux (repeat_dot k (S n) ++ s) EmptyString
  = replicate (S n) k ++ split_dot_aux s EmptyString.
Proof.
  intros Hk. induction n as [|n IH].
  - cbn [repeat_dot replicate app]. rewrite append_assoc, split_dot_aux_token by assumption.
    now rewrite split_dot_aux_dot, append_nil_l.
  - change (repeat_dot k (S (S n))) with (k ++ "." ++ repeat_dot k (S n))%string.
    rewrite !append_assoc, split_dot_aux_token by assumption.
    rewrite split_dot_aux_dot, append_nil_l, IH. reflexivity.
Qed.

(** The text that the loop of [find_modifier_difference] builds. *)
Lemma difference_text (difference : Counter) (acc : string) :
  fold_left (fun (result : string) (item : string * Z) =>
               if negb (nonempty (fst item)) || (snd item <=? 0) then result
               else (result ++ repeat_dot (fst item) (Z.to_nat (snd item)))%string)
            difference acc
  = (acc ++ fold_right (fun (item : string * Z) (s : string) =>
                          if negb (nonempty (fst item)) || (snd item <=? 0)%Z then s
                          else (repeat_dot (fst item) (Z.to_nat (snd item)) ++ s)%string)
                       EmptyString difference)%string.
Proof.
  revert acc. induction difference as [|item difference IH]; intros acc;
    cbn [fold_left fold_right].
  - now rewrite append_nil_r.
  - rewrite IH. destruct (negb (nonempty (fst item)) || (snd item <=? 0)); [reflexivity|].
    now rewrite append_assoc.
Qed.

Lemma split_difference_text (difference : Counter) :
  (forall k v, In (k, v) difference -> 0 < v -> contains_dot k = false) ->
  split_dot_aux
    (fold_right (fun (item : string * Z) (s : string) =>
                   if negb (nonempty (fst item)) || (snd item <=? 0)%Z then s
                   else (repeat_dot (fst item) (Z.to_nat (snd item)) ++ s)%string)
                EmptyString difference) EmptyString
  = excess_tokens difference ++ [EmptyString].
Proof.
  unfold excess_tokens.
  induction difference as [|[k v] difference IH]; intros Hdots;
    cbn [fold_right flat_map fst snd]; [reflexivity|].
  assert (IH' := IH (fun k' v' H => Hdots k' v' (or_intror H))). clear IH.
  destruct (negb (nonempty k)); cbn [orb]; [assumption|].
  destruct (Z.leb_spec v 0) as [|Hpos]; [assumption|].
  destruct (Z.to_nat v) as [|n] eqn:Hn; [lia|].
  rewrite split_repeat_dot by (apply (Hdots k v); [now left | assumption]).
  now rewrite IH', app_assoc.
Qed.

Lemma excess_tokens_nonempty (difference : Counter) :
  List.filter nonempty (excess_tokens difference ++ [EmptyString])
  = excess_tokens difference.
Proof.
  rewrite List.filter_app. cbn [List.filter nonempty String.eqb negb].
  rewrite app_nil_r. unfold excess_tokens.
  induction difference as [|[k v] difference IH]; cbn [flat_map fst snd]; [reflexivity|].
  rewrite List.filter_app, IH. f_equal.
  destruct (nonempty k) eqn:Hk; cbn [negb orb]; [|reflexivity].
  destruct (v <=? 0); [reflexivity|].
  induction (Z.to_nat v) as [|n IHn]; cbn [replicate List.filter]; [reflexivity|].
  now rewrite Hk, IHn.
Qed.

Lemma count_occ_replicate (k t : string) (n : nat) :
  count_occ string_dec (replicate n k) t = if String.eqb k t then n else 0%nat.
Proof.
  induction n as [|n IH]; cbn [replicate count_occ].
  - now destruct (String.eqb k t).
  - rewrite IH. destruct (string_dec k t) as [->|Hne].
    + now rewrite String.eqb_refl.
    + now rewrite (proj2 (String.eqb_neq k t) Hne).
Qed.

Lemma excess_tokens_count (difference : Counter) (t : string) :
  List.NoDup (map fst difference) -> t <> EmptyString ->
  Z.of_nat (count_occ string_dec (excess_tokens difference) t)
  = Z.max 0 (counter_get difference t).
Proof.
  intros Hnd Ht. unfold excess_tokens.
  induction difference as [|[k v] difference IH]; cbn [flat_map fst snd counter_get];
    [reflexivity|].
  inversion Hnd as [|? ? Hnotin Hnd']; subst. specialize (IH Hnd').
  rewrite count_occ_app, Nat2Z.inj_add, IH.
  destruct (String.eqb_spec k t) as [->|Hne].
  - rewrite (counter_get_notin difference t Hnotin).
    unfold nonempty. rewrite (proj2 (String.eqb_neq t EmptyString) Ht). cbn [negb orb].
    destruct (Z.leb_spec v 0); [cbn [count_occ]; lia|].
    rewrite count_occ_replicate, String.eqb_refl. lia.
  - destruct (negb (nonempty k) || (v <=? 0)); [cbn [count_occ]; lia|].
    rewrite count_occ_replicate, (proj2 (String.eqb_neq k t) Hne). lia.
Qed.

(** Splitting the name that [find_modifier_difference] returns at its dots
    gives each non-empty token as often as [mutated] has it in excess of
    [original], when no token of [mutated] holds a dot itself. *)
Theorem find_modifier_difference_split (original mutated : list string) (t : string) :
  (forall x, In x mutated -> contains_dot x = false) -> t <> EmptyString ->
  Z.of_nat (count_occ string_dec
              (List.filter nonempty (split_dot (find_modifier_difference original mutated)))
              t)
  = Z.max 0 (token_count mutated t - token_count original t).
Proof.
  intros Hdots Ht. unfold find_modifier_difference, split_dot.
  destruct (difference_spec original mutated) as [Hnd Hget]. cbv zeta in Hnd, Hget.
  rewrite difference_text, append_nil_l, split_difference_text.
  - rewrite excess_tokens_nonempty, excess_tokens_count by assumption. now rewrite Hget.
  - intros k v Hin Hpos. apply Hdots.
    rewrite <- (counter_get_In _ k v Hnd Hin), Hget in Hpos.
    unfold token_count in Hpos.
    destruct (count_occ string_dec mutated k) eqn:Hc; [lia|].
    apply (count_occ_In string_dec). lia.
Qed.

Lemma find_modifier_difference_split_witness :
  Z.of_nat (count_occ string_dec
              (List.filter nonempty
                 (split_dot (find_modifier_difference ["F32"; "X"] ["F32"; "F32"; "RZ"])))
              "F32")
  = Z.max 0 (token_count ["F32"; "F32"; "RZ"] "F32" - token_count ["F32"; "X"] "F32").
Proof.
  apply (find_modifier_difference_split ["F32"; "X"] ["F32"; "F32"; "RZ"] "F32").
  - intros x [<-|[<-|[<-|[]]]]; reflexivity.
  - discriminate.
Defined.

(** ** ISASpec.find_instruction *)

Lemma counter_sum_add (k : string) (d : Z) (c : Counter) :
  counter_sum (counter_add k d c) = counter_sum c + d.
Proof.
  unfold counter_sum.
  induction c as [|[k' v] c IH]; cbn [counter_add map snd fold_right].
  - lia.
  - destruct (String.eqb k' k); cbn [map snd fold_right]; lia.
Qed.

Lemma subtract_opcode_modis_sum (modis : list string) (c c' : Counter) :
  subtract_opcode_modis modis c = Some c' ->
  counter_sum c' = counter_sum c - Z.of_nat (List.length modis).
Proof.
  revert c. induction modis as [|x modis IH]; intros c; cbn [subtract_opcode_modis].
  - intros [= <-]. cbn. lia.
  - destruct (_ <? 0); [discriminate|]. intros H. apply IH in H.
    rewrite counter_sum_add in H. cbn [List.length]. lia.
Qed.

Lemma subtract_opcode_modis_Some (modis : list string) (c : Counter) :
  List.NoDup modis ->
  (exists c', subtract_opcode_modis modis c = Some c')
  <-> forall t, In t modis -> 1 <= counter_get c t.
Proof.
  revert c. induction modis as [|x modis IH]; intros c Hnd; cbn [subtract_opcode_modis].
  - split; [intros _ t [] | eauto].
  - inversion Hnd as [|? ? Hnotin Hnd']; subst.
    pose proof (counter_get_add x x (-1) c) as Hx. rewrite String.eqb_refl in Hx.
    destruct (Z.ltb_spec (counter_get (counter_add x (-1) c) x) 0) as [Hlt|Hge].
    + split; [intros [c' [=]]|]. intros H. specialize (H x (or_introl eq_refl)). lia.
    + rewrite (IH _ Hnd'). split.
      * intros H t [<-|Ht]; [lia|]. specialize (H t Ht).
        rewrite counter_get_add in H.
        destruct (String.eqb_spec x t) as [->|]; [contradiction | lia].
      * intros H t Ht. rewrite counter_get_add.
        destruct (String.eqb_spec x t) as [->|]; [contradiction|].
        specialize (H t (or_intror Ht)). lia.
Qed.

Lemma opcode_modis_NoDup (spec : InstructionSpec) : List.NoDup (opcode_modis spec).
Proof. unfold opcode_modis. apply List.NoDup_filter, NoDup_nodup. Qed.

Lemma token_count_In (tokens : list string) (t : string) :
  1 <= token_count tokens t <-> In t tokens.
Proof.
  unfold token_count. rewrite (count_occ_In string_dec). lia.
Qed.

Lemma isa_matches_subtract (target_key : string) (modifiers : list string)
    (inst : ISAInstruction) :
  isa_matches target_key modifiers inst
  <-> isa_key inst = target_key
      /\ exists c', subtract_opcode_modis (opcode_modis (isa_spec inst))
                      (Counter_of modifiers) = Some c'.
Proof.
  unfold isa_matches.
  rewrite (subtract_opcode_modis_Some _ _ (opcode_modis_NoDup _)).
  destruct (Counter_of_spec modifiers) as [_ Hget].
  split; intros [Hk H]; (split; [assumption|]); intros t Ht; specialize (H t Ht).
  - rewrite Hget. now apply token_count_In.
  - rewrite Hget in H. now apply token_count_In.
Qed.

Lemma find_step_state (target_key : string) (modifiers : list string)
    (seen : list (string * ISAInstruction)) (st : Z * option ISAInstruction)
    (entry : string * ISAInstruction) :
  find_state target_key modifiers seen st ->
  find_state target_key modifiers (seen ++ [entry])
             (find_step target_key (Counter_of modifiers) st entry).
Proof.
  intros Hst. destruct entry as [k inst].
  pose proof (isa_matches_subtract target_key modifiers inst) as Hm.
  assert (Hkeep : ~ isa_matches target_key modifiers inst ->
                  find_state target_key modifiers (seen ++ [(k, inst)]) st).
  { intros Hno. unfold find_state in *. destruct (snd st) as [best|].
    - destruct Hst as (i & k0 & Hi & Hbest & Hscore & Hall).
      exists i, k0. split; [now apply lookup_app_l_Some|].
      split; [assumption|]. split; [assumption|].
      intros j e H Hme. apply lookup_snoc_Some in H as [[_ H]|[_ <-]];
        [now apply (Hall j e) | contradiction].
    - destruct Hst as [Hscore Hall]. split; [assumption|].
      intros j e H. apply lookup_snoc_Some in H as [[_ H]|[_ <-]]; [now apply (Hall j e)|].
      assumption. }
  unfold find_step. cbn [snd].
  destruct (String.eqb_spec (isa_key inst) target_key) as [Hkey|Hkey]; cbn [negb];
    [|apply Hkeep; intros [? _]; contradiction].
  destruct (subtract_opcode_modis _ _) as [c'|] eqn:Hsub;
    [|apply Hkeep; intros H; apply Hm in H as [_ [? [=]]]].
  assert (Hmatch : isa_matches target_key modifiers inst) by (apply Hm; eauto).
  rewrite (subtract_opcode_modis_sum _ _ _ Hsub).
  set (n := List.length (opcode_modis (isa_spec inst))).
  replace (counter_sum (Counter_of modifiers) - (counter_sum (Counter_of modifiers) - Z.of_nat n))
    with (Z.of_nat n) by lia.
  unfold find_state in *. destruct st as [score [best|]]; cbn [fst snd] in *.
  - destruct Hst as (i & k0 & Hi & Hbest & -> & Hall).
    pose proof (lookup_lt_Some _ _ _ Hi) as Hlt.
    destruct (Z.ltb_spec (Z.of_nat (List.length (opcode_modis (isa_spec best))))
                         (Z.of_nat n)) as [Hbetter|Hworse]; cbn [fst snd].
    + exists (List.length seen), k. split; [apply list_lookup_middle; reflexivity|].
      split; [assumption|]. split; [reflexivity|].
      intros j e H Hme. apply lookup_snoc_Some in H as [[Hj H]|[Hj <-]].
      * destruct (Hall j e H Hme). fold n. split; lia.
      * cbn [snd]. fold n. split; lia.
    + exists i, k0. split; [now apply lookup_app_l_Some|].
      split; [assumption|]. split; [reflexivity|].
      intros j e H Hme. apply lookup_snoc_Some in H as [[Hj H]|[Hj <-]].
      * now apply (Hall j e).
      * cbn [snd]. fold n. split; lia.
  - destruct Hst as [-> Hall].
    destruct (Z.ltb_spec (-1) (Z.of_nat n)) as [_|]; [|lia]. cbn [fst snd].
    exists (List.length seen), k. split; [apply list_lookup_middle; reflexivity|].
    split; [assumption|]. split; [reflexivity|].
    intros j e H Hme. apply lookup_snoc_Some in H as [[Hj H]|[Hj <-]].
    + exfalso. now apply (Hall j e).
    + cbn [snd]. fold n. split; lia.
Qed.

Lemma find_loop_state (target_key : string) (modifiers : list string)
    (rest seen : list (string * ISAInstruction)) (st : Z * option ISAInstruction) :
  find_state target_key modifiers seen st ->
  find_state target_key modifiers (seen ++ rest)
             (fold_left (find_step target_key (Counter_of modifiers)) rest st).
Proof.
  revert seen st. induction rest as [|e rest IH]; intros seen st Hst; cbn [fold_left].
  - now rewrite app_nil_r.
  - replace (seen ++ e :: rest) with ((seen ++ [e]) ++ rest)
      by (now rewrite <- app_assoc).
    apply IH. now apply find_step_state.
Qed.

(** [find_instruction] answers [None] exactly when no instruction of the
    wanted key has all its opcode modifiers requested; otherwise it
    returns such an instruction with the most opcode modifiers, the first
    of them in the order of the dict. *)
Theorem find_instruction_spec (instructions : list (string * ISAInstruction))
    (target_key : string) (modifiers : list string) :
  match find_instruction instructions target_key modifiers with
  | None =>
      forall j e, instructions !! j = Some e ->
                  ~ isa_matches target_key modifiers (snd e)
  | Some inst =>
      exists i k,
        instructions !! i = Some (k, inst) /\ isa_matches target_key modifiers inst
        /\ forall j e, instructions !! j = Some e ->
             isa_matches target_key modifiers (snd e) ->
             (List.length (opcode_modis (isa_spec (snd e)))
              <= List.length (opcode_modis (isa_spec inst)))%nat
             /\ ((j < i)%nat ->
                 (List.length (opcode_modis (isa_spec (snd e)))
                  < List.length (opcode_modis (isa_spec inst)))%nat)
  end.
Proof.
  unfold find_instruction.
  pose proof (find_loop_state target_key modifiers instructions [] (-1, None)) as H.
  cbn [app] in H. unfold find_state in H at 2.
  destruct (snd (fold_left _ instructions (-1, None))) as [inst|].
  - destruct H as (i & k & Hi & Hm & _ & Hall).
    + split; [reflexivity | intros j e [=]].
    + exists i, k. auto.
  - apply H. split; [reflexivity | intros j e [=]].
Qed.

(** ** What the modifier-value solver returns *)

Lemma all_modifiers_row (spec : InstructionSpec) (g : string) (i : nat) (v : Z) :
  In (g, i, v) (all_modifiers spec) ->
  exists table name, spec_modifiers spec !! i = Some table /\ In (v, name) table.
Proof.
  unfold all_modifiers. intros Hin.
  apply in_concat in Hin as (rows & Hrows & Hin).
  apply list_elem_of_In, elem_of_lookup_imap in Hrows as (k & table & -> & Hk).
  apply in_map_iff in Hin as ([v' name] & [= _ <- <-] & Hin).
  exists table, name. auto.
Qed.

Lemma Counter_of_keys (tokens : list string) (k : string) :
  In k (map fst (Counter_of tokens)) -> In k tokens.
Proof.
  unfold Counter_of.
  assert (Hgen : forall c, In k (map fst (fold_left (fun c k => counter_add k 1 c) tokens c)) ->
                           In k (map fst c) \/ In k tokens).
  { induction tokens as [|t tokens IH]; intros c; cbn [fold_left]; [now left|].
    intros H. apply IH in H as [H|H]; [|right; now right].
    apply counter_add_keys in H as [->|H]; [right; now left | now left]. }
  intros H. apply Hgen in H as [[]|H]. exact H.
Qed.

Lemma counter_consume_keys (k x : string) (c : Counter) :
  0 <= counter_get (counter_add k (-1) c) k ->
  In x (map fst (counter_add k (-1) c)) -> In x (map fst c).
Proof.
  intros Hge Hx. apply counter_add_keys in Hx as [->|Hx]; [|assumption].
  rewrite counter_get_add, String.eqb_refl in Hge.
  destruct (in_dec string_dec k (map fst c)) as [Hin|Hout]; [assumption|].
  rewrite (counter_get_notin c k Hout) in Hge. lia.
Qed.

Lemma counter_remove_zeros_keys (x : string) (c : Counter) :
  In x (map fst (counter_remove_zeros c)) -> In x (map fst c).
Proof.
  unfold counter_remove_zeros. rewrite !in_map_iff.
  intros (kv & <- & Hin). apply filter_In in Hin as [Hin _]. eauto.
Qed.

Lemma subtract_opcode_modis_keys (modis : list string) (c c' : Counter) (x : string) :
  subtract_opcode_modis modis c = Some c' -> In x (map fst c') -> In x (map fst c).
Proof.
  revert c. induction modis as [|m modis IH]; intros c; cbn [subtract_opcode_modis].
  - now intros [= <-].
  - destruct (Z.ltb_spec (counter_get (counter_add m (-1) c) m) 0) as [|Hge];
      [discriminate|].
    intros H Hx. apply (counter_consume_keys m x c Hge). now apply (IH _ H).
Qed.

Lemma score_consume_fold (group : list string) (c c' : Counter) :
  score_consume group c = Some c' ->
  fold_left (fun c modifier => counter_remove_zeros (counter_add modifier (-1) c)) group c
  = c'
  /\ forall x, In x (map fst c') -> In x (map fst c).
Proof.
  revert c. induction group as [|m group IH]; intros c; cbn [score_consume fold_left].
  - intros [= <-]. auto.
  - destruct (Z.ltb_spec (counter_get (counter_add m (-1) c) m) 0) as [|Hge];
      [discriminate|].
    intros H. apply IH in H as [Hfold Hkeys]. split; [assumption|].
    intros x Hx. apply (counter_consume_keys m x c Hge).
    now apply counter_remove_zeros_keys, Hkeys.
Qed.

(** The candidate that the scan keeps has a positive score, so all of its
    tokens can be taken from the counts. *)
Lemma scan_candidates_row (spec : InstructionSpec) (cnts : Counter)
    (used : gset nat) (best : best_state) :
  scan_candidates spec cnts used = Some best ->
  (exists g, In (g, best_i best, best_value best) (all_modifiers spec))
  /\ exists c', score_consume (best_modi_group best) cnts = Some c'.
Proof.
  unfold scan_candidates.
  assert (Hgen : forall rows acc,
             (forall g i v, In (g, i, v) rows -> In (g, i, v) (all_modifiers spec)) ->
             (forall b, acc = Some b ->
                (0 < best_match b)
                /\ (exists g, In (g, best_i b, best_value b) (all_modifiers spec))
                /\ exists c', score_consume (best_modi_group b) cnts = Some c') ->
             forall b,
               fold_left
                 (fun (best : option best_state) (row : string * nat * Z) =>
                    let '(modifier_group, i, value) := row in
                    if bool_decide (i ∈ used) then best
                    else
                      let modifier_group := List.filter nonempty (split_dot modifier_group) in
                      let score := score_match cnts modifier_group in
                      if (match best with Some b => best_match b | None => 0 end) <? score
                      then Some (mkBest i value modifier_group score)
                      else best) rows acc = Some b ->
               (0 < best_match b)
               /\ (exists g, In (g, best_i b, best_value b) (all_modifiers spec))
               /\ exists c', score_consume (best_modi_group b) cnts = Some c').
  { induction rows as [|[[g i] v] rows IH]; intros acc Hrows Hacc b; cbn [fold_left].
    - apply Hacc.
    - apply IH; [intros g' i' v' Hin; apply (Hrows g' i' v'); now right|].
      intros b'. case_bool_decide as Hused; [apply Hacc|].
      destruct (Z.ltb_spec (match acc with Some b0 => best_match b0 | None => 0 end)
                           (score_match cnts (List.filter nonempty (split_dot g))))
        as [Hlt|]; [|apply Hacc].
      intros [= <-]. cbn [best_i best_value best_match best_modi_group].
      assert (Hpos : 0 < score_match cnts (List.filter nonempty (split_dot g))).
      { destruct acc as [b0|]; [|assumption]. destruct (Hacc b0 eq_refl). lia. }
      split; [assumption|]. split; [exists g; apply (Hrows g i v); now left|].
      unfold score_match in Hpos. destruct (forallb _ _); [|lia].
      destruct (score_consume _ cnts) as [c'|]; [eauto | lia]. }
  intros H. apply (Hgen _ None) in H as (_ & Hrow & Hcons); [auto | auto | discriminate].
Qed.

Lemma greedy_loop_sound (spec : InstructionSpec) (fuel : nat) (st st' : solve_state)
    (P : nat -> Z -> Prop) :
  (forall g i v, In (g, i, v) (all_modifiers spec) -> P i v) ->
  greedy_loop fuel spec st = Ret st' ->
  (forall i v, st_modi_values st !! i = Some v -> P i v) ->
  (forall i v, st_modi_values st' !! i = Some v -> P i v)
  /\ forall x, In x (map fst (st_counts st')) -> In x (map fst (st_counts st)).
Proof.
  intros Hrows. revert st. induction fuel as [|fuel IH]; intros st; cbn [greedy_loop].
  - destruct (st_counts st) eqn:Hcounts; [intros [= <-]; rewrite Hcounts; auto|].
    rewrite <- Hcounts.
    destruct (scan_candidates spec (st_counts st) _); [discriminate | intros [= <-]; auto].
  - destruct (st_counts st) eqn:Hcounts; [intros [= <-]; rewrite Hcounts; auto|].
    rewrite <- Hcounts.
    destruct (scan_candidates spec (st_counts st) _) as [best|] eqn:Hscan;
      [|intros [= <-]; auto].
    apply scan_candidates_row in Hscan as [[g Hrow] [c' Hcons]].
    apply score_consume_fold in Hcons as [Hfold Hkeys].
    intros H Hvals. apply bind_Ret_inv in H as (values & Hset & H).
    apply IH in H as [Hvals' Hkeys']; cbn [st_modi_values st_counts] in *.
    + split; [assumption|]. intros x Hx. apply Hkeys. rewrite <- Hfold. now apply Hkeys'.
    + unfold list_set in Hset. destruct (_ <? _)%nat; [|discriminate].
      injection Hset as <-. intros i v Hi.
      apply list_lookup_insert_Some in Hi as [(<- & <- & _)|[_ Hi]];
        [now apply (Hrows g) | now apply Hvals].
Qed.

Lemma fill_defaults_sound (spec : InstructionSpec) (values values' : list Z)
    (P : nat -> Z -> Prop) :
  (forall g i v, In (g, i, v) (all_modifiers spec) -> P i v) ->
  fill_defaults spec values = Ret values' ->
  (forall i v, values !! i = Some v -> P i v) ->
  forall i v, values' !! i = Some v -> P i v.
Proof.
  unfold fill_defaults. intros Hrows. revert values.
  induction (all_modifiers spec) as [|[[g i] v] rows IH]; intros values; cbn [foldM].
  - now intros [= <-].
  - intros H Hvals. apply bind_Ret_inv in H as (values1 & Hstep & H).
    apply (IH (fun g' i' v' Hin => Hrows g' i' v' (or_intror Hin)) values1 H).
    destruct (existsb _ values); [now injection Hstep as <-|].
    destruct (nonempty g); [now injection Hstep as <-|].
    unfold list_set in Hstep. destruct (_ <? _)%nat; [|discriminate].
    injection Hstep as <-. intros j x Hj.
    apply list_lookup_insert_Some in Hj as [(<- & <- & _)|[_ Hj]];
      [apply (Hrows g); now left | now apply Hvals].
Qed.

Lemma match_flags_sound (flags : list (option string)) (counts : Counter) (f : string) :
  f ∈ snd (match_flags flags counts) ->
  In (Some f) flags /\ In f (map fst counts).
Proof.
  unfold match_flags.
  assert (Hgen : forall names acc,
             f ∈ snd (fold_left
                        (fun (acc : Counter * gset string) (name : string) =>
                           if existsb (fun f => match f with
                                                | Some f => String.eqb f name
                                                | None => false
                                                end) flags
                           then (counter_add name (-1) (fst acc), {[name]} ∪ snd acc)
                           else acc) names acc) ->
             f ∈ snd acc \/ (In (Some f) flags /\ In f names)).
  { induction names as [|name names IH]; intros acc; cbn [fold_left]; [now left|].
    intros H. apply IH in H as [H|[H1 H2]]; [|right; split; [assumption | now right]].
    destruct (existsb _ flags) eqn:Hex; [|now left]. cbn [snd] in H.
    apply elem_of_union in H as [H|H]; [|now left].
    apply elem_of_singleton in H as ->. right. split; [|now left].
    apply existsb_exists in Hex as ([x|] & Hin & Heq); [|discriminate].
    apply String.eqb_eq in Heq as ->. assumption. }
  intros H. apply Hgen in H as [H|H]; [|assumption].
  cbn [snd] in H. now apply elem_of_empty in H.
Qed.

(** An assignment that [get_modifier_values] returns takes every value
    from the table of its group, or leaves it 0, and every flag it reports
    is the name of a FLAG range and a token of the request. *)
Theorem get_modifier_values_sound (spec : InstructionSpec) (request : list string)
    (values : list Z) (used_flags : gset string) :
  get_modifier_values spec request = Ret (Some (values, used_flags)) ->
  (forall i v, values !! i = Some v ->
     v = 0 \/ exists table name, spec_modifiers spec !! i = Some table /\ In (v, name) table)
  /\ forall f, f ∈ used_flags ->
       In (Some f) (get_flags (spec_ranges spec)) /\ In f request.
Proof.
  unfold get_modifier_values. intros H.
  destruct (subtract_opcode_modis _ _) as [cnts|] eqn:Hsub; [|discriminate].
  apply bind_Ret_inv in H as (st & Hloop & H).
  pose proof (match_flags_sound (get_flags (spec_ranges spec)) (st_counts st)) as Hflags.
  destruct (match_flags _ _) as [cnts' flags']. cbn [snd] in Hflags.
  destruct (counter_remove_zeros cnts'); [|discriminate].
  apply bind_Ret_inv in H as (values' & Hfill & H). injection H as <- <-.
  set (P := fun (i : nat) (v : Z) =>
              v = 0 \/ exists table name,
                         spec_modifiers spec !! i = Some table /\ In (v, name) table).
  assert (Hrows : forall g i v, In (g, i, v) (all_modifiers spec) -> P i v).
  { intros g i v Hin. right. now apply (all_modifiers_row spec g). }
  destruct (greedy_loop_sound spec _ _ st P Hrows Hloop) as [Hvals Hkeys].
  { cbn [st_modi_values]. intros i v Hi. apply lookup_replicate in Hi as [-> _]. now left. }
  split; [exact (fill_defaults_sound spec _ _ P Hrows Hfill Hvals)|].
  intros f Hf. destruct (Hflags f Hf) as [Hin Hkey]. split; [assumption|].
  apply Counter_of_keys, (subtract_opcode_modis_keys _ _ _ f Hsub).
  now apply Hkeys.
Qed.

Lemma get_modifier_values_sound_witness :
  (forall i v, fst solved_values !! i = Some v ->
     v = 0 \/ exists table name,
                spec_modifiers solved_spec !! i = Some table /\ In (v, name) table)
  /\ forall f, f ∈ snd solved_values ->
       In (Some f) (get_flags (spec_ranges solved_spec)) /\ In f solved_request.
Proof.
  apply (get_modifier_values_sound solved_spec solved_request
           (fst solved_values) (snd solved_values)).
  vm_compute. reflexivity.
Defined.

(** ** The ranges that the pipeline returns *)

Lemma predicate_fix_range_shape (parse : string -> exc Instruction) (d : Disassembler)
    (m : InstructionMutationSet) (rng rng' : EncodingRange) :
  predicate_fix_range parse d m rng = Ret rng' ->
  rng' = rng \/ (rng' = ER.set_inverse true rng /\ ER.type rng = OPERAND).
Proof.
  unfold predicate_fix_range. case_bool_decide as Hty; [|intros [= <-]; now left].
  destruct (ER.operand_index rng) as [oi|]; [|discriminate].
  intros H. apply bind_Ret_inv in H as (oper & _ & H).
  destruct (negb (is_pred oper)); [injection H as <-; now left|].
  apply bind_Ret_inv in H as (code & _ & H).
  apply bind_Ret_inv in H as (parsed & _ & H).
  apply bind_Ret_inv in H as (oper' & _ & H).
  destruct (_ =? 6); injection H as <-; auto.
Qed.

Lemma predicate_fix_chain (parse : string -> exc Instruction) (d : Disassembler)
    (m : InstructionMutationSet) (rs rs' : list EncodingRange) (lo hi : nat) :
  mapM (predicate_fix_range parse d m) rs = Ret rs' ->
  chain lo rs hi -> chain lo rs' hi.
Proof.
  revert rs' lo. induction rs as [|r rs IH]; intros rs' lo; cbn [mapM].
  - now intros [= <-].
  - intros H. apply bind_Ret_inv in H as (r' & Hr & H).
    apply bind_Ret_inv in H as (rs1 & Hrs & H). injection H as <-.
    cbn [chain]. intros (Hs & Hl & Hc).
    apply predicate_fix_range_shape in Hr as [->|[-> _]]; cbn; eauto.
Qed.

(** The ranges that [instruction_analysis_pipeline] hands to the
    [InstructionSpec] still partition the bit positions [0, 128): the
    predicate fix changes no start and no length. *)
Theorem instruction_analysis_pipeline_partition
    (parse : string -> exc Instruction) (log2_whole : Z -> option Z) (fuel : nat)
    (inst : word) (d : Disassembler) (rs : EncodingRanges) (m : InstructionMutationSet) :
  instruction_analysis_pipeline parse log2_whole fuel inst d = Ret (rs, m) ->
  (exists r, hd_error (ranges rs) = Some r /\ ER.start r = 0%nat)
  /\ (forall k r r', ranges rs !! k = Some r -> ranges rs !! S k = Some r' ->
        ER.start r' = (ER.start r + ER.length r)%nat)
  /\ (forall r, In r (ranges rs) -> (1 <= ER.length r)%nat
                                    /\ (ER.start r + ER.length r <= 128)%nat)
  /\ list_sum (map ER.length (ranges rs)) = 128%nat.
Proof.
  unfold instruction_analysis_pipeline. intros H.
  apply bind_Ret_inv in H as (m0 & _ & H). apply bind_Ret_inv in H as (m1 & _ & H).
  apply bind_Ret_inv in H as (r2 & _ & H). apply bind_Ret_inv in H as (m3 & _ & H).
  apply bind_Ret_inv in H as (m4 & _ & H). apply bind_Ret_inv in H as (m5 & _ & H).
  apply bind_Ret_inv in H as ([rs6 m6] & Hranges & H).
  apply bind_Ret_inv in H as (rs7 & Hfix & H). injection H as <- <-.
  apply compute_encoding_ranges_chain in Hranges.
  unfold analysis_predicate_fix in Hfix. cbn [fst snd] in Hfix.
  apply bind_Ret_inv in Hfix as (rs' & Hmap & Hfix). injection Hfix as <-.
  cbn [ranges]. pose proof (predicate_fix_chain _ _ _ _ _ _ _ Hmap Hranges) as Hchain.
  split; [apply (chain_head 128 _ Hchain); lia|].
  split; [intros k r r' Hk Hk'; now apply (chain_adjacent 0 128 _ k r r' Hchain)|].
  split.
  - intros r Hr. split; [|now apply (chain_bounds 0 128 _ Hchain)].
    apply in_split in Hr as (l1 & l2 & ->).
    apply chain_app in Hchain as (mid & _ & Hc). cbn [chain] in Hc. tauto.
  - apply chain_sum in Hchain. lia.
Qed.

Lemma instruction_analysis_pipeline_partition_witness :
  (exists r, hd_error (ranges gap_ranges) = Some r /\ ER.start r = 0%nat)
  /\ (forall k r r', ranges gap_ranges !! k = Some r -> ranges gap_ranges !! S k = Some r' ->
        ER.start r' = (ER.start r + ER.length r)%nat)
  /\ (forall r, In r (ranges gap_ranges) -> (1 <= ER.length r)%nat
                                            /\ (ER.start r + ER.length r <= 128)%nat)
  /\ list_sum (map ER.length (ranges gap_ranges)) = 128%nat.
Proof.
  apply (instruction_analysis_pipeline_partition gap_parse log2_exact 8 zero_word
           (mock_disassembler gap_disasm) gap_ranges gap_mset).
  vm_compute. reflexivity.
Defined.

(** ** The canonical numbering of the modifier groups *)

Lemma renum_step_inv (filled : gmap Z nat) (seen : list Z) (st st' : renum_state)
    (bit : Z) :
  renumbered filled seen st -> ~ In bit seen -> renum_step st bit = Ret st' ->
  renumbered filled (seen ++ [bit]) st'.
Proof.
  intros (Hseen & Hrest & Hnum & Hinj & Hsur & Hord) Hnew Hstep.
  unfold renum_step in Hstep. apply bind_Ret_inv in Hstep as (gid & Hgid & Hstep).
  unfold dict_get in Hgid. rewrite (Hrest bit Hnew) in Hgid.
  destruct (filled !! bit) as [gid0|] eqn:Hfilled; [|discriminate].
  injection Hgid as ->.
  assert (Hother : forall b, In b seen -> b <> bit) by (intros b Hb ->; contradiction).
  assert (Hord' : forall groups' : gmap Z nat,
             (forall b, In b seen -> groups' !! b = renum_groups st !! b) ->
             forall j b, seen !! j = Some b ->
               exists n, groups' !! b = Some n /\ (1 <= n)%nat
                 /\ (n = 1%nat
                     \/ exists i b' m, (i < j)%nat /\ (seen ++ [bit]) !! i = Some b'
                                       /\ groups' !! b' = Some m /\ (m = n \/ S m = n))).
  { intros groups' Hsame j b Hj. destruct (Hord j b Hj) as (n & Hn & Hn1 & Hn2).
    exists n. rewrite (Hsame b) by (apply list_elem_of_In; eapply list_elem_of_lookup_2; eauto).
    split; [assumption|]. split; [assumption|].
    destruct Hn2 as [->|(i & b' & m & Hi & Hb' & Hm & Hmn)]; [now left|]. right.
    exists i, b', m. split; [assumption|]. split; [now apply lookup_app_l_Some|].
    rewrite (Hsame b') by (apply list_elem_of_In; eapply list_elem_of_lookup_2; eauto).
    auto. }
  destruct (num_map st !! gid) as [n|] eqn:Hmap; injection Hstep as <-;
    unfold renumbered; cbn [renum_groups num_map max_num].
  - (* the group id has a number already *)
    assert (Hsame : forall b, In b seen ->
              (<[bit := n]> (renum_groups st)) !! b = renum_groups st !! b).
    { intros b Hb. apply lookup_insert_ne. intros <-. contradiction. }
    split; [|split; [|split; [|split; [|split]]]].
    + intros b Hb. apply in_app_iff in Hb as [Hb|[<-|[]]].
      * destruct (Hseen b Hb) as (g & k & ? & ? & ?). exists g, k.
        rewrite Hsame by assumption. auto.
      * exists gid, n. rewrite lookup_insert_eq. auto.
    + intros b Hb. rewrite lookup_insert_ne; [apply Hrest|];
        intros ?; apply Hb, in_app_iff; [now left | right; now left].
    + intros g k Hg. destruct (Hnum g k Hg) as (Hk & b & Hb & Hfb).
      split; [assumption|]. exists b. split; [apply in_app_iff; now left | assumption].
    + assumption.
    + assumption.
    + intros j b Hj. apply lookup_snoc_Some in Hj as [[_ Hj]|[-> <-]];
        [now apply Hord'|].
      exists n. rewrite lookup_insert_eq. split; [reflexivity|].
      destruct (Hnum gid n Hmap) as (Hn & b' & Hb' & Hfb'). split; [lia|]. right.
      destruct (Hseen b' Hb') as (g & k & Hg & Hk & Hrb'). rewrite Hfb' in Hg.
      injection Hg as <-. rewrite Hmap in Hk. injection Hk as <-.
      apply list_elem_of_In, list_elem_of_lookup_1 in Hb' as [i Hi].
      exists i, b', n. split; [now apply lookup_lt_Some in Hi|].
      split; [now apply lookup_app_l_Some|]. rewrite Hsame; [auto|].
      apply list_elem_of_In. eapply list_elem_of_lookup_2; eauto.
  - (* a new group id takes the next number *)
    assert (Hsame : forall b, In b seen ->
              (<[bit := S (max_num st)]> (renum_groups st)) !! b = renum_groups st !! b).
    { intros b Hb. apply lookup_insert_ne. intros <-. contradiction. }
    split; [|split; [|split; [|split; [|split]]]].
    + intros b Hb. apply in_app_iff in Hb as [Hb|[<-|[]]].
      * destruct (Hseen b Hb) as (g & k & Hg & Hk & Hrb). exists g, k.
        rewrite Hsame by assumption. split; [assumption|]. split; [|assumption].
        rewrite lookup_insert_ne; [assumption|]. intros <-. congruence.
      * exists gid, (S (max_num st)). rewrite !lookup_insert_eq. auto.
    + intros b Hb. rewrite lookup_insert_ne; [apply Hrest|];
        intros ?; apply Hb, in_app_iff; [now left | right; now left].
    + intros g k Hg. destruct (decide (gid = g)) as [<-|Hne].
      * rewrite lookup_insert_eq in Hg. injection Hg as <-. split; [lia|].
        exists bit. split; [apply in_app_iff; right; now left | assumption].
      * rewrite lookup_insert_ne in Hg by assumption.
        destruct (Hnum g k Hg) as (Hk & b & Hb & Hfb). split; [lia|].
        exists b. split; [apply in_app_iff; now left | assumption].
    + intros g1 g2 k H1 H2.
      destruct (decide (gid = g1)) as [<-|Hne1]; destruct (decide (gid = g2)) as [<-|Hne2];
        [reflexivity | | |].
      * rewrite lookup_insert_eq in H1. rewrite lookup_insert_ne in H2 by assumption.
        injection H1 as <-. apply Hnum in H2 as [? _]. lia.
      * rewrite lookup_insert_eq in H2. rewrite lookup_insert_ne in H1 by assumption.
        injection H2 as <-. apply Hnum in H1 as [? _]. lia.
      * rewrite lookup_insert_ne in H1, H2 by assumption. eauto.
    + intros k Hk. destruct (decide (k = S (max_num st))) as [->|Hne].
      * exists gid. apply lookup_insert_eq.
      * destruct (Hsur k) as [g Hg]; [lia|]. exists g.
        rewrite lookup_insert_ne; [assumption|]. intros <-. congruence.
    + intros j b Hj. apply lookup_snoc_Some in Hj as [[_ Hj]|[-> <-]];
        [now apply Hord'|].
      exists (S (max_num st)). rewrite lookup_insert_eq. split; [reflexivity|].
      split; [lia|]. destruct (max_num st) as [|k] eqn:Hmax; [now left|]. right.
      destruct (Hsur (S k)) as [g Hg]; [lia|].
      destruct (Hnum g (S k) Hg) as (_ & b' & Hb' & Hfb').
      destruct (Hseen b' Hb') as (g' & k' & Hg' & Hk' & Hrb'). rewrite Hfb' in Hg'.
      injection Hg' as <-. rewrite Hg in Hk'. injection Hk' as <-.
      apply list_elem_of_In, list_elem_of_lookup_1 in Hb' as [i Hi].
      exists i, b', (S k). split; [now apply lookup_lt_Some in Hi|].
      split; [now apply lookup_app_l_Some|]. rewrite Hsame; [auto|].
      apply list_elem_of_In. eapply list_elem_of_lookup_2; eauto.
Qed.

Lemma renum_loop_inv (filled : gmap Z nat) (bits seen : list Z) (st st' : renum_state) :
  renumbered filled seen st -> List.NoDup (seen ++ bits) ->
  foldM renum_step bits st = Ret st' -> renumbered filled (seen ++ bits) st'.
Proof.
  revert seen st. induction bits as [|bit bits IH]; intros seen st Hinv Hnd; cbn [foldM].
  - intros [= <-]. now rewrite app_nil_r.
  - intros H. apply bind_Ret_inv in H as (st1 & Hstep & Hrest).
    replace (seen ++ bit :: bits) with ((seen ++ [bit]) ++ bits) in *
      by (rewrite <- app_assoc; reflexivity).
    apply (IH (seen ++ [bit]) st1); [|assumption|assumption].
    apply (renum_step_inv filled seen st st1 bit); [assumption| |assumption].
    rewrite <- app_assoc in Hnd. cbn [app] in Hnd.
    apply NoDup_remove_2 in Hnd. rewrite in_app_iff in Hnd. tauto.
Qed.

Lemma renumbered_init (filled : gmap Z nat) :
  renumbered filled [] (mkRenum filled ∅ 0%nat).
Proof.
  unfold renumbered, numbered_in_order. cbn [renum_groups num_map max_num].
  split; [intros b []|]. split; [reflexivity|].
  split; [intros g n Hg; now rewrite lookup_empty in Hg|].
  split; [intros g1 g2 n Hg; now rewrite lookup_empty in Hg|].
  split; [intros n Hn; lia|]. intros j b Hj. discriminate.
Qed.

(** What the two passes leave: the state of the renumbering loop at its
    end, on the groups of the fill pass. *)
Lemma canonical_groups_renumbered (bits : gset Z) (groups groups' : gmap Z nat) :
  canonical_groups bits groups = Ret groups' ->
  exists st',
    renum_groups st' = groups'
    /\ renumbered (fill_groups (fold_left fill_step (sorted_bits bits)
                                  (mkFill groups false 0%nat None)))
                  (sorted_bits bits) st'.
Proof.
  unfold canonical_groups. intros H.
  apply bind_Ret_inv in H as (st' & Hloop & H). injection H as <-.
  exists st'. split; [reflexivity|].
  apply (renum_loop_inv _ (sorted_bits bits) [] _ st' (renumbered_init _));
    [|exact Hloop].
  cbn [app]. apply sorted_bits_sorted.
Qed.

(** In a sorted list without repetition the positions order the values. *)
Lemma sorted_lookup_lt (l : list Z) (i j : nat) (a b : Z) :
  StronglySorted Z.le l -> List.NoDup l -> (i < j)%nat ->
  l !! i = Some a -> l !! j = Some b -> a < b.
Proof.
  revert i j. induction l as [|x l IH]; intros i j Hs Hnd Hij Hi Hj; [discriminate|].
  apply StronglySorted_inv in Hs as [Hs Hall]. rewrite List.Forall_forall in Hall.
  inversion Hnd as [|? ? Hnotin Hnd']; subst.
  destruct j as [|j]; [lia|]. cbn in Hj. destruct i as [|i].
  - cbn in Hi. injection Hi as ->.
    assert (Hin : In b l) by (apply list_elem_of_In; eapply list_elem_of_lookup_2; eauto).
    specialize (Hall b Hin). assert (a <> b) by (intros ->; contradiction). lia.
  - cbn in Hi. apply (IH i j); auto. lia.
Qed.

Lemma fill_loop_id (bits : list Z) (st : fill_state) :
  (forall b, In b bits -> is_Some (fill_groups st !! b)) ->
  fill_groups (fold_left fill_step bits st) = fill_groups st.
Proof.
  revert st. induction bits as [|bit bits IH]; intros st Hall; cbn [fold_left];
    [reflexivity|].
  assert (Hstep : fill_groups (fill_step st bit) = fill_groups st).
  { unfold fill_step. rewrite bool_decide_eq_true_2 by (apply Hall; now left).
    reflexivity. }
  rewrite IH; [assumption|]. intros b Hb. rewrite Hstep. apply Hall. now right.
Qed.

Lemma renum_loop_fixed (groups : gmap Z nat) (bits seen : list Z) (st : renum_state) :
  renumbered_fixed groups seen st -> numbered_in_order groups (seen ++ bits) ->
  exists st', foldM renum_step bits st = Ret st' /\ renum_groups st' = groups.
Proof.
  revert seen st. induction bits as [|bit bits IH];
    intros seen st (Hg & Hid & Hsur & Hseen) Hord; cbn [foldM].
  - eauto.
  - destruct (Hord (List.length seen) bit) as (n & Hn & Hn1 & Hprev).
    { rewrite lookup_app_r by lia. now rewrite Nat.sub_diag. }
    assert (Hstep : exists st1, renum_step st bit = Ret st1
                                /\ renumbered_fixed groups (seen ++ [bit]) st1).
    { unfold renum_step. rewrite Hg, Hn. cbn [dict_get bind].
      destruct (num_map st !! n) as [k|] eqn:Hk.
      - destruct (Hid n k Hk) as [<- Hbound]. eexists. split; [reflexivity|].
        unfold renumbered_fixed. cbn [renum_groups num_map max_num].
        split; [now apply insert_id|]. split; [assumption|].
        split; [assumption|]. intros b Hb. apply in_app_iff in Hb as [Hb|[<-|[]]]; [auto|].
        exists n. split; [assumption | lia].
      - assert (Hmax : n = S (max_num st)).
        { assert (~ (n <= max_num st)%nat).
          { intros Hle. rewrite Hsur in Hk by lia. discriminate. }
          destruct Hprev as [->|(i & b' & m & Hi & Hb' & Hm & Hmn)]; [lia|].
          rewrite lookup_app_l in Hb' by assumption.
          destruct (Hseen b') as (m' & Hm' & Hle).
          { apply list_elem_of_In. eapply list_elem_of_lookup_2; eauto. }
          rewrite Hm in Hm'. injection Hm' as <-. lia. }
        eexists. split; [reflexivity|].
        unfold renumbered_fixed. cbn [renum_groups num_map max_num]. rewrite <- Hmax.
        split; [now apply insert_id|].
        split; [|split].
        + intros g k Hgk. destruct (decide (n = g)) as [<-|Hne].
          * rewrite lookup_insert_eq in Hgk. injection Hgk as <-. split; [reflexivity | lia].
          * rewrite lookup_insert_ne in Hgk by assumption.
            destruct (Hid g k Hgk). split; [assumption | lia].
        + intros k Hk'. destruct (decide (n = k)) as [<-|Hne].
          * apply lookup_insert_eq.
          * rewrite lookup_insert_ne by assumption. apply Hsur. lia.
        + intros b Hb. apply in_app_iff in Hb as [Hb|[<-|[]]].
          * destruct (Hseen b Hb) as (k & ? & ?). exists k. split; [assumption | lia].
          * exists n. split; [assumption | lia]. }
    destruct Hstep as (st1 & -> & Hinv1). cbn [bind].
    apply (IH (seen ++ [bit]) st1 Hinv1). now rewrite <- app_assoc.
Qed.

(** Canonical groups are a fixed point of the canonical numbering. *)
Lemma canonical_groups_idem (bits : gset Z) (groups groups' : gmap Z nat) :
  canonical_groups bits groups = Ret groups' ->
  canonical_groups bits groups' = Ret groups'.
Proof.
  intros H. destruct (canonical_groups_renumbered bits groups groups' H)
    as (st' & Hst' & Hinv).
  destruct Hinv as (Hseen & _ & _ & _ & _ & Hord). rewrite Hst' in Hord.
  unfold canonical_groups. rewrite fill_loop_id.
  - cbn [fill_groups].
    destruct (renum_loop_fixed groups' (sorted_bits bits) [] (mkRenum groups' ∅ 0%nat))
      as (st2 & -> & Hst2).
    + unfold renumbered_fixed. cbn [renum_groups num_map max_num].
      split; [reflexivity|]. split; [intros g n Hg; now rewrite lookup_empty in Hg|].
      split; [intros n Hn; lia | intros b []].
    + exact Hord.
    + cbn [bind]. now rewrite Hst2.
  - cbn [fill_groups]. intros b Hb. destruct (Hseen b Hb) as (g & n & _ & _ & Hn).
    rewrite Hst' in Hn. eauto.
Qed.

Lemma max_group_id_ge (groups : gmap Z nat) (k : Z) (v : nat) :
  groups !! k = Some v -> (v <= max_group_id groups)%nat.
Proof.
  unfold max_group_id. revert k v.
  apply (map_fold_weak_ind
           (fun r (m : gmap Z nat) => forall k v, m !! k = Some v -> (v <= r)%nat)).
  - intros k v H. now rewrite lookup_empty in H.
  - intros i x m r Hi IH k v Hk. destruct (decide (i = k)) as [->|Hne].
    + rewrite lookup_insert_eq in Hk. injection Hk as ->. lia.
    + rewrite lookup_insert_ne in Hk by assumption. specialize (IH k v Hk). lia.
Qed.

Lemma fill_step_above (orig : gmap Z nat) (st : fill_state) (bit : Z) :
  fill_above orig st -> fill_above orig (fill_step st bit).
Proof.
  intros (Hkeep & Hnew & Hmode). unfold fill_step.
  case_bool_decide as Hin; [split; [|split]; assumption|].
  set (mode := if fill_mode st
               then match fill_prev st with
                    | Some prev => if prev =? bit - 1 then true else false
                    | None => true
                    end
               else false).
  set (fid := if mode then fill_id st else S (max_group_id (fill_groups st))).
  assert (Hfid : forall k' v', orig !! k' = Some v' -> (v' < fid)%nat).
  { intros k' v' Hk'. unfold fid. destruct mode eqn:Hm.
    - apply (Hmode ltac:(unfold mode in Hm; destruct (fill_mode st); congruence) k' v' Hk').
    - pose proof (max_group_id_ge _ _ _ (Hkeep k' v' Hk')). lia. }
  unfold fill_above. cbn [fill_groups fill_mode fill_id].
  split; [|split].
  - intros k v Hk. rewrite lookup_insert_ne; [auto|].
    intros <-. apply Hin. rewrite (Hkeep _ _ Hk). eauto.
  - intros k v Hk Hv. destruct (decide (bit = k)) as [<-|Hne].
    + rewrite lookup_insert_eq in Hv. injection Hv as <-. exact Hfid.
    + rewrite lookup_insert_ne in Hv by assumption. eauto.
  - intros _. exact Hfid.
Qed.

Lemma fill_loop_above (orig : gmap Z nat) (bits : list Z) (st : fill_state) :
  fill_above orig st -> fill_above orig (fold_left fill_step bits st).
Proof.
  revert st. induction bits as [|bit bits IH]; intros st H; cbn [fold_left];
    [assumption|].
  apply IH. now apply fill_step_above.
Qed.

(** The groups of the fill pass tell an assigned bit from the bits that
    were not in its group. *)
Lemma fill_loop_partition (groups : gmap Z nat) (bits : list Z) (a b : Z) :
  is_Some (groups !! a) -> In b bits ->
  let filled := fill_groups (fold_left fill_step bits (mkFill groups false 0%nat None)) in
  filled !! a = filled !! b <-> groups !! a = groups !! b.
Proof.
  intros [v Ha] Hb filled.
  assert (Hinv : fill_above groups (fold_left fill_step bits (mkFill groups false 0%nat None))).
  { apply fill_loop_above. unfold fill_above. cbn [fill_groups fill_mode fill_id].
    split; [auto|]. split; [intros k w Hk Hw; congruence | discriminate]. }
  destruct Hinv as (Hkeep & Hnew & _). fold filled in Hkeep, Hnew.
  rewrite (Hkeep a v Ha), Ha.
  destruct (groups !! b) as [w|] eqn:Hgb.
  - rewrite (Hkeep b w Hgb). reflexivity.
  - destruct (proj2 (fill_loop_groups bits (mkFill groups false 0%nat None)) b Hb)
      as [w Hw].
    fold filled in Hw. rewrite Hw. pose proof (Hnew b w Hgb Hw a v Ha).
    split; [intros [= ->]; lia | discriminate].
Qed.

(** The renumbering keeps the partition of the fill pass. *)
Lemma canonical_groups_partition (bits : gset Z) (groups groups' : gmap Z nat) (a b : Z) :
  canonical_groups bits groups = Ret groups' -> a ∈ bits -> b ∈ bits ->
  let filled := fill_groups (fold_left fill_step (sorted_bits bits)
                               (mkFill groups false 0%nat None)) in
  groups' !! a = groups' !! b <-> filled !! a = filled !! b.
Proof.
  intros H Ha Hb filled.
  destruct (canonical_groups_renumbered bits groups groups' H) as (st' & <- & Hinv).
  fold filled in Hinv. destruct Hinv as (Hseen & _ & _ & Hinj & _ & _).
  apply In_sorted_bits in Ha, Hb.
  destruct (Hseen a Ha) as (ga & na & Hfa & Hna & ->).
  destruct (Hseen b Hb) as (gb & nb & Hfb & Hnb & ->).
  rewrite Hfa, Hfb. split.
  - intros [= <-]. f_equal. eauto.
  - intros [= <-]. congruence.
Qed.

Lemma set_modifier_groups_twice (g : gmap Z nat) (m : InstructionMutationSet) :
  MS.set_modifier_groups g (MS.set_modifier_groups g m) = MS.set_modifier_groups g m.
Proof. reflexivity. Qed.

(** Canonicalising the modifier groups neither merges nor splits the groups
    that were assigned before: a modifier bit that had a group shares its
    group afterwards with exactly the modifier bits that shared it before
    (in particular with no bit that had no group). *)
Theorem canonicalize_modifier_groups_keeps_groups
    (m m' : InstructionMutationSet) (a b : Z) :
  canonicalize_modifier_groups m = Ret m' ->
  a ∈ MS.modifier_bits m -> b ∈ MS.modifier_bits m ->
  is_Some (MS.modifier_groups m !! a) ->
  (MS.modifier_groups m' !! a = MS.modifier_groups m' !! b
   <-> MS.modifier_groups m !! a = MS.modifier_groups m !! b).
Proof.
  unfold canonicalize_modifier_groups. intros H Ha Hb Hga.
  apply bind_Ret_inv in H as (groups' & Hcanon & H). injection H as <-.
  cbn [MS.modifier_groups MS.set_modifier_groups].
  rewrite (canonical_groups_partition _ _ _ a b Hcanon Ha Hb).
  apply fill_loop_partition; [assumption|]. now apply In_sorted_bits.
Qed.

Lemma canonicalize_modifier_groups_keeps_groups_witness :
  (MS.modifier_groups grouped_mset' !! 20 = MS.modifier_groups grouped_mset' !! 22
   <-> MS.modifier_groups grouped_mset !! 20 = MS.modifier_groups grouped_mset !! 22)
  /\ (MS.modifier_groups grouped_mset' !! 63 = MS.modifier_groups grouped_mset' !! 64
      <-> MS.modifier_groups grouped_mset !! 63 = MS.modifier_groups grouped_mset !! 64).
Proof.
  split.
  - apply (canonicalize_modifier_groups_keeps_groups grouped_mset grouped_mset' 20 22);
      [vm_compute; reflexivity | vm_compute; reflexivity | vm_compute; reflexivity
      | vm_compute; eauto].
  - apply (canonicalize_modifier_groups_keeps_groups grouped_mset grouped_mset' 63 64);
      [vm_compute; reflexivity | vm_compute; reflexivity | vm_compute; reflexivity
      | vm_compute; eauto].
Defined.

(** Canonical group ids are numbered in the order of the bits: after
    canonicalisation every modifier bit has a group id of at least 1, and
    that id is 1, or the id of a lower modifier bit, or one more than the id
    of a lower modifier bit. *)
Theorem canonicalize_modifier_groups_in_order
    (m m' : InstructionMutationSet) (b : Z) :
  canonicalize_modifier_groups m = Ret m' -> b ∈ MS.modifier_bits m ->
  exists n, MS.modifier_groups m' !! b = Some n /\ (1 <= n)%nat
    /\ (n = 1%nat
        \/ exists b' k, b' ∈ MS.modifier_bits m /\ b' < b
                        /\ MS.modifier_groups m' !! b' = Some k /\ (k = n \/ S k = n)).
Proof.
  unfold canonicalize_modifier_groups. intros H Hb.
  apply bind_Ret_inv in H as (groups' & Hcanon & H). injection H as <-.
  cbn [MS.modifier_groups MS.set_modifier_groups].
  destruct (canonical_groups_renumbered _ _ _ Hcanon) as (st' & <- & Hinv).
  destruct Hinv as (_ & _ & _ & _ & _ & Hord).
  destruct (sorted_bits_sorted (MS.modifier_bits m)) as [Hsorted Hnd].
  apply In_sorted_bits, list_elem_of_In, list_elem_of_lookup_1 in Hb as [j Hj].
  destruct (Hord j b Hj) as (n & Hn & Hn1 & Hprev).
  exists n. split; [assumption|]. split; [assumption|].
  destruct Hprev as [->|(i & b' & k & Hi & Hb' & Hk & Hkn)]; [now left|]. right.
  exists b', k. split.
  - apply In_sorted_bits, list_elem_of_In. eapply list_elem_of_lookup_2; eauto.
  - split; [apply (sorted_lookup_lt _ i j b' b Hsorted Hnd Hi Hb' Hj) | auto].
Qed.

Lemma canonicalize_modifier_groups_in_order_witness :
  exists n, MS.modifier_groups grouped_mset' !! 63 = Some n /\ (1 <= n)%nat
    /\ (n = 1%nat
        \/ exists b' k, b' ∈ MS.modifier_bits grouped_mset /\ b' < 63
                        /\ MS.modifier_groups grouped_mset' !! b' = Some k
                        /\ (k = n \/ S k = n)).
Proof.
  apply (canonicalize_modifier_groups_in_order grouped_mset grouped_mset' 63);
    vm_compute; reflexivity.
Defined.

(** Canonicalising twice changes nothing: a canonicalised mutation set is
    returned as it is. *)
Theorem canonicalize_modifier_groups_idempotent (m m' : InstructionMutationSet) :
  canonicalize_modifier_groups m = Ret m' -> canonicalize_modifier_groups m' = Ret m'.
Proof.
  unfold canonicalize_modifier_groups. intros H.
  apply bind_Ret_inv in H as (groups' & Hcanon & H). injection H as <-.
  cbn [MS.modifier_groups MS.modifier_bits MS.set_modifier_groups].
  rewrite (canonical_groups_idem _ _ _ Hcanon). reflexivity.
Qed.

Lemma canonicalize_modifier_groups_idempotent_witness :
  canonicalize_modifier_groups grouped_mset' = Ret grouped_mset'.
Proof.
  apply (canonicalize_modifier_groups_idempotent grouped_mset grouped_mset').
  vm_compute. reflexivity.
Defined.

(** The ranges are stable: running [compute_encoding_ranges] again on the
    mutation set it returned gives the same ranges and the same set. *)
Theorem compute_encoding_ranges_idempotent
    (m m' : InstructionMutationSet) (rs : EncodingRanges) :
  compute_encoding_ranges m = Ret (rs, m') -> compute_encoding_ranges m' = Ret (rs, m').
Proof.
  unfold compute_encoding_ranges, canonicalize_modifier_groups. intros H.
  apply bind_Ret_inv in H as (m1 & Hm1 & H).
  apply bind_Ret_inv in Hm1 as (groups' & Hcanon & Hm1). injection Hm1 as <-.
  apply bind_Ret_inv in H as (st & Hloop & H). injection H as <- <-.
  cbn [MS.modifier_groups MS.modifier_bits MS.set_modifier_groups].
  rewrite (canonical_groups_idem _ _ _ Hcanon). cbn [bind].
  rewrite set_modifier_groups_twice, Hloop. reflexivity.
Qed.

Lemma compute_encoding_ranges_idempotent_witness :
  compute_encoding_ranges grouped_mset' = Ret (grouped_ranges, grouped_mset').
Proof.
  apply (compute_encoding_ranges_idempotent grouped_mset grouped_mset' grouped_ranges).
  vm_compute. reflexivity.
Defined.

(** ** The fixed points of the passes *)

(** A pass that lowers a measure with every change reaches its fixed point
    within as many calls as the measure allows, plus one. *)
Lemma fixedpoint_ends_measure
    (fn : Disassembler -> InstructionMutationSet -> exc (bool * InstructionMutationSet))
    (d : Disassembler) (mu : InstructionMutationSet -> nat) :
  (forall m m', fn d m = Ret (true, m') -> (mu m' < mu m)%nat) ->
  forall k m, (mu m < k)%nat ->
    exists n r, (n <= k)%nat /\ fixedpoint_ends fn d n m r
      /\ forall fuel, (n <= fuel)%nat -> analysis_run_fixedpoint fuel d m fn = r.
Proof.
  intros Hdec. induction k as [|k IH]; intros m Hk; [lia|].
  destruct (fn d m) as [[changed m']|e] eqn:Hrun.
  - destruct changed.
    + destruct (IH m') as (n & r & Hn & Hends & Hfuel).
      { specialize (Hdec m m' Hrun). lia. }
      exists (S n), r. split; [lia|]. split; [now apply (ends_changed fn d n m m')|].
      intros [|fuel] Hle; [lia|]. cbn [analysis_run_fixedpoint]. rewrite Hrun.
      cbn [bind fst snd]. apply Hfuel. lia.
    + exists 1%nat, (Ret m'). split; [lia|]. split; [now apply ends_unchanged|].
      intros [|fuel] Hle; [lia|]. cbn [analysis_run_fixedpoint]. now rewrite Hrun.
  - exists 1%nat, (Raise e). split; [lia|]. split; [now apply ends_raised|].
    intros [|fuel] Hle; [lia|]. cbn [analysis_run_fixedpoint]. now rewrite Hrun.
Qed.

Lemma set_bit_inv (w w' : word) (i : Z) :
  set_bit w i = Ret w' ->
  List.length w' = List.length w /\ i < 8 * Z.of_nat (List.length w).
Proof.
  unfold set_bit, getitem, setitem. intros H.
  destruct (py_index (List.length w) (i / 8)) as [k|] eqn:Hk; [|discriminate].
  apply bind_Ret_inv in H as (b & _ & H). injection H as <-.
  split; [apply length_insert|].
  assert (i / 8 < Z.of_nat (List.length w)).
  { unfold py_index in Hk.
    destruct (Z.leb_spec 0 (i / 8)); destruct (Z.ltb_spec (i / 8) (Z.of_nat (List.length w)));
      cbn [andb] in Hk; try lia.
    destruct (Z.leb_spec (- Z.of_nat (List.length w)) (i / 8));
      destruct (Z.ltb_spec (i / 8) 0); cbn [andb] in Hk; try discriminate; lia. }
  pose proof (Z.div_mod i 8 ltac:(lia)). pose proof (Z.mod_pos_bound i 8 ltac:(lia)). lia.
Qed.

Lemma odict_del_absent {A} (d : list (Z * A)) (k : Z) :
  odict_get d k = None -> odict_del k d = d.
Proof.
  unfold odict_del. induction d as [|[k' v] d IH]; [reflexivity|].
  cbn [odict_get List.filter fst]. destruct (k' =? k); [discriminate|].
  intros H. cbn [negb]. f_equal. now apply IH.
Qed.

Lemma extend_adj_inv (parse : string -> exc Instruction) (d : Disassembler)
    (m : InstructionMutationSet) (st st' : InstructionMutationSet * bool)
    (modi_bit adj : Z) :
  -1 <= adj -> extended_from m st -> extend_adj parse d st modi_bit adj = Ret st' ->
  extended_from m st'.
Proof.
  intros Hadj Hinv. unfold extend_adj. destruct st as [ms changed].
  destruct (odict_mem adj (MS.instruction_modifier_bit_flag ms)) eqn:Hflag;
    [now intros [= <-]|].
  intros H. apply bind_Ret_inv in H as (array & Harray & H).
  destruct (String.eqb _ _); [now injection H as <-|].
  apply bind_Ret_inv in H as (original_parsed & _ & H).
  apply bind_Ret_inv in H as (array2 & Harray2 & H).
  destruct (String.eqb _ _); [now injection H as <-|].
  destruct (parse _) as [modi_parsed|]; [|now injection H as <-].
  destruct (negb (String.eqb _ _)); [now injection H as <-|].
  destruct (negb (tokens_eqb _ _)); [|now injection H as <-].
  injection H as <-. destruct Hinv as (Hsub & Hinst & Hflags & Hchanged).
  cbn [fst snd] in *. unfold extended_from.
  cbn [fst snd MS.modifier_bits MS.inst MS.instruction_modifier_bit_flag
       MS.set_modifier_bits MS.set_instruction_modifier_bit_flag].
  split; [set_solver|]. split; [assumption|]. split.
  - rewrite <- Hflags. apply odict_del_absent. unfold odict_mem in Hflag.
    now destruct (odict_get _ adj).
  - intros Hnew. apply negb_true_iff, bool_decide_eq_false in Hnew.
    exists adj. apply set_bit_inv in Harray as [Hlen _].
    apply set_bit_inv in Harray2 as [_ Hlt]. rewrite Hlen, Hinst in Hlt.
    split; [lia|]. split; [set_solver|]. intros Hin. apply Hnew. now apply Hsub.
Qed.

Lemma compute_encoding_ranges_fields (m m' : InstructionMutationSet) (rs : EncodingRanges) :
  compute_encoding_ranges m = Ret (rs, m') ->
  MS.modifier_bits m' = MS.modifier_bits m
  /\ MS.instruction_modifier_bit_flag m' = MS.instruction_modifier_bit_flag m
  /\ MS.inst m' = MS.inst m.
Proof.
  unfold compute_encoding_ranges. intros H.
  apply bind_Ret_inv in H as (m1 & Hm1 & H).
  apply bind_Ret_inv in H as (st & _ & H). injection H as _ <-.
  now apply canonicalize_modifier_groups_fields.
Qed.

Lemma extend_loop_inv (parse : string -> exc Instruction) (d : Disassembler)
    (m : InstructionMutationSet) (rngs : list EncodingRange)
    (st st' : InstructionMutationSet * bool) :
  extended_from m st ->
  foldM (fun (st : InstructionMutationSet * bool) (rng : EncodingRange) =>
           st <- extend_adj parse d st (Z.of_nat (ER.start rng))
                            (Z.of_nat (ER.start rng) - 1);;
           extend_adj parse d st (Z.of_nat (ER.start rng))
                      (Z.of_nat (ER.start rng + ER.length rng)))
        rngs st = Ret st' ->
  extended_from m st'.
Proof.
  revert st. induction rngs as [|rng rngs IH]; intros st Hinv; cbn [foldM].
  - now intros [= <-].
  - intros H. apply bind_Ret_inv in H as (st2 & Hstep & Hrest).
    apply bind_Ret_inv in Hstep as (st1 & Hleft & Hright).
    apply (IH st2); [|exact Hrest].
    apply (extend_adj_inv parse d m st1 st2 (Z.of_nat (ER.start rng))
             (Z.of_nat (ER.start rng + ER.length rng))); [lia | | exact Hright].
    apply (extend_adj_inv parse d m st st1 (Z.of_nat (ER.start rng))
             (Z.of_nat (ER.start rng) - 1)); [lia | exact Hinv | exact Hleft].
Qed.

Lemma analysis_extend_modifiers_inv (parse : string -> exc Instruction)
    (d : Disassembler) (m m' : InstructionMutationSet) (changed : bool) :
  analysis_extend_modifiers parse d m = Ret (changed, m') ->
  extended_from m (m', changed)
  /\ (changed = true -> MS.modifier_groups m' = ∅).
Proof.
  unfold analysis_extend_modifiers. intros H.
  apply bind_Ret_inv in H as ([rs m1] & Hcompute & H). cbn [fst snd] in H.
  apply bind_Ret_inv in H as ([ms c] & Hloop & H). injection H as -> <-.
  apply compute_encoding_ranges_fields in Hcompute as (Hbits & Hflags & Hinst).
  apply (extend_loop_inv parse d m1) in Hloop.
  - destruct Hloop as (Hsub & Hi & Hf & Hnew). cbn [fst snd] in *.
    unfold extended_from. cbn [fst snd].
    rewrite Hbits in Hsub, Hnew. rewrite Hinst in Hi, Hnew. rewrite Hflags in Hf.
    destruct changed; cbn [reset_modifier_groups MS.modifier_bits MS.inst MS.modifier_groups
                     MS.instruction_modifier_bit_flag MS.set_modifier_groups];
      (split; [|congruence]); auto.
  - unfold extended_from. cbn [fst snd]. split; [reflexivity|].
    split; [reflexivity|]. split; [reflexivity | discriminate].
Qed.

Lemma filter_length_mono {A} (p q : A -> bool) (l : list A) :
  (forall x, In x l -> p x = true -> q x = true) ->
  (List.length (List.filter p l) <= List.length (List.filter q l))%nat.
Proof.
  induction l as [|x l IH]; intros Himp; [reflexivity|]. cbn [List.filter].
  assert (IH' := IH (fun y Hy => Himp y (or_intror Hy))).
  destruct (p x) eqn:Hp.
  - rewrite (Himp x (or_introl eq_refl) Hp). cbn [length]. lia.
  - destruct (q x); cbn [length]; lia.
Qed.

Lemma filter_length_strict {A} (p q : A -> bool) (l : list A) (b : A) :
  (forall x, In x l -> p x = true -> q x = true) ->
  In b l -> p b = false -> q b = true ->
  (List.length (List.filter p l) < List.length (List.filter q l))%nat.
Proof.
  induction l as [|x l IH]; intros Himp Hb Hpb Hqb; [destruct Hb|]. cbn [List.filter].
  assert (Hle := filter_length_mono p q l (fun y Hy => Himp y (or_intror Hy))).
  destruct Hb as [->|Hb].
  - rewrite Hpb, Hqb. cbn [length]. lia.
  - assert (IH' := IH (fun y Hy => Himp y (or_intror Hy)) Hb Hpb Hqb).
    destruct (p x) eqn:Hp.
    + rewrite (Himp x (or_introl eq_refl) Hp). cbn [length]. lia.
    + destruct (q x); cbn [length]; lia.
Qed.

Lemma In_Zrange_iff (lo hi i : Z) : In i (Zrange lo hi) <-> lo <= i < hi.
Proof.
  split; [apply In_Zrange|]. intros H. unfold Zrange. apply in_map_iff.
  exists (Z.to_nat (i - lo)). split; [lia|]. apply in_seq. lia.
Qed.

Lemma analysis_extend_modifiers_fewer (parse : string -> exc Instruction)
    (d : Disassembler) (m m' : InstructionMutationSet) :
  analysis_extend_modifiers parse d m = Ret (true, m') ->
  (List.length (unclaimed_bits m') < List.length (unclaimed_bits m))%nat.
Proof.
  intros H. apply analysis_extend_modifiers_inv in H as [(Hsub & Hinst & _ & Hnew) _].
  cbn [fst snd] in *. destruct (Hnew eq_refl) as (b & Hb & Hin & Hnotin).
  unfold unclaimed_bits. rewrite Hinst.
  apply (filter_length_strict _ _ _ b).
  - intros x _ Hx. apply negb_true_iff, bool_decide_eq_false in Hx.
    apply negb_true_iff, bool_decide_eq_false. intros Hx'. apply Hx. now apply Hsub.
  - now apply In_Zrange_iff.
  - apply negb_false_iff, bool_decide_eq_true. exact Hin.
  - apply negb_true_iff, bool_decide_eq_false. exact Hnotin.
Qed.

Lemma Zrange_length (lo hi : Z) : List.length (Zrange lo hi) = Z.to_nat (hi - lo).
Proof. unfold Zrange. now rewrite length_map, length_seq. Qed.

(** [analysis_extend_modifiers] never removes a modifier bit and never
    touches the seed or the flag map; when it reports a change, a bit of
    the word (bit -1 stands for bit 127 of a 16-byte seed) that was no
    modifier bit is one now, and the modifier groups are reset. *)
Theorem analysis_extend_modifiers_grows (parse : string -> exc Instruction)
    (d : Disassembler) (m m' : InstructionMutationSet) (changed : bool) :
  analysis_extend_modifiers parse d m = Ret (changed, m') ->
  MS.modifier_bits m ⊆ MS.modifier_bits m'
  /\ MS.inst m' = MS.inst m
  /\ MS.instruction_modifier_bit_flag m' = MS.instruction_modifier_bit_flag m
  /\ (changed = true ->
      MS.modifier_groups m' = ∅
      /\ exists b, -1 <= b < 8 * Z.of_nat (List.length (MS.inst m))
                   /\ b ∈ MS.modifier_bits m' /\ b ∉ MS.modifier_bits m).
Proof.
  intros H. apply analysis_extend_modifiers_inv in H as [(Hsub & Hinst & Hflags & Hnew) Hg].
  cbn [fst snd] in *. auto 6.
Qed.

Lemma analysis_extend_modifiers_grows_witness :
  MS.modifier_bits ext_settled ⊆ MS.modifier_bits ext_extended
  /\ MS.inst ext_extended = MS.inst ext_settled
  /\ MS.instruction_modifier_bit_flag ext_extended
     = MS.instruction_modifier_bit_flag ext_settled
  /\ (true = true ->
      MS.modifier_groups ext_extended = ∅
      /\ exists b, -1 <= b < 8 * Z.of_nat (List.length (MS.inst ext_settled))
                   /\ b ∈ MS.modifier_bits ext_extended
                   /\ b ∉ MS.modifier_bits ext_settled).
Proof.
  apply (analysis_extend_modifiers_grows selector_parse (mock_disassembler ext_disasm)
           ext_settled ext_extended true).
  vm_compute. reflexivity.
Defined.

(** The loop on [analysis_extend_modifiers] always ends: after at most
    [8 * len + 2] calls for a seed of [len] bytes (130 for 16 bytes) a call
    reports no change or raises, since every changing call adds one of the
    bits from -1 to [8 * len - 1] to the modifier bits. *)
Theorem analysis_run_fixedpoint_extend_modifiers_ends
    (parse : string -> exc Instruction) (d : Disassembler) (m : InstructionMutationSet) :
  exists n r,
    (n <= 8 * List.length (MS.inst m) + 2)%nat
    /\ fixedpoint_ends (analysis_extend_modifiers parse) d n m r
    /\ forall fuel, (n <= fuel)%nat ->
         analysis_run_fixedpoint fuel d m (analysis_extend_modifiers parse) = r.
Proof.
  apply (fixedpoint_ends_measure (analysis_extend_modifiers parse) d
           (fun m => List.length (unclaimed_bits m))).
  - intros m0 m1. apply analysis_extend_modifiers_fewer.
  - unfold unclaimed_bits.
    pose proof (List.filter_length_le
                  (fun b => negb (bool_decide (b ∈ MS.modifier_bits m)))
                  (Zrange (-1) (8 * Z.of_nat (List.length (MS.inst m))))) as Hle.
    rewrite Zrange_length in Hle. lia.
Qed.

(** ** The ranges against the bit sets *)

Lemma classify_sound (m : InstructionMutationSet) (i : nat) (c : classified) :
  classify m i = Ret c ->
  match c with
  | Single r => bit_sound m r i
  | NewRange r => bit_sound m r i /\ ER.type r <> FLAG /\ ER.type r <> OPERAND_FLAG
  | Unclassified =>
      (Z.of_nat i ∉ MS.modifier_bits m) /\ (Z.of_nat i ∉ MS.predicate_bits m)
      /\ (Z.of_nat i ∉ MS.operand_value_bits m) /\ (Z.of_nat i ∉ MS.operand_modifier_bits m)
  end.
Proof.
  unfold classify. intros H.
  case_bool_decide as Hmod.
  { destruct (odict_get (MS.instruction_modifier_bit_flag m) (Z.of_nat i)) as [nm|] eqn:Hnm.
    - injection H as <-. unfold bit_sound. cbn. rewrite Hnm. eauto.
    - apply bind_Ret_inv in H as (g & Hg & H). injection H as <-.
      destruct (MS.modifier_groups m !! Z.of_nat i) as [g'|] eqn:Hg'; [|discriminate].
      injection Hg as ->. unfold bit_sound. cbn. rewrite Hg'.
      repeat split; eauto; discriminate. }
  case_bool_decide as Hpred.
  { injection H as <-. unfold bit_sound. cbn. repeat split; auto; discriminate. }
  case_bool_decide as Hval.
  { apply bind_Ret_inv in H as (oi & Hoi & H). injection H as <-.
    destruct (MS.bit_to_operand m !! Z.of_nat i) as [oi'|] eqn:Hoi'; [|discriminate].
    injection Hoi as ->. unfold bit_sound. cbn. rewrite Hoi'.
    repeat split; eauto; discriminate. }
  case_bool_decide as Hopm.
  { apply bind_Ret_inv in H as (oi & Hoi & H).
    destruct (MS.bit_to_operand m !! Z.of_nat i) as [oi'|] eqn:Hoi'; [|discriminate].
    injection Hoi as ->.
    destruct (odict_get (MS.operand_modifier_bit_flag m) (Z.of_nat i)) as [nm|] eqn:Hnm;
      injection H as <-; unfold bit_sound; cbn; rewrite Hoi', ?Hnm.
    - repeat split; eauto.
    - repeat split; eauto; discriminate. }
  injection H as <-. auto.
Qed.

Lemma default_range_type (m : InstructionMutationSet) (i : nat) (r : EncodingRange) :
  default_range m i = Ret r ->
  In (ER.type r) (CONSTANT :: map fst control_code_ranges).
Proof.
  unfold default_range. intros H. apply bind_Ret_inv in H as ([cc|] & Hcc & H);
    injection H as <-.
  - apply control_code_range_shape in Hcc as (_ & _ & Hty & _). now right.
  - now left.
Qed.

(** The bit a step looks at is sound for the range it is classified as. *)
Lemma new_range_sound (m : InstructionMutationSet) (i : nat) (new : EncodingRange) :
  (classify m i = Ret (NewRange new)
   \/ classify m i = Ret Unclassified /\ default_range m i = Ret new) ->
  bit_sound m new i /\ ER.type new <> FLAG /\ ER.type new <> OPERAND_FLAG.
Proof.
  intros [Hc|[Hc Hd]].
  - exact (classify_sound m i _ Hc).
  - apply classify_sound in Hc. apply default_range_type in Hd.
    unfold bit_sound. cbn [map fst control_code_ranges In] in Hd.
    repeat (destruct Hd as [Hd|Hd]; [rewrite <- Hd; repeat split; try tauto; discriminate|]).
    destruct Hd.
Qed.

Lemma bit_sound_shape (m : InstructionMutationSet) (a b : EncodingRange) (i : nat) :
  ER.type a = ER.type b -> ER.operand_index a = ER.operand_index b ->
  ER.group_id a = ER.group_id b ->
  ER.type a <> FLAG -> ER.type a <> OPERAND_FLAG ->
  bit_sound m a i -> bit_sound m b i.
Proof.
  unfold bit_sound. intros <- <- <- Hflag Hoflag. destruct (ER.type a); tauto.
Qed.

Lemma step_outcome_sound (m : InstructionMutationSet) (result : list EncodingRange)
    (cur : option EncodingRange) (i : nat)
    (st' : list EncodingRange * option EncodingRange) :
  step_outcome m result cur i st' ->
  chain 0 (_push result cur) i ->
  ranges_sound m (_push result cur) ->
  ranges_sound m (_push (fst st') (snd st')).
Proof.
  intros Hout Hchain Hok.
  destruct Hout as [r0 Hc|new cur' Hn Hs Hl Hsh _|c new cur' Hn -> Hext Hsh];
    cbn [fst snd _push]; intros r Hr j Hj; apply in_app_iff in Hr as [Hr|[<-|[]]].
  - now apply Hok.
  - pose proof (classify_shape m i _ Hc) as [Hs Hl].
    assert (j = i) by lia. subst j. exact (classify_sound m i _ Hc).
  - now apply Hok.
  - destruct Hsh as (Hty & Hs' & Hl' & Hoi & Hg).
    assert (j = i) by lia. subst j.
    destruct (new_range_sound m i new Hn) as (Hsound & Hf & Hof).
    now apply (bit_sound_shape m new cur').
  - apply Hok; [|assumption]. cbn [_push]. apply in_app_iff. now left.
  - cbn [_push] in Hchain, Hok. apply chain_snoc in Hchain as (_ & Hlen & Hend).
    destruct Hsh as (Hty & Hs' & Hl' & Hoi & Hg). cbn in Hty, Hs', Hl', Hoi, Hg.
    destruct (new_range_sound m i new Hn) as (Hsound & Hf & Hof).
    unfold extends in Hext. apply andb_true_iff in Hext as [Hext Hgrp].
    apply andb_true_iff in Hext as [Hext _].
    apply andb_true_iff in Hext as [Hext Hoi'].
    apply bool_decide_eq_true in Hext. apply bool_decide_eq_true in Hoi'.
    destruct (decide (j = i)) as [->|Hne].
    + (* the new bit *)
      unfold bit_sound in *. rewrite <- Hty, <- Hoi, <- Hg, <- Hext, <- Hoi'.
      destruct (ER.type new) eqn:Htn; try tauto.
      destruct Hsound as (H1 & H2 & [g Hg3] & H4). rewrite Hg3 in Hgrp, H4.
      apply bool_decide_eq_true in Hgrp. rewrite Hgrp. eauto.
    + (* a bit the range had already *)
      apply (bit_sound_shape m c cur'); try assumption; try congruence.
      apply Hok; [apply in_app_iff; right; now left | lia].
Qed.

Lemma ranges_loop_sound (m : InstructionMutationSet) (n lo : nat)
    (st st' : list EncodingRange * option EncodingRange) :
  foldM (ranges_step m) (seq lo n) st = Ret st' ->
  chain 0 (_push (fst st) (snd st)) lo ->
  ranges_sound m (_push (fst st) (snd st)) ->
  ranges_sound m (_push (fst st') (snd st')).
Proof.
  revert lo st. induction n as [|n IH]; intros lo st; cbn [seq foldM].
  - now intros [= <-].
  - intros H Hchain Hok. apply bind_Ret_inv in H as (st1 & Hstep & Hrest).
    apply ranges_step_outcome in Hstep.
    pose proof (step_outcome_chain _ _ _ _ _ Hstep Hchain) as Hchain1.
    pose proof (step_outcome_sound _ _ _ _ _ Hstep Hchain Hok) as Hok1.
    exact (IH _ _ Hrest Hchain1 Hok1).
Qed.

Lemma compute_encoding_ranges_ranges_sound
    (m m' : InstructionMutationSet) (rs : EncodingRanges) :
  compute_encoding_ranges m = Ret (rs, m') -> ranges_sound m' (ranges rs).
Proof.
  unfold compute_encoding_ranges. intros H.
  apply bind_Ret_inv in H as (m1 & _ & H). apply bind_Ret_inv in H as (st & Hloop & H).
  injection H as <- <-. cbn [ranges].
  apply (ranges_loop_sound m1 128 0 ([], None) st Hloop); [reflexivity|].
  intros r [].
Qed.

(** The ranges that [compute_encoding_ranges] returns agree with the bit
    sets of the mutation set it returns: every bit of a range lies in the
    bit set that belongs to the type of the range and in none of the sets
    the loop tries before it, and the group id, the operand index and the
    flag name of the range are the ones recorded for that bit. *)
Theorem compute_encoding_ranges_sound
    (m m' : InstructionMutationSet) (rs : EncodingRanges) (r : EncodingRange) (i : nat) :
  compute_encoding_ranges m = Ret (rs, m') -> In r (ranges rs) ->
  (ER.start r <= i < ER.start r + ER.length r)%nat ->
  bit_sound m' r i.
Proof.
  intros H Hr Hi. exact (compute_encoding_ranges_ranges_sound m m' rs H r Hr i Hi).
Qed.

Lemma compute_encoding_ranges_sound_witness :
  bit_sound example_mset' (ER.set_group_id (Some 3%nat) (ER.init MODIFIER 63 3)) 64.
Proof.
  apply (compute_encoding_ranges_sound example_mset example_mset' example_ranges).
  - exact example_mset_ranges.
  - vm_compute. repeat (first [left; reflexivity | right]).
  - cbn. lia.
Defined.

(** ** The splitting pass *)

Lemma split_loop_groups (start N : nat) (ks : list nat) (m : InstructionMutationSet)
    (b : Z) :
  let m' := fold_left (fun (m : InstructionMutationSet) (k : nat) =>
                         MS.set_modifier_groups
                           (<[Z.of_nat (start + k) := N]> (MS.modifier_groups m)) m)
                      ks m in
  MS.modifier_bits m' = MS.modifier_bits m
  /\ ((exists k, In k ks /\ b = Z.of_nat (start + k)) ->
      MS.modifier_groups m' !! b = Some N)
  /\ ((forall k, In k ks -> b <> Z.of_nat (start + k)) ->
      MS.modifier_groups m' !! b = MS.modifier_groups m !! b).
Proof.
  revert m. induction ks as [|k ks IH]; intros m; cbn [fold_left].
  - split; [reflexivity|]. split; [intros (k & [] & _) | reflexivity].
  - specialize (IH (MS.set_modifier_groups
                      (<[Z.of_nat (start + k) := N]> (MS.modifier_groups m)) m)).
    cbn zeta in IH. destruct IH as (Hbits & Hin & Hout).
    cbn [MS.modifier_bits MS.modifier_groups MS.set_modifier_groups] in *.
    split; [assumption|]. split.
    + intros (k' & Hk' & ->).
      destruct (in_dec Nat.eq_dec k' ks) as [Hin'|Hno]; [apply Hin; eauto|].
      destruct Hk' as [->|Hk']; [|contradiction].
      rewrite Hout; [apply lookup_insert_eq|].
      intros k2 Hk2 Heq. apply Hno.
      assert (k' = k2) by lia. now subst.
    + intros Hne. rewrite Hout by (intros k2 Hk2; apply Hne; now right).
      apply lookup_insert_ne. intros Heq. apply (Hne k); [now left | now symmetry].
Qed.

(** [split_range]: the bits of the range from the split point on get one
    new group id, above every group id in use; nothing else changes. *)
Lemma split_range_spec (m : InstructionMutationSet) (rng : EncodingRange) (i j : nat) :
  (i <= ER.length rng)%nat ->
  MS.modifier_bits (split_range m rng i) = MS.modifier_bits m
  /\ ((ER.start rng + i <= j < ER.start rng + ER.length rng)%nat ->
      MS.modifier_groups (split_range m rng i) !! Z.of_nat j
      = Some (S (max_group_id (MS.modifier_groups m))))
  /\ (~ (ER.start rng + i <= j < ER.start rng + ER.length rng)%nat ->
      MS.modifier_groups (split_range m rng i) !! Z.of_nat j
      = MS.modifier_groups m !! Z.of_nat j).
Proof.
  intros Hi. unfold split_range.
  destruct (split_loop_groups (ER.start rng) (S (max_group_id (MS.modifier_groups m)))
              (seq i (ER.length rng - i)) m (Z.of_nat j)) as (Hbits & Hin & Hout).
  split; [exact Hbits|]. split.
  - intros Hj. apply Hin. exists (j - ER.start rng)%nat. split; [apply in_seq; lia|].
    f_equal. lia.
  - intros Hj. apply Hout. intros k Hk Heq. apply in_seq in Hk. apply Hj. lia.
Qed.

Lemma find_split_In (parse : string -> exc Instruction) (d : Disassembler)
    (m : InstructionMutationSet) (points : list (EncodingRange * nat))
    (rng : EncodingRange) (i : nat) :
  find_split parse d m points = Ret (Some (rng, i)) -> In (rng, i) points.
Proof.
  induction points as [|[rng0 i0] points IH]; cbn [find_split]; [discriminate|].
  intros H. apply bind_Ret_inv in H as (t1 & _ & H).
  apply bind_Ret_inv in H as (t2 & _ & H). apply bind_Ret_inv in H as (t3 & _ & H).
  destruct t3; [injection H as <- <-; now left | right; now apply IH].
Qed.

Lemma split_points_In (rs : list EncodingRange) (rng : EncodingRange) (i : nat) :
  In (rng, i) (concat (map (fun rng => map (pair rng) (seq 1 (ER.length rng - 1)))
                           (_find MODIFIER rs))) ->
  In rng rs /\ ER.type rng = MODIFIER /\ (1 <= i < ER.length rng)%nat.
Proof.
  intros H. apply in_concat in H as (l & Hl & Hin).
  apply in_map_iff in Hl as (rng0 & <- & Hrng0).
  apply in_map_iff in Hin as (i0 & [= <- <-] & Hi0).
  unfold _find in Hrng0. apply filter_In in Hrng0 as [Hin Hty].
  apply bool_decide_eq_true in Hty. apply in_seq in Hi0.
  split; [assumption|]. split; [assumption | lia].
Qed.

(** A reported split is a split of a MODIFIER range of the ranges of the
    set, strictly inside it. *)
Lemma analysis_modifier_splitting_split (parse : string -> exc Instruction)
    (d : Disassembler) (m m' : InstructionMutationSet) :
  analysis_modifier_splitting parse d m = Ret (true, m') ->
  exists rs m1 rng i,
    compute_encoding_ranges m = Ret (rs, m1)
    /\ In rng (ranges rs) /\ ER.type rng = MODIFIER /\ (1 <= i < ER.length rng)%nat
    /\ m' = split_range m1 rng i.
Proof.
  unfold analysis_modifier_splitting. intros H.
  apply bind_Ret_inv in H as ([rs m1] & Hcompute & H). cbn [fst snd] in H.
  apply bind_Ret_inv in H as (found & Hfound & H).
  destruct found as [[rng i]|]; [|discriminate]. injection H as <-.
  apply find_split_In, split_points_In in Hfound as (Hin & Hty & Hi).
  exists rs, m1, rng, i. auto.
Qed.

Lemma compute_encoding_ranges_groups (m m1 : InstructionMutationSet) (rs : EncodingRanges) :
  compute_encoding_ranges m = Ret (rs, m1) ->
  canonical_groups (MS.modifier_bits m) (MS.modifier_groups m)
  = Ret (MS.modifier_groups m1)
  /\ MS.modifier_bits m1 = MS.modifier_bits m.
Proof.
  unfold compute_encoding_ranges, canonicalize_modifier_groups. intros H.
  apply bind_Ret_inv in H as (m0 & Hm0 & H).
  apply bind_Ret_inv in Hm0 as (g & Hg & Hm0). injection Hm0 as <-.
  apply bind_Ret_inv in H as (st & _ & H). injection H as _ <-.
  cbn [MS.modifier_groups MS.modifier_bits MS.set_modifier_groups]. auto.
Qed.

(** The canonical numbering keeps the groups of a set in which every
    modifier bit has a group. *)
Lemma canonical_groups_same (bits : gset Z) (groups groups' : gmap Z nat) (a b : Z) :
  canonical_groups bits groups = Ret groups' ->
  (forall x, x ∈ bits -> is_Some (groups !! x)) ->
  a ∈ bits -> b ∈ bits ->
  groups' !! a = groups' !! b <-> groups !! a = groups !! b.
Proof.
  intros H Hall Ha Hb.
  rewrite (canonical_groups_partition bits groups groups' a b H Ha Hb).
  apply fill_loop_partition; [now apply Hall | now apply In_sorted_bits].
Qed.

Lemma analysis_modifier_splitting_fewer (parse : string -> exc Instruction)
    (d : Disassembler) (m m' : InstructionMutationSet) :
  analysis_modifier_splitting parse d m = Ret (true, m') ->
  (List.length (joined_pairs m') < List.length (joined_pairs m))%nat.
Proof.
  intros H. apply analysis_modifier_splitting_split in H
    as (rs & m1 & rng & i & Hcompute & Hin & Hty & Hi & ->).
  pose proof (compute_encoding_ranges_chain m m1 rs Hcompute) as Hchain.
  pose proof (proj2 (chain_bounds 0 128 _ Hchain) rng Hin) as [_ Hbound].
  pose proof (compute_encoding_ranges_ranges_sound m m1 rs Hcompute rng Hin) as Hsound.
  apply compute_encoding_ranges_groups in Hcompute as [Hg1 Hbits1].
  set (g1 := MS.modifier_groups m1) in *.
  set (bits := MS.modifier_bits m) in *.
  (* the bits of the range *)
  assert (F1 : exists g, forall j, (ER.start rng <= j < ER.start rng + ER.length rng)%nat ->
                 Z.of_nat j ∈ bits /\ g1 !! Z.of_nat j = Some g).
  { pose proof (Hsound (ER.start rng) ltac:(lia)) as H0. unfold bit_sound in H0.
    rewrite Hty in H0. destruct H0 as (_ & _ & [g Hg] & Hg0).
    exists g. intros j Hj. specialize (Hsound j Hj). unfold bit_sound in Hsound.
    rewrite Hty in Hsound. destruct Hsound as (Hb & _ & _ & Hgj).
    rewrite Hbits1 in Hb. split; [assumption | unfold g1; congruence]. }
  destruct F1 as (g & F1).
  assert (F2 : forall x, x ∈ bits -> is_Some (g1 !! x)).
  { destruct (canonical_groups_ok bits (MS.modifier_groups m)) as (g' & Hg' & Hall).
    rewrite Hg1 in Hg'. injection Hg' as <-. exact Hall. }
  (* the groups after the split *)
  set (N := S (max_group_id g1)).
  assert (F3 : forall j,
             MS.modifier_groups (split_range m1 rng i) !! Z.of_nat j
             = if bool_decide (ER.start rng + i <= j < ER.start rng + ER.length rng)%nat
               then Some N else g1 !! Z.of_nat j).
  { intros j. destruct (split_range_spec m1 rng i j ltac:(lia)) as (_ & Hins & Hout).
    case_bool_decide; auto. }
  assert (Hbits2 : MS.modifier_bits (split_range m1 rng i) = bits).
  { destruct (split_range_spec m1 rng i 0 ltac:(lia)) as (-> & _). exact Hbits1. }
  assert (HN : forall x v, g1 !! x = Some v -> v <> N).
  { intros x v Hv. pose proof (max_group_id_ge g1 x v Hv). unfold N. lia. }
  unfold joined_pairs. fold bits. rewrite Hg1, Hbits2.
  destruct (canonical_groups_ok bits (MS.modifier_groups (split_range m1 rng i)))
    as (g3 & Hg3 & _).
  rewrite Hg3.
  assert (F4 : forall j, Z.of_nat j ∈ bits -> Z.of_nat (S j) ∈ bits ->
             g3 !! Z.of_nat j = g3 !! Z.of_nat (S j)
             <-> MS.modifier_groups (split_range m1 rng i) !! Z.of_nat j
                 = MS.modifier_groups (split_range m1 rng i) !! Z.of_nat (S j)).
  { intros j Hj Hj'. apply (canonical_groups_same bits _ g3); try assumption.
    intros x Hx.
    assert (Hx0 : 0 <= x \/ x < 0) by lia. destruct Hx0 as [Hx0|Hx0].
    - rewrite <- (Z2Nat.id x Hx0). rewrite F3. case_bool_decide; [eauto|].
      rewrite Z2Nat.id by assumption. now apply F2.
    - destruct (split_loop_groups (ER.start rng) N (seq i (ER.length rng - i)) m1 x)
        as (_ & _ & Hout).
      unfold split_range. fold g1. fold N. rewrite Hout; [now apply F2|].
      intros k _. lia. }
  apply (filter_length_strict _ _ _ (ER.start rng + i - 1)%nat).
  - (* a pair joined after the split was joined before *)
    intros x _ Hx. unfold joined in *.
    apply andb_true_iff in Hx as [Hx Hsame]. apply andb_true_iff in Hx as [Hx Hx'].
    apply bool_decide_eq_true in Hx, Hx', Hsame.
    rewrite (bool_decide_eq_true_2 _ Hx), (bool_decide_eq_true_2 _ Hx'). cbn [andb].
    apply bool_decide_eq_true. apply (F4 x Hx Hx') in Hsame. rewrite !F3 in Hsame.
    destruct (F2 _ Hx) as [v Hv]. destruct (F2 _ Hx') as [v' Hv'].
    repeat case_bool_decide.
    + destruct (F1 x ltac:(lia)) as [_ ->]. destruct (F1 (S x) ltac:(lia)) as [_ ->].
      reflexivity.
    + rewrite Hv' in Hsame. injection Hsame as Heq. symmetry in Heq.
      now apply HN in Hv'.
    + rewrite Hv in Hsame. injection Hsame as Heq. now apply HN in Hv.
    + exact Hsame.
  - apply in_seq. lia.
  - (* the pair at the split point is no longer joined *)
    unfold joined. replace (S (ER.start rng + i - 1)) with (ER.start rng + i)%nat by lia.
    destruct (F1 (ER.start rng + i - 1)%nat ltac:(lia)) as [Hb Hgb].
    destruct (F1 (ER.start rng + i)%nat ltac:(lia)) as [Hb' Hgb'].
    rewrite (bool_decide_eq_true_2 _ Hb), (bool_decide_eq_true_2 _ Hb'). cbn [andb].
    apply bool_decide_eq_false. intros Hsame.
    assert (Hb'' : Z.of_nat (S (ER.start rng + i - 1)) ∈ bits)
      by (replace (S (ER.start rng + i - 1)) with (ER.start rng + i)%nat by lia; exact Hb').
    pose proof (proj1 (F4 (ER.start rng + i - 1)%nat Hb Hb'')) as Hsplit.
    replace (S (ER.start rng + i - 1)) with (ER.start rng + i)%nat in Hsplit by lia.
    specialize (Hsplit Hsame). rewrite !F3 in Hsplit.
    rewrite bool_decide_eq_false_2 in Hsplit by lia.
    rewrite bool_decide_eq_true_2 in Hsplit by lia.
    rewrite Hgb in Hsplit. injection Hsplit as Heq. now apply HN in Hgb.
  - (* and was joined before *)
    unfold joined. replace (S (ER.start rng + i - 1)) with (ER.start rng + i)%nat by lia.
    destruct (F1 (ER.start rng + i - 1)%nat ltac:(lia)) as [Hb Hgb].
    destruct (F1 (ER.start rng + i)%nat ltac:(lia)) as [Hb' Hgb'].
    rewrite (bool_decide_eq_true_2 _ Hb), (bool_decide_eq_true_2 _ Hb'). cbn [andb].
    apply bool_decide_eq_true. congruence.
Qed.

(** The loop on [analysis_modifier_splitting] always ends: after at most
    128 calls a call reports no split or raises, since every split parts
    two neighbouring modifier bits that the ranges had in one group, and
    the canonical numbering never joins them again. *)
Theorem analysis_run_fixedpoint_modifier_splitting_ends
    (parse : string -> exc Instruction) (d : Disassembler) (m : InstructionMutationSet) :
  exists n r,
    (n <= 128)%nat
    /\ fixedpoint_ends (analysis_modifier_splitting parse) d n m r
    /\ forall fuel, (n <= fuel)%nat ->
         analysis_run_fixedpoint fuel d m (analysis_modifier_splitting parse) = r.
Proof.
  apply (fixedpoint_ends_measure (analysis_modifier_splitting parse) d
           (fun m => List.length (joined_pairs m))).
  - intros m0 m1. apply analysis_modifier_splitting_fewer.
  - unfold joined_pairs. destruct (canonical_groups _ _) as [g|]; [|cbn; lia].
    pose proof (List.filter_length_le (joined (MS.modifier_bits m) g) (seq 0 127)) as Hle.
    rewrite length_seq in Hle. lia.
Qed.

Lemma split_range_flags (m : InstructionMutationSet) (rng : EncodingRange) (i : nat) :
  MS.instruction_modifier_bit_flag (split_range m rng i)
  = MS.instruction_modifier_bit_flag m.
Proof.
  unfold split_range. generalize (S (max_group_id (MS.modifier_groups m))). intros N.
  generalize (seq i (ER.length rng - i)). intros ks. revert m.
  induction ks as [|k ks IH]; intros m; cbn [fold_left]; [reflexivity|].
  now rewrite IH.
Qed.

(** A reported split is real: the pass splits a MODIFIER range of the
    ranges of the set strictly inside, and when the ranges are computed
    again no range holds the two bits at the split point together. *)
Theorem analysis_modifier_splitting_separates (parse : string -> exc Instruction)
    (d : Disassembler) (m m' m'' : InstructionMutationSet) (rs' : EncodingRanges) :
  analysis_modifier_splitting parse d m = Ret (true, m') ->
  compute_encoding_ranges m' = Ret (rs', m'') ->
  exists rs m1 rng j,
    compute_encoding_ranges m = Ret (rs, m1)
    /\ In rng (ranges rs) /\ ER.type rng = MODIFIER
    /\ (ER.start rng <= j)%nat /\ (S j < ER.start rng + ER.length rng)%nat
    /\ forall r', In r' (ranges rs') ->
         ~ ((ER.start r' <= j)%nat /\ (S j < ER.start r' + ER.length r')%nat).
Proof.
  intros H Hagain. apply analysis_modifier_splitting_split in H
    as (rs & m1 & rng & i & Hcompute & Hin & Hty & Hi & ->).
  exists rs, m1, rng, (ER.start rng + i - 1)%nat.
  split; [assumption|]. split; [assumption|]. split; [assumption|].
  split; [lia|]. split; [lia|].
  pose proof (compute_encoding_ranges_ranges_sound m m1 rs Hcompute rng Hin) as Hsound.
  pose proof (compute_encoding_ranges_ranges_sound _ _ _ Hagain) as Hsound'.
  pose proof (compute_encoding_ranges_fields _ _ _ Hagain) as (Hbits'' & Hflags'' & _).
  apply compute_encoding_ranges_groups in Hcompute as [Hg1 Hbits1].
  apply compute_encoding_ranges_groups in Hagain as [Hg3 _].
  rewrite split_range_flags in Hflags''.
  set (g1 := MS.modifier_groups m1) in *.
  set (bits := MS.modifier_bits m) in *.
  assert (F1 : exists g, forall j, (ER.start rng <= j < ER.start rng + ER.length rng)%nat ->
                 Z.of_nat j ∈ bits /\ g1 !! Z.of_nat j = Some g
                 /\ odict_get (MS.instruction_modifier_bit_flag m1) (Z.of_nat j) = None).
  { pose proof (Hsound (ER.start rng) ltac:(lia)) as H0. unfold bit_sound in H0.
    rewrite Hty in H0. destruct H0 as (_ & _ & [g Hg] & Hg0).
    exists g. intros j Hj. specialize (Hsound j Hj). unfold bit_sound in Hsound.
    rewrite Hty in Hsound. destruct Hsound as (Hb & Hfl & _ & Hgj).
    rewrite Hbits1 in Hb. split; [assumption|]. split; [unfold g1; congruence | assumption]. }
  destruct F1 as (g & F1).
  assert (F2 : forall x, x ∈ bits -> is_Some (g1 !! x)).
  { destruct (canonical_groups_ok bits (MS.modifier_groups m)) as (g' & Hg' & Hall).
    rewrite Hg1 in Hg'. injection Hg' as <-. exact Hall. }
  assert (Hbits2 : MS.modifier_bits (split_range m1 rng i) = bits).
  { destruct (split_range_spec m1 rng i 0 ltac:(lia)) as (-> & _). exact Hbits1. }
  rewrite Hbits2 in Hg3, Hbits''.
  destruct (F1 (ER.start rng + i - 1)%nat ltac:(lia)) as (Hb & Hgb & Hfb).
  destruct (F1 (ER.start rng + i)%nat ltac:(lia)) as (Hb' & Hgb' & Hfb').
  (* the two bits are in different groups after the split *)
  assert (Hapart : MS.modifier_groups m'' !! Z.of_nat (ER.start rng + i - 1)
                   <> MS.modifier_groups m'' !! Z.of_nat (ER.start rng + i)).
  { intros Hsame.
    apply (canonical_groups_same bits _ _ _ _ Hg3) in Hsame; try assumption.
    - destruct (split_range_spec m1 rng i (ER.start rng + i - 1) ltac:(lia))
        as (_ & _ & Hout).
      destruct (split_range_spec m1 rng i (ER.start rng + i) ltac:(lia))
        as (_ & Hins & _).
      rewrite Hout, Hins in Hsame by lia. fold g1 in Hsame. rewrite Hgb in Hsame.
      injection Hsame as Heq. pose proof (max_group_id_ge g1 _ _ Hgb). lia.
    - intros x Hx.
      assert (Hx0 : 0 <= x \/ x < 0) by lia. destruct Hx0 as [Hx0|Hx0].
      + rewrite <- (Z2Nat.id x Hx0).
        destruct (split_range_spec m1 rng i (Z.to_nat x) ltac:(lia)) as (_ & Hins & Hout).
        destruct (decide (ER.start rng + i <= Z.to_nat x
                          < ER.start rng + ER.length rng)%nat) as [Hx1|Hx1].
        * rewrite Hins by assumption. eauto.
        * rewrite Hout by assumption. rewrite Z2Nat.id by assumption. now apply F2.
      + destruct (split_loop_groups (ER.start rng) (S (max_group_id g1))
                    (seq i (ER.length rng - i)) m1 x) as (_ & _ & Hout).
        unfold split_range. fold g1. rewrite Hout; [now apply F2|].
        intros k _. lia. }
  intros r' Hr' [Hlo Hhi].
  pose proof (Hsound' r' Hr' (ER.start rng + i - 1)%nat ltac:(lia)) as Hs1.
  pose proof (Hsound' r' Hr' (ER.start rng + i)%nat ltac:(lia)) as Hs2.
  unfold bit_sound in Hs1, Hs2. rewrite Hbits'', Hflags'' in Hs1, Hs2.
  destruct (ER.type r'); try tauto.
  - destruct Hs1 as (_ & [nm Hnm] & Hname). rewrite Hfb, Hnm in Hname. discriminate.
  - destruct Hs1 as (_ & _ & _ & Hg). destruct Hs2 as (_ & _ & _ & Hg').
    apply Hapart. congruence.
Qed.

Lemma two_mset_split :
  analysis_modifier_splitting two_parse (mock_disassembler two_disasm) two_mset
  = Ret (true, two_split).
Proof. vm_compute. reflexivity. Qed.

Lemma analysis_modifier_splitting_separates_witness :
  exists rs m1 rng j,
    compute_encoding_ranges two_mset = Ret (rs, m1)
    /\ In rng (ranges rs) /\ ER.type rng = MODIFIER
    /\ (ER.start rng <= j)%nat /\ (S j < ER.start rng + ER.length rng)%nat
    /\ forall r', In r' (ranges two_split_ranges) ->
         ~ ((ER.start r' <= j)%nat /\ (S j < ER.start r' + ER.length r')%nat).
Proof.
  apply (analysis_modifier_splitting_separates two_parse (mock_disassembler two_disasm)
           two_mset two_split two_split two_split_ranges).
  - exact two_mset_split.
  - vm_compute. reflexivity.
Defined.

(** ** The ranges of a mutation set can be encoded *)

Lemma chain_nonempty (lo hi : nat) (rs : list EncodingRange) (r : EncodingRange) :
  chain lo rs hi -> In r rs -> (1 <= ER.length r)%nat.
Proof.
  revert lo. induction rs as [|x rs IH]; intros lo; cbn [chain]; [intros _ []|].
  intros (_ & Hl & Hc) [<-|Hin]; [assumption | eauto].
Qed.

Lemma operand_count_ok (rs : list EncodingRange) (acc : nat) :
  (forall r, In r rs -> ER.type r = OPERAND -> is_Some (ER.operand_index r)) ->
  exists n,
    foldM (fun (result : nat) (range : EncodingRange) =>
             if bool_decide (ER.type range = OPERAND) then
               match ER.operand_index range with
               | Some i => Ret (Nat.max result (i + 1))
               | None => Raise TypeError
               end
             else Ret result) rs acc = Ret n.
Proof.
  revert acc. induction rs as [|r rs IH]; intros acc Hall; cbn [foldM]; [eauto|].
  case_bool_decide as Hty.
  - destruct (Hall r (or_introl eq_refl) Hty) as [i ->]. cbn [bind].
    apply IH. intros r' Hr'. apply Hall. now right.
  - cbn [bind]. apply IH. intros r' Hr'. apply Hall. now right.
Qed.

(** What [compute_encoding_ranges] returns can always be encoded:
    [operand_count] returns on its ranges, and [encode] returns a 16-byte
    word for every argument list that has [operand_count()] operand values,
    whatever the modifiers, flags and scheduling arguments. *)
Theorem compute_encoding_ranges_encodable
    (m m' : InstructionMutationSet) (rs : EncodingRanges) :
  compute_encoding_ranges m = Ret (rs, m') ->
  exists n, operand_count (ranges rs) = Ret n
    /\ forall a, (n <= List.length (sub_operands a))%nat ->
         exists w, encode (ranges rs) a = Ret w /\ List.length w = 16%nat.
Proof.
  intros H.
  pose proof (compute_encoding_ranges_chain m m' rs H) as Hchain.
  pose proof (compute_encoding_ranges_ranges_sound m m' rs H) as Hsound.
  destruct (operand_count_ok (ranges rs) 0) as (n & Hn).
  { intros r Hr Hty. pose proof (chain_nonempty 0 128 _ r Hchain Hr) as Hlen.
    specialize (Hsound r Hr (ER.start r) ltac:(lia)). unfold bit_sound in Hsound.
    rewrite Hty in Hsound. tauto. }
  exists n. split; [exact Hn|]. intros a Ha. unfold encode.
  destruct (encode_loop_ok a (ranges rs) (mkEncodeState zero_word 0%nat ∅))
    as (st & -> & Hlen); [reflexivity | | |].
  - apply List.Forall_forall. intros r Hr.
    now apply (proj2 (chain_bounds 0 128 _ Hchain)).
  - intros r Hr Hty. destruct (operand_count_bound _ n Hn r Hr Hty) as (i & Hi & Hlt).
    exists i. split; [assumption | lia].
  - cbn [bind]. eauto.
Qed.

Lemma compute_encoding_ranges_encodable_witness :
  exists n, operand_count (ranges example_ranges) = Ret n
    /\ forall a, (n <= List.length (sub_operands a))%nat ->
         exists w, encode (ranges example_ranges) a = Ret w /\ List.length w = 16%nat.
Proof.
  exact (compute_encoding_ranges_encodable example_mset example_mset' example_ranges
           example_mset_ranges).
Defined.

(** ** Enumerating the modifier tables *)

Lemma mapM_length {A B} (f : A -> exc B) (xs : list A) (ys : list B) :
  mapM f xs = Ret ys -> List.length ys = List.length xs.
Proof.
  revert ys. induction xs as [|x xs IH]; intros ys; cbn [mapM].
  - now intros [= <-].
  - intros H. apply bind_Ret_inv in H as (y & _ & H).
    apply bind_Ret_inv in H as (ys' & Hys' & H). injection H as <-.
    cbn [length]. f_equal. now apply IH.
Qed.

Lemma Zrange_0 (n : Z) : Zrange 0 n = map Z.of_nat (seq 0 (Z.to_nat n)).
Proof. unfold Zrange. rewrite Z.sub_0_r. apply map_ext. intros k. lia. Qed.

(** Rows numbered by their position form an increasing list of values. *)
Lemma imap_rows_sublist {A} (l : list A) (f : nat -> A -> list (Z * string)) (k : nat) :
  (forall i x, f i x = [] \/ exists name, f i x = [(Z.of_nat (k + i), name)]) ->
  sublist (map fst (concat (imap f l))) (map Z.of_nat (seq k (List.length l))).
Proof.
  revert f k. induction l as [|x l IH]; intros f k Hf; cbn [imap concat length seq map].
  - constructor.
  - rewrite map_app.
    assert (Hrest : sublist (map fst (concat (imap (f ∘ S) l)))
                            (map Z.of_nat (seq (S k) (List.length l)))).
    { apply IH. intros i y. unfold compose. destruct (Hf (S i) y) as [->|(name & ->)].
      - now left.
      - right. exists name. do 3 f_equal. lia. }
    destruct (Hf 0%nat x) as [->|(name & ->)]; cbn [map fst app].
    + now apply sublist_cons.
    + rewrite Nat.add_0_r. now apply sublist_skip.
Qed.

Lemma rows_sublist (l : list Z) (g : Z -> list (Z * string)) :
  (forall v, g v = [] \/ exists name, g v = [(v, name)]) ->
  sublist (map fst (concat (map g l))) l.
Proof.
  intros Hg. induction l as [|v l IH]; cbn [map concat]; [constructor|].
  rewrite map_app. destruct (Hg v) as [->|(name & ->)]; cbn [map fst app].
  - now apply sublist_cons.
  - now apply sublist_skip.
Qed.

(** The rows of [enumerate_mod] carry the probed values, in the order of
    the probes. *)
Lemma enumerate_mod_values (parse : string -> exc Instruction) (rs : EncodingRanges)
    (d : Disassembler) (initial_values : list Z) (modifier : EncodingRange) (idx : nat)
    (table : list (Z * string)) :
  enumerate_mod parse rs d initial_values modifier idx = Ret (Some table) ->
  sublist (map fst table) (Zrange 0 (2 ^ Z.of_nat (ER.length modifier))).
Proof.
  unfold enumerate_mod. intros H.
  apply bind_Ret_inv in H as (n & _ & H). apply bind_Ret_inv in H as (insts & Hinsts & H).
  apply mapM_length in Hinsts. rewrite Zrange_length, Z.sub_0_r in Hinsts.
  assert (Hsub : forall basis,
             sublist (map fst (concat (imap (fun i asm =>
                                               match parse asm with
                                               | Ret parsed =>
                                                   [(Z.of_nat i,
                                                     basis_find_modifier_difference
                                                       basis (inst_modifiers parsed))]
                                               | Raise _ => []
                                               end)
                                            (disassemble_parallel d insts))))
                     (Zrange 0 (2 ^ Z.of_nat (ER.length modifier)))).
  { intros basis. rewrite Zrange_0, <- Hinsts.
    replace (List.length insts) with (List.length (disassemble_parallel d insts))
      by (unfold disassemble_parallel; apply length_map).
    apply imap_rows_sublist. intros i asm. destruct (parse asm); [right | now left].
    eexists. reflexivity. }
  destruct (disassemble_parallel d insts) as [|first [|second disasms]];
    [discriminate | discriminate |].
  destruct (parse first) as [first_parsed|]; [|discriminate].
  destruct (parse second) as [second_parsed|]; [|discriminate].
  injection H as <-. apply Hsub.
Qed.

Lemma enumerate_dependent_mod_values (parse : string -> exc Instruction)
    (rs : EncodingRanges) (d : Disassembler) (modifiers : list EncodingRange) (idx : nat)
    (table : list (Z * string)) :
  enumerate_dependent_mod parse rs d modifiers idx = Ret table ->
  exists modifier, modifiers !! idx = Some modifier
    /\ sublist (map fst table) (Zrange 0 (2 ^ Z.of_nat (ER.length modifier))).
Proof.
  unfold enumerate_dependent_mod. intros H.
  apply bind_Ret_inv in H as (parsed & _ & H).
  apply bind_Ret_inv in H as (modifier & Hmodifier & H).
  apply bind_Ret_inv in H as (results & _ & H). injection H as <-.
  exists modifier. split.
  - unfold list_get in Hmodifier. destruct (modifiers !! idx); [|discriminate].
    now injection Hmodifier as ->.
  - apply rows_sublist. intros v. destruct (first_valid v results); [right | now left].
    eexists. reflexivity.
Qed.

Lemma enumerate_loop_tables (parse : string -> exc Instruction) (rs : EncodingRanges)
    (d : Disassembler) (values : list Z) (modifiers todo seen : list EncodingRange)
    (acc res : list (list (Z * string))) :
  modifiers = seen ++ todo ->
  Forall2 (fun table r =>
             sublist (map fst table) (Zrange 0 (2 ^ Z.of_nat (ER.length r)))) acc seen ->
  foldM (fun (analysis_result : list (list (Z * string))) (im : nat * EncodingRange) =>
           mod_result <- enumerate_mod parse rs d values (snd im) (fst im);;
           match mod_result with
           | None => Ret (analysis_result ++ [[]])
           | Some mod_result =>
               if existsb (fun vn => is_invalid (snd vn)) mod_result then
                 dep <- enumerate_dependent_mod parse rs d modifiers (fst im);;
                 Ret (analysis_result ++ [dep])
               else Ret (analysis_result ++ [mod_result])
           end)
        (imap (fun i => pair (List.length seen + i)%nat) todo) acc = Ret res ->
  Forall2 (fun table r =>
             sublist (map fst table) (Zrange 0 (2 ^ Z.of_nat (ER.length r)))) res modifiers.
Proof.
  revert seen acc. induction todo as [|r todo IH]; intros seen acc Hmods Hacc;
    cbn [imap foldM].
  - intros [= <-]. now rewrite Hmods, app_nil_r.
  - intros H. apply bind_Ret_inv in H as (acc1 & Hstep & Hrest). cbn [fst snd] in Hstep.
    assert (Hacc1 : Forall2 (fun table r =>
                       sublist (map fst table) (Zrange 0 (2 ^ Z.of_nat (ER.length r))))
                      acc1 (seen ++ [r])).
    { apply bind_Ret_inv in Hstep as (mod_result & Hmod & Hstep).
      destruct mod_result as [mod_result|].
      - destruct (existsb _ mod_result).
        + apply bind_Ret_inv in Hstep as (dep & Hdep & Hstep). injection Hstep as <-.
          apply Forall2_app; [assumption|]. constructor; [|constructor].
          apply enumerate_dependent_mod_values in Hdep as (modifier & Hlook & Hsub).
          rewrite Hmods, Nat.add_0_r, lookup_app_r, Nat.sub_diag in Hlook by lia.
          cbn in Hlook. now injection Hlook as <-.
        + injection Hstep as <-. apply Forall2_app; [assumption|].
          constructor; [|constructor]. now apply enumerate_mod_values in Hmod.
      - injection Hstep as <-. apply Forall2_app; [assumption|].
        constructor; [|constructor]. cbn [map]. apply sublist_nil_l. }
    apply (IH (seen ++ [r]) acc1); [now rewrite <- app_assoc | assumption |].
    rewrite <- Hrest. f_equal. apply imap_ext. intros i x _. unfold compose.
    rewrite length_app. cbn [length]. f_equal. lia.
Qed.

(** [enumerate_modifiers] returns one table for every MODIFIER range, in
    the order of the ranges, and the values of a table are values of the
    field of its range: they come from [range(2 ** length)], in increasing
    order, each at most once. *)
Theorem enumerate_modifiers_tables (parse : string -> exc Instruction)
    (rs : EncodingRanges) (d : Disassembler) (initial_values : option (list Z))
    (tables : list (list (Z * string))) :
  enumerate_modifiers parse rs d initial_values = Ret tables ->
  List.length tables = modifier_count (ranges rs)
  /\ Forall2 (fun table r =>
                sublist (map fst table) (Zrange 0 (2 ^ Z.of_nat (ER.length r))))
             tables (_find MODIFIER (ranges rs)).
Proof.
  unfold enumerate_modifiers. intros H.
  apply bind_Ret_inv in H as (n & _ & H). apply bind_Ret_inv in H as (values & _ & H).
  assert (Hall : Forall2 (fun table r =>
                    sublist (map fst table) (Zrange 0 (2 ^ Z.of_nat (ER.length r))))
                   tables (_find MODIFIER (ranges rs))).
  { apply (enumerate_loop_tables parse rs d values _ (_find MODIFIER (ranges rs)) [] []
             tables eq_refl); [constructor | exact H]. }
  split; [|exact Hall].
  unfold modifier_count. rewrite _count_find. now apply Forall2_length in Hall.
Qed.

Lemma enumerate_modifiers_tables_witness :
  List.length gap_tables = modifier_count (ranges gap_ranges)
  /\ Forall2 (fun table r =>
                sublist (map fst table) (Zrange 0 (2 ^ Z.of_nat (ER.length r))))
             gap_tables (_find MODIFIER (ranges gap_ranges)).
Proof.
  apply (enumerate_modifiers_tables gap_parse gap_ranges (mock_disassembler gap_disasm)
           None gap_tables).
  vm_compute. reflexivity.
Defined.

(** ** The operand flag pass *)

Lemma operand_flags_deleted_refl (m : InstructionMutationSet) : operand_flags_deleted m m.
Proof. unfold operand_flags_deleted. destruct m. cbn. auto. Qed.

Lemma operand_flags_deleted_trans (m1 m2 m3 : InstructionMutationSet) :
  operand_flags_deleted m1 m2 -> operand_flags_deleted m2 m3 ->
  operand_flags_deleted m1 m3.
Proof.
  intros (H12 & Hsub12 & Hle12) (H23 & Hsub23 & Hle23). unfold operand_flags_deleted.
  split; [|split; [auto | lia]].
  rewrite H23 at 1. rewrite H12 at 1. reflexivity.
Qed.

(** A probe leaves the state as it is, or deletes at least the flag name
    of its bit and reports a change. *)
Lemma disambiguate_operand_flag_step (parse : string -> exc Instruction)
    (m m' : InstructionMutationSet) (c c' : bool) (probe : word * Z * Z) :
  disambiguate_operand_flag parse (m, c) probe = Ret (m', c') ->
  operand_flags_deleted m m'
  /\ ((m', c') = (m, c)
      \/ (c' = true
          /\ (List.length (MS.operand_modifier_bit_flag m')
              < List.length (MS.operand_modifier_bit_flag m))%nat)).
Proof.
  unfold disambiguate_operand_flag. destruct probe as [[inst_ bit] adj].
  assert (Hsame : forall r : InstructionMutationSet * bool, Ret (m, c) = Ret r ->
            r = (m', c') ->
            operand_flags_deleted m m'
            /\ ((m', c') = (m, c)
                \/ (c' = true
                    /\ (List.length (MS.operand_modifier_bit_flag m')
                        < List.length (MS.operand_modifier_bit_flag m))%nat))).
  { intros r [= <-] [= <- <-]. split; [apply operand_flags_deleted_refl | now left]. }
  destruct (odict_get _ bit) as [name|] eqn:Hname;
    [|intros H; now apply (Hsame _ H)].
  destruct (String.eqb _ EmptyString); [intros H; now apply (Hsame _ H)|].
  destruct (parse _) as [parsed|]; [|intros H; now apply (Hsame _ H)].
  destruct (negb (String.eqb _ _)); [intros H; now apply (Hsame _ H)|].
  intros H. apply bind_Ret_inv in H as (oi & _ & H).
  apply bind_Ret_inv in H as (oper & _ & H).
  destruct (negb (token_in _ _)); [|now apply (Hsame _ H)].
  injection H as <- <-.
  pose proof (proj1 (odict_del_length
                       (odict_del bit (MS.operand_modifier_bit_flag m)) adj)) as Hle.
  pose proof (proj2 (odict_del_length (MS.operand_modifier_bit_flag m) bit)) as Hlt.
  unfold odict_mem in Hlt. rewrite Hname in Hlt. specialize (Hlt eq_refl).
  unfold operand_flags_deleted. cbn [MS.operand_modifier_bit_flag
                                     MS.set_operand_modifier_bit_flag].
  split; [|right; split; [reflexivity | lia]].
  split; [reflexivity|]. split; [|lia].
  intros b nm. rewrite !odict_get_del.
  destruct (adj =? b); [discriminate|]. destruct (bit =? b); [discriminate | auto].
Qed.

Lemma disambiguate_operand_flags_loop (parse : string -> exc Instruction)
    (probes : list (word * Z * Z)) (m m' : InstructionMutationSet) (c c' : bool) :
  foldM (disambiguate_operand_flag parse) probes (m, c) = Ret (m', c') ->
  operand_flags_deleted m m'
  /\ ((m', c') = (m, c)
      \/ (c' = true
          /\ (List.length (MS.operand_modifier_bit_flag m')
              < List.length (MS.operand_modifier_bit_flag m))%nat)).
Proof.
  revert m c. induction probes as [|p probes IH]; intros m c; cbn [foldM].
  - intros [= <- <-]. split; [apply operand_flags_deleted_refl | now left].
  - intros H. apply bind_Ret_inv in H as ([m1 c1] & Hstep & Hrest).
    apply disambiguate_operand_flag_step in Hstep as [Hd1 Hc1].
    apply IH in Hrest as [Hd2 Hc2].
    split; [now apply (operand_flags_deleted_trans m m1 m')|].
    destruct Hd2 as (_ & _ & Hle2).
    destruct Hc1 as [[= -> ->]|[-> Hlt1]]; [exact Hc2|]. right.
    destruct Hc2 as [[= -> ->]|[-> Hlt2]]; (split; [reflexivity | lia]).
Qed.

(** [analysis_disambiguate_operand_flags] only deletes operand flag names:
    every other field of the set stays as it is and every name left was
    there before; it reports a change exactly when it deleted a name. *)
Theorem analysis_disambiguate_operand_flags_deletes
    (parse : string -> exc Instruction) (d : Disassembler)
    (m m' : InstructionMutationSet) (changed : bool) :
  analysis_disambiguate_operand_flags parse d m = Ret (changed, m') ->
  m' = MS.set_operand_modifier_bit_flag (MS.operand_modifier_bit_flag m') m
  /\ (forall bit name, odict_get (MS.operand_modifier_bit_flag m') bit = Some name ->
        odict_get (MS.operand_modifier_bit_flag m) bit = Some name)
  /\ (changed = true ->
      (List.length (MS.operand_modifier_bit_flag m')
       < List.length (MS.operand_modifier_bit_flag m))%nat)
  /\ (changed = false -> m' = m).
Proof.
  unfold analysis_disambiguate_operand_flags. intros H.
  apply bind_Ret_inv in H as (probes & _ & H).
  destruct probes as [|p probes].
  - injection H as <- <-. destruct (operand_flags_deleted_refl m) as (H1 & H2 & _).
    split; [exact H1|]. split; [exact H2|]. split; [discriminate | reflexivity].
  - apply bind_Ret_inv in H as ([m1 c1] & Hloop & H). cbn [fst snd] in H.
    injection H as <- <-.
    apply disambiguate_operand_flags_loop in Hloop as [(H1 & H2 & _) Hc].
    split; [exact H1|]. split; [exact H2|].
    destruct Hc as [[= -> ->]|[-> Hlt]].
    + split; [discriminate | reflexivity].
    + split; [intros _; exact Hlt | discriminate].
Qed.

Lemma analysis_disambiguate_operand_flags_deletes_witness :
  neg_settled
  = MS.set_operand_modifier_bit_flag (MS.operand_modifier_bit_flag neg_settled) neg_mset
  /\ (forall bit name,
        odict_get (MS.operand_modifier_bit_flag neg_settled) bit = Some name ->
        odict_get (MS.operand_modifier_bit_flag neg_mset) bit = Some name)
  /\ (true = true ->
      (List.length (MS.operand_modifier_bit_flag neg_settled)
       < List.length (MS.operand_modifier_bit_flag neg_mset))%nat)
  /\ (true = false -> neg_settled = neg_mset).
Proof.
  apply (analysis_disambiguate_operand_flags_deletes neg_parse
           (mock_disassembler neg_disasm) neg_mset neg_settled true).
  vm_compute. reflexivity.
Defined.

(** ** Modifier coalescing *)
















